(* ===== verification/_CoqProject ===== *)
-Q . S2P
Prelude.v
GoBytes.v
Errors.v
GoIO.v
Sha256.v
Constants.v
Btcec.v
Crypto.v
Packet.v
Codec.v
Path.v
SharedSecrets.v
Onion.v
Layers.v
Peel.v
Sphinx.v
ReplaySet.v
Batch.v
ReplayLog.v
Router.v
Wire.v
Txn.v
AtMostOnce.v
Obfuscation.v
Circuit.v
Cmd.v
Instances.v
Witnesses.v
