(* ===== verification/Prelude.v ===== *)
(** * A verification development for lightning-onion

    The repository is the Go package [sphinx]: the onion packets of the
    Lightning Network.  A sender wraps forwarding instructions for up to 20
    nodes in a packet of constant size; every node removes one layer, learns
    its own instructions and passes the rest on; a node that fails the payment
    sends an error back which the sender can attribute to it; a replay log
    keeps nodes from processing a packet twice.

    ** The parts of the program and the files that model them

    - Go itself: [Prelude] has the outcome of a call (a value, an [error] or a
      run-time panic) and the shared list lemmas and tactics; [GoBytes] has
      bytes, XOR, [copy], big-endian integers and [big.Int.Bytes]; [GoIO] has
      [io.Reader] (a script of the chunks that successive [Read] calls
      deliver, and an error with or after the last), [io.ReadFull], [binary.Read], [io.Writer] and
      the two monads in which decoders and encoders are written; [Errors] has
      the package's errors (error.go and the others); [Sha256] has SHA-256,
      HMAC and [hmac.Equal], checked against test vectors; [Constants] has
      the sizes.
    - Libraries outside the repository: [Btcec] has the classes [Btcec]
      (secp256k1) and [Chacha20] with the laws the package relies on
      ([BtcecLaws], [Chacha20Laws]); [Router] has [Btcutil].  [Instances]
      shows that the laws can hold, with the real ChaCha20 and with the curve
      equation over the field of 43 elements; and that a log other than the
      memory log, one that persists and may fail, meets the contract of logs.
    - crypto.go: [Crypto] ([calcMac], [xor], [generateKey],
      [generateCipherStream], the group operations, [onionEncrypt]) and
      [Obfuscation] ([EncryptError], [DecryptError]).
    - path.go: [Path] ([IsEmpty], [TrueRouteLength], [NodeKeys]).
    - sphinx.go: [Packet] (the structs, their [Encode] and [Decode],
      [ProcessCode]), [Codec] (theorems on these), [SharedSecrets]
      ([generateSharedSecrets]), [Onion] ([rightShift],
      [generateHeaderPadding], [NewOnionPacket], [unwrapPacket],
      [processOnionPacket]), [Layers], [Peel] and [Sphinx] (theorems on
      these), [Router] (routers and transactions), [Wire], [Txn] and
      [AtMostOnce] (theorems on these).
    - replay_set.go: [ReplaySet]; batch.go: [Batch]; replaylog.go:
      [ReplayLog], with the interface as the class [ReplayLog], an abstract
      log, the documented contract as the class [ReplayLogLaws] (every call
      gives the abstract result or, on a running log, fails with an error of
      the implementation's own and changes nothing; what [Start] does to the
      contents is left open), logs that do not fail as the class
      [ReliableLog], and the module [MemoryReplayLog].
    - obfuscation.go: [Obfuscation] (encrypter, circuit, decrypter) and
      [Circuit] (theorems on storing them).
    - cmd/main.go: [Cmd].
    - [Witnesses] applies every theorem that has hypotheses to concrete
      inputs.

    Definitions keep the names of the source; a method carries its type
    where the name alone would be ambiguous ([HopData_Decode],
    [Router_ProcessOnionPacket], [Tx_ProcessOnionPacket]).  A loop is a
    [Fixpoint] named after it ([onion_loop], [decrypt_loop]) whose first
    argument is the number of passes left; slices are lists, an index out of
    range is [Panic]; methods that change their receiver return the new one.
    Go's iteration order over maps is an argument where it could matter.

    ** What the theorems show

    - Packets: what [NewOnionPacket] builds is accepted by every node of the
      route, each of which recovers exactly its own instructions
      (C1 [sphinx_route_correct]); the sender's and the nodes' secrets agree
      (C6 [shared_secrets_agree]); the shape of the packet and what happens
      to the path (C11 [NewOnionPacket_shape]); the in-place helpers compute
      what they should, with their bounds (C27 [rightShift_total],
      C28 [xor_total]); a path without hops panics
      (C35 [NewOnionPacket_empty_path]); routes (C33 [NodeKeys_route]).
      The proof of C1 goes through a reference description of the layers
      ([Layers]: [fill], [layer], [build]) which the loops are shown to
      compute, and the lemma [header_tail] of [Peel], by which the filler is
      what the last hop finds at the end of its header.
    - The wire: round trips on every reader and the exact error of every bad
      input (C12 [OnionPacket_Decode_total], C13 [OnionPacket_roundtrip],
      C15 [HopData_codec], C29 [HopData_Decode_length]), writers that fail
      (C30 [OnionPacket_Encode_limited]); for any packet, honestly built or
      not, nodes that exchange bytes see what nodes see that exchange packets
      (C38 [relay_wire_equivalent]).
    - Routers: every packet is classified, a panic being left only for a nil
      key (C5 [process_total]); replays are refused, against any log that keeps the
      contract (C7 [replay_rejected]); reconstruction (C20
      [reconstruct_agrees]); no packet is accepted twice under any
      interleaving of calls and transactions, with a log that may fail (C2
      [at_most_once], by rule induction on a step relation); on a log that
      does not fail a transaction is equivalent to processing its packets one
      by one (C3 [transaction_equivalent]); its result is idempotent (C16
      [Commit_idempotent]); when it panics (C31 [Tx_bounds]); what
      does not hold: protection across [Start] (C26
      [restart_accepts_again]), the node address (C37
      [NewRouter_no_address]).
    - Logs, batches and sets: [MemoryReplayLog] refines the abstract log (C8
      [MemoryReplayLog_refines]), whatever the iteration order (C17
      [PutBatch_order_independent]); C18 [Batch_Puts_spec], C19
      [PutBatch_idempotent], C32 [log_entry_lifecycle]; the encoding of sets
      (C24 [ReplaySet_roundtrip], C25 [ReplaySet_Decode_total]).
    - Errors: the sender learns the failing hop and its message (C4
      [error_round_trip]); [DecryptError] on every blob (C9
      [DecryptError_complete]) and the blob with which an exit node makes it
      panic (C10 [DecryptError_exit_node_panic]); storage of circuits and
      encrypters (C21 [Circuit_roundtrip], C34 [OnionErrorEncrypter_codec])
      and its failure on short reads (C22 [Circuit_Decode_short_read]).
    - The command line: [generate] makes packets that its nodes accept (C14
      [generate_relayed]) and panics on bad numbers of keys (C36
      [generate_bounds]); [decode] never succeeds (C23
      [decode_never_succeeds]).

    ** Hypotheses, fuel and bounds

    Cryptographic strength is not modelled.  Where a result depends on a hash
    not hitting one particular value, the theorem says so: [blinding_ok] (no
    blinding factor is zero modulo the group order) and [no_collision] (the
    error blob that a hop forwards does not carry that hop's own MAC).  Both
    are decidable and are evaluated in [Witnesses].  Two loops have fuel:
    [readLoop] of [GoIO] uses up a chunk in every pass and has one more than
    there are chunks ([readLoop_spec] shows that it is enough), and
    [ReplaySet_Decode_loop] reads two bytes in every pass and has one more
    than there are bytes (C25 shows that it always returns).  All other
    loops recurse on the number of passes the Go loop makes.

    ** What is not modelled

    hornet.go (type declarations for a protocol that is not implemented),
    log.go (logging hooks) and the tests.  Calls are atomic: the package has
    no locks, and [ReplayLog] asks its implementations for them.  Pointers to
    keys are options where the code stores them in structs and slices that
    may hold nil; the structs the methods are called on are not nil.  A
    [ReplaySet] is a value: after [PutBatch] the batch and the log share one,
    which no method of the package changes any more.  A replay log changes in
    calls only: what a garbage collector removes from it counts as [Delete]. *)

From stdpp Require Export prelude gmap strings list numbers.
From Stdlib Require Export Strings.Byte NArith.

#[global] Set Default Goal Selector "!".

(** ** Outcomes of Go calls

    A Go function of this package either returns normally, returns a non-nil
    [error], or panics at run time (index out of range, nil dereference, an
    explicit [panic]).  [Outcome E A] keeps the three apart. *)

Inductive Outcome (E A : Type) : Type :=
  | Ok (a : A)
  | Err (e : E)
  | Panic.
Arguments Ok {E A} a.
Arguments Err {E A} e.
Arguments Panic {E A}.

#[export] Instance Outcome_ret {E} : MRet (Outcome E) := λ A a, Ok a.
#[export] Instance Outcome_bind {E} : MBind (Outcome E) := λ A B f m,
  match m with
  | Ok a => f a
  | Err e => Err e
  | Panic => Panic
  end.
#[export] Instance Outcome_fmap {E} : FMap (Outcome E) := λ A B f m,
  match m with
  | Ok a => Ok (f a)
  | Err e => Err e
  | Panic => Panic
  end.

#[export] Instance Outcome_eq_dec {E A} `{EqDecision E, EqDecision A} :
  EqDecision (Outcome E A).
Proof. solve_decision. Defined.

(** Dereferencing a pointer: [nil] panics. *)
Definition deref {E A} (p : option A) : Outcome E A :=
  match p with Some a => Ok a | None => Panic end.

(** Indexing a slice or array: an index out of range panics. *)
Definition index {E A} (l : list A) (i : nat) : Outcome E A :=
  match l !! i with Some a => Ok a | None => Panic end.

Lemma index_Some {E A} (l : list A) i x :
  l !! i = Some x → index (E:=E) l i = Ok x.
Proof. unfold index. by intros ->. Qed.

Lemma bind_Ok_inv {E A B} (m : Outcome E A) (f : A → Outcome E B) b :
  m ≫= f = Ok b → ∃ a, m = Ok a ∧ f a = Ok b.
Proof. destruct m; naive_solver. Qed.

(** Splits every [m ≫= f = Ok _] hypothesis into its successful parts. *)
Ltac outcome_inv :=
  repeat match goal with
  | H : mbind _ _ = Ok _ |- _ =>
      let a := fresh "v" in let H1 := fresh "Hv" in
      apply bind_Ok_inv in H as (a & H1 & H)
  | H : mret _ = Ok _ |- _ => unfold mret, Outcome_ret in H; simplify_eq
  | H : Ok _ = Ok _ |- _ => simplify_eq
  end.

(** ** Lists *)

Create HintDb onion.

Lemma drop_app_ge' {A} (l k : list A) n :
  n = length l → drop n (l ++ k) = k.
Proof. intros ->. by rewrite drop_app_length. Qed.

Lemma take_app_ge' {A} (l k : list A) n :
  n = length l → take n (l ++ k) = l.
Proof. intros ->. by rewrite take_app_length. Qed.

Lemma take_drop_step {A} (l : list A) a b c :
  c = a + b → take b (drop a l) ++ drop c l = drop a l.
Proof. intros ->. by rewrite <-drop_drop, take_drop. Qed.

Lemma lookup_Some_length {A} (l : list A) i :
  i < length l → ∃ x, l !! i = Some x.
Proof. intros Hi. by apply lookup_lt_is_Some_2 in Hi as [x ?]; exists x. Qed.

Lemma NoDup_snoc {A} (l : list A) x : NoDup l → x ∉ l → NoDup (l ++ [x]).
Proof.
  intros. apply list.NoDup_app. split_and!; [done| |apply NoDup_singleton].
  intros y Hy ->%list_elem_of_singleton. done.
Qed.

(** Solves length goals about the list operations the model uses; each
    component adds its own length lemmas to [onion_len]. *)
Create Rewrite HintDb onion_len.
#[export] Hint Rewrite @length_app @length_take @length_drop @length_replicate
  @length_zip_with @length_insert @length_fmap @length_cons @length_nil
  : onion_len.

Ltac len_simp := autorewrite with onion_len.
Ltac len := intros; len_simp; simpl in *; try lia.
