(* ===== verification/GoBytes.v ===== *)
(** * Bytes, byte strings and integers as Go has them

    [byte] is the Standard Library's type of the 256 byte values; a slice or
    array of bytes is a [list byte] (an array's length is part of the
    well-formedness predicates of the records that hold it).  Unsigned
    integers are [N], kept below their width by the same predicates; the
    encodings of [encoding/binary] and the byte conversions of [math/big]
    are written out here. *)

From S2P Require Import Prelude.

(** ** A single byte *)

#[export] Instance byte_eq_dec : EqDecision byte := Byte.byte_eq_dec.

#[export] Instance byte_countable : Countable byte :=
  inj_countable Byte.to_N Byte.of_N Byte.of_to_N.

(** Go's [a ^ b] on bytes. *)
Definition byte_xor (a b : byte) : byte :=
  let '(a0, (a1, (a2, (a3, (a4, (a5, (a6, a7))))))) := Byte.to_bits a in
  let '(b0, (b1, (b2, (b3, (b4, (b5, (b6, b7))))))) := Byte.to_bits b in
  Byte.of_bits (xorb a0 b0, (xorb a1 b1, (xorb a2 b2, (xorb a3 b3,
    (xorb a4 b4, (xorb a5 b5, (xorb a6 b6, xorb a7 b7))))))).

Declare Scope byte_string_scope.
Delimit Scope byte_string_scope with bs.
Infix "⊕" := byte_xor (at level 50, left associativity) : byte_string_scope.
Local Open Scope byte_string_scope.

Lemma byte_bits_inj (a b : byte) : Byte.to_bits a = Byte.to_bits b → a = b.
Proof. intros H. by rewrite <-(Byte.of_bits_to_bits a), H, Byte.of_bits_to_bits. Qed.

Ltac byte_bits :=
  apply byte_bits_inj; unfold byte_xor;
  repeat match goal with
  | |- context [Byte.to_bits ?x] =>
      is_var x; destruct (Byte.to_bits x) as (?&?&?&?&?&?&?&?)
  end;
  rewrite ?Byte.to_bits_of_bits; cbv beta iota;
  rewrite ?Byte.to_bits_of_bits; repeat apply (f_equal2 pair).

Lemma byte_xor_comm a b : a ⊕ b = b ⊕ a.
Proof. byte_bits; apply xorb_comm. Qed.

Lemma byte_xor_assoc a b c : a ⊕ b ⊕ c = a ⊕ (b ⊕ c).
Proof. byte_bits; apply xorb_assoc. Qed.

Lemma byte_xor_nilpotent a : a ⊕ a = x00.
Proof. by destruct a. Qed.

Lemma byte_xor_0_r a : a ⊕ x00 = a.
Proof. by destruct a. Qed.

Lemma byte_xor_0_l a : x00 ⊕ a = a.
Proof. by destruct a. Qed.

Lemma byte_xor_cancel a b : a ⊕ b ⊕ b = a.
Proof. by rewrite byte_xor_assoc, byte_xor_nilpotent, byte_xor_0_r. Qed.

(** [byte(n)]: the conversion keeps the low eight bits. *)
Definition byte_of_N (n : N) : byte :=
  default x00 (Byte.of_N (n mod 256)).

Lemma to_N_byte_of_N n : Byte.to_N (byte_of_N n) = (n mod 256)%N.
Proof.
  unfold byte_of_N. destruct (Byte.of_N (n mod 256)) as [b|] eqn:E; simpl.
  - by apply Byte.to_of_N.
  - apply Byte.of_N_None_iff in E. pose proof (N.mod_lt n 256). lia.
Qed.

Lemma to_N_lt b : (Byte.to_N b < 256)%N.
Proof. pose proof (Byte.to_N_bounded b). lia. Qed.

Lemma byte_of_to_N b : byte_of_N (Byte.to_N b) = b.
Proof.
  unfold byte_of_N. rewrite N.mod_small by apply to_N_lt.
  by rewrite Byte.of_to_N.
Qed.

(** ** Byte strings *)

(** [make([]byte, n)], a zeroed array, [bytes.Repeat([]byte{0}, n)]. *)
Definition zeros (n : nat) : list byte := replicate n x00.

Lemma length_zeros n : length (zeros n) = n.
Proof. apply length_replicate. Qed.

(** The bytes of [a ^ b], up to the shorter of the two. *)
Definition xor_bytes (a b : list byte) : list byte := zip_with byte_xor a b.

Lemma length_xor_bytes a b :
  length (xor_bytes a b) = length a `min` length b.
Proof. apply length_zip_with. Qed.

Lemma xor_bytes_comm a b : xor_bytes a b = xor_bytes b a.
Proof.
  unfold xor_bytes. revert b; induction a as [|x a IH]; intros [|y b]; simpl; auto.
  by rewrite byte_xor_comm, IH.
Qed.

Lemma xor_bytes_cancel a b :
  length a ≤ length b → xor_bytes (xor_bytes a b) b = a.
Proof.
  revert b; induction a as [|x a IH]; intros [|y b] Hl; simpl in *; auto with lia.
  rewrite byte_xor_cancel. f_equal. apply IH. lia.
Qed.

Lemma xor_bytes_zeros_l n b :
  length b ≤ n → xor_bytes (zeros n) b = b.
Proof.
  revert n; induction b as [|y b IH]; intros [|n] Hl; simpl in *; auto with lia.
  rewrite byte_xor_0_l. f_equal. apply IH. lia.
Qed.

Lemma xor_bytes_app a1 a2 b1 b2 :
  length a1 = length b1 →
  xor_bytes (a1 ++ a2) (b1 ++ b2) = xor_bytes a1 b1 ++ xor_bytes a2 b2.
Proof. intros. by apply zip_with_app. Qed.

Lemma take_xor_bytes n a b :
  take n (xor_bytes a b) = xor_bytes (take n a) (take n b).
Proof. apply zip_with_take. Qed.

Lemma drop_xor_bytes n a b :
  drop n (xor_bytes a b) = xor_bytes (drop n a) (drop n b).
Proof. apply zip_with_drop. Qed.

(** Go's [copy(dst, src)]: overwrites the first [min(len dst, len src)]
    bytes of [dst]. *)
Definition go_copy (dst src : list byte) : list byte :=
  take (length dst) src ++ drop (length src) dst.

Lemma length_go_copy dst src : length (go_copy dst src) = length dst.
Proof. unfold go_copy. len. Qed.

Lemma go_copy_full dst src :
  length src = length dst → go_copy dst src = src.
Proof.
  intros Hl. unfold go_copy. rewrite <-Hl, take_ge by lia.
  rewrite drop_ge by lia. apply app_nil_r.
Qed.

(** [copy(dst[len(dst)-len(src):], src)] for [len(src) <= len(dst)]. *)
Definition go_copy_at (dst : list byte) (off : nat) (src : list byte) : list byte :=
  take off dst ++ go_copy (drop off dst) src.

Lemma length_go_copy_at dst off src :
  length (go_copy_at dst off src) = length dst.
Proof. unfold go_copy_at. len_simp. rewrite length_go_copy. len. Qed.

(** ** Big-endian integers ([binary.BigEndian], [big.Int]) *)

(** The number a big-endian byte string denotes ([big.Int.SetBytes]). *)
Definition be_value (l : list byte) : N :=
  foldl (λ acc b, acc * 256 + Byte.to_N b)%N 0%N l.

(** The [n] low bytes of [v], most significant first
    ([binary.BigEndian.PutUint16/32/64]). *)
Fixpoint be_bytes (n : nat) (v : N) : list byte :=
  match n with
  | 0 => []
  | S n => be_bytes n (v / 256) ++ [byte_of_N v]
  end.

Lemma be_bytes_S n v : be_bytes (S n) v = be_bytes n (v / 256) ++ [byte_of_N v].
Proof. reflexivity. Qed.

Lemma be_value_snoc l b : be_value (l ++ [b]) = (be_value l * 256 + Byte.to_N b)%N.
Proof. unfold be_value. by rewrite foldl_snoc. Qed.

Lemma length_be_bytes n v : length (be_bytes n v) = n.
Proof. revert v; induction n as [|n IH]; intros v; simpl; len. rewrite IH. lia. Qed.

Lemma be_value_bytes n v : be_value (be_bytes n v) = (v mod 256 ^ N.of_nat n)%N.
Proof.
  revert v; induction n as [|n IH]; intros v.
  - simpl. by rewrite N.mod_1_r.
  - simpl be_bytes. rewrite be_value_snoc, IH, to_N_byte_of_N.
    rewrite Nat2N.inj_succ, N.pow_succ_r', (N.mul_comm _ 256 : _ = _).
    rewrite N.Div0.mod_mul_r. lia.
Qed.

Lemma be_value_bytes_small n v :
  (v < 256 ^ N.of_nat n)%N → be_value (be_bytes n v) = v.
Proof. intros. by rewrite be_value_bytes, N.mod_small. Qed.

Lemma be_bytes_value l : be_bytes (length l) (be_value l) = l.
Proof.
  induction l as [|b l IH] using rev_ind; [done|].
  rewrite length_app, Nat.add_1_r. simpl. rewrite be_value_snoc.
  rewrite N.div_add_l by lia. rewrite (N.div_small (Byte.to_N b)) by apply to_N_lt.
  rewrite N.add_0_r, IH. f_equal. f_equal.
  rewrite <-(byte_of_to_N b) at 2. unfold byte_of_N.
  by rewrite N.add_comm, N.Div0.mod_add.
Qed.

Lemma be_value_lt l : (be_value l < 256 ^ N.of_nat (length l))%N.
Proof.
  rewrite <-(be_bytes_value l) at 1. rewrite be_value_bytes.
  apply N.mod_lt. apply N.pow_nonzero. lia.
Qed.

(** [big.Int.Bytes]: the big-endian bytes of the absolute value, without
    leading zeros.  The integers this package feeds it are non-negative. *)
Definition big_bytes (v : N) : list byte :=
  be_bytes (N.to_nat ((N.size v + 7) / 8)) v.

Lemma be_value_big_bytes v : be_value (big_bytes v) = v.
Proof.
  unfold big_bytes. apply be_value_bytes_small. rewrite N2Nat.id.
  change 256%N with (2 ^ 8)%N. rewrite <-N.pow_mul_r.
  eapply N.lt_le_trans; [apply N.size_gt|].
  apply N.pow_le_mono_r; [lia|].
  pose proof (N.div_mod' (N.size v + 7) 8).
  pose proof (N.mod_lt (N.size v + 7) 8). lia.
Qed.

#[export] Hint Rewrite length_zeros length_xor_bytes length_go_copy
  length_go_copy_at length_be_bytes : onion_len.

#[global] Opaque be_bytes be_value big_bytes.
#[global] Arguments zeros : simpl never.
#[global] Arguments go_copy : simpl never.
