(* ===== verification/Errors.v ===== *)
(** * The errors of the package

    Every [error] value the package returns is a named variable (error.go,
    batch.go, replaylog.go), an error of the [io] package that it passes on,
    an error built at the return ([DecryptError]) or an error that comes
    from code outside the repository. *)

From S2P Require Import Prelude.

Inductive error :=
  (* error.go *)
  | ErrReplayedPacket
  | ErrInvalidOnionVersion
  | ErrInvalidOnionHMAC
  | ErrInvalidOnionKey
  | ErrLogEntryNotFound
  (* batch.go *)
  | ErrAlreadyCommitted
  (* replaylog.go *)
  | errReplayLogAlreadyStarted
  | errReplayLogNotStarted
  (* crypto.go, DecryptError: the two errors made in place *)
  | errInvalidErrorLength (expected got : nat)
  | errUnableToRetrieve
  (* io.EOF, io.ErrUnexpectedEOF *)
  | EOF
  | ErrUnexpectedEOF
  (* the error of a key parser, a reader or a writer that is not ours *)
  | ErrForeign (code : nat).

#[export] Instance error_eq_dec : EqDecision error.
Proof. solve_decision. Defined.
