(* ===== verification/GoIO.v ===== *)
(** * [io.Reader], [io.Writer] and the calls made on them

    The package reads through [io.ReadFull], [binary.Read] and, in
    [Circuit.Decode], bare [r.Read] calls; it writes through [w.Write] and
    [binary.Write].  A reader is a script of the chunks its successive [Read]
    calls deliver, followed by its final error, which comes with the last chunk
    or after it: this covers readers that return fewer bytes than asked for
    and readers that return bytes together with an error, both of which
    [Read]'s contract allows and on which [ReadFull] and a bare [Read] differ.
    A writer is any type with a [Write]. *)

From S2P Require Import Prelude GoBytes Errors.

(** ** Readers *)

Record Reader := mkReader {
  rd_chunks : list (list byte);
  rd_err : error;
  rd_with_last : bool  (* the error comes in the call that ends the last chunk *)
}.

(** All the bytes the reader has left. *)
Definition rd_content (r : Reader) : list byte := concat (rd_chunks r).

(** [bytes.NewReader(l)], [bytes.NewBuffer(l)]: one chunk, then [io.EOF]. *)
Definition bytes_reader (l : list byte) : Reader :=
  mkReader (match l with [] => [] | _ => [l] end) EOF false.

(** [r.Read(p)] with [len(p) = n]: the bytes put at the front of [p], and
    the error. *)
Definition Read (n : nat) (r : Reader) : Reader * list byte * option error :=
  match rd_chunks r with
  | [] => (r, [], if decide (n = 0) then None else Some (rd_err r))
  | c :: cs =>
      let cs' := if decide (length c <= n) then cs else drop n c :: cs in
      (mkReader cs' (rd_err r) (rd_with_last r), take n c,
       match cs' with
       | [] => if rd_with_last r then Some (rd_err r) else None
       | _ => None
       end)
  end.

(** The loop of [io.ReadAtLeast]: read until [n] bytes are there or [Read]
    fails.  Every pass that goes on uses up a chunk. *)
Fixpoint readLoop (fuel n : nat) (r : Reader) : Reader * list byte * option error :=
  match n, fuel with
  | 0, _ => (r, [], None)
  | S _, 0 => (r, [], Some (rd_err r))
  | S _, S fuel =>
      let '(r1, got, e) := Read n r in
      match e with
      | Some e => (r1, got, Some e)
      | None =>
          let '(r2, more, e2) := readLoop fuel (n - length got) r1 in
          (r2, got ++ more, e2)
      end
  end.

(** [io.ReadFull(r, buf)] with [len(buf) = n]: the bytes read and the error,
    [io.EOF] only when nothing was read. *)
Definition ReadFull (n : nat) (r : Reader) : Reader * list byte * option error :=
  let '(r1, got, e) := readLoop (S (length (rd_chunks r))) n r in
  if decide (n <= length got) then (r1, got, None)
  else (r1, got,
        if decide (0 < length got ∧ e = Some EOF) then Some ErrUnexpectedEOF else e).

(** ** Decoding: a reader and the struct being filled in *)

Definition DecM (T A : Type) : Type := Reader → T → Reader * T * Outcome error A.

#[export] Instance DecM_ret {T} : MRet (DecM T) := λ A a r t, (r, t, Ok a).
#[export] Instance DecM_bind {T} : MBind (DecM T) := λ A B f m r t,
  match m r t with
  | (r', t', Ok a) => f a r' t'
  | (r', t', Err e) => (r', t', Err e)
  | (r', t', Panic) => (r', t', Panic)
  end.

Definition throw {T A} (e : error) : DecM T A := λ r t, (r, t, Err e).

(** An assignment to the struct. *)
Definition modify {T} (f : T → T) : DecM T unit := λ r t, (r, f t, Ok tt).

(** [io.ReadFull(r, buf[:])] for a local array of [n] bytes. *)
Definition readLocal {T} (n : nat) : DecM T (list byte) := λ r t,
  let '(r', got, e) := ReadFull n r in
  match e with
  | None => (r', t, Ok got)
  | Some e => (r', t, Err e)
  end.

(** [io.ReadFull(r, x.field[:])] for an array field of [n] bytes: what was
    read overwrites the front of the field, also when the call fails. *)
Definition readField {T} (n : nat) (get : T → list byte) (set : list byte → T → T)
    : DecM T unit := λ r t,
  let '(r', got, e) := ReadFull n r in
  let t' := set (got ++ drop (length got) (get t)) t in
  match e with
  | None => (r', t', Ok tt)
  | Some e => (r', t', Err e)
  end.

(** [binary.Read(r, binary.BigEndian, &x.field)] for an unsigned integer of
    [n] bytes: the field is set only when all bytes are there. *)
Definition binaryRead {T} (n : nat) (set : N → T → T) : DecM T unit := λ r t,
  let '(r', got, e) := ReadFull n r in
  match e with
  | None => (r', set (be_value got) t, Ok tt)
  | Some e => (r', t, Err e)
  end.

(** ** Writers *)

Class Writer (W : Type) := Write : list byte → W → W * option error.

(** [bytes.Buffer]: appends, and never fails. *)
#[export] Instance Buffer_writer : Writer (list byte) := λ p w, (w ++ p, None).

(** A writer with room for a given number of bytes: a write that does not
    fit stores what fits and fails. *)
Record LimitedWriter := mkLimited { lw_room : nat; lw_out : list byte; lw_fail : error }.
#[export] Instance Limited_writer : Writer LimitedWriter := λ p w,
  (mkLimited (lw_room w - length p) (lw_out w ++ take (lw_room w) p) (lw_fail w),
   if decide (length p <= lw_room w) then None else Some (lw_fail w)).

Definition EncM (W A : Type) : Type := W → W * Outcome error A.

#[export] Instance EncM_ret {W} : MRet (EncM W) := λ A a w, (w, Ok a).
#[export] Instance EncM_bind {W} : MBind (EncM W) := λ A B f m w,
  match m w with
  | (w', Ok a) => f a w'
  | (w', Err e) => (w', Err e)
  | (w', Panic) => (w', Panic)
  end.

Definition lift_enc {W A} (o : Outcome error A) : EncM W A := λ w, (w, o).

(** [if _, err := w.Write(p); err != nil { return err }] *)
Definition write `{Writer W} (p : list byte) : EncM W unit := λ w,
  let '(w', e) := Write p w in
  match e with
  | None => (w', Ok tt)
  | Some e => (w', Err e)
  end.

(** [binary.Write(w, binary.BigEndian, v)] for an unsigned integer of [n]
    bytes: one [Write] of its big-endian bytes. *)
Definition binaryWrite `{Writer W} (n : nat) (v : N) : EncM W unit :=
  write (be_bytes n v).

(** The writes of a serializer, in order, up to the first that fails. *)
Fixpoint write_all `{Writer W} (ps : list (list byte)) : EncM W unit :=
  match ps with
  | [] => mret ()
  | p :: ps => _ ← write p; write_all ps
  end.

(** ** What the loops compute *)

Lemma rd_content_bytes_reader l : rd_content (bytes_reader l) = l.
Proof. destruct l; simpl; [done|]. unfold rd_content; simpl. by rewrite app_nil_r. Qed.

Lemma readLoop_zero fuel r : readLoop fuel 0 r = (r, [], None).
Proof. by destruct fuel. Qed.

(** The loop stops with an error only at the end of the bytes; it may do so
    with the [n] bytes complete. *)
Lemma readLoop_spec fuel n r :
  length (rd_chunks r) < fuel →
  ∃ r' e, readLoop fuel n r = (r', take n (rd_content r), e) ∧
    (length (rd_content r) < n → e = Some (rd_err r)) ∧
    rd_content r' = drop n (rd_content r) ∧ rd_err r' = rd_err r.
Proof.
  revert n r; induction fuel as [|fuel IH]; intros n r Hf; [lia|].
  destruct n as [|n]; [exists r, None; rewrite take_0, drop_0; split_and!; (done || lia)|].
  cbn [readLoop]. destruct r as [cs e w]; unfold Read, rd_content; simpl in *.
  destruct cs as [|c cs]; simpl in *.
  { exists (mkReader [] e w), (Some e). done. }
  destruct (decide (length c <= S n)) as [Hc|Hc].
  - rewrite (take_ge c), length_app, take_app_ge, drop_app_ge by lia.
    destruct (decide (cs = [] ∧ w = true)) as [[-> ->]|Hw].
    { exists (mkReader [] e true), (Some e). simpl.
      by rewrite take_nil, drop_nil, app_nil_r. }
    replace (match cs with [] => if w then Some e else None | _ => None end) with (@None error)
      by (destruct cs, w; naive_solver).
    destruct (IH (S n - length c) (mkReader cs e w)) as (r' & e' & -> & He' & Hr' & He);
      [simpl; lia|].
    exists r', e'. unfold rd_content in *; simpl in *. split_and!; try done.
    intros Hlt. apply He'. lia.
  - rewrite length_take, Nat.min_l, Nat.sub_diag, readLoop_zero by lia.
    exists (mkReader (drop (S n) c :: cs) e w), None.
    cbn [concat rd_chunks]. rewrite app_nil_r, take_app_le, drop_app_le, length_app by lia.
    split_and!; (done || lia).
Qed.

(** [ReadFull] depends on the bytes the reader has left and on nothing else:
    how they are cut into chunks does not matter. *)
Lemma ReadFull_spec n r :
  ∃ r', ReadFull n r =
    (r', take n (rd_content r),
     if decide (n <= length (rd_content r)) then None
     else if decide (rd_content r ≠ [] ∧ rd_err r = EOF) then Some ErrUnexpectedEOF
     else Some (rd_err r)) ∧
    rd_content r' = drop n (rd_content r) ∧ rd_err r' = rd_err r.
Proof.
  unfold ReadFull.
  destruct (readLoop_spec (S (length (rd_chunks r))) n r) as (r' & e & -> & Hend & Hr & He); [lia|].
  exists r'. rewrite length_take.
  destruct (decide (n <= length (rd_content r))) as [Hn|Hn].
  - by rewrite decide_True by lia.
  - rewrite decide_False by lia. split; [|done]. f_equal. rewrite Hend by lia.
    apply decide_ext.
    assert (0 < n `min` length (rd_content r) ↔ rd_content r ≠ []) as ->.
    { destruct (rd_content r); simpl in *; split; try done; lia. }
    split; intros [? ?]; split; congruence.
Qed.

Lemma ReadFull_ok n r a l :
  rd_content r = a ++ l → length a = n →
  ∃ r', ReadFull n r = (r', a, None) ∧ rd_content r' = l ∧ rd_err r' = rd_err r.
Proof.
  intros Hc <-. destruct (ReadFull_spec (length a) r) as (r' & -> & Hr & He).
  exists r'. rewrite Hr, Hc, take_app_length, drop_app_length.
  rewrite decide_True by len. done.
Qed.

Lemma ReadFull_ok_inv n r r' got :
  ReadFull n r = (r', got, None) →
  length got = n ∧ rd_content r = got ++ rd_content r' ∧ rd_err r' = rd_err r.
Proof.
  destruct (ReadFull_spec n r) as (r'' & -> & Hr & He).
  repeat case_decide; intros; simplify_eq.
  rewrite Hr, length_take, take_drop. split_and!; [lia|done|done].
Qed.

(** A successful read of a field, as a step of a decoder. *)
Lemma readField_ok {T} n (get : T → list byte) set r t a l :
  rd_content r = a ++ l → length a = n → length (get t) = n →
  ∃ r', readField n get set r t = (r', set a t, Ok tt) ∧
    rd_content r' = l ∧ rd_err r' = rd_err r.
Proof.
  intros Hc Hl Hg. destruct (ReadFull_ok n r a l Hc Hl) as (r' & Hr & ? & ?).
  exists r'. unfold readField. rewrite Hr.
  by rewrite drop_ge, app_nil_r by lia.
Qed.

Lemma readField_ok_inv {T} n (get : T → list byte) set r t r' t' :
  length (get t) = n →
  readField n get set r t = (r', t', Ok tt) →
  ∃ a, length a = n ∧ rd_content r = a ++ rd_content r' ∧ t' = set a t ∧
    rd_err r' = rd_err r.
Proof.
  unfold readField. intros Hg. destruct (ReadFull n r) as [[r1 got] [e|]] eqn:E;
    intros; simplify_eq.
  apply ReadFull_ok_inv in E as (Hl & ? & ?).
  exists got. rewrite drop_ge, app_nil_r by lia. done.
Qed.

Lemma readLocal_ok {T} n r (t : T) a l :
  rd_content r = a ++ l → length a = n →
  ∃ r', readLocal n r t = (r', t, Ok a) ∧
    rd_content r' = l ∧ rd_err r' = rd_err r.
Proof.
  intros Hc Hl. destruct (ReadFull_ok n r a l Hc Hl) as (r' & Hr & ? & ?).
  exists r'. unfold readLocal. by rewrite Hr.
Qed.

Lemma readLocal_ok_inv {T} n r (t : T) r' t' a :
  readLocal n r t = (r', t', Ok a) →
  length a = n ∧ rd_content r = a ++ rd_content r' ∧ t' = t ∧ rd_err r' = rd_err r.
Proof.
  unfold readLocal. destruct (ReadFull n r) as [[r1 got] [e|]] eqn:E;
    intros; simplify_eq.
  apply ReadFull_ok_inv in E as (? & ? & ?). done.
Qed.

Lemma binaryRead_ok {T} n (set : N → T → T) r t v l :
  rd_content r = be_bytes n v ++ l → (v < 256 ^ N.of_nat n)%N →
  ∃ r', binaryRead n set r t = (r', set v t, Ok tt) ∧
    rd_content r' = l ∧ rd_err r' = rd_err r.
Proof.
  intros Hc Hv.
  destruct (ReadFull_ok n r _ l Hc (length_be_bytes n v)) as (r' & Hr & ? & ?).
  exists r'. unfold binaryRead. rewrite Hr. by rewrite be_value_bytes_small.
Qed.

Lemma binaryRead_ok_inv {T} n (set : N → T → T) r t r' t' :
  binaryRead n set r t = (r', t', Ok tt) →
  ∃ a, length a = n ∧ rd_content r = a ++ rd_content r' ∧
    t' = set (be_value a) t ∧ rd_err r' = rd_err r.
Proof.
  unfold binaryRead. destruct (ReadFull n r) as [[r1 got] [e|]] eqn:E;
    intros; simplify_eq.
  apply ReadFull_ok_inv in E as (<- & ? & ?). by exists got.
Qed.

(** Sequencing decoders. *)
Lemma DecM_bind_ok {T A B} (m : DecM T A) (f : A → DecM T B) r t r1 t1 a :
  m r t = (r1, t1, Ok a) → (m ≫= f) r t = f a r1 t1.
Proof. intros H. unfold mbind, DecM_bind. by rewrite H. Qed.

Lemma DecM_bind_inv {T A B} (m : DecM T A) (f : A → DecM T B) r t r2 t2 b :
  (m ≫= f) r t = (r2, t2, Ok b) →
  ∃ r1 t1 a, m r t = (r1, t1, Ok a) ∧ f a r1 t1 = (r2, t2, Ok b).
Proof.
  unfold mbind, DecM_bind. destruct (m r t) as [[r1 t1] [a|e|]]; intros; simplify_eq.
  eauto 10.
Qed.

(** Sequencing encoders. *)
Lemma EncM_lift_ok {W A B} a (f : A → EncM W B) w : (lift_enc (Ok a) ≫= f) w = f a w.
Proof. reflexivity. Qed.

Lemma EncM_write_buffer {B} p (f : unit → EncM (list byte) B) w :
  (write p ≫= f) w = f tt (w ++ p).
Proof. reflexivity. Qed.

(** A buffer takes everything a serializer writes. *)
Lemma write_all_buffer ps (w : list byte) :
  write_all ps w = (w ++ concat ps, Ok tt).
Proof.
  revert w; induction ps as [|p ps IH]; intros w; simpl; [by rewrite app_nil_r|].
  unfold mbind, EncM_bind, write, Write, Buffer_writer. rewrite IH.
  by rewrite <-app_assoc.
Qed.
