(* ===== verification/Sha256.v ===== *)
(** * SHA-256 and HMAC

    [crypto/sha256] and [crypto/hmac] of the Go standard library, as FIPS
    180-4 and RFC 2104 define them, on 32-bit words kept in [N] with the
    wrap-around written out.  The package hashes with [sha256.Sum256] or with
    [New]/[Write]/[Sum]; both give the digest of the concatenation of what
    was written. *)

From S2P Require Import Prelude GoBytes.

Module Sha256.

Local Open Scope N_scope.

Definition mask32 : N := 0xffffffff.
Definition add32 (a b : N) : N := N.land (a + b) mask32.
Definition rotr (n x : N) : N :=
  N.lor (N.shiftr x n) (N.land (N.shiftl x (32 - n)) mask32).
Definition Ch (x y z : N) : N :=
  N.lxor (N.land x y) (N.land (N.lxor x mask32) z).
Definition Maj (x y z : N) : N :=
  N.lxor (N.land x y) (N.lxor (N.land x z) (N.land y z)).
Definition Sigma0 (x : N) : N := N.lxor (rotr 2 x) (N.lxor (rotr 13 x) (rotr 22 x)).
Definition Sigma1 (x : N) : N := N.lxor (rotr 6 x) (N.lxor (rotr 11 x) (rotr 25 x)).
Definition sigma0 (x : N) : N := N.lxor (rotr 7 x) (N.lxor (rotr 18 x) (N.shiftr x 3)).
Definition sigma1 (x : N) : N := N.lxor (rotr 17 x) (N.lxor (rotr 19 x) (N.shiftr x 10)).

(** The constants of the standard are the first 32 bits of the fractional
    parts of the roots of the primes: of the cube roots for the rounds, of the
    square roots for the initial state.  They are computed here from that
    definition. *)
Definition is_prime (n : N) : bool :=
  forallb (λ d, negb (n mod N.of_nat d =? 0)) (seq 2 (N.to_nat (N.sqrt n) - 1)).
Definition primes : list N :=
  List.filter is_prime (N.of_nat <$> seq 2 310).

(** The integer cube root, bit by bit from the top. *)
Fixpoint cbrt_bits (k : nat) (n r : N) : N :=
  match k with
  | O => r
  | S k =>
      let r' := r + 2 ^ N.of_nat k in
      cbrt_bits k n (if r' * r' * r' <=? n then r' else r)
  end.

Definition K : list N :=
  Eval vm_compute in
    (λ p, N.land (cbrt_bits 40 (N.shiftl p 96) 0) mask32) <$> primes.
Definition initial : list N :=
  Eval vm_compute in
    (λ p, N.land (N.sqrt (N.shiftl p 64)) mask32) <$> take 8 primes.

Lemma length_K : length K = 64%nat.
Proof. reflexivity. Qed.

(** The eight chaining variables. *)
Record digest := Digest { ha : N; hb : N; hc : N; hd : N; he : N; hf : N; hg : N; hh : N }.

Definition init : digest :=
  Eval vm_compute in
    let h i := nth i initial 0 in
    Digest (h 0%nat) (h 1%nat) (h 2%nat) (h 3%nat) (h 4%nat) (h 5%nat) (h 6%nat) (h 7%nat).

(** The message schedule, newest word first: from [W_{t-1} .. W_{t-16}] the
    next word is [sigma1 W_{t-2} + W_{t-7} + sigma0 W_{t-15} + W_{t-16}]. *)
Fixpoint extend (n : nat) (ws : list N) : list N :=
  match n with
  | O => ws
  | S n =>
      let w i := nth i ws 0 in
      extend n (add32 (add32 (sigma1 (w 1%nat)) (w 6%nat))
                      (add32 (sigma0 (w 14%nat)) (w 15%nat)) :: ws)
  end.

Definition round (s : digest) (kw : N * N) : digest :=
  let '(k, w) := kw in
  let t1 := add32 (hh s) (add32 (Sigma1 (he s))
              (add32 (Ch (he s) (hf s) (hg s)) (add32 k w))) in
  let t2 := add32 (Sigma0 (ha s)) (Maj (ha s) (hb s) (hc s)) in
  Digest (add32 t1 t2) (ha s) (hb s) (hc s) (add32 (hd s) t1) (he s) (hf s) (hg s).

(** One 64-byte block, given as its 16 big-endian words. *)
Definition compress (s : digest) (block : list N) : digest :=
  let ws := rev (extend 48 (rev block)) in
  let r := foldl round s (zip K ws) in
  Digest (add32 (ha s) (ha r)) (add32 (hb s) (hb r)) (add32 (hc s) (hc r))
         (add32 (hd s) (hd r)) (add32 (he s) (he r)) (add32 (hf s) (hf r))
         (add32 (hg s) (hg r)) (add32 (hh s) (hh r)).

(** Words and blocks are read off the padded message from the front; the
    fuel is the number of blocks. *)
Fixpoint words (n : nat) (l : list byte) : list N :=
  match n with
  | O => []
  | S n => be_value (take 4 l) :: words n (drop 4 l)
  end.

Fixpoint blocks (n : nat) (l : list byte) (s : digest) : digest :=
  match n with
  | O => s
  | S n => blocks n (drop 64 l) (compress s (words 16 (take 64 l)))
  end.

(** The message, a one bit, zeros up to 56 modulo 64, and the bit length in
    eight bytes. *)
Definition pad (msg : list byte) : list byte :=
  let n := length msg in
  msg ++ [x80] ++ zeros ((119 - n `mod` 64) `mod` 64)
      ++ be_bytes 8 (8 * N.of_nat n).

Definition digest_bytes (s : digest) : list byte :=
  be_bytes 4 (ha s) ++ be_bytes 4 (hb s) ++ be_bytes 4 (hc s) ++ be_bytes 4 (hd s) ++
  be_bytes 4 (he s) ++ be_bytes 4 (hf s) ++ be_bytes 4 (hg s) ++ be_bytes 4 (hh s).

End Sha256.

(** [sha256.Size] *)
Definition sha256_Size : nat := 32.

(** [sha256.Sum256(msg)] *)
Definition sha256 (msg : list byte) : list byte :=
  let p := Sha256.pad msg in
  Sha256.digest_bytes (Sha256.blocks (length p / 64) p Sha256.init).

(** The block size of SHA-256, to which HMAC keys are padded. *)
Definition hmac_BlockSize : nat := 64.

(** [hmac.New(sha256.New, key)], [Write(msg)], [Sum(nil)] *)
Definition hmac_sha256 (key msg : list byte) : list byte :=
  let key := if decide (hmac_BlockSize < length key) then sha256 key else key in
  let k0 := go_copy (zeros hmac_BlockSize) key in
  let ipad := xor_bytes k0 (replicate hmac_BlockSize x36) in
  let opad := xor_bytes k0 (replicate hmac_BlockSize x5c) in
  sha256 (opad ++ sha256 (ipad ++ msg)).

(** [hmac.Equal]: a constant-time comparison whose result is equality. *)
Definition hmac_Equal (mac1 mac2 : list byte) : bool := bool_decide (mac1 = mac2).

Lemma length_sha256 msg : length (sha256 msg) = sha256_Size.
Proof.
  unfold sha256, Sha256.digest_bytes. rewrite !length_app, !length_be_bytes.
  reflexivity.
Qed.

Lemma length_hmac_sha256 key msg : length (hmac_sha256 key msg) = sha256_Size.
Proof. unfold hmac_sha256. apply length_sha256. Qed.

#[export] Hint Rewrite length_sha256 length_hmac_sha256 : onion_len.

(** The padded message is a whole number of 64-byte blocks, so the block
    loop consumes all of it. *)
Lemma length_pad_blocks msg : length (Sha256.pad msg) `mod` 64 = 0.
Proof.
  unfold Sha256.pad. rewrite !length_app, length_zeros, length_be_bytes.
  cbn [length].
  pose proof (Nat.mod_upper_bound (length msg) 64).
  pose proof (Nat.div_mod_eq (length msg) 64).
  set (r := length msg mod 64) in *. set (q := length msg / 64) in *.
  destruct (decide (r <= 55)).
  - replace (119 - r) with ((55 - r) + 1 * 64) by lia.
    rewrite Nat.Div0.mod_add, (Nat.mod_small (55 - r)) by lia.
    replace (length msg + (1 + (55 - r + 8))) with ((q + 1) * 64) by lia.
    apply Nat.Div0.mod_mul.
  - rewrite (Nat.mod_small (119 - r)) by lia.
    replace (length msg + (1 + (119 - r + 8))) with ((q + 2) * 64) by lia.
    apply Nat.Div0.mod_mul.
Qed.

(** Published test vectors: SHA-256 of the empty string and of "abc"
    (FIPS 180-4), HMAC-SHA-256 of RFC 4231 test case 2. *)
Example sha256_empty :
  be_value (sha256 []) =
  0xe3b0c44298fc1c149afbf4c8996fb92427ae41e4649b934ca495991b7852b855%N.
Proof. vm_compute. reflexivity. Qed.

Example sha256_abc :
  be_value (sha256 (String.list_byte_of_string "abc")) =
  0xba7816bf8f01cfea414140de5dae2223b00361a396177a9cb410ff61f20015ad%N.
Proof. vm_compute. reflexivity. Qed.

Example hmac_rfc4231_2 :
  be_value (hmac_sha256 (String.list_byte_of_string "Jefe")
     (String.list_byte_of_string "what do ya want for nothing?")) =
  0x5bdcc146bf60754e6a042426089575c75a003f089d2739839dec58b964ec3843%N.
Proof. vm_compute. reflexivity. Qed.

#[global] Opaque sha256 hmac_sha256.
