(* ===== verification/Constants.v ===== *)
(** * The sizes of the package

    The [const] declarations of crypto.go, path.go, replaylog.go and
    sphinx.go.  Sizes are lengths of Go slices and arrays, hence [nat]. *)

From S2P Require Import Prelude Sha256.

(** crypto.go *)
Definition HMACSize : nat := 32.

(** path.go *)
Definition NumMaxHops : nat := 20.

(** replaylog.go *)
Definition HashPrefixSize : nat := 20.

(** sphinx.go *)
Definition AddressSize : nat := 8.
Definition RealmByteSize : nat := 1.
Definition AmtForwardSize : nat := 8.
Definition OutgoingCLTVSize : nat := 4.
Definition NumPaddingBytes : nat := 12.
Definition HopDataSize : nat :=
  RealmByteSize + AddressSize + AmtForwardSize +
  OutgoingCLTVSize + NumPaddingBytes + HMACSize.
Definition sharedSecretSize : nat := 32.
Definition routingInfoSize : nat := NumMaxHops * HopDataSize.
Definition numStreamBytes : nat := routingInfoSize + HopDataSize.
Definition keyLen : nat := 32.
Definition baseVersion : byte := x00.

(** crypto.go: the length of an onion error message on the wire. *)
Definition onionErrorLength : nat := 2 + 2 + 256 + sha256_Size.

Lemma HopDataSize_val : HopDataSize = 65.
Proof. reflexivity. Qed.

Lemma routingInfoSize_val : routingInfoSize = NumMaxHops * HopDataSize.
Proof. reflexivity. Qed.

Lemma numStreamBytes_val : numStreamBytes = routingInfoSize + HopDataSize.
Proof. reflexivity. Qed.

(** The sizes stay folded in proofs; [lia] sees them through the lemmas
    above. *)
#[global] Opaque routingInfoSize numStreamBytes HopDataSize.
