(* ===== verification/Btcec.v ===== *)
(** * The libraries outside the repository

    [btcec] (secp256k1 keys and point arithmetic) and [aead/chacha20] are
    called by the package and are not part of it.  They enter the model as
    the operations of the classes [Btcec] and [Chacha20]; the classes
    [BtcecLaws] and [Chacha20Laws] state the documented behaviour that
    the package relies on.  Only their results on byte strings and
    coordinates are visible: nothing is assumed about how they compute. *)

From Stdlib Require Import ZArith.
From S2P Require Import Prelude GoBytes Errors.

(** ** Keys

    [btcec.PublicKey] is [ecdsa.PublicKey]: a curve and two [*big.Int]
    coordinates, each of which may be [nil] in a zero value.
    [btcec.PrivateKey] is [ecdsa.PrivateKey]: a public key and the scalar
    [D].  The integers the package handles are non-negative. *)

Inductive CurveID := S256.

Record PublicKey := mkPublicKey {
  pub_Curve : option CurveID;
  pub_X : option N;
  pub_Y : option N
}.

Record PrivateKey := mkPrivateKey {
  priv_PubKey : PublicKey;
  priv_D : N
}.

#[export] Instance CurveID_eq_dec : EqDecision CurveID.
Proof. solve_decision. Defined.
#[export] Instance PublicKey_eq_dec : EqDecision PublicKey.
Proof. solve_decision. Defined.
#[export] Instance PrivateKey_eq_dec : EqDecision PrivateKey.
Proof. solve_decision. Defined.

(** The zero value of [btcec.PublicKey]. *)
Definition zeroPublicKey : PublicKey := mkPublicKey None None None.

Class Btcec := {
  (** [S256().ScalarMult(x, y, k)] and [S256().ScalarBaseMult(k)] *)
  ScalarMult : N → N → list byte → N * N;
  ScalarBaseMult : list byte → N * N;
  (** [S256().IsOnCurve(x, y)] *)
  IsOnCurve : N → N → bool;
  (** [S256().Params()]: the modulus of the field, the order of the group and
      its generator *)
  Params_P : N;
  Params_N : N;
  Params_Gx : N;
  Params_Gy : N;
  (** [(&PublicKey{_, x, y}).SerializeCompressed()] and [ParsePubKey] *)
  serializeCompressed : N → N → list byte;
  parsePubKey : list byte → option (N * N);
  (** [PrivKeyFromBytes(S256(), b)] and [Serialize] of a private key *)
  PrivKeyFromBytes : list byte → PrivateKey;
  privKeySerialize : PrivateKey → list byte
}.

(** [btcec.PubKeyBytesLenCompressed] *)
Definition PubKeyBytesLenCompressed : nat := 33.

(** [*big.Int] coordinates are dereferenced: a zero key panics. *)
Definition SerializeCompressed `{Btcec} (p : PublicKey) : Outcome error (list byte) :=
  x ← deref (pub_X p); y ← deref (pub_Y p); Ok (serializeCompressed x y).

(** The point [k * G], as a key. *)
Definition base_key `{Btcec} (k : list byte) : PublicKey :=
  let '(x, y) := ScalarBaseMult k in mkPublicKey (Some S256) (Some x) (Some y).

(** A usable key pair: the scalar has at most 32 bytes and is not a multiple
    of the group order ([PrivKeyFromBytes] does not reduce it), and the public
    key is its multiple of the generator. *)
Definition wf_priv `{Btcec} (k : PrivateKey) : Prop :=
  ((priv_D k mod Params_N ≠ 0) ∧ priv_D k < 2 ^ 256)%N ∧
  priv_PubKey k = base_key (big_bytes (priv_D k)).

(** A point of the curve, with its coordinates reduced: [IsOnCurve] takes
    them modulo the field's prime, the encodings do not. *)
Definition valid_point `{Btcec} (x y : N) : Prop :=
  IsOnCurve x y = true ∧ (x < Params_P ∧ y < Params_P)%N.

(** The two coordinates are those of a point of the curve. *)
Definition pub_on_curve `{Btcec} (p : PublicKey) : Prop :=
  ∃ x y, pub_X p = Some x ∧ pub_Y p = Some y ∧ valid_point x y.

(** What the package relies on: point multiplication is the action of the
    integers modulo a prime order on the points of the curve, the scalar
    being read big-endian; its results are reduced; and the compressed
    encodings of reduced points are 33 bytes and canonical. *)
Class BtcecLaws `{Btcec} : Prop := {
  order_prime : Z.prime (Z.of_N Params_N);
  base_valid : valid_point Params_Gx Params_Gy;
  ScalarBaseMult_spec k : ScalarBaseMult k = ScalarMult Params_Gx Params_Gy k;
  ScalarMult_valid x y k x' y' :
    IsOnCurve x y = true → (be_value k mod Params_N ≠ 0)%N →
    ScalarMult x y k = (x', y') → valid_point x' y';
  ScalarMult_mul x y a b c x' y' :
    IsOnCurve x y = true → (be_value a mod Params_N ≠ 0)%N →
    (be_value c mod Params_N = (be_value a * be_value b) mod Params_N)%N →
    ScalarMult x y a = (x', y') → ScalarMult x' y' b = ScalarMult x y c;
  serializeCompressed_length x y :
    valid_point x y →
    length (serializeCompressed x y) = PubKeyBytesLenCompressed;
  parse_serialize x y :
    valid_point x y → parsePubKey (serializeCompressed x y) = Some (x, y);
  parse_sound b x y :
    length b = PubKeyBytesLenCompressed → parsePubKey b = Some (x, y) →
    valid_point x y ∧ serializeCompressed x y = b;
  PrivKeyFromBytes_spec b :
    PrivKeyFromBytes b = mkPrivateKey (base_key b) (be_value b);
  privKeySerialize_spec k :
    (priv_D k < 2 ^ 256)%N → privKeySerialize k = be_bytes 32 (priv_D k)
}.

Class Chacha20 := {
  cipher : Type;
  (** [chacha20.NewCipher(nonce, key)]; [None] is the error *)
  NewCipher : list byte → list byte → option cipher;
  (** [cipher.XORKeyStream(dst, src)] on a fresh cipher: the new [dst] *)
  XORKeyStream : cipher → list byte → list byte
}.

Class Chacha20Laws `{Chacha20} : Prop := {
  NewCipher_ok nonce key :
    length nonce = 8 → length key = 32 → is_Some (NewCipher nonce key);
  XORKeyStream_length c src : length (XORKeyStream c src) = length src
}.

Section laws.
Context `{BtcecLaws}.

Lemma order_pos : (1 < Params_N)%N.
Proof. pose proof (Z.prime_ge_2 _ order_prime). lia. Qed.

(** A product is zero modulo the prime order only if a factor is. *)
Lemma order_no_zero_divisors a b :
  (a mod Params_N ≠ 0 → b mod Params_N ≠ 0 → (a * b) mod Params_N ≠ 0)%N.
Proof.
  intros Ha Hb Hab. pose proof order_pos.
  apply N.Lcm0.mod_divide in Hab. destruct Hab as [c Hc].
  assert (Z.of_N Params_N | Z.of_N a * Z.of_N b)%Z as Hd.
  { exists (Z.of_N c). lia. }
  apply Z.divide_prime_mul in Hd; [|apply order_prime].
  destruct Hd as [[q Hq]|[q Hq]].
  - apply Ha. apply N.Lcm0.mod_divide. exists (Z.to_N q). nia.
  - apply Hb. apply N.Lcm0.mod_divide. exists (Z.to_N q). nia.
Qed.

Lemma base_key_on_curve k :
  (be_value k mod Params_N ≠ 0)%N → pub_on_curve (base_key k).
Proof.
  intros Hk. unfold base_key. rewrite ScalarBaseMult_spec.
  destruct (ScalarMult Params_Gx Params_Gy k) as [x y] eqn:E.
  exists x, y. split_and!; [done..|].
  eapply ScalarMult_valid, E; [apply base_valid|done].
Qed.

Lemma wf_priv_nonzero k :
  wf_priv k → (be_value (big_bytes (priv_D k)) mod Params_N ≠ 0)%N.
Proof. intros [[? _] _]. by rewrite be_value_big_bytes. Qed.

Lemma wf_priv_on_curve k : wf_priv k → pub_on_curve (priv_PubKey k).
Proof.
  intros Hk. destruct Hk as [? Hp] eqn:E. rewrite Hp.
  by apply base_key_on_curve, wf_priv_nonzero.
Qed.

End laws.

#[export] Hint Resolve wf_priv_on_curve wf_priv_nonzero base_key_on_curve : onion.
