(* ===== verification/Crypto.v ===== *)
(** * The cryptographic helpers (crypto.go, lines 14-170)

    Key derivation, MACs, the key stream, the byte-wise XOR and the group
    operations from which packets and error messages are built.  Loops over
    slices are loops over list updates, with a write or read out of range a
    panic, and each is shown to compute the list it is meant to. *)

From S2P Require Import Prelude GoBytes Errors Sha256 Constants Btcec.
Local Open Scope byte_string_scope.

(** [Hash256] and the array [zeroHMAC]. *)
Abbreviation Hash256 := (list byte) (only parsing).
Definition wf_Hash256 (h : Hash256) : Prop := length h = sha256_Size.
Definition zeroHMAC : list byte := zeros HMACSize.

Definition calcMac (key msg : list byte) : list byte :=
  let h := hmac_sha256 key msg in
  go_copy (zeros HMACSize) (take HMACSize h).

(** The loop of [xor] when [dst] is not one of the operands: [k] passes are
    left and the next index is [i]. *)
Fixpoint xor_loop (k i : nat) (dst a b : list byte) : Outcome error (list byte) :=
  match k with
  | 0 => Ok dst
  | S k =>
      x ← index a i;
      y ← index b i;
      _ ← index dst i;
      xor_loop k (S i) (<[i := x ⊕ y]> dst) a b
  end.

Definition xor (dst a b : list byte) : Outcome error (list byte * nat) :=
  let n := length a in
  let n := if decide (length b < n) then length b else n in
  d ← xor_loop n 0 dst a b;
  Ok (d, n).

(** The same loop when [dst] and [a] are one slice, as in
    [xor(mixHeader[:], mixHeader[:], ...)]: each pass reads the array the
    passes before it have written. *)
Fixpoint xor_self_loop (k i : nat) (dst b : list byte) : Outcome error (list byte) :=
  match k with
  | 0 => Ok dst
  | S k =>
      x ← index dst i;
      y ← index b i;
      xor_self_loop k (S i) (<[i := x ⊕ y]> dst) b
  end.

Definition xor_self (dst b : list byte) : Outcome error (list byte * nat) :=
  let n := length dst in
  let n := if decide (length b < n) then length b else n in
  d ← xor_self_loop n 0 dst b;
  Ok (d, n).

Definition generateKey (keyType : string) (sharedKey : Hash256) : list byte :=
  let h := hmac_sha256 (String.list_byte_of_string keyType) sharedKey in
  go_copy (zeros keyLen) (take keyLen h).

Section crypto.
Context `{Btcec} `{Chacha20}.

Definition generateCipherStream (key : list byte) (numBytes : nat)
    : Outcome error (list byte) :=
  let nonce := zeros 8 in
  match NewCipher nonce key with
  | None => Panic
  | Some cipher => Ok (XORKeyStream cipher (zeros numBytes))
  end.

Definition computeBlindingFactor (hopPubKey : PublicKey) (hopSharedSecret : list byte)
    : Outcome error Hash256 :=
  ser ← SerializeCompressed hopPubKey;
  Ok (go_copy (zeros sha256_Size) (sha256 (ser ++ hopSharedSecret))).

Definition blindGroupElement (hopPubKey : PublicKey) (blindingFactor : list byte)
    : Outcome error PublicKey :=
  x ← deref (pub_X hopPubKey);
  y ← deref (pub_Y hopPubKey);
  let '(newX, newY) := ScalarMult x y blindingFactor in
  Ok (mkPublicKey (Some S256) (Some newX) (Some newY)).

Definition blindBaseElement (blindingFactor : list byte) : PublicKey :=
  let '(newX, newY) := ScalarBaseMult blindingFactor in
  mkPublicKey (Some S256) (Some newX) (Some newY).

(** The function [generateSharedSecret(pub, priv)]. *)
Definition generateSharedSecret (pub : PublicKey) (priv : PrivateKey)
    : Outcome error Hash256 :=
  x ← deref (pub_X pub);
  y ← deref (pub_Y pub);
  let '(sX, sY) := ScalarMult x y (big_bytes (priv_D priv)) in
  ser ← SerializeCompressed (mkPublicKey None (Some sX) (Some sY));
  Ok (sha256 ser).

(** The method [Router.generateSharedSecret(dhKey)], which uses of the
    router its onion key only: the [sharedSecretGenerator] interface. *)
Definition Router_generateSharedSecret (onionKey : PrivateKey) (dhKey : PublicKey)
    : Outcome error Hash256 :=
  x ← deref (pub_X dhKey);
  y ← deref (pub_Y dhKey);
  if IsOnCurve x y
  then generateSharedSecret dhKey onionKey
  else Err ErrInvalidOnionKey.

Definition onionEncrypt (sharedSecret : Hash256) (data : list byte)
    : Outcome error (list byte) :=
  let p := zeros (length data) in
  let ammagKey := generateKey "ammag" sharedSecret in
  streamBytes ← generateCipherStream ammagKey (length data);
  '(p, _) ← xor p data streamBytes;
  Ok p.

End crypto.

(** ** The XOR loops compute the byte-wise XOR *)

Lemma xor_loop_spec k dst a b pre :
  length pre + k ≤ length a → length pre + k ≤ length b →
  length pre + k ≤ length dst →
  xor_loop k (length pre) (pre ++ drop (length pre) dst) a b =
  Ok (pre ++ xor_bytes (take k (drop (length pre) a)) (take k (drop (length pre) b))
          ++ drop (length pre + k) dst).
Proof.
  revert pre. induction k as [|k IH]; intros pre Ha Hb Hd; simpl.
  - by rewrite Nat.add_0_r.
  - destruct (lookup_Some_length a (length pre)) as [x Hx]; [lia|].
    destruct (lookup_Some_length b (length pre)) as [y Hy]; [lia|].
    destruct (lookup_Some_length dst (length pre)) as [z Hz]; [lia|].
    rewrite (index_Some _ _ _ Hx), (index_Some _ _ _ Hy); simpl.
    rewrite (drop_S _ _ _ Hz), (drop_S _ _ _ Hx), (drop_S _ _ _ Hy).
    rewrite (index_Some (pre ++ z :: _) _ z) by (by apply list_lookup_middle); simpl.
    rewrite insert_app_r_alt, Nat.sub_diag by lia. simpl.
    specialize (IH (pre ++ [x ⊕ y])).
    rewrite length_app in IH; simpl in IH. rewrite Nat.add_1_r in IH.
    rewrite <-!app_assoc in IH. simpl in IH. rewrite IH by lia.
    by replace (length pre + S k) with (S (length pre) + k) by lia.
Qed.

Lemma xor_self_loop_spec k dst b pre :
  length pre + k ≤ length b → length pre + k ≤ length dst →
  xor_self_loop k (length pre) (pre ++ drop (length pre) dst) b =
  Ok (pre ++ xor_bytes (take k (drop (length pre) dst)) (take k (drop (length pre) b))
          ++ drop (length pre + k) dst).
Proof.
  revert pre. induction k as [|k IH]; intros pre Hb Hd; simpl.
  - by rewrite Nat.add_0_r.
  - destruct (lookup_Some_length b (length pre)) as [y Hy]; [lia|].
    destruct (lookup_Some_length dst (length pre)) as [z Hz]; [lia|].
    rewrite (drop_S _ _ _ Hz), (drop_S _ _ _ Hy).
    rewrite (index_Some (pre ++ z :: _) _ z) by (by apply list_lookup_middle); simpl.
    rewrite (index_Some _ _ _ Hy); simpl.
    rewrite insert_app_r_alt, Nat.sub_diag by lia. simpl.
    specialize (IH (pre ++ [z ⊕ y])).
    rewrite length_app in IH; simpl in IH. rewrite Nat.add_1_r in IH.
    rewrite <-!app_assoc in IH. simpl in IH. rewrite IH by lia.
    by replace (length pre + S k) with (S (length pre) + k) by lia.
Qed.

Lemma xor_bytes_take_min a b n :
  n = length a `min` length b → xor_bytes (take n a) (take n b) = xor_bytes a b.
Proof.
  intros ->. rewrite <-take_xor_bytes. apply take_ge. len.
Qed.

Lemma xor_spec dst a b :
  length a `min` length b ≤ length dst →
  xor dst a b =
  Ok (xor_bytes a b ++ drop (length a `min` length b) dst, length a `min` length b).
Proof.
  intros Hd. unfold xor.
  replace (if decide (length b < length a) then length b else length a)
    with (length a `min` length b) by (case_decide; lia).
  pose proof (xor_loop_spec (length a `min` length b) dst a b []) as E.
  simpl in E. rewrite drop_0 in E. rewrite E by lia. simpl.
  by rewrite !drop_0, xor_bytes_take_min.
Qed.

Lemma xor_same_length dst a b :
  length a = length dst → length b = length dst →
  xor dst a b = Ok (xor_bytes a b, length dst).
Proof.
  intros Ha Hb. rewrite xor_spec by lia. rewrite Ha, Hb, Nat.min_id.
  by rewrite drop_ge, app_nil_r by lia.
Qed.

Lemma xor_self_spec dst b :
  xor_self dst b =
  Ok (xor_bytes dst b ++ drop (length b) dst, length dst `min` length b).
Proof.
  unfold xor_self.
  replace (if decide (length b < length dst) then length b else length dst)
    with (length dst `min` length b) by (case_decide; lia).
  pose proof (xor_self_loop_spec (length dst `min` length b) dst b []) as E.
  simpl in E. rewrite drop_0 in E. rewrite E by lia. simpl.
  rewrite !drop_0, xor_bytes_take_min by done.
  destruct (decide (length b ≤ length dst)); [by rewrite Nat.min_r by lia|].
  by rewrite Nat.min_l, !drop_ge by lia.
Qed.

(** ** Lengths and determinacy of the derived values *)

Lemma length_calcMac key msg : length (calcMac key msg) = HMACSize.
Proof. unfold calcMac. by len_simp. Qed.

Lemma calcMac_hmac key msg : calcMac key msg = hmac_sha256 key msg.
Proof.
  unfold calcMac. rewrite take_ge by (by len_simp).
  apply go_copy_full. by len_simp.
Qed.

Lemma generateKey_hmac kt ss :
  generateKey kt ss = hmac_sha256 (String.list_byte_of_string kt) ss.
Proof.
  unfold generateKey. rewrite take_ge by (by len_simp).
  apply go_copy_full. by len_simp.
Qed.

Lemma length_generateKey kt ss : length (generateKey kt ss) = keyLen.
Proof. unfold generateKey. by len_simp. Qed.

Lemma length_zeroHMAC : length zeroHMAC = HMACSize.
Proof. apply length_zeros. Qed.

#[export] Hint Rewrite length_calcMac length_generateKey length_zeroHMAC : onion_len.

Section crypto_facts.
Context `{BtcecLaws} `{Chacha20Laws}.

(** The key stream of a derived key exists and has the length asked for. *)
Lemma generateCipherStream_ok kt ss n :
  ∃ s, generateCipherStream (generateKey kt ss) n = Ok s ∧ length s = n.
Proof.
  unfold generateCipherStream.
  destruct (NewCipher_ok (zeros 8) (generateKey kt ss)) as [c ->].
  - apply length_zeros.
  - apply length_generateKey.
  - eexists; split; [done|]. by rewrite XORKeyStream_length, length_zeros.
Qed.

Lemma SerializeCompressed_ok p :
  pub_on_curve p →
  ∃ s, SerializeCompressed p = Ok s ∧ length s = PubKeyBytesLenCompressed.
Proof.
  intros (x & y & Hx & Hy & Hc). unfold SerializeCompressed. rewrite Hx, Hy; simpl.
  eexists; split; [done|]. by apply serializeCompressed_length.
Qed.

Lemma computeBlindingFactor_ok p ss :
  pub_on_curve p →
  ∃ b, computeBlindingFactor p ss = Ok b ∧ wf_Hash256 b.
Proof.
  intros Hp. destruct (SerializeCompressed_ok p Hp) as (s & Hs & _).
  unfold computeBlindingFactor. rewrite Hs; simpl. eexists; split; [done|].
  unfold wf_Hash256. by len_simp.
Qed.

Lemma onionEncrypt_spec ss data :
  ∃ s, generateCipherStream (generateKey "ammag" ss) (length data) = Ok s ∧
    length s = length data ∧ onionEncrypt ss data = Ok (xor_bytes data s).
Proof.
  destruct (generateCipherStream_ok "ammag" ss (length data)) as (s & Hs & Hl).
  exists s. split_and!; [done..|]. unfold onionEncrypt. rewrite Hs; simpl.
  by rewrite xor_same_length by (rewrite length_zeros; lia).
Qed.

Lemma onionEncrypt_length ss data c :
  onionEncrypt ss data = Ok c → length c = length data.
Proof.
  destruct (onionEncrypt_spec ss data) as (s & _ & Hl & ->). intros [= <-]. len.
Qed.

(** Encrypting twice with one secret gives the data back. *)
Lemma onionEncrypt_involutive ss data c :
  onionEncrypt ss data = Ok c → onionEncrypt ss c = Ok data.
Proof.
  intros Hc. pose proof (onionEncrypt_length _ _ _ Hc) as Hl.
  destruct (onionEncrypt_spec ss data) as (s & Hs & Hls & Hd).
  destruct (onionEncrypt_spec ss c) as (s' & Hs' & _ & ->).
  rewrite Hl, Hs in Hs'. rewrite Hd in Hc. simplify_eq.
  by rewrite xor_bytes_cancel by lia.
Qed.

End crypto_facts.

Lemma xor_loop_panic k i dst a b :
  i ≤ length dst → length dst < i + k → i + k ≤ length a → i + k ≤ length b →
  xor_loop k i dst a b = Panic.
Proof.
  revert i dst. induction k as [|k IH]; intros i dst Hi Hk Ha Hb; [lia|]. cbn [xor_loop].
  destruct (lookup_Some_length a i) as [x Hx]; [lia|].
  destruct (lookup_Some_length b i) as [y Hy]; [lia|].
  rewrite (index_Some _ _ _ Hx), (index_Some _ _ _ Hy). cbn [mbind Outcome_bind].
  destruct (decide (i < length dst)) as [Hlt|Hge].
  - destruct (lookup_Some_length dst i Hlt) as [z Hz]. rewrite (index_Some _ _ _ Hz).
    cbn [mbind Outcome_bind]. apply IH; rewrite ?length_insert; lia.
  - unfold index. by rewrite lookup_ge_None_2 by lia.
Qed.

(** C28.  [xor] on slices of any lengths: it overwrites the first
    [min (len a) (len b)] bytes of [dst] with the byte-wise XOR, leaves the
    rest and returns that number, and panics exactly when [dst] is shorter;
    writing over one of the operands, as the callers do, gives the same
    bytes. *)
Theorem xor_total dst a b :
  (let n := length a `min` length b in
   xor dst a b = if decide (n ≤ length dst) then Ok (xor_bytes a b ++ drop n dst, n) else Panic) ∧
  xor_self dst b = xor dst dst b.
Proof.
  split.
  - cbv zeta. case_decide as Hn; [by apply xor_spec|]. unfold xor.
    replace (if decide (length b < length a) then length b else length a)
      with (length a `min` length b) by (case_decide; lia).
    by rewrite xor_loop_panic by lia.
  - rewrite xor_self_spec, xor_spec by lia. do 3 f_equal.
    destruct (decide (length b ≤ length dst)); [by rewrite Nat.min_r by lia|].
    by rewrite Nat.min_l, !drop_ge by lia.
Qed.
