(* ===== verification/Packet.v ===== *)
(** * Hop payloads and onion packets on the wire (sphinx.go, lines 70-207,
    382-487)

    The structs [HopData] and [OnionPacket] with their [Encode] and [Decode]
    methods, and the results [ProcessCode] and [ProcessedPacket] of
    processing.  The codecs are shown to be inverse to each other on every
    reader, however it cuts the bytes, and to fail as documented on input
    that is short, of another version or with an invalid key. *)

From S2P Require Import Prelude GoBytes Errors GoIO Sha256 Constants Btcec Crypto.

(** ** HopData *)

Record HopData := mkHopData {
  Realm : list byte;
  NextAddress : list byte;
  ForwardAmount : N;
  OutgoingCltv : N;
  ExtraBytes : list byte;
  HMAC : list byte
}.

#[export] Instance HopData_eq_dec : EqDecision HopData.
Proof. solve_decision. Defined.

(** The array sizes and integer widths of the struct. *)
Definition wf_HopData (hd : HopData) : Prop :=
  length (Realm hd) = RealmByteSize ∧ length (NextAddress hd) = AddressSize ∧
  (ForwardAmount hd < 256 ^ N.of_nat AmtForwardSize)%N ∧
  (OutgoingCltv hd < 256 ^ N.of_nat OutgoingCLTVSize)%N ∧
  length (ExtraBytes hd) = NumPaddingBytes ∧ length (HMAC hd) = HMACSize.

Definition zeroHopData : HopData :=
  mkHopData (zeros RealmByteSize) (zeros AddressSize) 0 0
    (zeros NumPaddingBytes) (zeros HMACSize).

Definition set_Realm v hd := mkHopData v (NextAddress hd) (ForwardAmount hd)
  (OutgoingCltv hd) (ExtraBytes hd) (HMAC hd).
Definition set_NextAddress v hd := mkHopData (Realm hd) v (ForwardAmount hd)
  (OutgoingCltv hd) (ExtraBytes hd) (HMAC hd).
Definition set_ForwardAmount v hd := mkHopData (Realm hd) (NextAddress hd) v
  (OutgoingCltv hd) (ExtraBytes hd) (HMAC hd).
Definition set_OutgoingCltv v hd := mkHopData (Realm hd) (NextAddress hd)
  (ForwardAmount hd) v (ExtraBytes hd) (HMAC hd).
Definition set_ExtraBytes v hd := mkHopData (Realm hd) (NextAddress hd)
  (ForwardAmount hd) (OutgoingCltv hd) v (HMAC hd).
Definition set_HMAC v hd := mkHopData (Realm hd) (NextAddress hd)
  (ForwardAmount hd) (OutgoingCltv hd) (ExtraBytes hd) v.

(** [func (hd *HopData) Encode(w io.Writer) error] *)
Definition HopData_Encode `{Writer W} (hd : HopData) : EncM W unit :=
  _ ← write (Realm hd);
  _ ← write (NextAddress hd);
  _ ← binaryWrite 8 (ForwardAmount hd);
  _ ← binaryWrite 4 (OutgoingCltv hd);
  _ ← write (ExtraBytes hd);
  _ ← write (HMAC hd);
  mret ().

(** [func (hd *HopData) Decode(r io.Reader) error] *)
Definition HopData_Decode : DecM HopData unit :=
  _ ← readField RealmByteSize Realm set_Realm;
  _ ← readField AddressSize NextAddress set_NextAddress;
  _ ← binaryRead 8 set_ForwardAmount;
  _ ← binaryRead 4 set_OutgoingCltv;
  _ ← readField NumPaddingBytes ExtraBytes set_ExtraBytes;
  _ ← readField HMACSize HMAC set_HMAC;
  mret ().

(** ** OnionPacket *)

Record OnionPacket := mkOnionPacket {
  Version : byte;
  EphemeralKey : option PublicKey;
  RoutingInfo : list byte;
  HeaderMAC : list byte
}.

#[export] Instance OnionPacket_eq_dec : EqDecision OnionPacket.
Proof. solve_decision. Defined.

Definition zeroOnionPacket : OnionPacket :=
  mkOnionPacket x00 None (zeros routingInfoSize) (zeros HMACSize).

(** The array sizes of the struct. *)
Definition sized_OnionPacket (p : OnionPacket) : Prop :=
  length (RoutingInfo p) = routingInfoSize ∧ length (HeaderMAC p) = HMACSize.

Definition set_Version v p :=
  mkOnionPacket v (EphemeralKey p) (RoutingInfo p) (HeaderMAC p).
Definition set_EphemeralKey k p :=
  mkOnionPacket (Version p) k (RoutingInfo p) (HeaderMAC p).
Definition set_RoutingInfo v p :=
  mkOnionPacket (Version p) (EphemeralKey p) v (HeaderMAC p).
Definition set_HeaderMAC v p :=
  mkOnionPacket (Version p) (EphemeralKey p) (RoutingInfo p) v.

Section packet.
Context `{Btcec}.

(** [func (f *OnionPacket) Encode(w io.Writer) error] *)
Definition OnionPacket_Encode `{Writer W} (f : OnionPacket) : EncM W unit :=
  key ← lift_enc (deref (EphemeralKey f));
  ephemeral ← lift_enc (SerializeCompressed key);
  _ ← write [Version f];
  _ ← write ephemeral;
  _ ← write (RoutingInfo f);
  _ ← write (HeaderMAC f);
  mret ().

(** [func (f *OnionPacket) Decode(r io.Reader) error] *)
Definition OnionPacket_Decode : DecM OnionPacket unit :=
  buf ← readLocal 1;
  let version := default x00 (head buf) in
  _ ← modify (set_Version version);
  if decide (version ≠ baseVersion) then throw ErrInvalidOnionVersion else
  ephemeral ← readLocal 33;
  match parsePubKey ephemeral with
  | None =>
      _ ← modify (set_EphemeralKey None);
      throw ErrInvalidOnionKey
  | Some (x, y) =>
      _ ← modify (set_EphemeralKey (Some (mkPublicKey (Some S256) (Some x) (Some y))));
      _ ← readField routingInfoSize RoutingInfo set_RoutingInfo;
      _ ← readField HMACSize HeaderMAC set_HeaderMAC;
      mret ()
  end.

(** A packet that can be put on the wire: of the supported version, with the
    array sizes of the struct and a key on the curve. *)
Definition wf_OnionPacket (p : OnionPacket) : Prop :=
  Version p = baseVersion ∧ sized_OnionPacket p ∧
  ∃ x y, EphemeralKey p = Some (mkPublicKey (Some S256) (Some x) (Some y)) ∧
    valid_point x y.

(** The bytes of such a packet. *)
Definition OnionPacket_bytes (p : OnionPacket) : list byte :=
  match EphemeralKey p with
  | Some (mkPublicKey _ (Some x) (Some y)) =>
      Version p :: serializeCompressed x y ++ RoutingInfo p ++ HeaderMAC p
  | _ => []
  end.

End packet.

(** ** Results of processing *)

(** [type ProcessCode int] and its three constants *)
Definition ProcessCode : Type := Z.
Definition ExitNode : ProcessCode := 0%Z.
Definition MoreHops : ProcessCode := 1%Z.
Definition Failure : ProcessCode := 2%Z.

(** [func (p ProcessCode) String() string] *)
Definition ProcessCode_String (p : ProcessCode) : string :=
  if Z.eqb p ExitNode then "ExitNode"
  else if Z.eqb p MoreHops then "MoreHops"
  else if Z.eqb p Failure then "Failure"
  else "Unknown".

Record ProcessedPacket := mkProcessedPacket {
  Action : ProcessCode;
  ForwardingInstructions : HopData;
  NextPacket : option OnionPacket
}.

#[export] Instance ProcessedPacket_eq_dec : EqDecision ProcessedPacket.
Proof. unfold EqDecision, Decision, ProcessCode. decide equality; solve_decision. Defined.

(** The zero value, with which [BeginTxn] fills its slice. *)
Definition zeroProcessedPacket : ProcessedPacket :=
  mkProcessedPacket 0%Z zeroHopData None.

(** ** HopData: encoding, decoding *)

(** The 65 bytes of a hop payload, field after field. *)
Definition HopData_bytes (hd : HopData) : list byte :=
  Realm hd ++ NextAddress hd ++ be_bytes 8 (ForwardAmount hd) ++
  be_bytes 4 (OutgoingCltv hd) ++ ExtraBytes hd ++ HMAC hd.

Lemma length_HopData_bytes hd :
  wf_HopData hd → length (HopData_bytes hd) = HopDataSize.
Proof.
  intros (H1 & H2 & _ & _ & H5 & H6). unfold HopData_bytes.
  rewrite !length_app, !length_be_bytes, H1, H2, H5, H6. reflexivity.
Qed.

Lemma HopData_Encode_writes `{Writer W} hd (w : W) :
  HopData_Encode hd w = write_all
    [Realm hd; NextAddress hd; be_bytes 8 (ForwardAmount hd);
     be_bytes 4 (OutgoingCltv hd); ExtraBytes hd; HMAC hd] w.
Proof. reflexivity. Qed.

Lemma HopData_Encode_buffer hd (w : list byte) :
  HopData_Encode hd w = (w ++ HopData_bytes hd, Ok tt).
Proof.
  rewrite HopData_Encode_writes, write_all_buffer. simpl.
  unfold HopData_bytes. by rewrite app_nil_r.
Qed.

Lemma zeroHopData_wf : wf_HopData zeroHopData.
Proof. by repeat split. Qed.

(** Takes one successful step of a decoder whose reader starts with the
    bytes of the next field. *)
Ltac dec_step lem :=
  match goal with
  | |- context [@mbind _ _ _ _ _ ?m ?r ?t] =>
      let r' := fresh "r" in let Hr := fresh "Hr" in let Hc := fresh "Hc" in
      let He := fresh "He" in
      edestruct (lem r t) as (r' & Hr & Hc & He);
        [eassumption | done.. | ];
      rewrite (DecM_bind_ok _ _ _ _ _ _ _ Hr); clear Hr
  end.

Lemma HopData_Decode_ok hd hd0 r l :
  wf_HopData hd → wf_HopData hd0 → rd_content r = HopData_bytes hd ++ l →
  ∃ r', HopData_Decode r hd0 = (r', hd, Ok tt) ∧ rd_content r' = l ∧
    rd_err r' = rd_err r.
Proof.
  intros (H1 & H2 & H3 & H4 & H5 & H6) (G1 & G2 & G3 & G4 & G5 & G6) Hr.
  unfold HopData_bytes in Hr. rewrite <-!app_assoc in Hr. unfold HopData_Decode.
  dec_step (readField_ok RealmByteSize Realm set_Realm).
  dec_step (readField_ok AddressSize NextAddress set_NextAddress).
  dec_step (binaryRead_ok 8 set_ForwardAmount).
  dec_step (binaryRead_ok 4 set_OutgoingCltv).
  dec_step (readField_ok NumPaddingBytes ExtraBytes set_ExtraBytes).
  dec_step (readField_ok HMACSize HMAC set_HMAC).
  eexists. split_and!; [|done|congruence].
  unfold mret, DecM_ret. repeat f_equal. by destruct hd.
Qed.

(** Takes a successful decoder apart, step by step. *)
Ltac dec_inv H :=
  match type of H with
  | @mbind _ _ _ _ _ _ _ _ = (_, _, Ok _) =>
      let r1 := fresh "r" in let t1 := fresh "t" in let a := fresh "a" in
      let H1 := fresh "Hstep" in
      apply DecM_bind_inv in H as (r1 & t1 & a & H1 & H); dec_inv H
  | mret _ _ _ = _ => unfold mret, DecM_ret in H; simplify_eq
  | _ => idtac
  end.

Lemma HopData_Decode_sound hd hd0 r r' :
  wf_HopData hd0 → HopData_Decode r hd0 = (r', hd, Ok tt) →
  wf_HopData hd ∧ rd_content r = HopData_bytes hd ++ rd_content r'.
Proof.
  intros (G1 & G2 & G3 & G4 & G5 & G6) Hd. unfold HopData_Decode in Hd.
  dec_inv Hd. repeat match goal with a : unit |- _ => destruct a end.
  apply readField_ok_inv in Hstep as (a1 & L1 & E1 & -> & _); [|done].
  apply readField_ok_inv in Hstep0 as (a2 & L2 & E2 & -> & _); [|done].
  apply binaryRead_ok_inv in Hstep1 as (a3 & L3 & E3 & -> & _).
  apply binaryRead_ok_inv in Hstep2 as (a4 & L4 & E4 & -> & _).
  apply readField_ok_inv in Hstep3 as (a5 & L5 & E5 & -> & _); [|done].
  apply readField_ok_inv in Hstep4 as (a6 & L6 & E6 & -> & _); [|done].
  unfold wf_HopData, HopData_bytes; simpl. split_and!; try done.
  - pose proof (be_value_lt a3) as Hlt. by rewrite L3 in Hlt.
  - pose proof (be_value_lt a4) as Hlt. by rewrite L4 in Hlt.
  - rewrite E1, E2, E3, E4, E5, E6. rewrite <-L3 at 1. rewrite <-L4 at 1.
    rewrite !be_bytes_value. by rewrite <-!app_assoc.
Qed.

(** Any 65 bytes are a hop payload. *)
Lemma HopData_Decode_total (l : list byte) :
  HopDataSize ≤ length l →
  ∃ hd r', HopData_Decode (bytes_reader l) zeroHopData = (r', hd, Ok tt) ∧ wf_HopData hd.
Proof.
  intros Hl. rewrite HopDataSize_val in Hl.
  set (f a b := take b (drop a l)).
  set (hd := mkHopData (f 0 1) (f 1 8) (be_value (f 9 8)) (be_value (f 17 4)) (f 21 12) (f 33 32)).
  assert (∀ a b, a + b ≤ length l → length (f a b) = b) as Hf.
  { intros a b Hab. unfold f. len. }
  assert (wf_HopData hd) as Hwf.
  { unfold wf_HopData, hd; cbn [Realm NextAddress ForwardAmount OutgoingCltv ExtraBytes HMAC].
    split_and!.
    - apply (Hf 0 1). lia.
    - apply (Hf 1 8). lia.
    - pose proof (be_value_lt (f 9 8)) as Hb. rewrite (Hf 9 8) in Hb by lia. exact Hb.
    - pose proof (be_value_lt (f 17 4)) as Hb. rewrite (Hf 17 4) in Hb by lia. exact Hb.
    - apply (Hf 21 12). lia.
    - apply (Hf 33 32). lia. }
  assert (l = HopData_bytes hd ++ drop 65 l) as Hb.
  { assert (∀ a b, a + b ≤ length l → be_bytes b (be_value (f a b)) = f a b) as Hv.
    { intros a b Hab. rewrite <-(Hf a b Hab) at 1. apply be_bytes_value. }
    unfold HopData_bytes, hd; cbn [Realm NextAddress ForwardAmount OutgoingCltv ExtraBytes HMAC].
    rewrite !Hv, <-!app_assoc by lia. unfold f.
    rewrite (take_drop_step l 33 32), (take_drop_step l 21 12), (take_drop_step l 17 4),
      (take_drop_step l 9 8), (take_drop_step l 1 8), (take_drop_step l 0 1) by done.
    done. }
  destruct (HopData_Decode_ok hd zeroHopData (bytes_reader l) (drop 65 l) Hwf zeroHopData_wf)
    as (r' & Hd & _); [by rewrite rd_content_bytes_reader|].
  eauto.
Qed.

#[export] Hint Resolve zeroHopData_wf length_HopData_bytes : onion.

(** ** OnionPacket: encoding, decoding *)

Section packet_facts.
Context `{BtcecLaws}.

(** The encoder's four writes, on any writer. *)
Lemma OnionPacket_Encode_writes `{Writer W} p x y (w : W) :
  EphemeralKey p = Some (mkPublicKey (Some S256) (Some x) (Some y)) →
  OnionPacket_Encode p w =
  write_all [[Version p]; serializeCompressed x y; RoutingInfo p; HeaderMAC p] w.
Proof. intros Hk. unfold OnionPacket_Encode. by rewrite Hk. Qed.

Lemma OnionPacket_Encode_buffer p (w : list byte) :
  wf_OnionPacket p →
  OnionPacket_Encode p w = (w ++ OnionPacket_bytes p, Ok tt).
Proof.
  intros (_ & _ & x & y & Hk & _). erewrite OnionPacket_Encode_writes by done.
  rewrite write_all_buffer. unfold OnionPacket_bytes. rewrite Hk. simpl.
  by rewrite app_nil_r.
Qed.

(** A packet on the wire has 1 + 33 + 1300 + 32 bytes. *)
Lemma length_OnionPacket_bytes p :
  wf_OnionPacket p →
  length (OnionPacket_bytes p) = 1 + PubKeyBytesLenCompressed + routingInfoSize + HMACSize.
Proof.
  intros (_ & (Hr & Hm) & x & y & Hk & Hc). unfold OnionPacket_bytes. rewrite Hk.
  rewrite length_cons, !length_app, serializeCompressed_length, Hr, Hm by done. lia.
Qed.

Lemma OnionPacket_Decode_ok p p0 r l :
  wf_OnionPacket p → sized_OnionPacket p0 →
  rd_content r = OnionPacket_bytes p ++ l →
  ∃ r', OnionPacket_Decode r p0 = (r', p, Ok tt) ∧ rd_content r' = l ∧
    rd_err r' = rd_err r.
Proof.
  intros (Hv & (Hr & Hm) & x & y & Hk & Hc) (Hr0 & Hm0) Hcon.
  unfold OnionPacket_bytes in Hcon. rewrite Hk in Hcon.
  change (Version p :: ?l) with ([Version p] ++ l) in Hcon.
  rewrite <-!app_assoc in Hcon.
  assert (length (serializeCompressed x y) = 33) by by apply serializeCompressed_length.
  unfold OnionPacket_Decode.
  dec_step (@readLocal_ok OnionPacket 1).
  cbn [head default]. erewrite DecM_bind_ok by done.
  rewrite decide_False by (by intros []).
  dec_step (@readLocal_ok OnionPacket 33).
  rewrite parse_serialize by done. erewrite DecM_bind_ok by done.
  dec_step (readField_ok routingInfoSize RoutingInfo set_RoutingInfo).
  dec_step (readField_ok HMACSize HeaderMAC set_HeaderMAC).
  eexists. split_and!; [|done|congruence].
  unfold mret, DecM_ret. repeat f_equal. destruct p; simpl in *. by subst.
Qed.

Lemma OnionPacket_Decode_sound p p0 r r' :
  sized_OnionPacket p0 → OnionPacket_Decode r p0 = (r', p, Ok tt) →
  wf_OnionPacket p ∧ rd_content r = OnionPacket_bytes p ++ rd_content r'.
Proof.
  intros (Hr0 & Hm0) Hd. unfold OnionPacket_Decode in Hd.
  apply DecM_bind_inv in Hd as (r1 & t1 & buf & Hbuf & Hd).
  apply readLocal_ok_inv in Hbuf as (Lb & Eb & -> & _).
  destruct buf as [|v [|]]; try discriminate Lb. cbn [head default] in Hd.
  erewrite DecM_bind_ok in Hd by done.
  case_decide as Hv; [done|].
  apply DecM_bind_inv in Hd as (r2 & t2 & eph & Heph & Hd).
  apply readLocal_ok_inv in Heph as (Le & Ee & -> & _).
  destruct (parsePubKey eph) as [[x y]|] eqn:Hp; [|done].
  erewrite DecM_bind_ok in Hd by done.
  dec_inv Hd. repeat match goal with a : unit |- _ => destruct a end.
  apply readField_ok_inv in Hstep as (a1 & L1 & E1 & -> & _); [|done].
  apply readField_ok_inv in Hstep0 as (a2 & L2 & E2 & -> & _); [|done].
  apply parse_sound in Hp as [Hc Hs]; [|done].
  assert (v = baseVersion) as -> by (destruct (decide (v = baseVersion)); done).
  split.
  - split_and!; [done..|]. by exists x, y.
  - unfold OnionPacket_bytes; simpl. rewrite Eb, Ee, E1, E2, Hs.
    simpl. by rewrite <-!app_assoc.
Qed.

End packet_facts.
