(* ===== verification/Codec.v ===== *)
(** * The wire format: hop payloads and packets on any input

    What [Encode] and [Decode] of [HopData] and [OnionPacket] do, on every
    reader and writer: the round trips, which inputs are refused with which
    error, and where a failing writer leaves the output. *)

From S2P Require Import Prelude GoBytes Errors GoIO Sha256 Constants Btcec Crypto Packet.

(** ** Reads, successful or not *)

(** The error of a read of [n] bytes from a reader that ends with [io.EOF]
    and has [k] of them. *)
Definition short (k : nat) : error := if decide (k = 0) then EOF else ErrUnexpectedEOF.

Lemma ReadFull_short n r :
  rd_err r = EOF → length (rd_content r) < n →
  ∃ r', ReadFull n r = (r', rd_content r, Some (short (length (rd_content r)))).
Proof.
  intros He Hn. destruct (ReadFull_spec n r) as (r' & -> & _). exists r'.
  rewrite take_ge, decide_False, He by lia. unfold short.
  destruct (rd_content r) as [|b l].
  - by rewrite decide_False by naive_solver.
  - by rewrite decide_True by done.
Qed.

Lemma DecM_bind_err {T A B} (m : DecM T A) (f : A → DecM T B) r t r1 t1 e :
  m r t = (r1, t1, Err e) → (m ≫= f) r t = (r1, t1, Err e).
Proof. intros Hm. unfold mbind, DecM_bind. by rewrite Hm. Qed.

(** A read of a field from a reader that ends with [io.EOF]: it succeeds with
    the next [n] bytes, or fails. *)
Lemma readField_total {T} n (get : T → list byte) set r t :
  rd_err r = EOF → length (get t) = n →
  (n ≤ length (rd_content r) ∧ ∃ r',
     readField n get set r t = (r', set (take n (rd_content r)) t, Ok tt) ∧
     rd_content r' = drop n (rd_content r) ∧ rd_err r' = EOF) ∨
  (length (rd_content r) < n ∧ ∃ r' t',
     readField n get set r t = (r', t', Err (short (length (rd_content r))))).
Proof.
  intros He Hg. destruct (decide (n ≤ length (rd_content r))) as [Hn|Hn]; [left|right].
  - split; [done|]. destruct (readField_ok n get set r t (take n (rd_content r))
      (drop n (rd_content r))) as (r' & Hr & Hc & He'); [by rewrite take_drop|len|done|].
    exists r'. by rewrite He'.
  - split; [lia|]. destruct (ReadFull_short n r He) as [r' Hr]; [lia|].
    unfold readField. rewrite Hr. eauto.
Qed.

Lemma binaryRead_total {T} n (set : N → T → T) r t :
  rd_err r = EOF →
  (n ≤ length (rd_content r) ∧ ∃ r',
     binaryRead n set r t = (r', set (be_value (take n (rd_content r))) t, Ok tt) ∧
     rd_content r' = drop n (rd_content r) ∧ rd_err r' = EOF) ∨
  (length (rd_content r) < n ∧ ∃ r' t',
     binaryRead n set r t = (r', t', Err (short (length (rd_content r))))).
Proof.
  intros He. unfold binaryRead. destruct (decide (n ≤ length (rd_content r))) as [Hn|Hn].
  - left. split; [done|]. destruct (ReadFull_ok n r (take n (rd_content r))
      (drop n (rd_content r))) as (r' & -> & Hc & He'); [by rewrite take_drop|len|].
    exists r'. by rewrite He'.
  - right. split; [lia|]. destruct (ReadFull_short n r He) as [r' ->]; [lia|]. eauto.
Qed.

Lemma readLocal_total {T} n r (t : T) :
  rd_err r = EOF →
  (n ≤ length (rd_content r) ∧ ∃ r',
     readLocal n r t = (r', t, Ok (take n (rd_content r))) ∧
     rd_content r' = drop n (rd_content r) ∧ rd_err r' = EOF) ∨
  (length (rd_content r) < n ∧ ∃ r',
     readLocal n r t = (r', t, Err (short (length (rd_content r))))).
Proof.
  intros He. unfold readLocal. destruct (decide (n ≤ length (rd_content r))) as [Hn|Hn].
  - left. split; [done|]. destruct (ReadFull_ok n r (take n (rd_content r))
      (drop n (rd_content r))) as (r' & -> & Hc & He'); [by rewrite take_drop|len|].
    exists r'. by rewrite He'.
  - right. split; [lia|]. destruct (ReadFull_short n r He) as [r' ->]; [lia|]. eauto.
Qed.

(** Runs one step of a decoder on input of unknown length: either the step
    succeeds and the goal goes on with the rest, or the decoder fails there,
    and [tac] shows that the error is the expected one. *)
Ltac total_step lem tac :=
  match goal with
  | |- context [@mbind _ _ _ _ _ _ ?r ?t] =>
      let r' := fresh "r" in let t' := fresh "t" in
      let Hn := fresh "Hn" in let Hr := fresh "Hr" in
      let Hc := fresh "Hc" in let He := fresh "He" in
      destruct (lem r t) as [(Hn & r' & Hr & Hc & He)|(Hn & r' & t' & Hr)];
        [assumption | try done.. |
         rewrite (DecM_bind_ok _ _ _ _ _ _ _ Hr); clear Hr |
         rewrite (DecM_bind_err _ _ _ _ _ _ _ Hr); exists r', t'; tac]
  end.

(** The lengths that the reads so far have established, as arithmetic. *)
Ltac sizes :=
  repeat match goal with
  | H : rd_content _ = drop _ _ |- _ => apply (f_equal length) in H; rewrite length_drop in H
  end;
  unfold RealmByteSize, AddressSize, AmtForwardSize, OutgoingCLTVSize, NumPaddingBytes,
    HMACSize in *.
Ltac refuse :=
  sizes; unfold short; repeat case_decide; solve [done | exfalso; lia].

(** ** HopData *)

(** C15.  The 65-byte wire format of hop payloads: [Encode] writes 65 bytes;
    [Decode] reads them back from any reader, into any target, and leaves the
    rest; and whatever [Decode] accepts is well-formed and re-encodes to
    exactly the bytes that were read. *)
Theorem HopData_codec hd hd0 r :
  wf_HopData hd0 →
  (wf_HopData hd →
   ∃ bytes, HopData_Encode hd ([] : list byte) = (bytes, Ok tt) ∧ length bytes = 65 ∧
     ∀ rest, rd_content r = bytes ++ rest →
       ∃ r', HopData_Decode r hd0 = (r', hd, Ok tt) ∧ rd_content r' = rest) ∧
  (∀ r', HopData_Decode r hd0 = (r', hd, Ok tt) →
     wf_HopData hd ∧
     HopData_Encode hd ([] : list byte) = (take 65 (rd_content r), Ok tt) ∧
     rd_content r' = drop 65 (rd_content r)).
Proof.
  intros H0. split.
  - intros Hwf. exists (HopData_bytes hd). rewrite HopData_Encode_buffer. split_and!; [done|..].
    + by rewrite length_HopData_bytes.
    + intros rest Hc. destruct (HopData_Decode_ok hd hd0 r rest Hwf H0 Hc) as (r' & ? & ? & _).
      eauto.
  - intros r' [Hwf Hc]%HopData_Decode_sound; [|done]. rewrite HopData_Encode_buffer, Hc.
    pose proof (length_HopData_bytes hd Hwf) as Hl. rewrite HopDataSize_val in Hl.
    by rewrite take_app_ge', drop_app_ge' by done.
Qed.

(** C29.  [HopData.Decode] on input that is too short: fewer than 65 bytes give
    [io.EOF] when they end at the border of two fields and
    [io.ErrUnexpectedEOF] inside a field; 65 bytes or more are always
    accepted, whatever they are. *)
Theorem HopData_Decode_length hd0 r :
  wf_HopData hd0 → rd_err r = EOF →
  let n := length (rd_content r) in
  ∃ r' hd, HopData_Decode r hd0 =
    (r', hd, if decide (65 ≤ n) then Ok tt
             else if decide (n = 0 ∨ n = 1 ∨ n = 9 ∨ n = 17 ∨ n = 21 ∨ n = 33) then Err EOF
             else Err ErrUnexpectedEOF).
Proof.
  intros (G1 & G2 & _ & _ & G5 & G6) He n. unfold HopData_Decode.
  total_step (readField_total RealmByteSize Realm set_Realm) refuse.
  total_step (readField_total AddressSize NextAddress set_NextAddress) refuse.
  total_step (@binaryRead_total HopData 8 set_ForwardAmount) refuse.
  total_step (@binaryRead_total HopData 4 set_OutgoingCltv) refuse.
  total_step (readField_total NumPaddingBytes ExtraBytes set_ExtraBytes) refuse.
  total_step (readField_total HMACSize HMAC set_HMAC) refuse.
  do 2 eexists. rewrite decide_True; [done|]. sizes. lia.
Qed.

(** ** Writers that fail *)

Lemma write_all_limited ps room out e :
  write_all ps (mkLimited room out e) =
  if decide (length (concat ps) ≤ room)
  then (mkLimited (room - length (concat ps)) (out ++ concat ps) e, Ok tt)
  else (mkLimited 0 (out ++ take room (concat ps)) e, Err e).
Proof.
  revert room out. induction ps as [|p ps IH]; intros room out; cbn [write_all concat].
  { rewrite decide_True by (simpl; lia). by rewrite app_nil_r, Nat.sub_0_r. }
  unfold mbind, EncM_bind, write, Write, Limited_writer. cbn [lw_room lw_out lw_fail].
  rewrite length_app. destruct (decide (length p ≤ room)) as [Hp|Hp].
  - rewrite IH, (take_ge p) by done. destruct (decide (length p + length (concat ps) ≤ room)).
    + rewrite decide_True by lia. rewrite <-app_assoc, Nat.sub_add_distr. done.
    + rewrite decide_False, take_app_ge by lia. by rewrite <-app_assoc.
  - rewrite decide_False, take_app_le by lia. by replace (room - length p) with 0 by lia.
Qed.

(** ** OnionPacket *)

Section packet_codec.
Context `{BtcecLaws}.

(** The checks of [OnionPacket.Decode] on the bytes [l], in order; [None]
    when they pass. *)
Definition decode_verdict (l : list byte) : option error :=
  match l with
  | [] => Some EOF
  | v :: l =>
      if decide (v ≠ baseVersion) then Some ErrInvalidOnionVersion
      else if decide (length l < 33) then Some (short (length l))
      else match parsePubKey (take 33 l) with
           | None => Some ErrInvalidOnionKey
           | Some _ =>
               let n := length (drop 33 l) in
               if decide (n < routingInfoSize) then Some (short n)
               else if decide (n - routingInfoSize < HMACSize)
                    then Some (short (n - routingInfoSize)) else None
           end
  end.

Lemma OnionPacket_Decode_verdict p0 r :
  sized_OnionPacket p0 → rd_err r = EOF →
  ∃ r' p, OnionPacket_Decode r p0 =
    (r', p, match decode_verdict (rd_content r) with Some e => Err e | None => Ok tt end).
Proof.
  intros [G1 G2] He. unfold OnionPacket_Decode.
  destruct (@readLocal_total OnionPacket 1 r p0 He)
    as [(Hn & r1 & Hr & Hc & He1)|(Hn & r1 & Hr)].
  2: { rewrite (DecM_bind_err _ _ _ _ _ _ _ Hr). exists r1, p0.
       destruct (rd_content r); [done|simpl in Hn; lia]. }
  rewrite (DecM_bind_ok _ _ _ _ _ _ _ Hr). clear Hr.
  destruct (rd_content r) as [|v l] eqn:Hl; [simpl in Hn; lia|].
  cbn [take head drop] in *. rewrite drop_0 in Hc. erewrite DecM_bind_ok by done.
  cbn [decode_verdict]. change (default x00 (Some v)) with v.
  case_decide; [by eexists _, _|].
  destruct (@readLocal_total OnionPacket 33 r1 (set_Version v p0) He1)
    as [(Hn2 & r2 & Hr & Hc2 & He2)|(Hn2 & r2 & Hr)]; rewrite Hc in *.
  2: { rewrite (DecM_bind_err _ _ _ _ _ _ _ Hr). rewrite decide_True by done.
       by eexists _, _. }
  rewrite (DecM_bind_ok _ _ _ _ _ _ _ Hr). clear Hr. rewrite decide_False by lia.
  destruct (parsePubKey (take 33 l)) as [[x y]|].
  2: { erewrite DecM_bind_ok by done. by eexists _, _. }
  erewrite DecM_bind_ok by done. cbv zeta. rewrite <-Hc2.
  total_step (readField_total routingInfoSize RoutingInfo set_RoutingInfo)
    ltac:(by rewrite decide_True by done).
  rewrite decide_False by lia. rewrite <-length_drop, <-Hc0.
  total_step (readField_total HMACSize HeaderMAC set_HeaderMAC)
    ltac:(by rewrite decide_True by done).
  rewrite decide_False by lia. by eexists _, _.
Qed.

(** C12.  [OnionPacket.Decode] on any bytes, however the reader cuts them: it
    fails with the first of: the end of the input, an unknown version, a short
    key, a key that does not parse, a short header, a short MAC; otherwise it
    gives a well-formed packet (of version 0, with a key on the curve) whose
    encoding is exactly the bytes it read. *)
Theorem OnionPacket_Decode_total p0 r :
  sized_OnionPacket p0 → rd_err r = EOF →
  ∃ r' p, match decode_verdict (rd_content r) with
    | Some e => OnionPacket_Decode r p0 = (r', p, Err e)
    | None => OnionPacket_Decode r p0 = (r', p, Ok tt) ∧ wf_OnionPacket p ∧
        ∃ bytes, OnionPacket_Encode p ([] : list byte) = (bytes, Ok tt) ∧
          rd_content r = bytes ++ rd_content r'
    end.
Proof.
  intros Hsz He. destruct (OnionPacket_Decode_verdict p0 r Hsz He) as (r' & p & Hd).
  exists r', p. destruct (decode_verdict (rd_content r)); [done|].
  destruct (OnionPacket_Decode_sound p p0 r r' Hsz Hd) as [Hwf Hc].
  split_and!; [done..|]. exists (OnionPacket_bytes p). split; [|done].
  by apply (OnionPacket_Encode_buffer p []).
Qed.

(** C13.  Packets survive the wire: a well-formed packet is written as 1366
    bytes and read back from any reader that has these bytes, however it cuts
    them and whatever follows them, into any target. *)
Theorem OnionPacket_roundtrip p p0 r rest :
  wf_OnionPacket p → sized_OnionPacket p0 →
  ∃ bytes, OnionPacket_Encode p ([] : list byte) = (bytes, Ok tt) ∧ length bytes = 1366 ∧
    (rd_content r = bytes ++ rest →
     ∃ r', OnionPacket_Decode r p0 = (r', p, Ok tt) ∧ rd_content r' = rest).
Proof.
  intros Hp Hp0. exists (OnionPacket_bytes p). split_and!.
  - by apply (OnionPacket_Encode_buffer p []).
  - by rewrite length_OnionPacket_bytes.
  - intros Hc. destruct (OnionPacket_Decode_ok p p0 r rest Hp Hp0 Hc) as (r' & ? & ? & _). eauto.
Qed.

(** C30.  A writer that fails is reported: on a writer with room for [room]
    bytes, [OnionPacket.Encode] succeeds if and only if the 1366 bytes of the
    packet fit; otherwise it returns the writer's error, and what has been
    written is the first [room] bytes of the packet. *)
Theorem OnionPacket_Encode_limited p room e :
  wf_OnionPacket p →
  OnionPacket_Encode p (mkLimited room [] e) =
  if decide (1366 ≤ room)
  then (mkLimited (room - 1366) (OnionPacket_bytes p) e, Ok tt)
  else (mkLimited 0 (take room (OnionPacket_bytes p)) e, Err e).
Proof.
  intros Hp. pose proof (length_OnionPacket_bytes p Hp) as Hl.
  destruct Hp as (_ & _ & x & y & Hk & _). rewrite (OnionPacket_Encode_writes p x y) by done.
  rewrite write_all_limited. unfold OnionPacket_bytes in *. rewrite Hk in *.
  cbn [concat app] in *. rewrite app_nil_r, Hl. done.
Qed.

End packet_codec.
