(* ===== verification/Path.v ===== *)
(** * Payment paths (path.go)

    A path is an array of [NumMaxHops] hops of which a prefix is in use: the
    first hop without a node key ends it. *)

From S2P Require Import Prelude GoBytes Errors Sha256 Constants Btcec Packet.

Record OnionHop := mkOnionHop {
  NodePub : PublicKey;
  hop_HopData : HopData
}.

(** [type PaymentPath [NumMaxHops]OnionHop] *)
Abbreviation PaymentPath := (list OnionHop) (only parsing).
Definition wf_PaymentPath (p : PaymentPath) : Prop :=
  length p = NumMaxHops ∧ Forall (λ h, wf_HopData (hop_HopData h)) p.

(** The zero value of [OnionHop], and the array of them. *)
Definition zeroOnionHop : OnionHop := mkOnionHop zeroPublicKey zeroHopData.
Definition zeroPaymentPath : PaymentPath := replicate NumMaxHops zeroOnionHop.

(** [func (o OnionHop) IsEmpty() bool] *)
Definition IsEmpty (o : OnionHop) : bool :=
  bool_decide (pub_X (NodePub o) = None) || bool_decide (pub_Y (NodePub o) = None).

(** [func (p *PaymentPath) TrueRouteLength() int]: the [range] loop with its
    early return. *)
Fixpoint routeLength_loop (hops : list OnionHop) (routeLength : nat) : nat :=
  match hops with
  | [] => routeLength
  | hop :: hops =>
      if IsEmpty hop then routeLength else routeLength_loop hops (S routeLength)
  end.
Definition TrueRouteLength (p : PaymentPath) : nat := routeLength_loop p 0.

(** [func (p *PaymentPath) NodeKeys() []*btcec.PublicKey]: [k] passes of the
    loop are left, the next index is [i]. *)
Fixpoint nodeKeys_loop (k i : nat) (p : PaymentPath) (nodeKeys : list (option PublicKey))
    : Outcome error (list (option PublicKey)) :=
  match k with
  | 0 => Ok nodeKeys
  | S k =>
      hop ← index p i;
      _ ← index nodeKeys i;
      nodeKeys_loop k (S i) p (<[i := Some (NodePub hop)]> nodeKeys)
  end.
Definition NodeKeys (p : PaymentPath) : Outcome error (list (option PublicKey)) :=
  let routeLen := TrueRouteLength p in
  nodeKeys ← nodeKeys_loop routeLen 0 p (replicate NumMaxHops None);
  Ok (take routeLen nodeKeys).

(** The hops in use: what the array is read as. *)
Definition route (p : PaymentPath) : list OnionHop := take (TrueRouteLength p) p.

(** [p[i].HopData.HMAC = mac] *)
Definition set_hop_HMAC (mac : list byte) (h : OnionHop) : OnionHop :=
  mkOnionHop (NodePub h) (set_HMAC mac (hop_HopData h)).

(** ** The length of a route *)

Lemma routeLength_loop_spec hops n :
  ∃ m, routeLength_loop hops n = n + m ∧ m ≤ length hops ∧
    Forall (λ h, IsEmpty h = false) (take m hops) ∧
    (∀ h, hops !! m = Some h → IsEmpty h = true).
Proof.
  revert n; induction hops as [|h hops IH]; intros n; simpl.
  - exists 0. split_and!; [lia|lia|done|done].
  - destruct (IsEmpty h) eqn:E.
    + exists 0. split_and!; [lia|lia|done|]. by intros ? [= <-].
    + destruct (IH (S n)) as (m & -> & Hm & Hf & He).
      exists (S m). split_and!; [lia|lia| |done]. by constructor.
Qed.

(** The true length is the index of the first empty hop, or the array's
    length when every hop is in use. *)
Lemma TrueRouteLength_spec p :
  TrueRouteLength p ≤ length p ∧
  Forall (λ h, IsEmpty h = false) (route p) ∧
  (∀ h, p !! TrueRouteLength p = Some h → IsEmpty h = true).
Proof.
  unfold route, TrueRouteLength.
  destruct (routeLength_loop_spec p 0) as (m & -> & ?). done.
Qed.

(** It depends on the keys only. *)
Lemma TrueRouteLength_keys (p q : PaymentPath) :
  NodePub <$> p = NodePub <$> q → TrueRouteLength p = TrueRouteLength q.
Proof.
  unfold TrueRouteLength. generalize 0. revert q.
  induction p as [|h p IH]; intros [|h' q] n Heq; try done.
  rewrite !fmap_cons in Heq. injection Heq as Hh Heq. simpl.
  assert (IsEmpty h' = IsEmpty h) as -> by (unfold IsEmpty; by rewrite Hh).
  destruct (IsEmpty h); auto.
Qed.

Lemma length_route p : length (route p) = TrueRouteLength p.
Proof. unfold route. pose proof (TrueRouteLength_spec p) as [? _]. len. Qed.

Lemma TrueRouteLength_le p : wf_PaymentPath p → TrueRouteLength p ≤ NumMaxHops.
Proof. intros [Hl _]. pose proof (TrueRouteLength_spec p) as [? _]. lia. Qed.

Lemma nodeKeys_loop_spec k (pre p : list OnionHop) :
  length p = NumMaxHops → length pre + k ≤ length p →
  nodeKeys_loop k (length pre) (pre ++ drop (length pre) p)
    (map (Some ∘ NodePub) pre ++ replicate (NumMaxHops - length pre) None) =
  Ok (map (Some ∘ NodePub) (pre ++ take k (drop (length pre) p)) ++
      replicate (NumMaxHops - length pre - k) None).
Proof.
  revert pre. induction k as [|k IH]; intros pre Hp Hk; simpl.
  - by rewrite app_nil_r, Nat.sub_0_r.
  - destruct (lookup_Some_length p (length pre)) as [h Hh]; [lia|].
    rewrite (drop_S _ _ _ Hh).
    rewrite (index_Some _ _ h) by by apply list_lookup_middle.
    destruct (NumMaxHops - length pre) as [|m] eqn:Em; [lia|]. simpl.
    rewrite (index_Some _ (length pre) None); simpl.
    2: { rewrite lookup_app_r, length_map, Nat.sub_diag by (by rewrite length_map). done. }
    rewrite insert_app_r_alt, length_map, Nat.sub_diag by (by rewrite length_map). simpl.
    specialize (IH (pre ++ [h]) Hp).
    rewrite length_app in IH; simpl in IH. rewrite Nat.add_1_r in IH.
    replace (NumMaxHops - S (length pre)) with m in IH by lia.
    rewrite map_app, <-!app_assoc in IH. simpl in IH. by rewrite IH by lia.
Qed.

(** [NodeKeys] returns the keys of the route, in order, none of them nil. *)
Lemma NodeKeys_spec p :
  wf_PaymentPath p → NodeKeys p = Ok (map (Some ∘ NodePub) (route p)).
Proof.
  intros Hp. pose proof (TrueRouteLength_le p Hp). destruct Hp as [Hl _].
  unfold NodeKeys. pose proof (nodeKeys_loop_spec (TrueRouteLength p) [] p Hl) as E.
  cbn [length app map] in E. rewrite drop_0, Nat.sub_0_r in E. rewrite E by lia.
  cbn [mbind Outcome_bind]. f_equal.
  rewrite take_app_ge'; [done|]. rewrite length_map. fold (route p).
  by rewrite length_route.
Qed.

(** A hop in use has both coordinates. *)
Lemma not_IsEmpty o :
  IsEmpty o = false → ∃ x y, pub_X (NodePub o) = Some x ∧ pub_Y (NodePub o) = Some y.
Proof.
  unfold IsEmpty. intros [H1 H2]%orb_false_iff.
  rewrite bool_decide_eq_false in H1, H2.
  destruct (pub_X _), (pub_Y _); naive_solver.
Qed.

(** C33.  The route of a path: [TrueRouteLength] is the index of the first
    empty hop, or 20 if there is none, and [NodeKeys] returns exactly the keys
    of the hops before it, in order, none of them nil and each with both of
    its coordinates. *)
Theorem NodeKeys_route p :
  wf_PaymentPath p →
  ∃ keys, NodeKeys p = Ok (Some <$> keys) ∧ length keys = TrueRouteLength p ∧
    keys = NodePub <$> take (length keys) p ∧ Forall (λ k, is_Some (pub_X k) ∧ is_Some (pub_Y k)) keys ∧
    (length keys = NumMaxHops ∨ ∃ h, p !! length keys = Some h ∧ IsEmpty h = true).
Proof.
  intros Hp. exists (NodePub <$> route p).
  pose proof (TrueRouteLength_spec p) as (Hle & Hne & Hend).
  assert (length (NodePub <$> route p) = TrueRouteLength p) as Hl
    by by rewrite length_fmap, length_route.
  rewrite Hl. split_and!; [|done|done|..].
  - rewrite NodeKeys_spec by done. by rewrite <-list_fmap_compose.
  - rewrite Forall_fmap. eapply Forall_impl; [|exact Hne].
    intros h (x & y & Hx & Hy)%not_IsEmpty. split; by eexists.
  - destruct Hp as [HN _]. destruct (decide (TrueRouteLength p = NumMaxHops)); [by left|right].
    destruct (lookup_Some_length p (TrueRouteLength p)) as [h Hh]; [lia|]. eauto.
Qed.
