(* ===== verification/SharedSecrets.v ===== *)
(** * The shared secrets of a route (sphinx.go, generateSharedSecrets)

    The sender derives, from its session key and the public keys of the
    route, one secret per hop; hop [i] derives its own from the ephemeral key
    in the packet it receives, and blinds that key for hop [i+1].  The loop
    is shown to compute a plain recursion over the route, and the two sides
    are shown to agree at every hop. *)

From S2P Require Import Prelude GoBytes Errors Sha256 Constants Btcec Crypto.

Section shared_secrets.
Context `{Btcec}.

(** The loop of [generateSharedSecrets]: [k] passes are left and the next
    index is [i]; the state is [hopSharedSecrets], [cachedBlindingFactor] and
    [lastBlindingFactor]. *)
Fixpoint sharedSecrets_loop (k i numHops : nat) (paymentPath : list (option PublicKey))
    (hopSharedSecrets : list Hash256) (cachedBlindingFactor : N)
    (lastBlindingFactor : Hash256) : Outcome error (list Hash256) :=
  match k with
  | 0 => Ok hopSharedSecrets
  | S k =>
      let nextBlindingFactor := be_value lastBlindingFactor in
      let cachedBlindingFactor :=
        ((cachedBlindingFactor * nextBlindingFactor) mod Params_N)%N in
      let lastEphemeralPubKey := blindBaseElement (big_bytes cachedBlindingFactor) in
      ptr ← index paymentPath i;
      nodeKey ← deref ptr;
      hopBlindedPubKey ← blindGroupElement nodeKey (big_bytes cachedBlindingFactor);
      ser ← SerializeCompressed hopBlindedPubKey;
      let secret := sha256 ser in
      _ ← index hopSharedSecrets i;
      let hopSharedSecrets := <[i := secret]> hopSharedSecrets in
      if decide (numHops - 1 <= i) then Ok hopSharedSecrets else
      lastBlindingFactor ← computeBlindingFactor lastEphemeralPubKey secret;
      sharedSecrets_loop k (S i) numHops paymentPath hopSharedSecrets
        cachedBlindingFactor lastBlindingFactor
  end.

Definition generateSharedSecrets (paymentPath : list (option PublicKey))
    (sessionKey : PrivateKey) : Outcome error (list Hash256) :=
  let numHops := length paymentPath in
  let hopSharedSecrets := replicate numHops (zeros sha256_Size) in
  let lastEphemeralPubKey := priv_PubKey sessionKey in
  ptr ← index paymentPath 0;
  firstKey ← deref ptr;
  secret0 ← generateSharedSecret firstKey sessionKey;
  _ ← index hopSharedSecrets 0;
  let hopSharedSecrets := <[0 := secret0]> hopSharedSecrets in
  lastBlindingFactor ← computeBlindingFactor lastEphemeralPubKey secret0;
  let cachedBlindingFactor := be_value (big_bytes (priv_D sessionKey)) in
  sharedSecrets_loop (numHops - 1) 1 numHops paymentPath hopSharedSecrets
    cachedBlindingFactor lastBlindingFactor.

(** The other side: the nodes of a route, each deriving its secret from the
    ephemeral key that reaches it and blinding that key for the next node, as
    [unwrapPacket] does. *)
Fixpoint hop_secrets (nodes : list PrivateKey) (dhKey : PublicKey)
    : Outcome error (list Hash256) :=
  match nodes with
  | [] => Ok []
  | k :: nodes =>
      sharedSecret ← Router_generateSharedSecret k dhKey;
      blindingFactor ← computeBlindingFactor dhKey sharedSecret;
      nextDHKey ← blindGroupElement dhKey blindingFactor;
      secrets ← hop_secrets nodes nextDHKey;
      Ok (sharedSecret :: secrets)
  end.

(** ** The reference: secrets, ephemeral keys and blinding factors of a route

    All three are given by the running product [c] of the session scalar and
    the blinding factors so far. *)

Abbreviation point := (N * N)%type (only parsing).
Definition smul (P : point) (k : N) : point := ScalarMult P.1 P.2 (big_bytes k).
Definition G : point := (Params_Gx, Params_Gy).
Definition ser (P : point) : list byte := serializeCompressed P.1 P.2.
Definition on_curve (P : point) : Prop := valid_point P.1 P.2.

(** The key whose point is [P]. *)
Definition key_of (P : point) : PublicKey :=
  mkPublicKey (Some S256) (Some P.1) (Some P.2).
(** The point of a key ([0, 0] if a coordinate is nil). *)
Definition point_of (p : PublicKey) : point :=
  (default 0%N (pub_X p), default 0%N (pub_Y p)).
Definition has_point (p : PublicKey) : Prop :=
  is_Some (pub_X p) ∧ is_Some (pub_Y p).

(** The secret of a hop whose key is [P], the blinding factor it gives rise
    to, and the running product for the next hop. *)
Definition secret_at (c : N) (P : point) : Hash256 := sha256 (ser (smul P c)).
Definition blind_at (c : N) (P : point) : Hash256 :=
  sha256 (ser (smul G c) ++ secret_at c P).
Definition next_factor (c : N) (P : point) : N :=
  ((c * be_value (blind_at c P)) mod Params_N)%N.

Fixpoint ref_secrets (c : N) (ps : list point) : list Hash256 :=
  match ps with
  | [] => []
  | P :: ps => secret_at c P :: ref_secrets (next_factor c P) ps
  end.

(** No blinding factor along the route is a multiple of the group order
    (each is a SHA-256 digest: the sender could not use such a session). *)
Fixpoint blinding_ok (c : N) (ps : list point) : Prop :=
  match ps with
  | [] => True
  | P :: ps =>
      (be_value (blind_at c P) mod Params_N ≠ 0)%N ∧ blinding_ok (next_factor c P) ps
  end.

#[export] Instance blinding_ok_dec c ps : Decision (blinding_ok c ps).
Proof. revert c; induction ps; intros c; simpl; apply _. Defined.

Lemma point_of_key_of P : point_of (key_of P) = P.
Proof. by destruct P. Qed.

Lemma length_ref_secrets c ps : length (ref_secrets c ps) = length ps.
Proof. revert c; induction ps; intros c; simpl; auto. Qed.

Lemma ref_secrets_sized c ps : Forall wf_Hash256 (ref_secrets c ps).
Proof.
  revert c; induction ps as [|P ps IH]; intros c; constructor; [|apply IH].
  apply length_sha256.
Qed.

End shared_secrets.

(** ** The loop computes the reference *)

Section sender.
Context `{BtcecLaws}.

Lemma SerializeCompressed_key_of P : SerializeCompressed (key_of P) = Ok (ser P).
Proof. reflexivity. Qed.

Lemma blindBaseElement_key k :
  blindBaseElement (big_bytes k) = key_of (smul G k).
Proof.
  unfold blindBaseElement, smul, G. rewrite ScalarBaseMult_spec.
  by destruct (ScalarMult _ _ _).
Qed.

Lemma blindGroupElement_key p k :
  has_point p →
  blindGroupElement p (big_bytes k) = Ok (key_of (smul (point_of p) k)).
Proof.
  intros [[x Hx] [y Hy]]. unfold blindGroupElement, smul, point_of.
  rewrite Hx, Hy; simpl. by destruct (ScalarMult _ _ _).
Qed.

Lemma computeBlindingFactor_key P ss :
  computeBlindingFactor (key_of P) ss = Ok (sha256 (ser P ++ ss)).
Proof.
  unfold computeBlindingFactor. rewrite SerializeCompressed_key_of; simpl.
  by rewrite go_copy_full by len.
Qed.

Lemma generateSharedSecret_key p k :
  has_point p → generateSharedSecret p k = Ok (secret_at (priv_D k) (point_of p)).
Proof.
  intros [[x Hx] [y Hy]]. unfold generateSharedSecret, secret_at, smul, point_of.
  rewrite Hx, Hy; simpl. by destruct (ScalarMult _ _ _).
Qed.

(** From pass [i] on, the loop fills in the reference secrets of the hops
    from [i] on. *)
Lemma sharedSecrets_loop_spec (keys : list PublicKey) k pre c P post :
  Forall has_point keys →
  length keys = length pre + k → length post = k → 0 < length pre →
  sharedSecrets_loop k (length pre) (length keys) (Some <$> keys) (pre ++ post)
    c (blind_at c P) =
  Ok (pre ++ ref_secrets (next_factor c P) (point_of <$> drop (length pre) keys)).
Proof.
  intros Hk. revert pre c P post. induction k as [|k IH]; intros pre c P post Hl Hp Hpos.
  - rewrite drop_ge by lia. destruct post; [done|discriminate].
  - destruct (lookup_Some_length keys (length pre)) as [key Hkey]; [lia|].
    assert (has_point key) as Hhas by (by eapply Forall_lookup_1).
    destruct post as [|z post]; [discriminate|]. cbn [sharedSecrets_loop].
    rewrite (index_Some (Some <$> keys) _ (Some key)) by (by rewrite list_lookup_fmap, Hkey).
    cbn [mbind Outcome_bind deref].
    rewrite blindGroupElement_key by done. cbn [mbind Outcome_bind].
    rewrite SerializeCompressed_key_of. cbn [mbind Outcome_bind].
    fold (next_factor c P). fold (secret_at (next_factor c P) (point_of key)).
    rewrite (index_Some (pre ++ z :: post) _ z) by (by apply list_lookup_middle).
    cbn [mbind Outcome_bind].
    rewrite insert_app_r_alt, Nat.sub_diag by lia. simpl.
    rewrite (drop_S _ _ _ Hkey), fmap_cons. simpl.
    case_decide as Hlast.
    + assert (k = 0) as -> by lia. destruct post; [|discriminate].
      by rewrite drop_ge by lia.
    + rewrite blindBaseElement_key, computeBlindingFactor_key. cbn [mbind Outcome_bind].
      fold (blind_at (next_factor c P) (point_of key)).
      specialize (IH (pre ++ [secret_at (next_factor c P) (point_of key)])
        (next_factor c P) (point_of key) post).
      rewrite length_app in IH; simpl in IH. rewrite Nat.add_1_r in IH.
      rewrite <-!app_assoc in IH. simpl in IH, Hp. by rewrite IH by lia.
Qed.

Lemma generateSharedSecrets_ref keys sk :
  Forall has_point keys → keys ≠ [] → wf_priv sk →
  generateSharedSecrets (Some <$> keys) sk =
  Ok (ref_secrets (priv_D sk) (point_of <$> keys)).
Proof.
  intros Hk Hne [_ Hpub]. destruct keys as [|key keys]; [done|].
  unfold generateSharedSecrets. rewrite length_fmap.
  change (index (Some <$> key :: keys) 0) with (Ok (E:=error) (Some key)).
  cbn [mbind Outcome_bind deref].
  rewrite generateSharedSecret_key by by inversion Hk.
  cbn [mbind Outcome_bind length replicate index lookup list_lookup].
  rewrite Hpub. unfold base_key. fold (blindBaseElement (big_bytes (priv_D sk))).
  rewrite blindBaseElement_key, computeBlindingFactor_key. cbn [mbind Outcome_bind].
  fold (blind_at (priv_D sk) (point_of key)). rewrite be_value_big_bytes.
  pose proof (sharedSecrets_loop_spec (key :: keys) (length keys)
    [secret_at (priv_D sk) (point_of key)] (priv_D sk) (point_of key)
    (replicate (length keys) (zeros sha256_Size)) Hk) as E.
  simpl in E. rewrite drop_0 in E. simpl. rewrite Nat.sub_0_r. rewrite E; [done|lia|len|lia].
Qed.

End sender.

(** ** Every hop derives the secret the sender has for it *)

Section receiver.
Context `{BtcecLaws}.

Lemma on_curve_G : on_curve G.
Proof. apply base_valid. Qed.

Lemma smul_on_curve P k :
  on_curve P → (k mod Params_N ≠ 0)%N → on_curve (smul P k).
Proof.
  intros HP Hk. unfold on_curve, smul. destruct (ScalarMult _ _ _) as [x y] eqn:E.
  eapply ScalarMult_valid, E; [apply HP|]. by rewrite be_value_big_bytes.
Qed.

(** Multiplying twice is multiplying by the product, the second scalar being
    any byte string. *)
Lemma smul_bytes P a b :
  on_curve P → (a mod Params_N ≠ 0)%N →
  ScalarMult (smul P a).1 (smul P a).2 b =
  smul P ((a * be_value b) mod Params_N).
Proof.
  intros [HP _] Ha. unfold smul. destruct (ScalarMult _ _ (big_bytes a)) as [x y] eqn:E.
  simpl. eapply (ScalarMult_mul P.1 P.2 (big_bytes a)); try done.
  - by rewrite be_value_big_bytes.
  - by rewrite !be_value_big_bytes, N.Div0.mod_mod.
Qed.

Lemma smul_comm P a b :
  on_curve P → (a mod Params_N ≠ 0)%N → (b mod Params_N ≠ 0)%N →
  smul (smul P a) b = smul (smul P b) a.
Proof.
  intros HP Ha Hb. unfold smul at 1 3. rewrite !smul_bytes by done.
  by rewrite !be_value_big_bytes, N.mul_comm.
Qed.

Lemma wf_priv_point k : wf_priv k → priv_PubKey k = key_of (smul G (priv_D k)).
Proof. intros [_ ->]. rewrite <-blindBaseElement_key. reflexivity. Qed.

Lemma wf_priv_mod k : wf_priv k → (priv_D k mod Params_N ≠ 0)%N.
Proof. intros Hk%wf_priv_nonzero. by rewrite be_value_big_bytes in Hk. Qed.

#[local] Hint Resolve on_curve_G wf_priv_mod : onion.

(** The receiver multiplies the ephemeral key [c * G] by its scalar, the
    sender multiplies the receiver's key by [c]: the secrets are equal. *)
Lemma receiver_secret k c :
  wf_priv k → (c mod Params_N ≠ 0)%N →
  Router_generateSharedSecret k (key_of (smul G c)) =
  Ok (secret_at c (point_of (priv_PubKey k))).
Proof.
  intros Hk Hc. unfold Router_generateSharedSecret. cbn [pub_X pub_Y key_of deref mbind Outcome_bind].
  pose proof (proj1 (smul_on_curve G c on_curve_G Hc)) as Hon.
  rewrite Hon, generateSharedSecret_key by (by split; eexists).
  rewrite (wf_priv_point k Hk), !point_of_key_of. unfold secret_at.
  by rewrite smul_comm by auto with onion.
Qed.

(** The receiver's blinding of the ephemeral key gives the key the sender
    uses for the next hop. *)
Lemma receiver_blinding P c :
  (c mod Params_N ≠ 0)%N →
  computeBlindingFactor (key_of (smul G c)) (secret_at c P) = Ok (blind_at c P) ∧
  blindGroupElement (key_of (smul G c)) (blind_at c P) = Ok (key_of (smul G (next_factor c P))).
Proof.
  intros Hc. split; [apply computeBlindingFactor_key|].
  unfold blindGroupElement. cbn [pub_X pub_Y key_of deref mbind Outcome_bind].
  rewrite smul_bytes by auto with onion.
  unfold next_factor, key_of. by destruct (smul G _).
Qed.

Lemma next_factor_mod c P :
  (c mod Params_N ≠ 0)%N → (be_value (blind_at c P) mod Params_N ≠ 0)%N →
  (next_factor c P mod Params_N ≠ 0)%N.
Proof.
  intros Hc Hb. unfold next_factor. rewrite N.Div0.mod_mod.
  by apply order_no_zero_divisors.
Qed.

#[local] Hint Resolve next_factor_mod : onion.

Lemma hop_secrets_ref nodes c :
  Forall wf_priv nodes → (c mod Params_N ≠ 0)%N →
  blinding_ok c ((point_of ∘ priv_PubKey) <$> nodes) →
  hop_secrets nodes (key_of (smul G c)) =
  Ok (ref_secrets c ((point_of ∘ priv_PubKey) <$> nodes)).
Proof.
  intros Hn. revert c. induction Hn as [|k nodes Hk _ IH]; intros c Hc Hb; [done|].
  rewrite fmap_cons in Hb |- *. cbn [hop_secrets blinding_ok ref_secrets] in Hb |- *.
  unfold compose in Hb at 1 2. unfold compose at 1 2. destruct Hb as [Hb1 Hb2].
  rewrite receiver_secret by done. cbn [mbind Outcome_bind].
  destruct (receiver_blinding (point_of (priv_PubKey k)) c Hc) as [-> Hbl].
  cbn [mbind Outcome_bind]. rewrite Hbl. cbn [mbind Outcome_bind].
  by rewrite IH by auto with onion.
Qed.

Lemma wf_priv_has_point k : wf_priv k → has_point (priv_PubKey k).
Proof. intros Hk. rewrite (wf_priv_point k Hk). by split; eexists. Qed.

Lemma sender_secrets nodes sk :
  Forall wf_priv nodes → wf_priv sk → nodes ≠ [] →
  generateSharedSecrets (Some <$> (priv_PubKey <$> nodes)) sk =
  Ok (ref_secrets (priv_D sk) ((point_of ∘ priv_PubKey) <$> nodes)).
Proof.
  intros Hn Hsk Hne. rewrite generateSharedSecrets_ref; [| |by destruct nodes|done].
  - by rewrite <-list_fmap_compose.
  - rewrite Forall_fmap. eapply Forall_impl; [|exact Hn]. intros k Hk. by apply wf_priv_has_point.
Qed.

(** C6.  Both ends of a route have the same secrets: the secrets the sender
    computes with [generateSharedSecrets] from the nodes' public keys and its
    session key are those the nodes derive, each from its private key and the
    ephemeral key that reaches it, the first key being the session's public
    key and each next one the blinding of the one before.  In particular the
    sender's running product modulo the group order agrees with the nodes'
    successive blindings of the point. *)
Theorem shared_secrets_agree nodes sk :
  Forall wf_priv nodes → wf_priv sk → nodes ≠ [] →
  blinding_ok (priv_D sk) ((point_of ∘ priv_PubKey) <$> nodes) →
  ∃ secrets, generateSharedSecrets (Some <$> (priv_PubKey <$> nodes)) sk = Ok secrets ∧
    hop_secrets nodes (priv_PubKey sk) = Ok secrets ∧
    length secrets = length nodes ∧ Forall wf_Hash256 secrets.
Proof.
  intros Hn Hsk Hne Hb. eexists. split_and!.
  - by apply sender_secrets.
  - rewrite (wf_priv_point sk Hsk). apply hop_secrets_ref; auto with onion.
  - by rewrite length_ref_secrets, length_fmap.
  - apply ref_secrets_sized.
Qed.

End receiver.

#[export] Hint Resolve on_curve_G smul_on_curve wf_priv_mod wf_priv_has_point
  next_factor_mod : onion.
