(* ===== verification/Onion.v ===== *)
(** * Building and unwrapping onion packets (sphinx.go, lines 269-381 and
    612-715)

    [NewOnionPacket] with its helpers [rightShift] and
    [generateHeaderPadding], and [unwrapPacket] and [processOnionPacket].
    The mix header is one array updated in place by every pass of the loop;
    the path handed in is updated too, each hop being given its HMAC. *)

From S2P Require Import Prelude GoBytes Errors GoIO Sha256 Constants Btcec Crypto Packet Path.
From S2P Require Import SharedSecrets.

(** The slice expression [l[lo:hi]]. *)
Definition go_slice (l : list byte) (lo hi : nat) : Outcome error (list byte) :=
  if decide (lo <= hi ∧ hi <= length l) then Ok (take (hi - lo) (drop lo l)) else Panic.

(** ** rightShift *)

(** [for i := len(slice) - num - 1; i >= 0; i--] { slice[num+i] = slice[i] }:
    [k] is one more than the next index. *)
Fixpoint shift_loop (k num : nat) (slice : list byte) : Outcome error (list byte) :=
  match k with
  | 0 => Ok slice
  | S i =>
      x ← index slice i;
      _ ← index slice (num + i);
      shift_loop i num (<[num + i := x]> slice)
  end.

(** [for i := 0; i < num; i++] { slice[i] = 0 } *)
Fixpoint zero_loop (k i : nat) (slice : list byte) : Outcome error (list byte) :=
  match k with
  | 0 => Ok slice
  | S k =>
      _ ← index slice i;
      zero_loop k (S i) (<[i := x00]> slice)
  end.

Definition rightShift (slice : list byte) (num : nat) : Outcome error (list byte) :=
  slice ← shift_loop (length slice - num) num slice;
  zero_loop num 0 slice.

Section onion.
Context `{Btcec} `{Chacha20}.

(** ** generateHeaderPadding

    Pass [i] of the loop; [totalFillerSize] is an [int], and negative for
    [i] above [NumMaxHops + 1], where slicing with it panics. *)
Fixpoint padding_loop (k i : nat) (key : string) (hopSize : nat)
    (sharedSecrets : list Hash256) (filler : list byte) : Outcome error (list byte) :=
  match k with
  | 0 => Ok filler
  | S k =>
      if decide (NumMaxHops + 1 < i) then Panic else
      let totalFillerSize := (NumMaxHops + 1 - i) * hopSize in
      secret ← index sharedSecrets (i - 1);
      let streamKey := generateKey key secret in
      streamBytes ← generateCipherStream streamKey numStreamBytes;
      b ← go_slice streamBytes totalFillerSize (totalFillerSize + i * hopSize);
      '(filler, _) ← xor_self filler b;
      padding_loop k (S i) key hopSize sharedSecrets filler
  end.

Definition generateHeaderPadding (key : string) (numHops hopSize : nat)
    (sharedSecrets : list Hash256) : Outcome error (list byte) :=
  if decide (numHops = 0) then Panic else
  let filler := zeros ((numHops - 1) * hopSize) in
  padding_loop (numHops - 1) 1 key hopSize sharedSecrets filler.

(** ** NewOnionPacket

    The loop from the last hop to the first: [k] is one more than the next
    index; the state is the path, the mix header and the HMAC for the hop
    before. *)
Fixpoint onion_loop (k numHops : nat) (hopSharedSecrets : list Hash256)
    (filler assocData : list byte) (paymentPath : PaymentPath)
    (mixHeader nextHmac : list byte)
    : Outcome error (PaymentPath * list byte * list byte) :=
  match k with
  | 0 => Ok (paymentPath, mixHeader, nextHmac)
  | S i =>
      secret ← index hopSharedSecrets i;
      let rhoKey := generateKey "rho" secret in
      let muKey := generateKey "mu" secret in
      hop ← index paymentPath i;
      let hop := set_hop_HMAC nextHmac hop in
      let paymentPath := <[i := hop]> paymentPath in
      streamBytes ← generateCipherStream rhoKey numStreamBytes;
      mixHeader ← rightShift mixHeader HopDataSize;
      let '(hopDataBuf, err) := HopData_Encode (hop_HopData hop) ([] : list byte) in
      _ ← err;
      let mixHeader := go_copy mixHeader hopDataBuf in
      stream ← go_slice streamBytes 0 routingInfoSize;
      '(mixHeader, _) ← xor_self mixHeader stream;
      mixHeader ←
        (if decide (i = numHops - 1) then
           if decide (length filler <= length mixHeader)
           then Ok (go_copy_at mixHeader (length mixHeader - length filler) filler)
           else Panic
         else Ok mixHeader);
      let packet := mixHeader ++ assocData in
      let nextHmac := calcMac muKey packet in
      onion_loop i numHops hopSharedSecrets filler assocData paymentPath
        mixHeader nextHmac
  end.

Definition NewOnionPacket (paymentPath : PaymentPath) (sessionKey : PrivateKey)
    (assocData : list byte) : Outcome error (PaymentPath * OnionPacket) :=
  let numHops := TrueRouteLength paymentPath in
  nodeKeys ← NodeKeys paymentPath;
  hopSharedSecrets ← generateSharedSecrets nodeKeys sessionKey;
  filler ← generateHeaderPadding "rho" numHops HopDataSize hopSharedSecrets;
  '(paymentPath, mixHeader, nextHmac) ←
    onion_loop numHops numHops hopSharedSecrets filler assocData paymentPath
      (zeros routingInfoSize) (zeros HMACSize);
  Ok (paymentPath,
      mkOnionPacket baseVersion (Some (priv_PubKey sessionKey)) mixHeader nextHmac).

(** ** unwrapPacket and processOnionPacket *)

Definition unwrapPacket (onionPkt : OnionPacket) (sharedSecret : Hash256)
    (assocData : list byte) : Outcome error (OnionPacket * HopData) :=
  let routeInfo := RoutingInfo onionPkt in
  let headerMac := HeaderMAC onionPkt in
  let message := routeInfo ++ assocData in
  let calculatedMac := calcMac (generateKey "mu" sharedSecret) message in
  if negb (hmac_Equal headerMac calculatedMac) then Err ErrInvalidOnionHMAC else
  streamBytes ← generateCipherStream (generateKey "rho" sharedSecret) numStreamBytes;
  let zeroBytes := zeros HopDataSize in
  let headerWithPadding := routeInfo ++ zeroBytes in
  '(hopInfo, _) ← xor (zeros numStreamBytes) headerWithPadding streamBytes;
  dhKey ← deref (EphemeralKey onionPkt);
  blindingFactor ← computeBlindingFactor dhKey sharedSecret;
  nextDHKey ← blindGroupElement dhKey blindingFactor;
  let '(_, hopData, err) := HopData_Decode (bytes_reader hopInfo) zeroHopData in
  _ ← err;
  let nextMixHeader := go_copy (zeros routingInfoSize) (drop HopDataSize hopInfo) in
  Ok (mkOnionPacket (Version onionPkt) (Some nextDHKey) nextMixHeader (HMAC hopData),
      hopData).

(** The argument [sharedSecretGen] of the function is not used by its body. *)
Definition processOnionPacket (onionPkt : OnionPacket) (sharedSecret : Hash256)
    (assocData : list byte) : Outcome error ProcessedPacket :=
  '(innerPkt, outerHopData) ← unwrapPacket onionPkt sharedSecret assocData;
  let action := if bool_decide (zeroHMAC = HMAC outerHopData) then ExitNode else MoreHops in
  Ok (mkProcessedPacket action outerHopData (Some innerPkt)).

End onion.

(** ** The in-place loops *)

Lemma shift_loop_spec k num (orig : list byte) :
  num + k ≤ length orig →
  shift_loop k num (take (num + k) orig ++ drop k (take (length orig - num) orig)) =
  Ok (take num orig ++ take (length orig - num) orig).
Proof.
  induction k as [|i IH]; intros Hk; simpl.
  - by rewrite Nat.add_0_r, drop_0.
  - destruct (lookup_Some_length orig i) as [x Hx]; [lia|].
    destruct (lookup_Some_length orig (num + i)) as [y Hy]; [lia|].
    replace (num + S i) with (S (num + i)) by lia.
    rewrite (take_S_r _ _ _ Hy), <-app_assoc. simpl.
    rewrite (index_Some _ i x); simpl.
    2: { destruct (decide (i < num + i)).
         - rewrite lookup_app_l, lookup_take_lt by (len; lia). done.
         - assert (num = 0) as -> by lia. simpl in *. simplify_eq.
           apply list_lookup_middle. len. }
    rewrite (index_Some _ (num + i) y) by (apply list_lookup_middle; len). simpl.
    rewrite insert_app_r_alt by (len; lia).
    rewrite length_take, Nat.min_l, Nat.sub_diag by lia. simpl.
    rewrite <-IH by lia. f_equal. f_equal.
    symmetry. apply drop_S. rewrite lookup_take_lt by lia. done.
Qed.

Lemma zero_loop_spec k (pre l : list byte) :
  k ≤ length l →
  zero_loop k (length pre) (pre ++ l) = Ok (pre ++ zeros k ++ drop k l).
Proof.
  revert pre l. induction k as [|k IH]; intros pre l Hk; simpl.
  - by rewrite drop_0.
  - destruct l as [|y l]; simpl in Hk; [lia|].
    rewrite (index_Some _ _ y) by by apply list_lookup_middle. simpl.
    rewrite insert_app_r_alt, Nat.sub_diag by lia. simpl.
    specialize (IH (pre ++ [x00]) l). rewrite length_app, Nat.add_1_r in IH.
    rewrite <-!app_assoc in IH. simpl in IH. by rewrite IH by lia.
Qed.

(** [rightShift] moves the slice right by [num] bytes, zero-filling the gap
    and dropping what falls off the end. *)
Lemma rightShift_spec slice num :
  num ≤ length slice →
  rightShift slice num = Ok (zeros num ++ take (length slice - num) slice).
Proof.
  intros Hn. unfold rightShift.
  pose proof (shift_loop_spec (length slice - num) num slice) as E.
  replace (num + (length slice - num)) with (length slice) in E by lia.
  rewrite take_ge in E by lia. rewrite (drop_ge (take _ _)), app_nil_r in E by (len; lia).
  rewrite E by lia. cbn [mbind Outcome_bind].
  pose proof (zero_loop_spec num [] (take num slice ++ take (length slice - num) slice)) as E2.
  simpl in E2. rewrite E2 by (len; lia). by rewrite drop_app_ge' by (len; lia).
Qed.

Lemma go_slice_ok l lo hi :
  lo ≤ hi → hi ≤ length l → go_slice l lo hi = Ok (take (hi - lo) (drop lo l)).
Proof. intros. unfold go_slice. by rewrite decide_True. Qed.

Lemma zero_loop_panic k (slice : list byte) i :
  i ≤ length slice → length slice < i + k → zero_loop k i slice = Panic.
Proof.
  revert i slice. induction k as [|k IH]; intros i slice Hi Hk; [lia|]. cbn [zero_loop].
  destruct (decide (i < length slice)) as [Hlt|Hge].
  - destruct (lookup_Some_length slice i Hlt) as [y Hy]. rewrite (index_Some _ _ _ Hy).
    cbn [mbind Outcome_bind]. apply IH; rewrite length_insert; lia.
  - unfold index. by rewrite lookup_ge_None_2 by lia.
Qed.

(** C27.  [rightShift] on a slice of any length: shifting in place, from the
    end to the front, gives [num] zero bytes followed by the front of the
    slice, and no byte is read after it has been overwritten; shifting by more
    than the length of the slice panics. *)
Theorem rightShift_total slice num :
  rightShift slice num =
  if decide (num ≤ length slice)
  then Ok (zeros num ++ take (length slice - num) slice) else Panic.
Proof.
  case_decide as Hn; [by apply rightShift_spec|]. unfold rightShift.
  replace (length slice - num) with 0 by lia. cbn [shift_loop mbind Outcome_bind].
  apply zero_loop_panic; lia.
Qed.
