(* ===== verification/Layers.v ===== *)
(** * The layers of an onion

    A reference for [NewOnionPacket]: the mix header and MAC of a route as a
    recursion over its hops, and the filler as a fold over their secrets.
    The loops of the code are shown to compute them, and peeling a layer is
    shown to give back the hop's payload and the header of the hops after it:
    the filler placed at the innermost layer makes the bytes that each hop
    appends equal to the bytes the sender dropped. *)

From S2P Require Import Prelude GoBytes Errors GoIO Sha256 Constants Btcec Crypto Packet Path.
From S2P Require Import SharedSecrets Onion.

Section layers.
Context `{BtcecLaws} `{Chacha20Laws}.

(** The key stream of a secret, as a total function. *)
Definition rho (ss : Hash256) : list byte :=
  match generateCipherStream (generateKey "rho" ss) numStreamBytes with
  | Ok s => s
  | _ => []
  end.

Lemma rho_ok ss : generateCipherStream (generateKey "rho" ss) numStreamBytes = Ok (rho ss).
Proof.
  unfold rho. by destruct (generateCipherStream_ok "rho" ss numStreamBytes) as (s & -> & _).
Qed.

Lemma length_rho ss : length (rho ss) = numStreamBytes.
Proof.
  unfold rho. by destruct (generateCipherStream_ok "rho" ss numStreamBytes) as (s & -> & ?).
Qed.

(** ** The filler *)

Definition fill_step (F : list byte) (ss : Hash256) : list byte :=
  xor_bytes (F ++ zeros HopDataSize) (drop (routingInfoSize - length F) (rho ss)).
Definition fill (secrets : list Hash256) : list byte := foldl fill_step [] secrets.

Lemma fill_snoc l s : fill (l ++ [s]) = fill_step (fill l) s.
Proof. unfold fill. by rewrite foldl_snoc. Qed.

Lemma length_fill l :
  length l ≤ NumMaxHops → length (fill l) = length l * HopDataSize.
Proof.
  induction l as [|s l IH] using rev_ind; intros Hl; [done|].
  rewrite length_app in Hl; simpl in Hl.
  rewrite fill_snoc. unfold fill_step. rewrite length_xor_bytes. len_simp.
  rewrite IH, length_rho by lia.
  pose proof numStreamBytes_val. pose proof routingInfoSize_val.
  assert (length l * HopDataSize ≤ routingInfoSize) by nia. simpl. lia.
Qed.

(** From pass [i] on, the loop turns the filler of the first [i - 1] secrets,
    followed by zeros, into the filler of all. *)
Lemma padding_loop_spec k (pre post : list Hash256) rest :
  length post = k → length pre + k ≤ NumMaxHops →
  padding_loop k (S (length pre)) "rho" HopDataSize (pre ++ post ++ rest)
    (fill pre ++ zeros (k * HopDataSize)) = Ok (fill (pre ++ post)).
Proof.
  revert pre post. induction k as [|k IH]; intros pre post Hp Hk.
  - destruct post; [|discriminate]. simpl. rewrite !app_nil_r. done.
  - destruct post as [|s post]; [discriminate|]. cbn [padding_loop].
    rewrite decide_False by lia.
    rewrite (index_Some _ _ s) by (apply list_lookup_middle; lia).
    cbn [mbind Outcome_bind]. rewrite rho_ok. cbn [mbind Outcome_bind].
    pose proof numStreamBytes_val as HN. pose proof routingInfoSize_val as HR.
    pose proof (length_fill pre ltac:(lia)) as HF.
    rewrite go_slice_ok by (rewrite ?length_rho; nia). cbn [mbind Outcome_bind].
    rewrite take_ge by (rewrite length_drop, length_rho; nia).
    rewrite xor_self_spec. cbn [mbind Outcome_bind].
    replace ((NumMaxHops + 1 - S (length pre)) * HopDataSize)
      with (routingInfoSize - length (fill pre)) by nia.
    assert (length (drop (routingInfoSize - length (fill pre)) (rho s)) =
      length (fill pre ++ zeros HopDataSize)) as HL.
    { rewrite length_app, length_drop, length_rho, length_zeros. nia. }
    replace (fill pre ++ zeros (S k * HopDataSize))
      with ((fill pre ++ zeros HopDataSize) ++ zeros (k * HopDataSize)).
    2: { unfold zeros. by rewrite <-app_assoc, <-replicate_add. }
    rewrite HL, drop_app_length.
    rewrite <-(app_nil_r (drop _ (rho s))), xor_bytes_app by done.
    replace (xor_bytes (zeros (k * HopDataSize)) []) with (@nil byte)
      by (by rewrite xor_bytes_comm).
    rewrite app_nil_r. fold (fill_step (fill pre) s). rewrite <-fill_snoc.
    specialize (IH (pre ++ [s]) post). rewrite length_app, Nat.add_1_r in IH.
    rewrite <-!app_assoc in IH. simpl in IH, Hp |- *.
    by rewrite IH by lia.
Qed.

Lemma generateHeaderPadding_spec secrets last :
  length secrets < NumMaxHops →
  generateHeaderPadding "rho" (S (length secrets)) HopDataSize (secrets ++ [last]) =
  Ok (fill secrets).
Proof.
  intros Hl. unfold generateHeaderPadding. rewrite decide_False by lia.
  replace (S (length secrets) - 1) with (length secrets) by lia.
  pose proof (padding_loop_spec (length secrets) [] secrets [last] eq_refl) as E.
  simpl in E. apply E. lia.
Qed.

(** ** Headers and MACs *)

Context (assoc filler : list byte).

(** A hop with the secret the sender has for it. *)
Abbreviation hop := (Hash256 * OnionHop)%type (only parsing).

(** Encrypting a payload in front of the header of the hops after it. *)
Definition layer (ss : Hash256) (payload M : list byte) : list byte :=
  xor_bytes (payload ++ take (routingInfoSize - HopDataSize) M) (take routingInfoSize (rho ss)).

Definition put_filler (M : list byte) : list byte :=
  take (routingInfoSize - length filler) M ++ filler.

Fixpoint build (hops : list hop) : list byte * list byte :=
  match hops with
  | [] => (zeros routingInfoSize, zeros HMACSize)
  | (ss, h) :: rest =>
      let '(M, mac) := build rest in
      let M1 := layer ss (HopData_bytes (set_HMAC mac (hop_HopData h))) M in
      let M2 := match rest with [] => put_filler M1 | _ => M1 end in
      (M2, calcMac (generateKey "mu" ss) (M2 ++ assoc))
  end.
Definition header (hops : list hop) : list byte := (build hops).1.
Definition mac (hops : list hop) : list byte := (build hops).2.

(** The hops with the HMACs the sender stores in them. *)
Fixpoint stamp (hops : list hop) : list OnionHop :=
  match hops with
  | [] => []
  | (ss, h) :: rest => set_hop_HMAC (mac rest) h :: stamp rest
  end.

(** What a hop of the route is to receive. *)
Definition payload (h : hop) (rest : list hop) : HopData :=
  set_HMAC (mac rest) (hop_HopData h.2).

Lemma header_cons h rest :
  header (h :: rest) =
  let M := layer h.1 (HopData_bytes (payload h rest)) (header rest) in
  match rest with [] => put_filler M | _ => M end.
Proof. destruct h as [ss h]. unfold header, payload, mac. simpl. by destruct (build rest). Qed.

Lemma mac_cons h rest :
  mac (h :: rest) = calcMac (generateKey "mu" h.1) (header (h :: rest) ++ assoc).
Proof. destruct h as [ss h]. unfold header, mac. simpl. by destruct (build rest). Qed.

Lemma length_mac hops : length (mac hops) = HMACSize.
Proof.
  destruct hops as [|h rest]; [apply length_zeros|]. rewrite mac_cons. by len_simp.
Qed.

Definition wf_hop (h : hop) : Prop := wf_HopData (hop_HopData h.2).

Lemma wf_payload h rest : wf_hop h → wf_HopData (payload h rest).
Proof.
  intros (? & ? & ? & ? & ? & ?). unfold payload. split_and!; try done. apply length_mac.
Qed.

Lemma length_layer ss hd M :
  length hd = HopDataSize → length M = routingInfoSize →
  length (layer ss hd M) = routingInfoSize.
Proof.
  intros Hh HM. unfold layer. len_simp. rewrite length_rho.
  pose proof numStreamBytes_val. pose proof routingInfoSize_val.
  assert (HopDataSize ≤ routingInfoSize) by (pose proof HopDataSize_val; unfold NumMaxHops in *; lia).
  lia.
Qed.

Hypothesis filler_length : length filler ≤ routingInfoSize - HopDataSize.

Lemma length_put_filler M :
  length M = routingInfoSize → length (put_filler M) = routingInfoSize.
Proof. intros HM. unfold put_filler. len_simp. lia. Qed.

Lemma length_header hops :
  Forall wf_hop hops → length (header hops) = routingInfoSize.
Proof.
  induction 1 as [|h rest Hh Hrest IH]; [apply length_zeros|].
  rewrite header_cons.
  pose proof (length_layer h.1 _ (header rest)
    (length_HopData_bytes _ (wf_payload h rest Hh)) IH).
  simpl. destruct rest; [by apply length_put_filler|done].
Qed.

(** ** The loop of [NewOnionPacket] *)

Lemma onion_step ss hd M :
  length hd = HopDataSize → length M = routingInfoSize →
  (M1 ← rightShift M HopDataSize;
   s ← go_slice (rho ss) 0 routingInfoSize;
   '(M2, _) ← xor_self (go_copy M1 hd) s;
   Ok M2) = Ok (E:=error) (layer ss hd M).
Proof.
  intros Hh HM.
  pose proof numStreamBytes_val. pose proof routingInfoSize_val.
  assert (HopDataSize ≤ routingInfoSize) by (pose proof HopDataSize_val; unfold NumMaxHops in *; lia).
  rewrite rightShift_spec by lia. cbn [mbind Outcome_bind].
  rewrite go_slice_ok by (rewrite ?length_rho; lia). cbn [mbind Outcome_bind].
  rewrite drop_0, Nat.sub_0_r, HM.
  unfold go_copy. rewrite take_ge by (len; rewrite length_zeros; lia).
  rewrite (drop_app_ge' (zeros _)) by (by rewrite length_zeros).
  rewrite xor_self_spec. cbn [mbind Outcome_bind].
  rewrite (drop_ge (hd ++ _)), app_nil_r; [done|].
  len_simp. rewrite length_rho. lia.
Qed.

(** The filler goes into the innermost layer and into no other. *)
Lemma filler_step (pre : list hop) (h : hop) (post : list hop) :
  wf_hop h → Forall wf_hop post →
  let M := layer h.1 (HopData_bytes (payload h post)) (header post) in
  (if decide (length pre = length (pre ++ h :: post) - 1) then
     if decide (length filler ≤ length M)
     then Ok (go_copy_at M (length M - length filler) filler) else Panic
   else Ok M) = Ok (E:=error) (header (h :: post)).
Proof.
  intros Hh Hpost M.
  assert (length M = routingInfoSize) as HM.
  { apply length_layer; [apply length_HopData_bytes, wf_payload, Hh|by apply length_header]. }
  rewrite header_cons. fold M. cbv zeta. rewrite length_app. simpl.
  destruct post as [|h' post]; simpl.
  - rewrite decide_True by lia. rewrite decide_True by lia.
    unfold go_copy_at, put_filler. rewrite HM, go_copy_full; [done|].
    rewrite length_drop. lia.
  - by rewrite decide_False by lia.
Qed.

Lemma onion_loop_spec k (pre post : list hop) (tail : list OnionHop) n :
  Forall wf_hop (pre ++ post) → n = length (pre ++ post) → length pre = k →
  onion_loop k n (fst <$> pre ++ post) filler assoc
    ((snd <$> pre) ++ stamp post ++ tail) (header post) (mac post) =
  Ok (stamp (pre ++ post) ++ tail, header (pre ++ post), mac (pre ++ post)).
Proof.
  revert pre post. induction k as [|i IH]; intros pre post Hwf Hn Hk.
  - destruct pre; [|discriminate]. done.
  - destruct pre as [|h pre _] using rev_ind; [discriminate|].
    rewrite length_app, Nat.add_1_r in Hk. injection Hk as <-.
    rewrite <-app_assoc in Hwf, Hn |- *. cbn [app] in Hwf, Hn |- *. subst n. cbn [onion_loop].
    assert (wf_hop h) as Hh.
    { rewrite Forall_app in Hwf. by destruct Hwf as [_ [??]%Forall_cons_1]. }
    assert (Forall wf_hop post) as Hpost.
    { rewrite Forall_app in Hwf. by destruct Hwf as [_ [??]%Forall_cons_1]. }
    rewrite (index_Some _ _ h.1).
    2: { rewrite list_lookup_fmap, list_lookup_middle by done. done. }
    cbn [mbind Outcome_bind].
    rewrite (fmap_app snd pre [h]), <-app_assoc. cbn [fmap list_fmap app].
    rewrite (index_Some _ _ h.2) by (apply list_lookup_middle; by rewrite length_fmap).
    cbn [mbind Outcome_bind]. rewrite rho_ok. cbn [mbind Outcome_bind].
    rewrite insert_app_r_alt, length_fmap, Nat.sub_diag by (by rewrite length_fmap).
    cbn [insert list_insert hop_HopData set_hop_HMAC].
    pose proof (onion_step h.1 (HopData_bytes (payload h post)) (header post)
      (length_HopData_bytes _ (wf_payload h post Hh)) (length_header post Hpost)) as Estep.
    destruct (rightShift (header post) HopDataSize) as [M1| |]; try discriminate Estep.
    cbn [mbind Outcome_bind] in Estep |- *.
    change (set_HMAC (mac post) (hop_HopData h.2)) with (payload h post).
    rewrite HopData_Encode_buffer. cbn [mbind Outcome_bind app].
    destruct (go_slice (rho h.1) 0 routingInfoSize) as [s| |]; try discriminate Estep.
    cbn [mbind Outcome_bind] in Estep |- *.
    destruct (xor_self (go_copy M1 _) s) as [[M2 ?]| |]; try discriminate Estep.
    cbn [mbind Outcome_bind] in Estep |- *. simplify_eq.
    rewrite (filler_step pre h post Hh Hpost).
    cbn [mbind Outcome_bind]. rewrite <-mac_cons.
    specialize (IH pre (h :: post) Hwf). destruct h as [ss h]. simpl in IH |- *.
    by rewrite IH.
Qed.

End layers.
