(* ===== verification/Peel.v ===== *)
(** * Peeling a layer

    Decrypting the header of a hop gives back its payload followed by the
    header of the hops after it, bit for bit, so that the next hop's MAC
    check succeeds; [unwrapPacket] and [processOnionPacket] are then
    evaluated on the packets of a route. *)

From S2P Require Import Prelude GoBytes Errors GoIO Sha256 Constants Btcec Crypto Packet Path.
From S2P Require Import SharedSecrets Onion Layers.

Section peel.
Context `{BtcecLaws} `{Chacha20Laws}.
Context (assoc filler : list byte).
Hypothesis filler_length : length filler ≤ routingInfoSize - HopDataSize.

Local Abbreviation header := (header assoc filler).
Local Abbreviation mac := (mac assoc filler).
Local Abbreviation payload := (payload assoc filler).

Lemma hop_fits : HopDataSize ≤ routingInfoSize.
Proof. pose proof routingInfoSize_val. unfold NumMaxHops in *. lia. Qed.

Lemma xor_layer ss hd M :
  length hd = HopDataSize → length M = routingInfoSize →
  xor_bytes (layer ss hd M) (take routingInfoSize (rho ss)) =
  hd ++ take (routingInfoSize - HopDataSize) M.
Proof.
  intros Hh HM. pose proof hop_fits. pose proof numStreamBytes_val.
  unfold layer. apply xor_bytes_cancel. len_simp. rewrite length_rho. lia.
Qed.

(** The stream cut at the end of the header. *)
Lemma rho_split ss :
  rho ss = take routingInfoSize (rho ss) ++ drop routingInfoSize (rho ss).
Proof. by rewrite take_drop. Qed.

Lemma decrypt_split ss M :
  length M = routingInfoSize →
  xor_bytes (M ++ zeros HopDataSize) (rho ss) =
  xor_bytes M (take routingInfoSize (rho ss)) ++ drop routingInfoSize (rho ss).
Proof.
  intros HM. pose proof numStreamBytes_val.
  rewrite (rho_split ss) at 1. rewrite xor_bytes_app by (len_simp; rewrite length_rho; lia).
  f_equal. apply xor_bytes_zeros_l. rewrite length_drop, length_rho. lia.
Qed.

(** ** The filler is what the hops see at the end of the header *)

Lemma drop_put_filler M :
  length M = routingInfoSize →
  drop (routingInfoSize - length filler) (put_filler filler M) = filler.
Proof.
  intros HM. pose proof hop_fits. unfold put_filler.
  apply drop_app_ge'. rewrite length_take. lia.
Qed.

Lemma take_put_filler M :
  length M = routingInfoSize →
  take HopDataSize (put_filler filler M) = take HopDataSize M.
Proof.
  intros HM. pose proof hop_fits. unfold put_filler.
  rewrite take_app_le, take_take by (rewrite length_take; lia). f_equal. lia.
Qed.

(** After the hops with secrets [pre], the header ends with their filler. *)
Lemma header_tail (pre : list Hash256) (hops : list (Hash256 * OnionHop)) h :
  Forall wf_hop (hops ++ [h]) →
  length pre + length hops < NumMaxHops → filler = fill (pre ++ (fst <$> hops)) →
  drop (routingInfoSize - length (fill pre)) (header (hops ++ [h])) = fill pre.
Proof.
  revert pre. induction hops as [|x hops IH]; intros pre Hwf Hl Hf.
  - rewrite app_nil_r in Hf. rewrite <-Hf. simpl. rewrite header_cons. cbv zeta.
    apply drop_put_filler. apply length_layer; [|apply length_zeros].
    apply length_HopData_bytes, wf_payload. by inversion Hwf.
  - simpl in Hwf, Hl |- *. apply Forall_cons_1 in Hwf as [Hx Hwf].
    specialize (IH (pre ++ [x.1]) Hwf). rewrite length_app in IH. simpl in IH.
    rewrite <-app_assoc in IH. specialize (IH ltac:(lia) Hf).
    pose proof routingInfoSize_val as HR. pose proof numStreamBytes_val as HN.
    pose proof (length_fill pre ltac:(lia)) as HF.
    pose proof (length_header assoc filler filler_length (hops ++ [h]) Hwf) as HM.
    assert (length (fill pre) + HopDataSize ≤ routingInfoSize) as Hfit by nia.
    rewrite fill_snoc in IH. unfold fill_step in IH.
    rewrite length_xor_bytes in IH. autorewrite with onion_len in IH.
    rewrite length_rho in IH.
    replace ((length (fill pre) + HopDataSize) `min`
      (numStreamBytes - (routingInfoSize - length (fill pre))))
      with (length (fill pre) + HopDataSize) in IH by lia.
    rewrite header_cons. cbv zeta.
    destruct (hops ++ [h]) as [|y ys] eqn:E; [by destruct hops|]. rewrite <-E in *. clear y ys E.
    unfold layer. rewrite drop_xor_bytes.
    rewrite drop_app_ge.
    2: { rewrite length_HopData_bytes by by apply wf_payload. lia. }
    rewrite length_HopData_bytes by by apply wf_payload.
    rewrite !skipn_firstn_comm.
    replace (routingInfoSize - HopDataSize - (routingInfoSize - length (fill pre) - HopDataSize))
      with (length (fill pre)) by lia.
    replace (routingInfoSize - (routingInfoSize - length (fill pre)))
      with (length (fill pre)) by lia.
    replace (routingInfoSize - length (fill pre) - HopDataSize)
      with (routingInfoSize - (length (fill pre) + HopDataSize)) by lia.
    rewrite IH, take_xor_bytes, take_app_length.
    apply xor_bytes_cancel. rewrite length_take, length_drop, length_rho. lia.
Qed.

(** The bytes a hop's stream adds at the end are the last bytes of the next
    header. *)
Lemma header_next_tail (pre : list Hash256) x (hops : list (Hash256 * OnionHop)) h :
  Forall wf_hop (hops ++ [h]) →
  length pre + S (length hops) < NumMaxHops →
  filler = fill (pre ++ x :: (fst <$> hops)) →
  drop (routingInfoSize - HopDataSize) (header (hops ++ [h])) =
  drop routingInfoSize (rho x).
Proof.
  intros Hwf Hl Hf.
  pose proof (header_tail (pre ++ [x]) hops h Hwf) as Ht.
  rewrite length_app, <-app_assoc in Ht. simpl in Ht. specialize (Ht ltac:(lia) Hf).
  pose proof routingInfoSize_val as HR. pose proof numStreamBytes_val as HN.
  pose proof (length_fill pre ltac:(lia)) as HF.
  pose proof (length_fill (pre ++ [x]) ltac:(rewrite length_app; simpl; lia)) as HF'.
  rewrite length_app in HF'. simpl in HF'.
  apply (f_equal (drop (length (fill pre)))) in Ht. rewrite drop_drop in Ht.
  replace (routingInfoSize - length (fill (pre ++ [x])) + length (fill pre))
    with (routingInfoSize - HopDataSize) in Ht by nia.
  rewrite Ht, fill_snoc. unfold fill_step. rewrite drop_xor_bytes, drop_drop.
  rewrite drop_app_length.
  replace (routingInfoSize - length (fill pre) + length (fill pre))
    with routingInfoSize by nia.
  apply xor_bytes_zeros_l. rewrite length_drop, length_rho. lia.
Qed.

(** ** Decrypting the header of a hop *)

Lemma decrypt_inner (pre : list Hash256) (x : Hash256 * OnionHop) hops h :
  Forall wf_hop (x :: hops ++ [h]) →
  length pre + S (length hops) < NumMaxHops →
  filler = fill (pre ++ x.1 :: (fst <$> hops)) →
  xor_bytes (header (x :: hops ++ [h]) ++ zeros HopDataSize) (rho x.1) =
  HopData_bytes (payload x (hops ++ [h])) ++ header (hops ++ [h]).
Proof.
  intros Hwf Hl Hf. pose proof Hwf as Hwf'. apply Forall_cons_1 in Hwf' as [Hx Hrest].
  rewrite decrypt_split by by apply length_header.
  rewrite header_cons. cbv zeta.
  destruct (hops ++ [h]) as [|y ys] eqn:E; [by destruct hops|]. rewrite <-E in *. clear y ys E.
  rewrite xor_layer; [|apply length_HopData_bytes; by apply wf_payload|by apply length_header].
  rewrite <-app_assoc. f_equal.
  rewrite <-(header_next_tail pre x.1 hops h) by done. apply take_drop.
Qed.

Lemma decrypt_last (h : Hash256 * OnionHop) :
  wf_hop h →
  ∃ rest, length rest = routingInfoSize ∧
    xor_bytes (header [h] ++ zeros HopDataSize) (rho h.1) =
    HopData_bytes (payload h []) ++ rest.
Proof.
  intros Hh. assert (Forall wf_hop [h]) as Hwf by by apply Forall_singleton.
  pose proof (length_header assoc filler filler_length _ Hwf) as HM.
  pose proof hop_fits. pose proof numStreamBytes_val.
  pose proof (length_HopData_bytes _ (wf_payload assoc filler h [] Hh)) as Hp.
  set (d := xor_bytes _ _).
  assert (length d = numStreamBytes) as Hd.
  { unfold d. len_simp. rewrite length_rho, HM. lia. }
  exists (drop HopDataSize d). split; [rewrite length_drop; lia|].
  rewrite <-(take_drop HopDataSize d) at 1. f_equal.
  unfold d. rewrite take_xor_bytes, take_app_le by lia.
  rewrite header_cons. cbv zeta. rewrite take_put_filler.
  2: { by apply length_layer; [|apply length_zeros]. }
  replace (take HopDataSize (rho h.1)) with
    (take HopDataSize (take routingInfoSize (rho h.1)))
    by (rewrite take_take; f_equal; lia).
  rewrite <-take_xor_bytes, xor_layer by (done || apply length_zeros).
  by rewrite take_app_ge'.
Qed.

(** ** Processing a packet of the route *)

(** The packet that reaches a hop, its ephemeral key being [c * G]. *)
Definition packet_for (c : N) (hops : list (Hash256 * OnionHop)) : OnionPacket :=
  mkOnionPacket baseVersion (Some (key_of (smul G c))) (header hops) (mac hops).

(** [unwrapPacket] when the MAC checks and the decrypted bytes are known. *)
Lemma unwrapPacket_eval ver c P M hd rest :
  (c mod Params_N ≠ 0)%N → wf_HopData hd → length M = routingInfoSize →
  length rest = routingInfoSize →
  xor_bytes (M ++ zeros HopDataSize) (rho (secret_at c P)) = HopData_bytes hd ++ rest →
  unwrapPacket (mkOnionPacket ver (Some (key_of (smul G c))) M
      (calcMac (generateKey "mu" (secret_at c P)) (M ++ assoc)))
    (secret_at c P) assoc =
  Ok (mkOnionPacket ver (Some (key_of (smul G (next_factor c P)))) rest (HMAC hd), hd).
Proof.
  intros Hc Hhd HM Hrest Hx. unfold unwrapPacket.
  cbn [RoutingInfo HeaderMAC EphemeralKey Version].
  unfold hmac_Equal. rewrite bool_decide_eq_true_2 by done. cbn [negb].
  rewrite rho_ok. cbn [mbind Outcome_bind].
  pose proof numStreamBytes_val.
  rewrite xor_same_length by
    (rewrite ?length_app, ?length_zeros, ?length_rho; lia).
  cbn [mbind Outcome_bind deref]. rewrite Hx.
  destruct (receiver_blinding P c Hc) as [-> Hb]. cbn [mbind Outcome_bind].
  rewrite Hb. cbn [mbind Outcome_bind].
  destruct (HopData_Decode_ok hd zeroHopData (bytes_reader (HopData_bytes hd ++ rest)) rest
    Hhd zeroHopData_wf (rd_content_bytes_reader _)) as (r' & -> & _).
  cbn [mbind Outcome_bind].
  rewrite drop_app_ge' by by rewrite length_HopData_bytes.
  by rewrite go_copy_full by by rewrite length_zeros.
Qed.

Lemma unwrapPacket_inner pre c (x : Hash256 * OnionHop) hops h P :
  (c mod Params_N ≠ 0)%N → x.1 = secret_at c P →
  Forall wf_hop (x :: hops ++ [h]) →
  length pre + S (length hops) < NumMaxHops →
  filler = fill (pre ++ x.1 :: (fst <$> hops)) →
  unwrapPacket (packet_for c (x :: hops ++ [h])) x.1 assoc =
  Ok (packet_for (next_factor c P) (hops ++ [h]), payload x (hops ++ [h])).
Proof.
  intros Hc Hs Hwf Hl Hf. pose proof Hwf as Hwf'. apply Forall_cons_1 in Hwf' as [Hx Hrest].
  unfold packet_for. rewrite mac_cons.
  pose proof (decrypt_inner pre x hops h Hwf Hl Hf) as Hd. rewrite Hs in Hd |- *.
  rewrite (unwrapPacket_eval _ _ _ _ _ _ Hc (wf_payload _ _ _ _ Hx)
    (length_header _ _ filler_length _ Hwf) (length_header _ _ filler_length _ Hrest) Hd).
  done.
Qed.

Lemma unwrapPacket_last c (h : Hash256 * OnionHop) P :
  (c mod Params_N ≠ 0)%N → h.1 = secret_at c P → wf_hop h →
  ∃ inner, unwrapPacket (packet_for c [h]) h.1 assoc = Ok (inner, payload h []).
Proof.
  intros Hc Hs Hh. destruct (decrypt_last h Hh) as (rest & Hrest & Hd).
  unfold packet_for. rewrite mac_cons. rewrite Hs in Hd |- *.
  eexists. apply unwrapPacket_eval; try done; [by apply wf_payload|].
  apply length_header; [done|]. by apply Forall_singleton.
Qed.

End peel.
