(* ===== verification/Sphinx.v ===== *)
(** * Packets through a route: the correctness of the onion

    [NewOnionPacket] followed by [processOnionPacket] at every node of the
    route, as in the package's TestSphinxCorrectness; and what both functions
    do on any other input. *)

From S2P Require Import Prelude GoBytes Errors GoIO Sha256 Constants Btcec Crypto Packet Path.
From S2P Require Import SharedSecrets Onion Layers Peel.

Section relay.
Context `{Btcec} `{Chacha20}.

(** The nodes with the given onion keys process a packet one after the
    other, each handing the next packet on. *)
Fixpoint relay (assocData : list byte) (nodes : list PrivateKey) (pkt : OnionPacket)
    : Outcome error (list ProcessedPacket) :=
  match nodes with
  | [] => Ok []
  | k :: nodes =>
      dhKey ← deref (EphemeralKey pkt);
      sharedSecret ← Router_generateSharedSecret k dhKey;
      pp ← processOnionPacket pkt sharedSecret assocData;
      next ← deref (NextPacket pp);
      pps ← relay assocData nodes next;
      Ok (pp :: pps)
  end.

(** The action a payload's HMAC stands for. *)
Definition action_of (hd : HopData) : ProcessCode :=
  if bool_decide (zeroHMAC = HMAC hd) then ExitNode else MoreHops.

(** The sender's view of a route: each hop with its secret. *)
Definition secret_hops (c : N) (hops : list OnionHop) : list (Hash256 * OnionHop) :=
  zip (ref_secrets c ((point_of ∘ NodePub) <$> hops)) hops.

End relay.

Section correct.
Context `{BtcecLaws} `{Chacha20Laws}.

Lemma secret_hops_cons c h hops :
  secret_hops c (h :: hops) =
  (secret_at c (point_of (NodePub h)), h) ::
  secret_hops (next_factor c (point_of (NodePub h))) hops.
Proof. reflexivity. Qed.

Lemma secret_hops_fst c hops :
  fst <$> secret_hops c hops = ref_secrets c ((point_of ∘ NodePub) <$> hops).
Proof. apply fst_zip. rewrite length_ref_secrets. len. Qed.

Lemma secret_hops_snd c hops : snd <$> secret_hops c hops = hops.
Proof. apply snd_zip. rewrite length_ref_secrets. len. Qed.

Lemma secret_hops_lookup c hops i ss h :
  secret_hops c hops !! i = Some (ss, h) → hops !! i = Some h.
Proof.
  intros Hh. rewrite <-(secret_hops_snd c hops), list_lookup_fmap, Hh. done.
Qed.

Lemma length_secret_hops c hops : length (secret_hops c hops) = length hops.
Proof. by rewrite <-(secret_hops_snd c hops) at 2; rewrite length_fmap. Qed.

Lemma secret_hops_wf c hops :
  Forall (λ h, wf_HopData (hop_HopData h)) hops → Forall wf_hop (secret_hops c hops).
Proof.
  intros Hw. rewrite <-(secret_hops_snd c hops) in Hw.
  rewrite Forall_fmap in Hw. done.
Qed.

Lemma stamp_shape assoc filler hops :
  length (stamp assoc filler hops) = length hops ∧
  NodePub <$> stamp assoc filler hops = NodePub <$> (snd <$> hops).
Proof.
  induction hops as [|[ss h] hops [IH1 IH2]]; [done|]. simpl. split; [lia|].
  unfold fmap in *. simpl. by f_equal.
Qed.

(** ** Building *)

Lemma NewOnionPacket_spec path sk assoc hs h :
  wf_PaymentPath path → wf_priv sk →
  secret_hops (priv_D sk) (route path) = hs ++ [h] →
  let filler := fill (fst <$> hs) in
  NewOnionPacket path sk assoc =
  Ok (stamp assoc filler (hs ++ [h]) ++ drop (TrueRouteLength path) path,
      packet_for assoc filler (priv_D sk) (hs ++ [h])).
Proof.
  intros Hp Hsk Hs filler. unfold NewOnionPacket. rewrite NodeKeys_spec by done.
  cbn [mbind Outcome_bind].
  pose proof (TrueRouteLength_le path Hp) as Hle.
  assert (TrueRouteLength path = S (length hs)) as Hlen.
  { rewrite <-length_route, <-(length_secret_hops (priv_D sk)), Hs, length_app. simpl. lia. }
  change (map (Some ∘ NodePub) (route path)) with ((Some ∘ NodePub) <$> route path).
  rewrite (list_fmap_compose NodePub Some).
  rewrite generateSharedSecrets_ref; [|..|done].
  2: { rewrite Forall_fmap. eapply Forall_impl; [|exact (proj1 (proj2 (TrueRouteLength_spec path)))].
       intros o (x & y & Hx & Hy)%not_IsEmpty. split; by eexists. }
  2: { intros Hnil%(f_equal length). rewrite length_fmap, length_route in Hnil. simpl in Hnil. lia. }
  cbn [mbind Outcome_bind].
  rewrite <-list_fmap_compose, <-secret_hops_fst, Hs, fmap_app, Hlen.
  change (fst <$> [h]) with [h.1].
  rewrite <-(length_fmap fst hs), generateHeaderPadding_spec by (rewrite length_fmap; lia).
  cbn [mbind Outcome_bind]. rewrite length_fmap.
  assert (length filler ≤ routingInfoSize - HopDataSize) as Hf.
  { unfold filler. rewrite length_fill by (rewrite length_fmap; lia).
    rewrite length_fmap. pose proof routingInfoSize_val. nia. }
  assert (Forall wf_hop (hs ++ [h])) as Hwf.
  { rewrite <-Hs. apply secret_hops_wf. unfold route. apply Forall_take, Hp. }
  pose proof (onion_loop_spec assoc filler Hf (S (length hs)) (hs ++ [h]) []
    (drop (S (length hs)) path) (S (length hs))) as E.
  rewrite !app_nil_r, length_app, Nat.add_1_r in E.
  specialize (E Hwf eq_refl eq_refl).
  change [h.1] with (fst <$> [h]). rewrite <-fmap_app.
  assert (path = (snd <$> hs ++ [h]) ++ drop (S (length hs)) path) as Hpath.
  { rewrite <-Hs, secret_hops_snd. unfold route. by rewrite Hlen, take_drop. }
  rewrite Hpath at 1.
  change (stamp assoc filler []) with (@nil OnionHop) in E.
  change (header assoc filler []) with (zeros routingInfoSize) in E.
  change (mac assoc filler []) with (zeros HMACSize) in E. cbn [app] in E.
  fold filler. rewrite E. cbn [mbind Outcome_bind].
  unfold packet_for. by rewrite (wf_priv_point sk Hsk).
Qed.

(** ** Relaying *)

Lemma relay_spec assoc filler nodes pre c hops :
  length filler ≤ routingInfoSize - HopDataSize →
  Forall wf_priv nodes → (c mod Params_N ≠ 0)%N →
  (point_of ∘ NodePub) <$> hops = (point_of ∘ priv_PubKey) <$> nodes →
  blinding_ok c ((point_of ∘ priv_PubKey) <$> nodes) →
  Forall (λ h, wf_HopData (hop_HopData h)) hops →
  length pre + length hops ≤ NumMaxHops →
  (∀ hs h, secret_hops c hops = hs ++ [h] → filler = fill (pre ++ (fst <$> hs))) →
  ∃ pps, relay assoc nodes (packet_for assoc filler c (secret_hops c hops)) = Ok pps ∧
    (λ pp, (Action pp, ForwardingInstructions pp)) <$> pps =
    (λ h, (action_of (hop_HopData h), hop_HopData h)) <$>
      stamp assoc filler (secret_hops c hops).
Proof.
  intros Hf Hn. revert pre c hops.
  induction Hn as [|k nodes Hk Hn IH]; intros pre c [|h hops] Hc Hpts Hb Hwf Hl Hfill;
    try discriminate Hpts; [by exists []|].
  rewrite secret_hops_cons in Hfill |- *.
  rewrite !fmap_cons in Hpts. cbn [fmap list_fmap blinding_ok] in Hb. apply cons_eq_inj in Hpts as [Hpt Hpts].
  unfold compose in Hpt at 1 2. rewrite <-Hpts in IH.
  change ((point_of ∘ priv_PubKey) k) with (point_of (priv_PubKey k)) in Hb.
  rewrite <-Hpt, <-Hpts in Hb.
  destruct Hb as [Hbk Hb]. apply Forall_cons_1 in Hwf as [Hh Hwf]. simpl in Hl.
  set (P := point_of (NodePub h)) in *. set (s := secret_at c P) in *.
  cbn [relay]. 
  change (EphemeralKey (packet_for assoc filler c ?l)) with (Some (key_of (smul G c))).
  cbn [deref mbind Outcome_bind].
  rewrite receiver_secret, <-Hpt by done. fold P s. cbn [mbind Outcome_bind].
  destruct hops as [|h2 hops].
  - destruct nodes as [|]; [|discriminate Hpts]. unfold processOnionPacket.
    destruct (unwrapPacket_last assoc filler Hf c (s, h) P Hc eq_refl Hh) as [inner Hu].
    cbn [fst] in Hu. change (secret_hops _ []) with (@nil (Hash256 * OnionHop)).
    rewrite Hu.
    eexists. split; [done|]. done.
  - destruct (exists_last (l := secret_hops (next_factor c P) (h2 :: hops))) as (hs & l & E);
      [by rewrite secret_hops_cons|].
    destruct (IH (pre ++ [s]) (next_factor c P) (h2 :: hops)) as (pps & Hr & Hpps); try done.
    { by apply next_factor_mod. }
    { rewrite length_app. simpl in Hl |- *. lia. }
    { intros hs' h' E'. rewrite <-app_assoc. apply (Hfill ((s, h) :: hs') h').
      by rewrite E'. }
    rewrite E in Hr, Hpps |- *.
    assert (Forall wf_hop ((s, h) :: hs ++ [l])) as Hwf'.
    { constructor; [done|]. rewrite <-E. by apply secret_hops_wf. }
    assert (length hs = length hops) as Hlen.
    { apply (f_equal length) in E. rewrite length_secret_hops, length_app in E. simpl in E. lia. }
    unfold processOnionPacket.
    rewrite (unwrapPacket_inner assoc filler Hf pre c (s, h) hs l P); simpl in Hl |- *; try done.
    2: lia.
    2: { apply (Hfill ((s, h) :: hs) l). by rewrite E. }
    rewrite Hr. eexists. split; [done|]. by rewrite fmap_cons, Hpps.
Qed.

(** The hops of a route the sender has stamped: the HMAC of the last is
    zero, everything but the HMAC is as it was. *)
Lemma stamp_lookup assoc filler hops i ss h :
  hops !! i = Some (ss, h) →
  stamp assoc filler hops !! i =
  Some (set_hop_HMAC (mac assoc filler (drop (S i) hops)) h).
Proof.
  revert i; induction hops as [|[ss' h'] hops IH]; intros [|i] Hi; try done.
  - simpl in *. simplify_eq. by rewrite drop_0.
  - simpl in *. by apply IH.
Qed.

(** Building and relaying together: what the nodes see is what the sender
    stamped into the path. *)
Lemma route_relayed path sk assoc nodes :
  wf_PaymentPath path → wf_priv sk → Forall wf_priv nodes → nodes ≠ [] →
  (point_of ∘ NodePub) <$> route path = (point_of ∘ priv_PubKey) <$> nodes →
  blinding_ok (priv_D sk) ((point_of ∘ priv_PubKey) <$> nodes) →
  let hops := secret_hops (priv_D sk) (route path) in
  ∃ filler pkt pps,
    NewOnionPacket path sk assoc =
      Ok (stamp assoc filler hops ++ drop (TrueRouteLength path) path, pkt) ∧
    relay assoc nodes pkt = Ok pps ∧ length hops = length nodes ∧
    (λ pp, (Action pp, ForwardingInstructions pp)) <$> pps =
    (λ h, (action_of (hop_HopData h), hop_HopData h)) <$> stamp assoc filler hops.
Proof.
  intros Hp Hsk Hn Hne Hpts Hb hops.
  assert (length hops = length nodes) as Hlen.
  { apply (f_equal length) in Hpts. rewrite !length_fmap in Hpts.
    unfold hops. by rewrite length_secret_hops. }
  destruct (exists_last (l := hops)) as (hs & l & E).
  { intros Hnil. rewrite Hnil in Hlen. by destruct nodes. }
  pose proof (NewOnionPacket_spec path sk assoc hs l Hp Hsk E) as Hnew.
  cbv zeta in Hnew. set (filler := fill (fst <$> hs)) in *. rewrite <-E in Hnew.
  pose proof (TrueRouteLength_le path Hp) as Hle.
  assert (length (route path) = S (length hs)) as Hroute.
  { rewrite <-(length_secret_hops (priv_D sk)). fold hops. rewrite E, length_app. simpl. lia. }
  rewrite length_route in Hroute.
  destruct (relay_spec assoc filler nodes [] (priv_D sk) (route path)) as (pps & Hr & Hpps);
    try done.
  { unfold filler. rewrite length_fill by (rewrite length_fmap; lia).
    rewrite length_fmap. pose proof routingInfoSize_val. nia. }
  { by apply wf_priv_mod. }
  { unfold route. apply Forall_take, Hp. }
  { rewrite length_route. simpl. lia. }
  { fold hops. rewrite E. intros hs' h' [-> ->]%app_inj_tail. done. }
  eauto 10.
Qed.

(** C1.  Onion correctness.  For a path whose route has the public keys of
    the nodes, a packet built by [NewOnionPacket] is accepted by every node
    in turn: node [i] recovers exactly the hop data the sender has for hop
    [i] (the caller's hop data with the HMAC that [NewOnionPacket] stored in
    the path), the last node finds the zero HMAC and is told that it is the
    exit node, and a node whose HMAC is not all zeros is told to forward. *)
Theorem sphinx_route_correct path sk assoc nodes :
  wf_PaymentPath path → wf_priv sk → Forall wf_priv nodes → nodes ≠ [] →
  (point_of ∘ NodePub) <$> route path = (point_of ∘ priv_PubKey) <$> nodes →
  blinding_ok (priv_D sk) ((point_of ∘ priv_PubKey) <$> nodes) →
  ∃ path' pkt pps,
    NewOnionPacket path sk assoc = Ok (path', pkt) ∧
    relay assoc nodes pkt = Ok pps ∧ length pps = length nodes ∧
    ∀ i pp, pps !! i = Some pp →
      ∃ h mac, path !! i = Some h ∧ path' !! i = Some (set_hop_HMAC mac h) ∧
        ForwardingInstructions pp = set_HMAC mac (hop_HopData h) ∧
        (S i = length nodes → mac = zeroHMAC ∧ Action pp = ExitNode) ∧
        (mac ≠ zeroHMAC → Action pp = MoreHops).
Proof.
  intros Hp Hsk Hn Hne Hpts Hb.
  destruct (route_relayed path sk assoc nodes Hp Hsk Hn Hne Hpts Hb)
    as (filler & pkt & pps & Hnew & Hr & Hlen & Hpps).
  set (hops := secret_hops (priv_D sk) (route path)) in *.
  assert (length pps = length nodes) as Hlpps.
  { apply (f_equal length) in Hpps. rewrite !length_fmap in Hpps.
    by rewrite Hpps, (proj1 (stamp_shape _ _ _)). }
  do 3 eexists. split_and!; [exact Hnew|exact Hr|exact Hlpps|]. intros i pp Hi.
  pose proof (lookup_lt_Some _ _ _ Hi).
  destruct (lookup_Some_length hops i) as [[ss h] Hh]; [lia|].
  pose proof (stamp_lookup assoc filler hops i ss h Hh) as Hst.
  apply (f_equal (lookup i)) in Hpps. rewrite !list_lookup_fmap, Hi, Hst in Hpps.
  injection Hpps as Ha Hfi.
  exists h, (mac assoc filler (drop (S i) hops)). split_and!.
  - by apply secret_hops_lookup, lookup_take_Some in Hh as [? _].
  - by apply lookup_app_l_Some.
  - done.
  - intros Hlast. rewrite drop_ge by lia. rewrite drop_ge in Ha by lia. done.
  - intros Hmac. rewrite Ha. unfold action_of. simpl.
    rewrite bool_decide_eq_false_2; [done|congruence].
Qed.

(** The path after [NewOnionPacket]. *)
Definition stamped (c : N) (assoc filler : list byte) (path : list OnionHop) : list OnionHop :=
  stamp assoc filler (secret_hops c (route path)) ++ drop (TrueRouteLength path) path.

Lemma stamped_length c assoc filler path : length (stamped c assoc filler path) = length path.
Proof.
  unfold stamped. rewrite length_app, (proj1 (stamp_shape _ _ _)), length_secret_hops, length_route.
  pose proof (TrueRouteLength_spec path) as [? _]. len.
Qed.

Lemma stamped_keys c assoc filler path :
  TrueRouteLength (stamped c assoc filler path) = TrueRouteLength path.
Proof.
  apply TrueRouteLength_keys. unfold stamped.
  rewrite fmap_app, (proj2 (stamp_shape _ _ _)), secret_hops_snd, <-fmap_app.
  unfold route. by rewrite take_drop.
Qed.

Lemma stamped_lookup c assoc filler path i h :
  path !! i = Some h →
  ∃ mac, stamped c assoc filler path !! i =
      Some (if decide (i < TrueRouteLength path) then set_hop_HMAC mac h else h) ∧
    (S i = TrueRouteLength path → mac = zeroHMAC).
Proof.
  intros Hi. unfold stamped. set (hops := secret_hops c (route path)).
  assert (length hops = TrueRouteLength path) as Hlh
    by (unfold hops; by rewrite length_secret_hops, length_route).
  case_decide as Hlt.
  - destruct (lookup_Some_length hops i) as [[ss h'] Hh]; [lia|].
    assert (h' = h) as ->.
    { apply secret_hops_lookup, lookup_take_Some in Hh as [Hh _]. congruence. }
    exists (mac assoc filler (drop (S i) hops)). split.
    + by apply lookup_app_l_Some, (stamp_lookup _ _ _ _ ss).
    + intros Hlast. by rewrite drop_ge by lia.
  - exists zeroHMAC. split; [|done].
    rewrite lookup_app_r; rewrite (proj1 (stamp_shape _ _ _)), Hlh; [|lia].
    rewrite lookup_drop. by replace (TrueRouteLength path + (i - TrueRouteLength path)) with i by lia.
Qed.

Lemma NewOnionPacket_ok path sk assoc :
  wf_PaymentPath path → wf_priv sk → 0 < TrueRouteLength path →
  ∃ filler pkt,
    NewOnionPacket path sk assoc = Ok (stamped (priv_D sk) assoc filler path, pkt) ∧
    wf_OnionPacket pkt ∧ EphemeralKey pkt = Some (priv_PubKey sk).
Proof.
  intros Hp Hsk Hlen. pose proof (TrueRouteLength_le path Hp) as Hle.
  set (hops := secret_hops (priv_D sk) (route path)).
  assert (length hops = TrueRouteLength path) as Hlh
    by (unfold hops; by rewrite length_secret_hops, length_route).
  destruct (exists_last (l := hops)) as (hs & l & E).
  { intros Hnil. rewrite Hnil in Hlh. simpl in Hlh. lia. }
  pose proof (NewOnionPacket_spec path sk assoc hs l Hp Hsk E) as Hnew. cbv zeta in Hnew.
  set (filler := fill (fst <$> hs)) in *. rewrite <-E in Hnew.
  assert (length filler ≤ routingInfoSize - HopDataSize) as Hf.
  { rewrite E, length_app in Hlh. simpl in Hlh. unfold filler.
    rewrite length_fill by (rewrite length_fmap; lia).
    rewrite length_fmap. pose proof routingInfoSize_val. nia. }
  assert (Forall wf_hop hops) as Hwf.
  { apply secret_hops_wf. unfold route. apply Forall_take, Hp. }
  exists filler. eexists. split_and!; [exact Hnew|..].
  - unfold packet_for. split_and!; [done| |].
    + split; cbn [RoutingInfo HeaderMAC]; [by apply length_header|apply length_mac].
    + do 2 eexists. cbn [EphemeralKey]. split; [done|].
      apply smul_on_curve; auto with onion.
  - unfold packet_for. cbn [EphemeralKey]. by rewrite (wf_priv_point sk Hsk).
Qed.

(** C11.  What [NewOnionPacket] returns and what it does to the path it is
    handed, for every path with at least one hop, whoever the hops are: a
    packet that can be put on the wire, carrying the session's public key; the
    path keeps its length and everything but the HMACs of the hops in use, of
    which the last is zero. *)
Theorem NewOnionPacket_shape path sk assoc :
  wf_PaymentPath path → wf_priv sk → 0 < TrueRouteLength path →
  ∃ path' pkt, NewOnionPacket path sk assoc = Ok (path', pkt) ∧
    wf_OnionPacket pkt ∧ EphemeralKey pkt = Some (priv_PubKey sk) ∧
    length path' = length path ∧ TrueRouteLength path' = TrueRouteLength path ∧
    (∀ i h, path !! i = Some h →
       ∃ mac, path' !! i = Some (if decide (i < TrueRouteLength path)
                                 then set_hop_HMAC mac h else h) ∧
         (S i = TrueRouteLength path → mac = zeroHMAC)).
Proof.
  intros Hp Hsk Hlen.
  destruct (NewOnionPacket_ok path sk assoc Hp Hsk Hlen) as (filler & pkt & Hnew & Hwf & Hk).
  do 2 eexists. split_and!; [exact Hnew|done|done|..];
    [apply stamped_length|apply stamped_keys|apply stamped_lookup].
Qed.

(** C35.  A path without hops: [NewOnionPacket] does not return an error but
    panics, [generateSharedSecrets] indexing an empty list of keys. *)
Theorem NewOnionPacket_empty_path path sk assoc :
  wf_PaymentPath path → TrueRouteLength path = 0 → NewOnionPacket path sk assoc = Panic.
Proof.
  intros Hp Hz. unfold NewOnionPacket. rewrite NodeKeys_spec by done.
  unfold route. by rewrite Hz.
Qed.

End correct.
