(* ===== verification/ReplaySet.v ===== *)
(** * Replay sets (replay_set.go)

    A set of 16-bit sequence numbers.  Go's [range] over a map visits the
    keys in an unspecified order: the operations that iterate take the order
    as an argument, and the theorems hold for every order that lists the
    keys once each. *)

From S2P Require Import Prelude GoBytes Errors GoIO.

Record ReplaySet := mkReplaySet { replays : gset N }.

#[export] Instance ReplaySet_eq_dec : EqDecision ReplaySet.
Proof. solve_decision. Defined.

(** The keys are [uint16]. *)
Definition wf_ReplaySet (rs : ReplaySet) : Prop :=
  ∀ idx, idx ∈ replays rs → (idx < 2 ^ 16)%N.

(** An order in which [range] may visit the keys. *)
Definition range_order (order : list N) (rs : ReplaySet) : Prop :=
  order ≡ₚ elements (replays rs).

Definition NewReplaySet : ReplaySet := mkReplaySet ∅.

Definition Size (rs : ReplaySet) : nat := size (replays rs).

Definition Add (idx : N) (rs : ReplaySet) : ReplaySet :=
  mkReplaySet ({[idx]} ∪ replays rs).

Definition Contains (rs : ReplaySet) (idx : N) : bool :=
  bool_decide (idx ∈ replays rs).

(** [for seqNum := range rs2.replays { rs.Add(seqNum) }] *)
Fixpoint Merge_loop (order : list N) (rs : ReplaySet) : ReplaySet :=
  match order with
  | [] => rs
  | seqNum :: order => Merge_loop order (Add seqNum rs)
  end.
Definition Merge (rs rs2 : ReplaySet) : ReplaySet :=
  Merge_loop (elements (replays rs2)) rs.

(** [func (rs *ReplaySet) Encode(w io.Writer) error] *)
Fixpoint ReplaySet_Encode `{Writer W} (order : list N) : EncM W unit :=
  match order with
  | [] => mret ()
  | seqNum :: order => _ ← binaryWrite 2 seqNum; ReplaySet_Encode order
  end.

(** [func (rs *ReplaySet) Decode(r io.Reader) error]: the loop ends with the
    reader; the fuel bounds the number of passes by the bytes left. *)
Fixpoint ReplaySet_Decode_loop (fuel : nat) (r : Reader) (rs : ReplaySet)
    : Reader * ReplaySet * Outcome error unit :=
  match fuel with
  | 0 => (r, rs, Panic)
  | S fuel =>
      match ReadFull 2 r with
      | (r, bs, None) => ReplaySet_Decode_loop fuel r (Add (be_value bs) rs)
      | (r, _, Some EOF) => (r, rs, Ok tt)
      | (r, _, Some e) => (r, rs, Err e)
      end
  end.
Definition ReplaySet_Decode : DecM ReplaySet unit := λ r rs,
  ReplaySet_Decode_loop (S (length (rd_content r))) r rs.

(** ** Sets *)

Lemma elem_of_Add i idx rs : i ∈ replays (Add idx rs) ↔ i = idx ∨ i ∈ replays rs.
Proof. simpl. set_solver. Qed.

Lemma Contains_spec rs idx : Contains rs idx = true ↔ idx ∈ replays rs.
Proof. unfold Contains. apply bool_decide_eq_true. Qed.

Lemma Merge_loop_replays order rs :
  replays (Merge_loop order rs) = list_to_set order ∪ replays rs.
Proof.
  revert rs; induction order as [|i order IH]; intros rs; simpl; [set_solver|].
  rewrite IH. simpl. set_solver.
Qed.

(** Merging adds exactly the other set, whatever the iteration order. *)
Lemma Merge_loop_union order rs rs2 :
  range_order order rs2 →
  Merge_loop order rs = mkReplaySet (replays rs ∪ replays rs2).
Proof.
  intros Ho. destruct (Merge_loop order rs) as [s] eqn:E. f_equal.
  change s with (replays (mkReplaySet s)). rewrite <-E, Merge_loop_replays.
  unfold range_order in Ho. rewrite Ho, list_to_set_elements_L. set_solver.
Qed.

Lemma Merge_union rs rs2 : Merge rs rs2 = mkReplaySet (replays rs ∪ replays rs2).
Proof. apply Merge_loop_union. unfold range_order. done. Qed.

(** ** Encoding and decoding *)

Definition words (order : list N) : list byte := concat (be_bytes 2 <$> order).

Lemma length_words order : length (words order) = 2 * length order.
Proof.
  unfold words. induction order as [|i order IH]; [done|].
  rewrite fmap_cons. cbn [concat length].
  rewrite length_app, IH, length_be_bytes. lia.
Qed.

Lemma ReplaySet_Encode_writes `{Writer W} order (w : W) :
  ReplaySet_Encode order w = write_all (be_bytes 2 <$> order) w.
Proof.
  revert w; induction order as [|i order IH]; intros w; [done|]. simpl.
  unfold mbind, EncM_bind, binaryWrite. destruct (write _ w) as [w' [[]| |]]; auto.
Qed.

(** How decoding ends on a reader with final error [e], when [tl] is what is
    left after the complete words. *)
Definition decode_end (e : error) (tl : list byte) : Outcome error unit :=
  if decide (e = EOF) then (if decide (tl = []) then Ok tt else Err ErrUnexpectedEOF)
  else Err e.

(** What the decoder does on any input: it adds the complete words, and
    fails if and only if a byte is left over or the reader does not end with
    [io.EOF]. *)
Lemma ReplaySet_Decode_loop_spec fuel order tl r rs :
  rd_content r = words order ++ tl → length tl < 2 →
  Forall (λ i, i < 2 ^ 16)%N order → length order < fuel →
  ∃ r', ReplaySet_Decode_loop fuel r rs =
    (r', Merge_loop order rs, decode_end (rd_err r) tl).
Proof.
  revert order r rs; induction fuel as [|fuel IH]; intros order r rs Hc Ht Hw Hf; [lia|].
  cbn [ReplaySet_Decode_loop]. destruct order as [|i order].
  - destruct (ReadFull_spec 2 r) as (r' & -> & _). simpl in Hc. rewrite Hc.
    rewrite decide_False by lia. exists r'. unfold decode_end.
    destruct (rd_err r); destruct tl; done.
  - unfold words in Hc. rewrite fmap_cons in Hc. cbn [concat] in Hc.
    rewrite <-app_assoc in Hc. destruct (ReadFull_ok 2 r _ _ Hc) as (r' & -> & Hc' & He'); [apply length_be_bytes|].
    apply Forall_cons_1 in Hw as [Hi Hw].
    rewrite be_value_bytes_small by done.
    rewrite <-He'. apply (IH order r' (Add i rs)); [done..|simpl in Hf; lia].
Qed.

(** Any byte string is a sequence of words and at most one byte more. *)
Lemma words_of_bytes (l : list byte) :
  ∃ order tl, l = words order ++ tl ∧ length tl < 2 ∧ Forall (λ i, i < 2 ^ 16)%N order.
Proof.
  remember (length l) as n eqn:Hn. revert l Hn.
  induction n as [n IH] using lt_wf_ind. intros l Hn.
  destruct l as [|a [|b l]].
  - exists [], []. split_and!; [done|simpl; lia|done].
  - exists [], [a]. split_and!; [done|simpl; lia|done].
  - destruct (IH (length l) ltac:(simpl in *; lia) l eq_refl) as (order & tl & -> & Ht & Hw).
    exists (be_value [a; b] :: order), tl. split_and!; [|done|].
    + unfold words. rewrite fmap_cons. cbn [concat]. by rewrite (be_bytes_value [a; b] : be_bytes 2 _ = _).
    + constructor; [|done]. apply (be_value_lt [a; b]).
Qed.

(** C24.  Replay-set round trip: whatever order [Encode] visits the set in and
    however the reader delivers the bytes, [Decode] into an empty set gives
    the set back without an error, and the encoding has two bytes per
    element. *)
Theorem ReplaySet_roundtrip rs order r :
  wf_ReplaySet rs → range_order order rs → rd_err r = EOF →
  ReplaySet_Encode order [] = (rd_content r, Ok tt) →
  length (rd_content r) = 2 * Size rs ∧
  ∃ r', ReplaySet_Decode r NewReplaySet = (r', rs, Ok tt).
Proof.
  intros Hw Ho He Henc. rewrite ReplaySet_Encode_writes, write_all_buffer in Henc.
  simpl in Henc. injection Henc as Hc. fold (words order) in Hc.
  assert (Size rs = length order) as ->.
  { unfold Size. by rewrite Ho. }
  rewrite <-Hc, length_words. split; [done|]. unfold ReplaySet_Decode.
  destruct (ReplaySet_Decode_loop_spec (S (length (rd_content r))) order [] r NewReplaySet)
    as (r' & ->); [by rewrite app_nil_r|simpl; lia| | |].
  - apply Forall_forall. intros i Hi. apply Hw. rewrite <-elem_of_elements.
    unfold range_order in Ho. rewrite <-Ho. by apply list_elem_of_In.
  - rewrite <-Hc, length_words. lia.
  - exists r'. unfold decode_end. rewrite He, (Merge_loop_union order _ rs Ho). simpl.
    rewrite (left_id_L ∅ (∪)). by destruct rs.
Qed.

(** C25.  [ReplaySet.Decode] returns on every input, from every reader: it
    adds the complete big-endian words of the input to the set, and then
    reports no error if the reader ended with [io.EOF] after an even number of
    bytes, [io.ErrUnexpectedEOF] if it ended so after an odd number, and the
    reader's own error otherwise. *)
Theorem ReplaySet_Decode_total r rs :
  ∃ r' order tl, rd_content r = words order ++ tl ∧ length tl < 2 ∧
    ReplaySet_Decode r rs =
      (r', mkReplaySet (replays rs ∪ list_to_set order),
       if decide (rd_err r = EOF)
       then (if Nat.even (length (rd_content r)) then Ok tt else Err ErrUnexpectedEOF)
       else Err (rd_err r)).
Proof.
  destruct (words_of_bytes (rd_content r)) as (order & tl & Hc & Ht & Hw).
  destruct (ReplaySet_Decode_loop_spec (S (length (rd_content r))) order tl r rs)
    as (r' & Hd); [done..| |].
  { rewrite Hc, length_app, length_words. lia. }
  exists r', order, tl. split_and!; [done..|]. unfold ReplaySet_Decode. rewrite Hd. f_equal.
  - f_equal. destruct (Merge_loop order rs) as [s] eqn:E. f_equal.
    change s with (replays (mkReplaySet s)). rewrite <-E, Merge_loop_replays. set_solver.
  - unfold decode_end. case_decide; [|done]. rewrite Hc, length_app, length_words.
    destruct tl as [|b [|]]; simpl in Ht; [| |lia].
    + by rewrite Nat.add_0_r, Nat.even_mul, decide_True.
    + by rewrite Nat.even_add, Nat.even_mul, decide_False.
Qed.
