(* ===== verification/Batch.v ===== *)
(** * Batches (batch.go)

    A batch collects the hash prefixes of packets, by sequence number, until
    it is committed to a replay log in one go; duplicates within the batch
    are found by the in-memory cache. *)

From S2P Require Import Prelude GoBytes Errors Constants ReplaySet.

(** [type HashPrefix [HashPrefixSize]byte] (replaylog.go) *)
Abbreviation HashPrefix := (list byte) (only parsing).

Record batchEntry := mkBatchEntry { hashPrefix : HashPrefix; cltv : N }.

#[export] Instance batchEntry_eq_dec : EqDecision batchEntry.
Proof. solve_decision. Defined.

Record Batch := mkBatch {
  IsCommitted : bool;
  ID : list byte;
  batch_ReplaySet : ReplaySet;
  batch_entries : gmap N batchEntry;
  replayCache : gset HashPrefix
}.

Definition NewBatch (id : list byte) : Batch :=
  mkBatch false id NewReplaySet ∅ ∅.

(** [func (b *Batch) Put(seqNum uint16, hashPrefix *HashPrefix, cltv uint32) error] *)
Definition Batch_Put (seqNum : N) (hash : HashPrefix) (cltv : N) (b : Batch)
    : Batch * Outcome error unit :=
  if IsCommitted b then (b, Err ErrAlreadyCommitted)
  else if decide (hash ∈ replayCache b) then
    (mkBatch (IsCommitted b) (ID b) (Add seqNum (batch_ReplaySet b))
       (batch_entries b) (replayCache b), Ok tt)
  else
    (mkBatch (IsCommitted b) (ID b) (batch_ReplaySet b)
       (<[seqNum := mkBatchEntry hash cltv]> (batch_entries b))
       ({[hash]} ∪ replayCache b), Ok tt).

(** [func (b *Batch) ForEach(fn) error]: [range] over the entries in some
    order, stopping at the first error; [fn] works on a state of its own. *)
Fixpoint ForEach {S : Type} (order : list (N * batchEntry))
    (fn : N → HashPrefix → N → S → S * Outcome error unit) (s : S)
    : S * Outcome error unit :=
  match order with
  | [] => (s, Ok tt)
  | (seqNum, entry) :: order =>
      match fn seqNum (hashPrefix entry) (cltv entry) s with
      | (s, Ok _) => ForEach order fn s
      | (s, Err e) => (s, Err e)
      | (s, Panic) => (s, Panic)
      end
  end.

(** An order in which [range] may visit the entries. *)
Definition entries_order (order : list (N * batchEntry)) (b : Batch) : Prop :=
  order ≡ₚ map_to_list (batch_entries b).

(** ** The invariant

    Every prefix to be written is in the cache, and no two entries have the
    same prefix. *)
Definition wf_Batch (b : Batch) : Prop :=
  (∀ s e, batch_entries b !! s = Some e → hashPrefix e ∈ replayCache b) ∧
  (∀ s1 s2 e1 e2, batch_entries b !! s1 = Some e1 → batch_entries b !! s2 = Some e2 →
     hashPrefix e1 = hashPrefix e2 → s1 = s2).

Lemma NewBatch_wf id : wf_Batch (NewBatch id).
Proof. split; intros; simpl in *; simplify_map_eq. Qed.

Lemma Batch_Put_wf seq h c b : wf_Batch b → wf_Batch (Batch_Put seq h c b).1.
Proof.
  intros [Hc Hi]. unfold Batch_Put. destruct (IsCommitted b); [done|].
  case_decide as Hh; [done|]. split; simpl.
  - intros s e. rewrite lookup_insert_Some. intros [[<- <-]|[_ He]]; simpl; [set_solver|].
    apply Hc in He. set_solver.
  - intros s1 s2 e1 e2. rewrite !lookup_insert_Some.
    intros [[<- <-]|[? H1]] [[<- <-]|[? H2]] Heq; simpl in *; [done|..].
    + apply Hc in H2. congruence.
    + apply Hc in H1. congruence.
    + eauto.
Qed.

(** Operations of a batch's client, in sequence. *)
Fixpoint Batch_Puts (ps : list (N * HashPrefix * N)) (b : Batch) : Batch :=
  match ps with
  | [] => b
  | (seq, h, c) :: ps => Batch_Puts ps (Batch_Put seq h c b).1
  end.

Lemma Batch_Puts_wf ps b : wf_Batch b → wf_Batch (Batch_Puts ps b).
Proof.
  revert b; induction ps as [|[[seq h] c] ps IH]; intros b Hb; simpl; [done|].
  by apply IH, Batch_Put_wf.
Qed.

Lemma Batch_Puts_snoc ps seq h c b :
  Batch_Puts (ps ++ [(seq, h, c)]) b = (Batch_Put seq h c (Batch_Puts ps b)).1.
Proof. revert b; induction ps as [|[[??]?] ps IH]; intros b; simpl; auto. Qed.

Lemma Batch_Put_flags seq h c b :
  IsCommitted (Batch_Put seq h c b).1 = IsCommitted b ∧ ID (Batch_Put seq h c b).1 = ID b.
Proof. unfold Batch_Put. destruct (IsCommitted b) eqn:E; [done|]. by case_decide. Qed.

Lemma Batch_Puts_flags ps b :
  IsCommitted (Batch_Puts ps b) = IsCommitted b ∧ ID (Batch_Puts ps b) = ID b.
Proof.
  revert b; induction ps as [|[[seq h] c] ps IH]; intros b; simpl; [done|].
  destruct (IH (Batch_Put seq h c b).1) as [-> ->]. apply Batch_Put_flags.
Qed.

(** The prefixes and sequence numbers of a list of puts. *)
Definition put_seq (p : N * HashPrefix * N) : N := p.1.1.
Definition put_hash (p : N * HashPrefix * N) : HashPrefix := p.1.2.

(** The puts [ps], under distinct sequence numbers, account for what is in
    the batch. *)
Definition records (ps : list (N * HashPrefix * N)) (b : Batch) : Prop :=
  replayCache b = list_to_set (put_hash <$> ps) ∧
  (∀ s, s ∉ (put_seq <$> ps) →
     (s ∉ replays (batch_ReplaySet b)) ∧ batch_entries b !! s = None) ∧
  (∀ i s h c, ps !! i = Some (s, h, c) →
     (s ∈ replays (batch_ReplaySet b) ↔ h ∈ (put_hash <$> take i ps)) ∧
     (batch_entries b !! s =
        if decide (h ∈ (put_hash <$> take i ps)) then None else Some (mkBatchEntry h c))).

Lemma Batch_Put_records ps seq hash v b :
  records ps b → IsCommitted b = false → seq ∉ (put_seq <$> ps) →
  records (ps ++ [(seq, hash, v)]) (Batch_Put seq hash v b).1.
Proof.
  intros (Hcache & Hout & Hspec) Hcom Hfresh. unfold Batch_Put. rewrite Hcom.
  destruct (Hout seq Hfresh) as [Hnot Hnone].
  assert (∀ i s h c, ps !! i = Some (s, h, c) → s ≠ seq) as Hne.
  { intros i s h c Hi ->. apply Hfresh, list_elem_of_fmap. exists (seq, h, c).
    split; [done|]. by eapply list_elem_of_lookup_2. }
  case_decide as Hh; simpl; split_and!.
  - rewrite fmap_app, list_to_set_app_L, Hcache. simpl.
    rewrite Hcache in Hh. change (put_hash (seq, hash, v)) with hash. set_solver.
  - intros s. rewrite fmap_app. change (put_seq <$> [(seq, hash, v)]) with [seq]. simpl.
    intros Hs. destruct (Hout s) as [? ?]; [set_solver|]. set_solver.
  - intros i s h c [[Hi Hlt]|[-> Heq]]%lookup_snoc_Some; simplify_eq; simpl.
    + rewrite take_app_le by lia. destruct (Hspec i s h c) as [Hr He]; [done|].
      split; [|done]. rewrite <-Hr. pose proof (Hne _ _ _ _ Hlt). set_solver.
    + rewrite take_app_length. rewrite Hcache in Hh.
      rewrite decide_True by set_solver. split; [set_solver|done].
  - rewrite fmap_app, list_to_set_app_L, Hcache. simpl.
    change (put_hash (seq, hash, v)) with hash. set_solver.
  - intros s. rewrite fmap_app. change (put_seq <$> [(seq, hash, v)]) with [seq]. simpl.
    intros Hs. destruct (Hout s) as [? ?]; [set_solver|].
    rewrite lookup_insert_ne by set_solver. done.
  - intros i s h c [[Hi Hlt]|[-> Heq]]%lookup_snoc_Some; simplify_eq; simpl.
    + rewrite take_app_le by lia. rewrite lookup_insert_ne by eauto using not_eq_sym.
      by apply Hspec.
    + rewrite take_app_length, lookup_insert_eq. rewrite Hcache in Hh.
      rewrite decide_False by set_solver. split; [set_solver|done].
Qed.

Lemma Batch_Puts_records id ps :
  NoDup (put_seq <$> ps) → records ps (Batch_Puts ps (NewBatch id)).
Proof.
  induction ps as [|[[seq hash] v] ps IH] using rev_ind; intros Hnd.
  - split_and!; [done|set_solver|done].
  - rewrite fmap_app in Hnd. apply list.NoDup_app in Hnd as (Hnd & Hdis & _).
    rewrite Batch_Puts_snoc. apply Batch_Put_records; [auto| |].
    + apply Batch_Puts_flags.
    + intros Hin. apply (Hdis seq Hin). by left.
Qed.

(** C18.  What a batch holds after a series of [Put]s under distinct sequence
    numbers: the cache has every prefix that was put; sequence number [s] is
    in the replay set if and only if its prefix had been put before; it has
    an entry if and only if its prefix was new, and the entry is the prefix
    and CLTV of that call. *)
Theorem Batch_Puts_spec id ps :
  NoDup (put_seq <$> ps) →
  let b := Batch_Puts ps (NewBatch id) in
  replayCache b = list_to_set (put_hash <$> ps) ∧
  ∀ i s h c, ps !! i = Some (s, h, c) →
    (Contains (batch_ReplaySet b) s = true ↔ h ∈ (put_hash <$> take i ps)) ∧
    (batch_entries b !! s =
       if decide (h ∈ (put_hash <$> take i ps)) then None else Some (mkBatchEntry h c)).
Proof.
  intros Hnd b. destruct (Batch_Puts_records id ps Hnd) as (Hc & _ & Hs).
  split; [done|]. intros i s h c Hi. rewrite Contains_spec. by apply Hs.
Qed.
