(* ===== verification/ReplayLog.v ===== *)
(** * Replay logs (replaylog.go)

    The interface [ReplayLog]; an abstract log; the contract that the
    documentation states, by which an implementation answers as the abstract
    log does or fails with an error of its own; and [MemoryReplayLog], which
    never fails and is shown to refine the abstract log.  The router's theorems
    are proved against the contract. *)

From S2P Require Import Prelude GoBytes Errors Sha256 Constants Crypto ReplaySet Batch.

(** [func hashSharedSecret(sharedSecret *Hash256) *HashPrefix] *)
Definition hashSharedSecret (sharedSecret : Hash256) : HashPrefix :=
  go_copy (zeros HashPrefixSize) (sha256 sharedSecret).

Lemma length_hashSharedSecret ss : length (hashSharedSecret ss) = HashPrefixSize.
Proof. unfold hashSharedSecret. by len_simp. Qed.

(** ** The interface *)

Class ReplayLog (L : Type) := {
  rl_Start : L → L * Outcome error unit;
  rl_Stop : L → L * Outcome error unit;
  rl_Get : HashPrefix → L → Outcome error N;
  rl_Put : HashPrefix → N → L → L * Outcome error unit;
  rl_Delete : HashPrefix → L → L * Outcome error unit;
  rl_PutBatch : Batch → L → L * Batch * Outcome error ReplaySet
}.

(** ** The abstract log

    A started log is a table of prefixes and the results of the batches it
    has seen. *)
Record LogState := mkLogState {
  ls_entries : gmap HashPrefix N;
  ls_batches : gmap (list byte) ReplaySet
}.

(** The sequence numbers whose prefix the table has already. *)
Definition spec_replays (m : gmap HashPrefix N) (b : Batch) : gset N :=
  dom (filter (λ se, is_Some (m !! hashPrefix se.2)) (batch_entries b)).

(** The table with the batch's new prefixes: an entry that is there stays. *)
Definition spec_entries (m : gmap HashPrefix N) (b : Batch) : gmap HashPrefix N :=
  m ∪ list_to_map ((λ se, (hashPrefix se.2, cltv se.2)) <$> map_to_list (batch_entries b)).

Definition spec_Put (h : HashPrefix) (c : N) (s : option LogState)
    : option LogState * Outcome error unit :=
  match s with
  | None => (None, Err errReplayLogNotStarted)
  | Some s =>
      match ls_entries s !! h with
      | Some _ => (Some s, Err ErrReplayedPacket)
      | None => (Some (mkLogState (<[h := c]> (ls_entries s)) (ls_batches s)), Ok tt)
      end
  end.

Definition spec_Get (h : HashPrefix) (s : option LogState) : Outcome error N :=
  match s with
  | None => Err errReplayLogNotStarted
  | Some s =>
      match ls_entries s !! h with
      | Some c => Ok c
      | None => Err ErrLogEntryNotFound
      end
  end.

Definition spec_Delete (h : HashPrefix) (s : option LogState)
    : option LogState * Outcome error unit :=
  match s with
  | None => (None, Err errReplayLogNotStarted)
  | Some s => (Some (mkLogState (delete h (ls_entries s)) (ls_batches s)), Ok tt)
  end.

(** The batch after a commit that gave the set [rs]. *)
Definition committed (rs : ReplaySet) (b : Batch) : Batch :=
  mkBatch true (ID b) rs (batch_entries b) (replayCache b).

Definition spec_PutBatch (b : Batch) (s : option LogState)
    : option LogState * Batch * Outcome error ReplaySet :=
  match s with
  | None => (None, b, Err errReplayLogNotStarted)
  | Some s =>
      match ls_batches s !! ID b with
      | Some rs => (Some s, committed rs b, Ok rs)
      | None =>
          let rs := mkReplaySet (spec_replays (ls_entries s) b ∪ replays (batch_ReplaySet b)) in
          (Some (mkLogState (spec_entries (ls_entries s) b) (<[ID b := rs]> (ls_batches s))),
           committed rs b, Ok rs)
      end
  end.

(** ** The contract

    The errors whose meaning the documentation fixes; any other error that a
    log returns is a failure of its own, of the disk for instance ("an error
    if one occurs"). *)
Definition log_failure (e : error) : Prop :=
  e ∉ [ErrReplayedPacket; ErrLogEntryNotFound; errReplayLogAlreadyStarted;
       errReplayLogNotStarted].

#[export] Instance log_failure_dec e : Decision (log_failure e).
Proof. unfold log_failure. apply _. Defined.

(** The failure that an answer reports, if it does. *)
Definition log_fault {B} (o : Outcome error B) : option error :=
  match o with
  | Err e => if decide (log_failure e) then Some e else None
  | _ => None
  end.

(** What a call may do to a log that stands for [s]: give the wanted result,
    or, if the log is running, fail and leave things as they were before the
    call.  Calls are atomic ("atomically compare this hash prefix with the
    contents of the on-disk log", "entries to atomically add to a replay
    log"). *)
Definition allowed {T B} (s : option LogState) (before : T) (got want : T * Outcome error B)
    : Prop :=
  match log_fault got.2 with
  | Some _ => is_Some s ∧ got.1 = before
  | None => got = want
  end.

(** [Start] and [Stop] are only asked to start and to stop: a log may come
    back with the contents it had, and may refuse to be started twice.
    Contents change in calls only: an entry that a garbage collector removes
    counts as a call of [Delete]. *)
Class ReplayLogLaws (L : Type) `{ReplayLog L} := {
  log_state : L → option LogState;
  Start_law l : (rl_Start l).2 = Ok tt → is_Some (log_state (rl_Start l).1);
  Stop_law l : (rl_Stop l).2 = Ok tt → log_state (rl_Stop l).1 = None;
  Stop_not_started l :
    log_state l = None →
    log_state (rl_Stop l).1 = None ∧ (rl_Stop l).2 = Err errReplayLogNotStarted;
  Get_law h l :
    allowed (log_state l) tt (tt, rl_Get h l) (tt, spec_Get h (log_state l));
  Put_law h c l :
    allowed (log_state l) (log_state l)
      (log_state (rl_Put h c l).1, (rl_Put h c l).2) (spec_Put h c (log_state l));
  Delete_law h l :
    allowed (log_state l) (log_state l)
      (log_state (rl_Delete h l).1, (rl_Delete h l).2) (spec_Delete h (log_state l));
  PutBatch_law b l :
    wf_Batch b →
    allowed (log_state l) (log_state l, b)
      (log_state (rl_PutBatch b l).1.1, (rl_PutBatch b l).1.2, (rl_PutBatch b l).2)
      (spec_PutBatch b (log_state l))
}.

(** A log that does not fail. *)
Class ReliableLog (L : Type) `{ReplayLog L} : Prop := {
  Put_reliable h c l : log_fault (rl_Put h c l).2 = None;
  PutBatch_reliable b l : wf_Batch b → log_fault (rl_PutBatch b l).2 = None
}.

Lemma log_fault_Some {B} (o : Outcome error B) e :
  log_fault o = Some e ↔ o = Err e ∧ log_failure e.
Proof. destruct o as [|e'|]; simpl; try case_decide; naive_solver. Qed.

(** The abstract log does not fail. *)
Lemma spec_Put_fault h c s : log_fault (spec_Put h c s).2 = None.
Proof. destruct s as [s|]; simpl; [destruct (ls_entries s !! h)|]; reflexivity. Qed.
Lemma spec_Get_fault h s : log_fault (spec_Get h s) = None.
Proof. destruct s as [s|]; simpl; [destruct (ls_entries s !! h)|]; reflexivity. Qed.
Lemma spec_Delete_fault h s : log_fault (spec_Delete h s).2 = None.
Proof. by destruct s. Qed.
Lemma spec_PutBatch_fault b s : log_fault (spec_PutBatch b s).2 = None.
Proof. destruct s as [s|]; simpl; [destruct (ls_batches s !! ID b)|]; reflexivity. Qed.

(** A call that gives exactly the abstract result is allowed. *)
Lemma allowed_exact {T B} s (before : T) (got want : T * Outcome error B) :
  got = want → log_fault want.2 = None → allowed s before got want.
Proof. intros -> Hf. unfold allowed. by rewrite Hf. Qed.

(** What the laws give to a caller. *)
Section laws.
Context `{ReplayLogLaws L}.
Implicit Type l : L.

Lemma Put_cases h c l :
  (∃ e, log_fault (rl_Put h c l).2 = Some e ∧ (rl_Put h c l).2 = Err e ∧ log_failure e ∧
     is_Some (log_state l) ∧ log_state (rl_Put h c l).1 = log_state l) ∨
  (log_fault (rl_Put h c l).2 = None ∧
   log_state (rl_Put h c l).1 = (spec_Put h c (log_state l)).1 ∧
   (rl_Put h c l).2 = (spec_Put h c (log_state l)).2).
Proof.
  pose proof (Put_law h c l) as Hl. unfold allowed in Hl. cbn [fst snd] in Hl.
  destruct (log_fault (rl_Put h c l).2) as [e|] eqn:E.
  - left. exists e. apply log_fault_Some in E as [? ?]. naive_solver.
  - right. by rewrite <-Hl.
Qed.

Lemma PutBatch_cases b l :
  wf_Batch b →
  (∃ e, (rl_PutBatch b l).2 = Err e ∧ log_failure e ∧ (rl_PutBatch b l).1.2 = b ∧
     is_Some (log_state l) ∧ log_state (rl_PutBatch b l).1.1 = log_state l) ∨
  (log_state (rl_PutBatch b l).1.1, (rl_PutBatch b l).1.2, (rl_PutBatch b l).2) =
  spec_PutBatch b (log_state l).
Proof.
  intros Hb. pose proof (PutBatch_law b l Hb) as Hl. unfold allowed in Hl. cbn [fst snd] in Hl.
  destruct (log_fault (rl_PutBatch b l).2) as [e|] eqn:E; [|by right].
  left. exists e. apply log_fault_Some in E as [? ?]. naive_solver.
Qed.

Lemma Put_reliable_cases `{!ReliableLog L} h c l :
  log_state (rl_Put h c l).1 = (spec_Put h c (log_state l)).1 ∧
  (rl_Put h c l).2 = (spec_Put h c (log_state l)).2.
Proof.
  destruct (Put_cases h c l) as [(e & Hf & _)|(_ & Hl)]; [|done].
  by rewrite Put_reliable in Hf.
Qed.

Lemma PutBatch_reliable_cases `{!ReliableLog L} b l :
  wf_Batch b →
  (log_state (rl_PutBatch b l).1.1, (rl_PutBatch b l).1.2, (rl_PutBatch b l).2) =
  spec_PutBatch b (log_state l).
Proof.
  intros Hb. destruct (PutBatch_cases b l Hb) as [(e & He & Hf & _)|]; [|done].
  assert (log_fault (rl_PutBatch b l).2 = Some e) as Hfault by by apply log_fault_Some.
  by rewrite PutBatch_reliable in Hfault.
Qed.

End laws.

(** ** MemoryReplayLog *)

Module MemoryReplayLog.

(** Both maps are nil until [Start] and after [Stop]. *)
Record t := mk {
  batches : option (gmap (list byte) ReplaySet);
  entries : option (gmap HashPrefix N)
}.

Definition NewMemoryReplayLog : t := mk None None.

Definition Start (rl : t) : t * Outcome error unit := (mk (Some ∅) (Some ∅), Ok tt).

Definition Stop (rl : t) : t * Outcome error unit :=
  match entries rl, batches rl with
  | Some _, Some _ => (mk None None, Ok tt)
  | _, _ => (rl, Err errReplayLogNotStarted)
  end.

Definition Get (hash : HashPrefix) (rl : t) : Outcome error N :=
  match entries rl, batches rl with
  | Some m, Some _ =>
      match m !! hash with
      | Some cltv => Ok cltv
      | None => Err ErrLogEntryNotFound
      end
  | _, _ => Err errReplayLogNotStarted
  end.

Definition Put (hash : HashPrefix) (cltv : N) (rl : t) : t * Outcome error unit :=
  match entries rl, batches rl with
  | Some m, Some _ =>
      match m !! hash with
      | Some _ => (rl, Err ErrReplayedPacket)
      | None => (mk (batches rl) (Some (<[hash := cltv]> m)), Ok tt)
      end
  | _, _ => (rl, Err errReplayLogNotStarted)
  end.

Definition Delete (hash : HashPrefix) (rl : t) : t * Outcome error unit :=
  match entries rl, batches rl with
  | Some m, Some _ => (mk (batches rl) (Some (delete hash m)), Ok tt)
  | _, _ => (rl, Err errReplayLogNotStarted)
  end.

(** The function literal passed to [ForEach]; its state is the log and the
    local [replays]. *)
Definition put_entry (seqNum : N) (hashPrefix : HashPrefix) (cltv : N)
    (s : t * ReplaySet) : t * ReplaySet * Outcome error unit :=
  let '(rl, replays) := s in
  match Put hashPrefix cltv rl with
  | (rl, Err ErrReplayedPacket) => (rl, Add seqNum replays, Ok tt)
  | (rl, err) => (rl, replays, err)
  end.

(** [order] is the order in which [range] visits the batch's entries. *)
Definition PutBatch (order : list (N * batchEntry)) (batch : Batch) (rl : t)
    : t * Batch * Outcome error ReplaySet :=
  match entries rl, batches rl with
  | Some _, Some bs =>
      match bs !! ID batch with
      | Some replays => (rl, committed replays batch, Ok replays)
      | None =>
          match ForEach order put_entry (rl, NewReplaySet) with
          | (rl, replays, Ok _) =>
              let replays := Merge replays (batch_ReplaySet batch) in
              let rl := mk ((λ bs, <[ID batch := replays]> bs) <$> batches rl) (entries rl) in
              (rl, committed replays batch, Ok replays)
          | (rl, _, Err e) => (rl, batch, Err e)
          | (rl, _, Panic) => (rl, batch, Panic)
          end
      end
  | _, _ => (rl, batch, Err errReplayLogNotStarted)
  end.

End MemoryReplayLog.

#[export] Instance MemoryReplayLog_ReplayLog : ReplayLog MemoryReplayLog.t := {|
  rl_Start := MemoryReplayLog.Start;
  rl_Stop := MemoryReplayLog.Stop;
  rl_Get := MemoryReplayLog.Get;
  rl_Put := MemoryReplayLog.Put;
  rl_Delete := MemoryReplayLog.Delete;
  rl_PutBatch b := MemoryReplayLog.PutBatch (map_to_list (batch_entries b)) b
|}.

(** What a log stands for. *)
Definition memory_state (rl : MemoryReplayLog.t) : option LogState :=
  match MemoryReplayLog.entries rl, MemoryReplayLog.batches rl with
  | Some m, Some bs => Some (mkLogState m bs)
  | _, _ => None
  end.

(** ** Committing a batch *)

Definition entry_pair (se : N * batchEntry) : HashPrefix * N := (hashPrefix se.2, cltv se.2).

(** The sequence numbers of a list of entries that the table has. *)
Definition replayed (m : gmap HashPrefix N) (order : list (N * batchEntry)) : gset N :=
  list_to_set (fst <$> filter (λ se, is_Some (m !! hashPrefix se.2)) order).

Lemma replayed_ext m m' order :
  (∀ se, se ∈ order → m' !! hashPrefix se.2 = m !! hashPrefix se.2) →
  replayed m' order = replayed m order.
Proof.
  intros Hm. apply set_eq. intros s. unfold replayed.
  rewrite !elem_of_list_to_set, !list_elem_of_fmap.
  split; intros (se & -> & [Hs Hin]%list_elem_of_filter); exists se;
    (split; [done|]); apply list_elem_of_filter; split; try done.
  - by rewrite <-(Hm se Hin).
  - by rewrite (Hm se Hin).
Qed.

Lemma ForEach_put_entry order bs m rs :
  NoDup ((entry_pair <$> order).*1) →
  ForEach order MemoryReplayLog.put_entry (MemoryReplayLog.mk (Some bs) (Some m), rs) =
  (MemoryReplayLog.mk (Some bs) (Some (m ∪ list_to_map (entry_pair <$> order))),
   mkReplaySet (replays rs ∪ replayed m order), Ok tt).
Proof.
  revert m rs; induction order as [|[seq [h c]] order IH]; intros m rs Hnd.
  - simpl. unfold replayed. simpl. rewrite (right_id_L ∅ (∪) m), (right_id_L ∅ (∪) (replays rs)).
    by destruct rs.
  - rewrite !fmap_cons in Hnd. apply list.NoDup_cons in Hnd as [Hh Hnd].
    cbn [ForEach]. unfold MemoryReplayLog.put_entry at 1, MemoryReplayLog.Put.
    cbn [MemoryReplayLog.entries MemoryReplayLog.batches hashPrefix cltv].
    destruct (m !! h) as [c'|] eqn:Em.
    + rewrite IH by done. f_equal. f_equal.
      * do 2 f_equal. rewrite fmap_cons. simpl. apply map_eq. intros k.
        destruct (decide (k = h)) as [->|Hne].
        -- by rewrite !(lookup_union_Some_l _ _ _ _ Em).
        -- by rewrite !lookup_union, lookup_insert_ne by done.
      * f_equal. unfold replayed. rewrite filter_cons_True by (simpl; rewrite Em; eauto).
        simpl. set_solver.
    + rewrite IH by done. f_equal. f_equal.
      * do 2 f_equal. rewrite fmap_cons. simpl.
        by rewrite <-insert_union_l, <-insert_union_r by done.
      * f_equal. unfold replayed at 2.
        rewrite filter_cons_False by (simpl; rewrite Em; by intros []).
        f_equal. apply replayed_ext. intros se Hse. apply lookup_insert_ne. intros ->.
        apply Hh. rewrite <-list_fmap_compose. by apply (list_elem_of_fmap_2 (fst ∘ entry_pair)).
Qed.

Lemma wf_Batch_NoDup b order :
  wf_Batch b → entries_order order b → NoDup ((entry_pair <$> order).*1).
Proof.
  intros [_ Hinj] Ho. unfold entries_order in Ho. rewrite Ho, <-list_fmap_compose.
  apply NoDup_fmap_2_strong; [|apply NoDup_map_to_list].
  intros [s1 e1] [s2 e2] H1%elem_of_map_to_list H2%elem_of_map_to_list Heq.
  assert (s1 = s2) as -> by by eapply Hinj. congruence.
Qed.

Lemma replayed_spec m b order :
  entries_order order b → replayed m order = spec_replays m b.
Proof.
  intros Ho. apply set_eq. intros s. unfold replayed, spec_replays, entries_order in *.
  rewrite elem_of_list_to_set, list_elem_of_fmap, elem_of_dom. split.
  - intros ([s' e] & -> & [Hm Hin]%list_elem_of_filter). exists e.
    rewrite Ho in Hin. apply elem_of_map_to_list in Hin. by apply map_lookup_filter_Some_2.
  - intros [e [He Hm]%map_lookup_filter_Some]. exists (s, e). split; [done|].
    apply list_elem_of_filter. split; [done|]. rewrite Ho. by apply elem_of_map_to_list.
Qed.

(** The whole call, for any iteration order. *)
Lemma PutBatch_memory order b bs m :
  wf_Batch b → entries_order order b →
  MemoryReplayLog.PutBatch order b (MemoryReplayLog.mk (Some bs) (Some m)) =
  match bs !! ID b with
  | Some rs => (MemoryReplayLog.mk (Some bs) (Some m), committed rs b, Ok rs)
  | None =>
      let rs := mkReplaySet (spec_replays m b ∪ replays (batch_ReplaySet b)) in
      (MemoryReplayLog.mk (Some (<[ID b := rs]> bs)) (Some (spec_entries m b)),
       committed rs b, Ok rs)
  end.
Proof.
  intros Hb Ho. unfold MemoryReplayLog.PutBatch. simpl.
  destruct (bs !! ID b) as [rs|]; [done|].
  rewrite ForEach_put_entry by by eapply wf_Batch_NoDup.
  rewrite Merge_union, (replayed_spec m b order Ho). simpl.
  rewrite (left_id_L ∅ (∪)).
  replace (m ∪ list_to_map (entry_pair <$> order)) with (spec_entries m b); [done|].
  unfold spec_entries. f_equal. symmetry. apply list_to_map_proper.
  - by eapply wf_Batch_NoDup.
  - unfold entries_order in Ho. by rewrite Ho.
Qed.

(** Every call gives exactly the abstract result. *)
Lemma memory_Stop rl :
  memory_state (rl_Stop rl).1 = None ∧
  (rl_Stop rl).2 =
    match memory_state rl with Some _ => Ok tt | None => Err errReplayLogNotStarted end.
Proof. by destruct rl as [[bs|] [m|]]. Qed.

Lemma memory_Get h rl : rl_Get h rl = spec_Get h (memory_state rl).
Proof. by destruct rl as [[bs|] [m|]]. Qed.

Lemma memory_Put h c rl :
  (memory_state (rl_Put h c rl).1, (rl_Put h c rl).2) = spec_Put h c (memory_state rl).
Proof.
  destruct rl as [[bs|] [m|]]; try done. cbn [rl_Put MemoryReplayLog_ReplayLog].
  unfold MemoryReplayLog.Put; simpl. by destruct (m !! h).
Qed.

Lemma memory_Delete h rl :
  (memory_state (rl_Delete h rl).1, (rl_Delete h rl).2) = spec_Delete h (memory_state rl).
Proof. by destruct rl as [[bs|] [m|]]. Qed.

Lemma memory_PutBatch b rl :
  wf_Batch b →
  (memory_state (rl_PutBatch b rl).1.1, (rl_PutBatch b rl).1.2, (rl_PutBatch b rl).2) =
  spec_PutBatch b (memory_state rl).
Proof.
  intros Hb. destruct rl as [[bs|] [m|]]; try done.
  unfold rl_PutBatch, MemoryReplayLog_ReplayLog.
  rewrite PutBatch_memory by (done || unfold entries_order; done).
  unfold spec_PutBatch; simpl. by destruct (bs !! ID b).
Qed.

#[export] Program Instance MemoryReplayLog_laws : ReplayLogLaws MemoryReplayLog.t := {|
  log_state := memory_state
|}.
Next Obligation. intros l _. by eexists. Qed.
Next Obligation. intros l _. apply memory_Stop. Qed.
Next Obligation. intros l Hl. destruct (memory_Stop l) as [? Ho]. by rewrite Hl in Ho. Qed.
Next Obligation.
  intros h l. apply allowed_exact; [by rewrite memory_Get|apply spec_Get_fault].
Qed.
Next Obligation. intros h c l. apply allowed_exact; [apply memory_Put|apply spec_Put_fault]. Qed.
Next Obligation. intros h l. apply allowed_exact; [apply memory_Delete|apply spec_Delete_fault]. Qed.
Next Obligation.
  intros b l Hb. apply allowed_exact; [by apply memory_PutBatch|apply spec_PutBatch_fault].
Qed.

#[export] Instance MemoryReplayLog_reliable : ReliableLog MemoryReplayLog.t.
Proof.
  split.
  - intros h c l. rewrite <-(spec_Put_fault h c (memory_state l)). by rewrite <-memory_Put.
  - intros b l Hb. rewrite <-(spec_PutBatch_fault b (memory_state l)).
    by rewrite <-memory_PutBatch.
Qed.

(** ** Runs of a log *)

Inductive LogOp :=
  | OStart | OStop
  | OGet (h : HashPrefix)
  | OPut (h : HashPrefix) (c : N)
  | ODelete (h : HashPrefix)
  | OPutBatch (b : Batch).

Inductive LogOut :=
  | RUnit (o : Outcome error unit)
  | RValue (o : Outcome error N)
  | RBatch (b : Batch) (o : Outcome error ReplaySet).

Definition log_op `{ReplayLog L} (op : LogOp) (l : L) : L * LogOut :=
  match op with
  | OStart => let '(l, o) := rl_Start l in (l, RUnit o)
  | OStop => let '(l, o) := rl_Stop l in (l, RUnit o)
  | OGet h => (l, RValue (rl_Get h l))
  | OPut h c => let '(l, o) := rl_Put h c l in (l, RUnit o)
  | ODelete h => let '(l, o) := rl_Delete h l in (l, RUnit o)
  | OPutBatch b => let '(l, b, o) := rl_PutBatch b l in (l, RBatch b o)
  end.

Definition spec_op (op : LogOp) (s : option LogState) : option LogState * LogOut :=
  match op with
  | OStart => (Some (mkLogState ∅ ∅), RUnit (Ok tt))
  | OStop => (None, RUnit (match s with Some _ => Ok tt | None => Err errReplayLogNotStarted end))
  | OGet h => (s, RValue (spec_Get h s))
  | OPut h c => let '(s, o) := spec_Put h c s in (s, RUnit o)
  | ODelete h => let '(s, o) := spec_Delete h s in (s, RUnit o)
  | OPutBatch b => let '(s, b, o) := spec_PutBatch b s in (s, RBatch b o)
  end.

Fixpoint run {S : Type} (step : LogOp → S → S * LogOut) (ops : list LogOp) (s : S)
    : S * list LogOut :=
  match ops with
  | [] => (s, [])
  | op :: ops =>
      let '(s, o) := step op s in
      let '(s, os) := run step ops s in (s, o :: os)
  end.

Definition wf_op (op : LogOp) : Prop :=
  match op with OPutBatch b => wf_Batch b | _ => True end.

Lemma log_op_simulates op (l : MemoryReplayLog.t) :
  wf_op op →
  (memory_state (log_op op l).1, (log_op op l).2) = spec_op op (memory_state l).
Proof.
  intros Hop. destruct op as [| |h|h c|h|b]; cbn [log_op spec_op].
  - done.
  - destruct (memory_Stop l) as [Hs Ho]. destruct (rl_Stop l); simpl in *. congruence.
  - by rewrite memory_Get.
  - pose proof (memory_Put h c l) as Hl. destruct (rl_Put h c l); simpl in *. by rewrite <-Hl.
  - pose proof (memory_Delete h l) as Hl. destruct (rl_Delete h l); simpl in *. by rewrite <-Hl.
  - pose proof (memory_PutBatch b l Hop) as Hl. destruct (rl_PutBatch b l) as [[? ?] ?].
    simpl in *. by rewrite <-Hl.
Qed.

Lemma run_simulates ops (l : MemoryReplayLog.t) :
  Forall wf_op ops →
  (memory_state (run log_op ops l).1, (run log_op ops l).2) = run spec_op ops (memory_state l).
Proof.
  intros Hops. revert l; induction Hops as [|op ops Hop Hops IH]; intros l; [done|].
  simpl. pose proof (log_op_simulates op l Hop) as Hs.
  destruct (log_op op l) as [l' o]. simpl in Hs. rewrite <-Hs.
  pose proof (IH l') as IHl. destruct (run log_op ops l') as [l'' os]. simpl in *.
  by rewrite <-IHl.
Qed.

(** C8.  Refinement: on every sequence of calls, with batches built by [Put],
    a [MemoryReplayLog] gives the answers of the abstract log, and stands for
    its state at the end.  In particular [PutBatch] gives the set-level result
    of the abstract log, no entry written before is lost, and a log that
    is not running rejects every call but [Start]. *)
Theorem MemoryReplayLog_refines ops :
  Forall wf_op ops →
  let '(rl, outs) := run log_op ops MemoryReplayLog.NewMemoryReplayLog in
  (memory_state rl, outs) = run spec_op ops None.
Proof.
  intros Hops. pose proof (run_simulates ops MemoryReplayLog.NewMemoryReplayLog Hops) as H.
  by destruct (run log_op ops _).
Qed.

(** C17.  Committing a batch does not depend on the order in which Go happens
    to iterate over its entries. *)
Theorem PutBatch_order_independent order1 order2 b rl :
  wf_Batch b → entries_order order1 b → entries_order order2 b →
  MemoryReplayLog.PutBatch order1 b rl = MemoryReplayLog.PutBatch order2 b rl.
Proof.
  intros Hb H1 H2. destruct rl as [[bs|] [m|]]; try done.
  by rewrite !PutBatch_memory by done.
Qed.

(** C19.  Committing under an identifier that has been committed before
    changes nothing and reports the replay set of the first commit, whatever
    the second batch holds; the batch is marked committed, so that further
    [Put]s to it are refused. *)
Theorem PutBatch_idempotent order1 order2 b1 b2 rl rl1 b1' rs :
  wf_Batch b1 → entries_order order1 b1 → ID b2 = ID b1 →
  MemoryReplayLog.PutBatch order1 b1 rl = (rl1, b1', Ok rs) →
  MemoryReplayLog.PutBatch order2 b2 rl1 = (rl1, committed rs b2, Ok rs) ∧
  ∀ seq h c, Batch_Put seq h c (committed rs b2) = (committed rs b2, Err ErrAlreadyCommitted).
Proof.
  intros Hb1 Ho1 Hid Hp. split; [|done].
  destruct rl as [[bs|] [m|]]; simpl in Hp; try discriminate Hp.
  rewrite PutBatch_memory in Hp by done.
  unfold MemoryReplayLog.PutBatch.
  destruct (bs !! ID b1) as [rs0|] eqn:E; cbv zeta in Hp;
    simplify_eq; simpl; rewrite Hid.
  - by rewrite E.
  - by rewrite lookup_insert_eq.
Qed.

(** C32.  The life of an entry: a prefix is stored once, with its value; a
    second [Put] of it is reported as a replay and changes nothing; other
    prefixes are not affected; [Delete] forgets it. *)
Theorem log_entry_lifecycle rl rl1 h h' c c' :
  MemoryReplayLog.Put h c rl = (rl1, Ok tt) → h' ≠ h →
  MemoryReplayLog.Get h rl = Err ErrLogEntryNotFound ∧
  MemoryReplayLog.Get h rl1 = Ok c ∧
  MemoryReplayLog.Put h c' rl1 = (rl1, Err ErrReplayedPacket) ∧
  MemoryReplayLog.Get h' rl1 = MemoryReplayLog.Get h' rl ∧
  MemoryReplayLog.Get h (MemoryReplayLog.Delete h rl1).1 = Err ErrLogEntryNotFound ∧
  MemoryReplayLog.Get h' (MemoryReplayLog.Delete h rl1).1 = MemoryReplayLog.Get h' rl.
Proof.
  intros Hp Hne. destruct rl as [[bs|] [m|]]; simpl in Hp; try discriminate Hp.
  unfold MemoryReplayLog.Put, MemoryReplayLog.Get, MemoryReplayLog.Delete in *; simpl in *.
  destruct (m !! h) eqn:E; simplify_eq; simpl.
  rewrite lookup_insert_eq, lookup_delete_eq, lookup_insert_ne by done.
  by rewrite lookup_delete_ne, lookup_insert_ne by done.
Qed.
