(* ===== verification/Router.v ===== *)
(** * The router and its transactions (sphinx.go, lines 489-610 and 717-820)

    A router has an onion key and a replay log; the log is any implementation
    of the interface [ReplayLog].  A transaction shares the router by
    pointer, so its operations take the router as it is at the call. *)

From S2P Require Import Prelude GoBytes Errors GoIO Sha256 Constants Btcec Crypto Packet Path.
From S2P Require Import SharedSecrets Onion ReplaySet Batch ReplayLog.

(** [btcutil], which is outside the repository: what [NewRouter] calls. *)
Class Btcutil := {
  Net : Type;
  Address : Type;
  Hash160 : list byte → list byte;
  NewAddressPubKeyHash : list byte → Net → option Address
}.

(** As documented: a 20-byte digest, and an error for any other size. *)
Class BtcutilLaws `{Btcutil} : Prop := {
  Hash160_length b : length (Hash160 b) = 20;
  NewAddressPubKeyHash_size pkh net :
    is_Some (NewAddressPubKeyHash pkh net) ↔ length pkh = 20
}.

Record Router (A L : Type) := mkRouter {
  nodeID : list byte;
  nodeAddr : option A;
  onionKey : PrivateKey;
  log : L
}.
Arguments mkRouter {A L} _ _ _ _.
Arguments nodeID {A L} _.
Arguments nodeAddr {A L} _.
Arguments onionKey {A L} _.
Arguments log {A L} _.

Definition with_log {A L} (r : Router A L) (l : L) : Router A L :=
  mkRouter (nodeID r) (nodeAddr r) (onionKey r) l.

(** [func NewRouter(nodeKey, net, log) *Router] *)
Definition NewRouter `{Btcec} `{Btcutil} {L} (nodeKey : PrivateKey) (net : Net) (l : L)
    : Outcome error (Router Address L) :=
  ser ← SerializeCompressed (priv_PubKey nodeKey);
  let nodeID := go_copy (zeros AddressSize) (Hash160 ser) in
  let nodeAddr := NewAddressPubKeyHash nodeID net in
  Ok (mkRouter nodeID nodeAddr
        (mkPrivateKey
           (mkPublicKey (Some S256) (pub_X (priv_PubKey nodeKey)) (pub_Y (priv_PubKey nodeKey)))
           (priv_D nodeKey))
        l).

Record Tx := mkTx {
  tx_batch : Batch;
  packets : list ProcessedPacket
}.

Section router.
Context `{Btcec} `{Chacha20} {A L : Type} `{ReplayLog L}.

Definition Router_Start (r : Router A L) : Router A L * Outcome error unit :=
  let '(l, err) := rl_Start (log r) in (with_log r l, err).

(** The error of the log's [Stop] is dropped. *)
Definition Router_Stop (r : Router A L) : Router A L :=
  let '(l, _) := rl_Stop (log r) in with_log r l.

(** The common first part of the processing methods: the shared secret for
    the packet's ephemeral key. *)
Definition packet_secret (r : Router A L) (pkt : OnionPacket) : Outcome error Hash256 :=
  dhKey ← deref (EphemeralKey pkt);
  Router_generateSharedSecret (onionKey r) dhKey.

(** [func (r *Router) ProcessOnionPacket(onionPkt, assocData, incomingCltv)] *)
Definition Router_ProcessOnionPacket (onionPkt : OnionPacket) (assocData : list byte)
    (incomingCltv : N) (r : Router A L) : Router A L * Outcome error ProcessedPacket :=
  match packet_secret r onionPkt with
  | Err e => (r, Err e)
  | Panic => (r, Panic)
  | Ok sharedSecret =>
      let hashPrefix := hashSharedSecret sharedSecret in
      match processOnionPacket onionPkt sharedSecret assocData with
      | Err e => (r, Err e)
      | Panic => (r, Panic)
      | Ok packet =>
          let '(l, err) := rl_Put hashPrefix incomingCltv (log r) in
          (with_log r l,
           match err with Ok _ => Ok packet | Err e => Err e | Panic => Panic end)
      end
  end.

(** [func (r *Router) ReconstructOnionPacket(onionPkt, assocData)] *)
Definition ReconstructOnionPacket (onionPkt : OnionPacket) (assocData : list byte)
    (r : Router A L) : Outcome error ProcessedPacket :=
  sharedSecret ← packet_secret r onionPkt;
  processOnionPacket onionPkt sharedSecret assocData.

(** [func (r *Router) BeginTxn(id []byte, nels int) *Tx]: [make] with a
    negative length panics. *)
Definition BeginTxn (id : list byte) (nels : Z) : Outcome error Tx :=
  if decide (nels < 0)%Z then Panic
  else Ok (mkTx (NewBatch id) (replicate (Z.to_nat nels) zeroProcessedPacket)).

(** [func (t *Tx) ProcessOnionPacket(seqNum, onionPkt, assocData, incomingCltv)]:
    the batch has been updated when the store into [t.packets] panics. *)
Definition Tx_ProcessOnionPacket (seqNum : N) (onionPkt : OnionPacket)
    (assocData : list byte) (incomingCltv : N) (r : Router A L) (t : Tx)
    : Tx * Outcome error unit :=
  match packet_secret r onionPkt with
  | Err e => (t, Err e)
  | Panic => (t, Panic)
  | Ok sharedSecret =>
      let hashPrefix := hashSharedSecret sharedSecret in
      match processOnionPacket onionPkt sharedSecret assocData with
      | Err e => (t, Err e)
      | Panic => (t, Panic)
      | Ok packet =>
          match Batch_Put seqNum hashPrefix incomingCltv (tx_batch t) with
          | (b, Err e) => (mkTx b (packets t), Err e)
          | (b, Panic) => (mkTx b (packets t), Panic)
          | (b, Ok _) =>
              if decide (N.to_nat seqNum < length (packets t))
              then (mkTx b (<[N.to_nat seqNum := packet]> (packets t)), Ok tt)
              else (mkTx b (packets t), Panic)
          end
      end
  end.

(** [func (t *Tx) Commit() ([]ProcessedPacket, *ReplaySet, error)] *)
Definition Commit (r : Router A L) (t : Tx)
    : Router A L * Tx * (list ProcessedPacket * Outcome error ReplaySet) :=
  if IsCommitted (tx_batch t)
  then (r, t, (packets t, Ok (batch_ReplaySet (tx_batch t))))
  else
    let '(l, b, rs) := rl_PutBatch (tx_batch t) (log r) in
    (with_log r l, mkTx b (packets t), (packets t, rs)).

End router.

(** ** Processing any packet *)

Section process.
Context `{BtcecLaws} `{Chacha20Laws}.

(** On a packet of the right size with a key on the curve, whatever its
    bytes, unwrapping either rejects the MAC or succeeds. *)
Lemma unwrapPacket_cases pkt ss assoc x y c :
  sized_OnionPacket pkt → EphemeralKey pkt = Some (mkPublicKey c (Some x) (Some y)) →
  (HeaderMAC pkt ≠ calcMac (generateKey "mu" ss) (RoutingInfo pkt ++ assoc) ∧
   unwrapPacket pkt ss assoc = Err ErrInvalidOnionHMAC) ∨
  (HeaderMAC pkt = calcMac (generateKey "mu" ss) (RoutingInfo pkt ++ assoc) ∧
   ∃ inner hd, unwrapPacket pkt ss assoc = Ok (inner, hd) ∧ wf_HopData hd ∧
     sized_OnionPacket inner ∧ Version inner = Version pkt ∧ HeaderMAC inner = HMAC hd ∧
     ∃ b k, computeBlindingFactor (mkPublicKey c (Some x) (Some y)) ss = Ok b ∧
       blindGroupElement (mkPublicKey c (Some x) (Some y)) b = Ok k ∧
       EphemeralKey inner = Some k).
Proof.
  intros [Hr Hm] Hk. unfold unwrapPacket, hmac_Equal.
  destruct (decide (HeaderMAC pkt = calcMac (generateKey "mu" ss) (RoutingInfo pkt ++ assoc)))
    as [Heq|Hne]; [|left; split; [done|by rewrite bool_decide_eq_false_2]].
  right. split; [done|]. rewrite bool_decide_eq_true_2 by done. cbn [negb].
  destruct (generateCipherStream_ok "rho" ss numStreamBytes) as (s & -> & Hs).
  pose proof numStreamBytes_val as HN.
  cbn [mbind Outcome_bind].
  rewrite xor_same_length by (rewrite ?length_app, ?length_zeros; lia).
  cbn [mbind Outcome_bind]. rewrite Hk. cbn [deref mbind Outcome_bind].
  unfold computeBlindingFactor, SerializeCompressed, blindGroupElement.
  cbn [pub_X pub_Y deref mbind Outcome_bind].
  set (info := xor_bytes _ _).
  assert (length info = numStreamBytes) as Hi.
  { unfold info. rewrite length_xor_bytes, length_app, length_zeros. lia. }
  destruct (ScalarMult x y _) as [nx ny] eqn:Hmul.
  destruct (HopData_Decode_total info) as (hd & r' & Hd & Hwf).
  { rewrite Hi, HN. pose proof HopDataSize_val. lia. }
  rewrite Hd. cbn [mbind Outcome_bind].
  do 2 eexists. split_and!; [done|done| |done|done|].
  2: { eexists _, _. split_and!; [reflexivity| |reflexivity]. rewrite Hmul. done. }
  split; [|apply Hwf]. cbn [RoutingInfo]. by rewrite length_go_copy, length_zeros.
Qed.

End process.

Section router_facts.
Context `{BtcecLaws} `{Chacha20Laws} {A L : Type} `{ReplayLogLaws L}.
Implicit Types (r : Router A L) (pkt : OnionPacket).

(** The MAC a router expects on a packet for which it has the secret [ss]. *)
Definition expected_mac (ss : Hash256) (pkt : OnionPacket) (assoc : list byte) : list byte :=
  calcMac (generateKey "mu" ss) (RoutingInfo pkt ++ assoc).

Lemma packet_secret_ok r pkt c x y :
  EphemeralKey pkt = Some (mkPublicKey c (Some x) (Some y)) → IsOnCurve x y = true →
  ∃ ss, packet_secret r pkt = Ok ss.
Proof.
  intros Hk Hc. unfold packet_secret. rewrite Hk. cbn [deref mbind Outcome_bind].
  unfold Router_generateSharedSecret. cbn [pub_X pub_Y deref mbind Outcome_bind].
  rewrite Hc. unfold generateSharedSecret. cbn [pub_X pub_Y deref mbind Outcome_bind].
  destruct (ScalarMult x y _). eexists. reflexivity.
Qed.

Lemma packet_secret_off_curve r pkt c x y :
  EphemeralKey pkt = Some (mkPublicKey c (Some x) (Some y)) → IsOnCurve x y = false →
  packet_secret r pkt = Err ErrInvalidOnionKey.
Proof.
  intros Hk Hc. unfold packet_secret. rewrite Hk. cbn [deref mbind Outcome_bind].
  unfold Router_generateSharedSecret. cbn [pub_X pub_Y deref mbind Outcome_bind].
  by rewrite Hc.
Qed.

(** Processing, once the secret is there, is reconstruction followed by an
    atomic test-and-set of the log. *)
Lemma process_reconstruct pkt assoc cltv r ss :
  packet_secret r pkt = Ok ss →
  Router_ProcessOnionPacket pkt assoc cltv r =
  match ReconstructOnionPacket pkt assoc r with
  | Ok pp =>
      let '(l, err) := rl_Put (hashSharedSecret ss) cltv (log r) in
      (with_log r l, _ ← err; Ok pp)
  | Err e => (r, Err e)
  | Panic => (r, Panic)
  end.
Proof.
  intros Hs. unfold Router_ProcessOnionPacket, ReconstructOnionPacket.
  rewrite Hs. cbn [mbind Outcome_bind].
  by destruct (processOnionPacket pkt ss assoc).
Qed.

(** A successful call, taken apart. *)
Lemma process_ok_inv pkt assoc cltv r r1 pp :
  Router_ProcessOnionPacket pkt assoc cltv r = (r1, Ok pp) →
  ∃ ss s, packet_secret r pkt = Ok ss ∧
    ReconstructOnionPacket pkt assoc r = Ok pp ∧
    onionKey r1 = onionKey r ∧
    log_state (log r) = Some s ∧ ls_entries s !! hashSharedSecret ss = None ∧
    log_state (log r1) =
      Some (mkLogState (<[hashSharedSecret ss := cltv]> (ls_entries s)) (ls_batches s)).
Proof.
  intros Hp. destruct (packet_secret r pkt) as [ss|e|] eqn:Hs.
  2-3: unfold Router_ProcessOnionPacket in Hp; rewrite Hs in Hp; done.
  rewrite (process_reconstruct _ _ _ _ _ Hs) in Hp.
  destruct (ReconstructOnionPacket pkt assoc r) as [pp'| |]; try done.
  destruct (Put_cases (hashSharedSecret ss) cltv (log r)) as [(e & _ & Ho & _)|(_ & Hl & Ho)];
    destruct (rl_Put _ _ _) as [l o]; cbn [fst snd] in *; [by rewrite Ho in Hp|].
  unfold spec_Put in Hl, Ho.
  destruct (log_state (log r)) as [s|]; [|by rewrite Ho in Hp].
  destruct (ls_entries s !! _) eqn:Hh; rewrite Ho in Hp; [done|].
  cbn [mbind Outcome_bind] in Hp. simplify_eq. cbn [log with_log onionKey].
  by exists ss, s.
Qed.

Lemma reconstruct_onionKey pkt assoc r r' :
  onionKey r' = onionKey r →
  packet_secret r' pkt = packet_secret r pkt ∧
  ReconstructOnionPacket pkt assoc r' = ReconstructOnionPacket pkt assoc r.
Proof. intros Hk. unfold ReconstructOnionPacket, packet_secret. by rewrite Hk. Qed.

(** Every way in which a well-sized packet can be refused, in the order of
    the checks; [None] when it is accepted.  A log that fails has the last
    word. *)
Definition verdict r pkt assoc (cltv : N) (x y : N) (ss : Hash256) : option error :=
  if negb (IsOnCurve x y) then Some ErrInvalidOnionKey
  else if decide (HeaderMAC pkt ≠ expected_mac ss pkt assoc) then Some ErrInvalidOnionHMAC
  else match log_fault (rl_Put (hashSharedSecret ss) cltv (log r)).2 with
       | Some e => Some e
       | None =>
           match log_state (log r) with
           | None => Some errReplayLogNotStarted
           | Some s =>
               if decide (is_Some (ls_entries s !! hashSharedSecret ss))
               then Some ErrReplayedPacket else None
           end
       end.

Lemma reconstruct_cases pkt assoc r ss c x y :
  sized_OnionPacket pkt → EphemeralKey pkt = Some (mkPublicKey c (Some x) (Some y)) →
  packet_secret r pkt = Ok ss →
  (HeaderMAC pkt ≠ expected_mac ss pkt assoc ∧
   ReconstructOnionPacket pkt assoc r = Err ErrInvalidOnionHMAC) ∨
  (HeaderMAC pkt = expected_mac ss pkt assoc ∧
   ∃ inner hd, ReconstructOnionPacket pkt assoc r =
       Ok (mkProcessedPacket (if bool_decide (zeroHMAC = HMAC hd) then ExitNode else MoreHops)
             hd (Some inner)) ∧
     wf_HopData hd ∧ sized_OnionPacket inner ∧
     Version inner = Version pkt ∧ HeaderMAC inner = HMAC hd).
Proof.
  intros Hsz Hk Hs. unfold ReconstructOnionPacket, processOnionPacket, expected_mac.
  rewrite Hs. cbn [mbind Outcome_bind].
  destruct (unwrapPacket_cases pkt ss assoc x y c Hsz Hk)
    as [[Hm ->]|(Hm & inner & hd & -> & Hwf & Hsi & Hv & Hh & _)]; [by left|].
  right. split; [done|]. by exists inner, hd.
Qed.

Lemma log_with_log r l : log (with_log r l) = l.
Proof. reflexivity. Qed.

(** A packet whose key is nil or lacks a coordinate. *)
Lemma process_nil_key pkt assoc cltv r :
  match EphemeralKey pkt with
  | Some (mkPublicKey _ (Some _) (Some _)) => True
  | _ => Router_ProcessOnionPacket pkt assoc cltv r = (r, Panic)
  end.
Proof.
  unfold Router_ProcessOnionPacket, packet_secret, Router_generateSharedSecret.
  by destruct (EphemeralKey pkt) as [[c [x|] [y|]]|].
Qed.

(** C5.  A router classifies every packet, whatever its bytes.  A packet (with
    the array sizes of the struct) whose ephemeral key is nil or lacks a
    coordinate, as no packet that was decoded successfully, makes it panic and
    changes nothing.
    Any other packet does not: it is refused with [ErrInvalidOnionKey] off the
    curve, then with [ErrInvalidOnionHMAC] when the MAC over the routing
    information and the associated data is not the expected one, then by the
    log, with [errReplayLogNotStarted], [ErrReplayedPacket] or a failure of the
    log's own; a refused packet leaves the log's contents as they were.  An
    accepted packet adds exactly its own hash prefix with the incoming CLTV, and
    gives a well-formed payload and a well-sized next packet whose MAC is the
    payload's. *)
Theorem process_total pkt assoc cltv r :
  sized_OnionPacket pkt →
  ∃ r1 out, Router_ProcessOnionPacket pkt assoc cltv r = (r1, out) ∧
    match EphemeralKey pkt with
    | Some (mkPublicKey _ (Some x) (Some y)) =>
        ∃ ss, (IsOnCurve x y = true → packet_secret r pkt = Ok ss) ∧
        match verdict r pkt assoc cltv x y ss with
        | Some e => out = Err e ∧ log_state (log r1) = log_state (log r)
        | None => ∃ s hd inner, log_state (log r) = Some s ∧
            log_state (log r1) =
              Some (mkLogState (<[hashSharedSecret ss := cltv]> (ls_entries s)) (ls_batches s)) ∧
            out = Ok (mkProcessedPacket
                        (if bool_decide (zeroHMAC = HMAC hd) then ExitNode else MoreHops)
                        hd (Some inner)) ∧
            wf_HopData hd ∧ sized_OnionPacket inner ∧
            Version inner = Version pkt ∧ HeaderMAC inner = HMAC hd
        end
    | _ => out = Panic ∧ r1 = r
    end.
Proof.
  intros Hsz. pose proof (process_nil_key pkt assoc cltv r) as Hnil.
  destruct (EphemeralKey pkt) as [[c [x|] [y|]]|] eqn:Hk; try by exists r, Panic.
  clear Hnil. unfold verdict. destruct (IsOnCurve x y) eqn:Hc; cbn [negb].
  2: { exists r, (Err ErrInvalidOnionKey). split; [|by exists []].
       unfold Router_ProcessOnionPacket. by rewrite (packet_secret_off_curve _ _ _ _ _ Hk Hc). }
  destruct (packet_secret_ok r pkt c x y Hk Hc) as [ss Hss].
  rewrite (process_reconstruct _ _ _ _ _ Hss).
  destruct (reconstruct_cases pkt assoc r ss c x y Hsz Hk Hss)
    as [[Hm ->]|(Hm & inner & hd & -> & Hrest)].
  { exists r, (Err ErrInvalidOnionHMAC). split; [done|]. exists ss. by rewrite decide_True. }
  destruct (Put_cases (hashSharedSecret ss) cltv (log r))
    as [(e & Hf & Ho & _ & _ & Hl)|(Hf & Hl & Ho)];
    destruct (rl_Put _ _ _) as [l o] eqn:Hput; cbn [fst snd] in *;
    exists (with_log r l); eexists; (split; [done|]); exists ss; (split; [done|]);
    rewrite decide_False, Hput by (by intros []); cbn [snd]; rewrite Hf, log_with_log, Hl, Ho;
    [done|].
  unfold spec_Put. destruct (log_state (log r)) as [s|]; [|done].
  destruct (ls_entries s !! _) eqn:Hh.
  - by rewrite decide_True by by eexists.
  - rewrite decide_False by (by intros []). by exists s, hd, inner.
Qed.

(** Calls, one after the other; their results do not matter here. *)
Fixpoint process_all (calls : list (OnionPacket * list byte * N)) r : Router A L :=
  match calls with
  | [] => r
  | (pkt, assoc, cltv) :: calls =>
      process_all calls (Router_ProcessOnionPacket pkt assoc cltv r).1
  end.

(** The log has the prefix. *)
Definition recorded (h : HashPrefix) r : Prop :=
  ∃ s, log_state (log r) = Some s ∧ is_Some (ls_entries s !! h).

(** A call keeps the key of the router and the prefixes of its log. *)
Lemma process_keeps pkt assoc cltv r h :
  onionKey (Router_ProcessOnionPacket pkt assoc cltv r).1 = onionKey r ∧
  (recorded h r → recorded h (Router_ProcessOnionPacket pkt assoc cltv r).1).
Proof.
  destruct (packet_secret r pkt) as [ss| |] eqn:Hs.
  2-3: unfold Router_ProcessOnionPacket; by rewrite Hs.
  rewrite (process_reconstruct _ _ _ _ _ Hs).
  destruct (ReconstructOnionPacket pkt assoc r) as [pp| |]; try done.
  destruct (Put_cases (hashSharedSecret ss) cltv (log r)) as [(e & _ & _ & _ & _ & Hl)|(_ & Hl & _)];
    destruct (rl_Put _ _ _) as [l o]; cbn [fst snd] in *; (split; [done|]);
    intros (s & Hr & Hh); unfold recorded; rewrite log_with_log, Hl, Hr; [by exists s|].
  unfold spec_Put. destruct (ls_entries s !! hashSharedSecret ss) eqn:E; eexists; (split; [done|]); [done|].
  cbn [ls_entries]. rewrite lookup_insert_is_Some'. by right.
Qed.

Lemma process_all_keeps calls r h :
  onionKey (process_all calls r) = onionKey r ∧
  (recorded h r → recorded h (process_all calls r)).
Proof.
  revert r. induction calls as [|[[pkt assoc] cltv] calls IH]; intros r; [done|].
  cbn [process_all]. destruct (process_keeps pkt assoc cltv r h) as [Hk Hh].
  destruct (IH (Router_ProcessOnionPacket pkt assoc cltv r).1) as [IHk IHh].
  split; [congruence|auto].
Qed.

(** A packet that passes the checks and whose prefix the log has. *)
Lemma process_recorded pkt assoc cltv r ss pp :
  packet_secret r pkt = Ok ss → ReconstructOnionPacket pkt assoc r = Ok pp →
  recorded (hashSharedSecret ss) r →
  ∃ r1 e, Router_ProcessOnionPacket pkt assoc cltv r = (r1, Err e) ∧
    (e = ErrReplayedPacket ∨ log_failure e) ∧ (ReliableLog L → e = ErrReplayedPacket) ∧
    log_state (log r1) = log_state (log r).
Proof.
  intros Hs Hr (s & Hl & [c Hh]). rewrite (process_reconstruct _ _ _ _ _ Hs), Hr.
  destruct (Put_cases (hashSharedSecret ss) cltv (log r))
    as [(e & Hf & Ho & He & _ & Hl1)|(_ & Hl1 & Ho)].
  - assert (ReliableLog L → e = ErrReplayedPacket) as Hrel.
    { intros Hrel. by rewrite Put_reliable in Hf. }
    destruct (rl_Put _ _ _) as [l o]; cbn [fst snd] in *. exists (with_log r l), e.
    rewrite log_with_log, Hl1, Ho. split_and!; [done|by right|done|done].
  - destruct (rl_Put _ _ _) as [l o]; cbn [fst snd] in *. unfold spec_Put in Hl1, Ho.
    rewrite Hl, Hh in Hl1, Ho. exists (with_log r l), ErrReplayedPacket.
    rewrite log_with_log, Hl1, Ho, Hl. split_and!; [done|by left|done|done].
Qed.

(** C7.  Replay protection, for every implementation of the contract of
    [ReplayLog], also one that keeps its contents when it is restarted or that
    may fail: once a router has accepted a packet, and whatever packets it is
    handed in between (no entry being deleted), it refuses every packet with the same ephemeral key,
    whatever its other fields, its associated data and its CLTV.  The packet
    itself is refused with [ErrReplayedPacket], unless the log fails with an
    error of its own, and the log's contents stay as they were. *)
Theorem replay_rejected pkt assoc cltv r r1 pp calls pkt' assoc' cltv' :
  Router_ProcessOnionPacket pkt assoc cltv r = (r1, Ok pp) →
  EphemeralKey pkt' = EphemeralKey pkt →
  let r2 := process_all calls r1 in
  (∀ r3 pp', Router_ProcessOnionPacket pkt' assoc' cltv' r2 ≠ (r3, Ok pp')) ∧
  ∃ r3 e, Router_ProcessOnionPacket pkt assoc cltv' r2 = (r3, Err e) ∧
    (e = ErrReplayedPacket ∨ log_failure e) ∧ (ReliableLog L → e = ErrReplayedPacket) ∧
    log_state (log r3) = log_state (log r2).
Proof.
  intros (ss & s & Hs & Hr & Hk & Hl & Hh & Hl1)%process_ok_inv He r2.
  destruct (process_all_keeps calls r1 (hashSharedSecret ss)) as [Hk2 Hrec].
  fold r2 in Hk2, Hrec. assert (onionKey r2 = onionKey r) as Hkey by congruence.
  assert (recorded (hashSharedSecret ss) r2) as Hr2.
  { apply Hrec. eexists. split; [done|]. cbn [ls_entries]. by rewrite lookup_insert_eq. }
  destruct (reconstruct_onionKey pkt assoc r r2 Hkey) as [Hs2 Hre]. split.
  - intros r3 pp' (ss' & s' & Hs' & _ & _ & Hl' & Hh' & _)%process_ok_inv.
    assert (ss' = ss) as ->.
    { unfold packet_secret in *. rewrite He, Hkey, Hs in Hs'. by simplify_eq. }
    destruct Hr2 as (s2 & G1 & [v G2]). by simplify_eq.
  - eapply process_recorded; [by rewrite Hs2|by rewrite Hre|done].
Qed.

(** C20.  [ReconstructOnionPacket] re-derives what [ProcessOnionPacket] gave:
    at the router after the call, and at any router with the same onion key,
    whatever its log holds, in particular when the packet would now be
    refused as a replay. *)
Theorem reconstruct_agrees {A' L'} `{ReplayLog L'} pkt assoc cltv r r1 pp (r' : Router A' L') :
  Router_ProcessOnionPacket pkt assoc cltv r = (r1, Ok pp) →
  onionKey r' = onionKey r →
  ReconstructOnionPacket pkt assoc r1 = Ok pp ∧ ReconstructOnionPacket pkt assoc r' = Ok pp.
Proof.
  intros (ss & s & Hs & Hr & Hk & _)%process_ok_inv Hk'.
  unfold ReconstructOnionPacket, packet_secret in *. by rewrite Hk, Hk'.
Qed.

End router_facts.

(** C26.  Replay protection does not survive [Start].  Starting a router with a
    memory log that is running reports no error (never
    [errReplayLogAlreadyStarted]) and empties the log, so that a packet the
    router had accepted is accepted a second time, with the same result. *)
Theorem restart_accepts_again `{BtcecLaws} `{Chacha20Laws} {A : Type} pkt assoc cltv cltv'
    (r r1 : Router A MemoryReplayLog.t) pp :
  Router_ProcessOnionPacket pkt assoc cltv r = (r1, Ok pp) →
  ∃ r2 r3, Router_Start r1 = (r2, Ok tt) ∧
    Router_ProcessOnionPacket pkt assoc cltv' r2 = (r3, Ok pp).
Proof.
  intros (ss & s & Hs & Hr & Hk & _)%process_ok_inv. do 2 eexists. split; [reflexivity|].
  set (r2 := with_log r1 _). assert (onionKey r2 = onionKey r) as Hk2 by exact Hk.
  destruct (reconstruct_onionKey pkt assoc r r2 Hk2) as [Hs2 Hr2].
  rewrite (process_reconstruct _ _ _ _ ss), Hr2, Hr by congruence.
  cbn [rl_Put MemoryReplayLog_ReplayLog log with_log r2]. unfold MemoryReplayLog.Put.
  cbn [MemoryReplayLog.entries MemoryReplayLog.batches]. rewrite lookup_empty. reflexivity.
Qed.

(** C37.  A router is made with the node's key as its onion key, a node ID of
    eight bytes and no address: [NewAddressPubKeyHash] takes 20-byte hashes
    only and is handed the eight bytes of the node ID, so the error that is
    ignored there is always set. *)
Theorem NewRouter_no_address `{BtcecLaws} `{BtcutilLaws} {L : Type} nodeKey net (l : L) :
  wf_priv nodeKey →
  ∃ id, NewRouter nodeKey net l = Ok (mkRouter id None nodeKey l) ∧ length id = AddressSize.
Proof.
  intros Hk. destruct (wf_priv_on_curve nodeKey Hk) as (x & y & Hx & Hy & Hc).
  unfold NewRouter, SerializeCompressed. rewrite Hx, Hy. cbn [deref mbind Outcome_bind].
  set (id := go_copy _ _).
  assert (length id = AddressSize) as Hid by (unfold id; by len_simp).
  exists id. split; [|done].
  assert (NewAddressPubKeyHash id net = None) as ->.
  { destruct (NewAddressPubKeyHash id net) eqn:E; [|done].
    assert (length id = 20) by (apply (NewAddressPubKeyHash_size id net); by eexists).
    unfold AddressSize in Hid. lia. }
  do 2 f_equal. destruct Hk as [_ Hp]. destruct nodeKey as [[cv px py] d]. simpl in *.
  unfold base_key in Hp. destruct (ScalarBaseMult _). by simplify_eq.
Qed.
