(* ===== verification/Wire.v ===== *)
(** * Relaying over the wire

    In [Sphinx] the nodes of a route hand each other packets.  Here they send
    bytes: every node decodes what it receives, processes the packet and
    encodes the next one. *)

From S2P Require Import Prelude GoBytes Errors GoIO Sha256 Constants Btcec Crypto Packet Path.
From S2P Require Import SharedSecrets Onion Layers Peel Sphinx ReplaySet Batch ReplayLog Router.

Section wire.
Context `{Btcec} `{Chacha20}.

Fixpoint relay_wire (assocData : list byte) (nodes : list PrivateKey) (bytes : list byte)
    : Outcome error (list ProcessedPacket) :=
  match nodes with
  | [] => Ok []
  | k :: nodes =>
      let '(_, pkt, err) := OnionPacket_Decode (bytes_reader bytes) zeroOnionPacket in
      _ ← err;
      dhKey ← deref (EphemeralKey pkt);
      sharedSecret ← Router_generateSharedSecret k dhKey;
      pp ← processOnionPacket pkt sharedSecret assocData;
      next ← deref (NextPacket pp);
      let '(w, err) := OnionPacket_Encode next ([] : list byte) in
      _ ← err;
      pps ← relay_wire assocData nodes w;
      Ok (pp :: pps)
  end.

End wire.

Section wire_facts.
Context `{BtcecLaws} `{Chacha20Laws}.

Lemma zeroOnionPacket_sized : sized_OnionPacket zeroOnionPacket.
Proof. by split; apply length_zeros. Qed.

(** A well-formed packet goes through the wire unchanged. *)
Lemma wire_id pkt :
  wf_OnionPacket pkt →
  OnionPacket_Encode pkt ([] : list byte) = (OnionPacket_bytes pkt, Ok tt) ∧
  ∃ r, OnionPacket_Decode (bytes_reader (OnionPacket_bytes pkt)) zeroOnionPacket = (r, pkt, Ok tt).
Proof.
  intros Hp. split; [by apply (OnionPacket_Encode_buffer pkt [])|].
  destruct (OnionPacket_Decode_ok pkt zeroOnionPacket (bytes_reader (OnionPacket_bytes pkt)) [])
    as (r & Hr & _); [done|apply zeroOnionPacket_sized| |by exists r].
  by rewrite rd_content_bytes_reader, app_nil_r.
Qed.

(** The packet that a node hands on is well-formed, and its key is the
    node's blinding of the one received. *)
Lemma processed_wf pkt c P assoc pp :
  wf_OnionPacket pkt → EphemeralKey pkt = Some (key_of (smul G c)) → (c mod Params_N ≠ 0)%N →
  (be_value (blind_at c P) mod Params_N ≠ 0)%N →
  processOnionPacket pkt (secret_at c P) assoc = Ok pp →
  ∃ next, NextPacket pp = Some next ∧ wf_OnionPacket next ∧
    EphemeralKey next = Some (key_of (smul G (next_factor c P))).
Proof.
  intros (Hv & Hsz & _) Hk Hc Hb Hp. unfold processOnionPacket in Hp.
  destruct (unwrapPacket_cases pkt (secret_at c P) assoc _ _ _ Hsz Hk)
    as [[_ Hu]|(_ & inner & hd & Hu & _ & Hsi & Hvi & _ & b & k & Hcb & Hbl & Hki)];
    rewrite Hu in Hp; [done|].
  cbn [mbind Outcome_bind] in Hp. simplify_eq. exists inner.
  destruct (receiver_blinding P c Hc) as [Hcb' Hbl'].
  fold (key_of (smul G c)) in Hcb, Hbl. rewrite Hcb' in Hcb. simplify_eq.
  rewrite Hbl' in Hbl. simplify_eq. split; [done|]. split; [|done].
  split; [by rewrite Hvi|]. split; [exact Hsi|].
  do 2 eexists. split; [exact Hki|]. apply smul_on_curve; auto with onion.
Qed.

Lemma relay_wire_spec assoc nodes c pkt :
  Forall wf_priv nodes → (c mod Params_N ≠ 0)%N →
  blinding_ok c ((point_of ∘ priv_PubKey) <$> nodes) →
  wf_OnionPacket pkt → EphemeralKey pkt = Some (key_of (smul G c)) →
  relay_wire assoc nodes (OnionPacket_bytes pkt) = relay assoc nodes pkt.
Proof.
  intros Hn. revert c pkt. induction Hn as [|k nodes Hk _ IH]; intros c pkt Hc Hb Hw He; [done|].
  rewrite fmap_cons in Hb. cbn [blinding_ok] in Hb. destruct Hb as [Hb1 Hb2].
  change ((point_of ∘ priv_PubKey) k) with (point_of (priv_PubKey k)) in Hb1, Hb2.
  cbn [relay_wire relay]. destruct (wire_id pkt Hw) as [_ (r & Hd)]. rewrite Hd.
  cbn [mbind Outcome_bind]. rewrite He. cbn [deref mbind Outcome_bind].
  rewrite receiver_secret by done. cbn [mbind Outcome_bind].
  destruct (processOnionPacket _ _ _) as [pp| |] eqn:Hp; try done.
  destruct (processed_wf _ _ _ _ _ Hw He Hc Hb1 Hp) as (next & Hnext & Hwn & Hen).
  cbn [mbind Outcome_bind]. rewrite Hnext. cbn [deref mbind Outcome_bind].
  destruct (wire_id next Hwn) as [Henc _]. rewrite Henc. cbn [mbind Outcome_bind].
  by rewrite (IH (next_factor c (point_of (priv_PubKey k))) next) by auto with onion.
Qed.

(** C38.  Sending bytes is the same as handing over packets.  For any packet
    that can be put on the wire and whose ephemeral key is a multiple of the
    generator, honestly built or not, the nodes that decode, process and
    re-encode it one after the other see exactly what they see when packets
    are passed on directly: the same payloads and actions, or the same error at
    the same node. *)
Theorem relay_wire_equivalent assoc nodes c pkt :
  Forall wf_priv nodes → (c mod Params_N ≠ 0)%N →
  blinding_ok c ((point_of ∘ priv_PubKey) <$> nodes) →
  wf_OnionPacket pkt → EphemeralKey pkt = Some (key_of (smul G c)) →
  ∃ bytes, OnionPacket_Encode pkt ([] : list byte) = (bytes, Ok tt) ∧ length bytes = 1366 ∧
    relay_wire assoc nodes bytes = relay assoc nodes pkt.
Proof.
  intros Hn Hc Hb Hw He. exists (OnionPacket_bytes pkt). split_and!.
  - by apply wire_id.
  - by rewrite length_OnionPacket_bytes.
  - by apply (relay_wire_spec assoc nodes c).
Qed.

End wire_facts.
