(* ===== verification/Txn.v ===== *)
(** * Transactions against one-by-one processing (sphinx.go, lines 725-820)

    A transaction processes a batch of packets optimistically and consults
    the replay log once, at [Commit].  The theorem of this file says that
    nothing is lost by that: what a caller learns from the transaction is what
    it would have learned by handing the packets to
    [Router.ProcessOnionPacket] one after the other, and the log ends up with
    the same entries. *)

From S2P Require Import Prelude GoBytes Errors GoIO Sha256 Constants Btcec Crypto Packet Path.
From S2P Require Import SharedSecrets Onion ReplaySet Batch ReplayLog Router.

(** A packet as a caller hands it to a transaction. *)
Record Item := mkItem {
  it_seq : N;
  it_pkt : OnionPacket;
  it_assoc : list byte;
  it_cltv : N
}.

Section runs.
Context `{Btcec} `{Chacha20} {A L : Type} `{ReplayLog L}.

(** The packets, in order, through [Router.ProcessOnionPacket]. *)
Fixpoint run_router (items : list Item) (r : Router A L)
    : Router A L * list (Outcome error ProcessedPacket) :=
  match items with
  | [] => (r, [])
  | i :: items =>
      let '(r, out) := Router_ProcessOnionPacket (it_pkt i) (it_assoc i) (it_cltv i) r in
      let '(r, outs) := run_router items r in (r, out :: outs)
  end.

(** The packets, in order, through [Tx.ProcessOnionPacket]. *)
Fixpoint run_tx (items : list Item) (r : Router A L) (t : Tx)
    : Tx * list (Outcome error unit) :=
  match items with
  | [] => (t, [])
  | i :: items =>
      let '(t, out) :=
        Tx_ProcessOnionPacket (it_seq i) (it_pkt i) (it_assoc i) (it_cltv i) r t in
      let '(t, outs) := run_tx items r t in (t, out :: outs)
  end.

(** What the documentation tells the caller to do with the results of a
    transaction: a packet that failed, failed; one in the replay set is a
    replay; the others are in the slice of processed packets. *)
Definition resolve (rs : gset N) (pkts : list ProcessedPacket) (i : Item)
    (out : Outcome error unit) : Outcome error ProcessedPacket :=
  _ ← out;
  if decide (it_seq i ∈ rs) then Err ErrReplayedPacket
  else index pkts (N.to_nat (it_seq i)).

End runs.

(** ** One [Put] and the eventual commit *)

(** The replay set that committing [b] to a log with entries [m] will give. *)
Definition eventual_replays (m : gmap HashPrefix N) (b : Batch) : gset N :=
  spec_replays m b ∪ replays (batch_ReplaySet b).

(** The batch has every prefix that the commit would add in its cache. *)
Definition batch_tracks (m : gmap HashPrefix N) (b : Batch) : Prop :=
  wf_Batch b ∧ IsCommitted b = false ∧ dom (spec_entries m b) = dom m ∪ replayCache b.

Lemma NewBatch_tracks m id : batch_tracks m (NewBatch id).
Proof.
  split_and!; [apply NewBatch_wf|done|].
  unfold spec_entries; simpl. rewrite map_to_list_empty. simpl.
  by rewrite (right_id_L ∅ (∪)), (right_id_L ∅ (∪)).
Qed.

Lemma spec_entries_put m b seq h c :
  wf_Batch b → h ∉ replayCache b → batch_entries b !! seq = None →
  spec_entries m (mkBatch (IsCommitted b) (ID b) (batch_ReplaySet b)
     (<[seq := mkBatchEntry h c]> (batch_entries b)) ({[h]} ∪ replayCache b)) =
  if decide (is_Some (m !! h)) then spec_entries m b else <[h := c]> (spec_entries m b).
Proof.
  intros Hwf Hh Hseq. unfold spec_entries. cbn [batch_entries].
  set (f := λ se : N * batchEntry, (hashPrefix se.2, cltv se.2)).
  replace (list_to_map (f <$> map_to_list (<[seq:=mkBatchEntry h c]> (batch_entries b))))
    with (<[h := c]> (list_to_map (f <$> map_to_list (batch_entries b)) : gmap HashPrefix N)).
  2: { change (<[h := c]> (list_to_map (f <$> map_to_list (batch_entries b))))
         with (list_to_map (f <$> (seq, mkBatchEntry h c) :: map_to_list (batch_entries b))
                 : gmap HashPrefix N).
       apply list_to_map_proper.
       - apply (wf_Batch_NoDup (mkBatch (IsCommitted b) (ID b) (batch_ReplaySet b)
           (<[seq := mkBatchEntry h c]> (batch_entries b)) ({[h]} ∪ replayCache b))).
         + pose proof (Batch_Put_wf seq h c (mkBatch false (ID b) (batch_ReplaySet b)
             (batch_entries b) (replayCache b)) Hwf) as Hput.
           unfold Batch_Put in Hput; simpl in Hput. by rewrite decide_False in Hput.
         + unfold entries_order. simpl. by rewrite map_to_list_insert.
       - by rewrite map_to_list_insert. }
  case_decide as Hm.
  - destruct Hm as [c' Hm]. apply map_eq. intros k. destruct (decide (k = h)) as [->|Hne].
    + by rewrite !(lookup_union_Some_l _ _ _ _ Hm).
    + by rewrite !lookup_union, lookup_insert_ne by done.
  - symmetry. apply insert_union_r. by apply eq_None_not_Some.
Qed.

Lemma spec_replays_put m b seq h c b' :
  batch_entries b !! seq = None →
  batch_entries b' = <[seq := mkBatchEntry h c]> (batch_entries b) →
  spec_replays m b' =
  if decide (is_Some (m !! h)) then {[seq]} ∪ spec_replays m b else spec_replays m b.
Proof.
  intros Hseq He. unfold spec_replays. rewrite He. case_decide as Hm.
  - rewrite map_filter_insert_True by done. by rewrite dom_insert_L.
  - rewrite map_filter_insert_False by done. by rewrite delete_id.
Qed.

(** What one [Put] under a new sequence number changes in the outcome of the
    commit: nothing but this packet's own place in it. *)
Lemma Batch_Put_eventual m b seq h c :
  batch_tracks m b → batch_entries b !! seq = None →
  let b' := (Batch_Put seq h c b).1 in
  batch_tracks m b' ∧ (Batch_Put seq h c b).2 = Ok tt ∧ ID b' = ID b ∧
  (∀ s, s ≠ seq → batch_entries b' !! s = batch_entries b !! s) ∧
  if decide (is_Some (spec_entries m b !! h))
  then spec_entries m b' = spec_entries m b ∧
       eventual_replays m b' = {[seq]} ∪ eventual_replays m b
  else spec_entries m b' = <[h := c]> (spec_entries m b) ∧
       eventual_replays m b' = eventual_replays m b.
Proof.
  intros (Hwf & Hcom & Hdom) Hseq b'.
  assert (is_Some (spec_entries m b !! h) ↔ is_Some (m !! h) ∨ h ∈ replayCache b) as Hin.
  { rewrite <-!elem_of_dom, Hdom. set_solver. }
  pose proof (Batch_Put_wf seq h c b Hwf) as Hwf'. fold b' in Hwf'.
  unfold b', Batch_Put in *. rewrite Hcom in *. destruct (decide (h ∈ replayCache b)) as [Hh|Hh].
  - cbn [fst snd] in *. rewrite decide_True by (apply Hin; by right).
    split_and!; try done. unfold eventual_replays, spec_replays; simpl. set_solver.
  - cbn [fst snd] in *.
    pose proof (spec_entries_put m b seq h c Hwf Hh Hseq) as HE. rewrite Hcom in HE.
    unfold eventual_replays. cbn [batch_ReplaySet].
    erewrite (spec_replays_put m b seq h c) by done.
    split_and!; try done.
    + split_and!; [done|done|]. cbn [replayCache]. rewrite HE.
      case_decide as Hm; [|rewrite dom_insert_L]; rewrite Hdom; [|set_solver].
      apply elem_of_dom in Hm. set_solver.
    + intros s Hs. cbn [batch_entries]. by rewrite lookup_insert_ne.
    + rewrite HE. destruct (decide (is_Some (m !! h))) as [Hm|Hm].
      * rewrite decide_True by (apply Hin; by left). split; [done|set_solver].
      * rewrite decide_False by (rewrite Hin; by intros [?|?]). done.
Qed.

(** ** The runs *)

Section equivalence.
Context `{BtcecLaws} `{Chacha20Laws} {A L : Type} `{ReplayLogLaws L} `{!ReliableLog L}.
Implicit Types (r : Router A L).

(** A packet either fails the checks that come before the replay protection,
    and then both methods report the same failure and change nothing, or both
    go on to record its hash prefix. *)
Lemma process_both i r r' t :
  onionKey r' = onionKey r →
  (∃ ss pp, packet_secret r (it_pkt i) = Ok ss ∧ packet_secret r' (it_pkt i) = Ok ss ∧
     processOnionPacket (it_pkt i) ss (it_assoc i) = Ok pp) ∨
  (∃ fail : ∀ B, Outcome error B,
     (∀ B C (f : B → Outcome error C), fail B ≫= f = fail C) ∧
     Router_ProcessOnionPacket (it_pkt i) (it_assoc i) (it_cltv i) r' = (r', fail _) ∧
     Tx_ProcessOnionPacket (it_seq i) (it_pkt i) (it_assoc i) (it_cltv i) r t = (t, fail _)).
Proof.
  intros Hk. unfold Router_ProcessOnionPacket, Tx_ProcessOnionPacket.
  destruct (reconstruct_onionKey (it_pkt i) (it_assoc i) r r' Hk) as [-> _].
  destruct (packet_secret r (it_pkt i)) as [ss|e|].
  2: { right. by exists (λ B, Err e). }
  2: { right. by exists (λ B, Panic). }
  destruct (processOnionPacket (it_pkt i) ss (it_assoc i)) as [pp|e|] eqn:E.
  - left. by exists ss, pp.
  - right. by exists (λ B, Err e).
  - right. by exists (λ B, Panic).
Qed.

(** The state of a transaction and of a router that has been given the same
    packets one by one. *)
Definition in_step (m : gmap HashPrefix N) (B : gmap (list byte) ReplaySet)
    (t : Tx) (r' : Router A L) : Prop :=
  batch_tracks m (tx_batch t) ∧
  log_state (log r') = Some (mkLogState (spec_entries m (tx_batch t)) B).

Lemma step_in_step m B i r r' t :
  onionKey r' = onionKey r → in_step m B t r' →
  batch_entries (tx_batch t) !! it_seq i = None →
  it_seq i ∉ eventual_replays m (tx_batch t) →
  N.to_nat (it_seq i) < length (packets t) →
  ∃ t1 r1 out out',
    Tx_ProcessOnionPacket (it_seq i) (it_pkt i) (it_assoc i) (it_cltv i) r t = (t1, out) ∧
    Router_ProcessOnionPacket (it_pkt i) (it_assoc i) (it_cltv i) r' = (r1, out') ∧
    onionKey r1 = onionKey r ∧ in_step m B t1 r1 ∧ ID (tx_batch t1) = ID (tx_batch t) ∧
    length (packets t1) = length (packets t) ∧
    out' = resolve (eventual_replays m (tx_batch t1)) (packets t1) i out ∧
    ∀ s, s ≠ it_seq i →
      batch_entries (tx_batch t1) !! s = batch_entries (tx_batch t) !! s ∧
      (s ∈ eventual_replays m (tx_batch t1) ↔ s ∈ eventual_replays m (tx_batch t)) ∧
      packets t1 !! N.to_nat s = packets t !! N.to_nat s.
Proof.
  intros Hk [Hb Hl] Hent Hrep Hlt.
  destruct (process_both i r r' t Hk) as [(ss & pp & Hs & Hs' & Hp)|(fail & Hf & Hr & Ht)].
  2: { exists t, r', (fail _), (fail _). split_and!; try done. unfold resolve. by rewrite Hf. }
  destruct (Batch_Put_eventual m _ (it_seq i) (hashSharedSecret ss) (it_cltv i) Hb Hent)
    as (Hb1 & Ho & Hid & He & Hev).
  destruct (Put_reliable_cases (hashSharedSecret ss) (it_cltv i) (log r')) as [Hl1 Ho1].
  unfold Tx_ProcessOnionPacket, Router_ProcessOnionPacket. rewrite Hs, Hs', Hp.
  destruct (Batch_Put _ _ _ _) as [b1 o]. destruct (rl_Put _ _ _) as [l1 o1].
  cbn [fst snd] in *. subst o. rewrite decide_True by done.
  do 4 eexists. split_and!; [done..| |done|cbn [packets]; by rewrite length_insert| |].
  - split; [done|]. rewrite log_with_log, Hl1, Hl. cbn [spec_Put ls_entries tx_batch].
    case_decide as Hd; destruct Hev as [-> _].
    + destruct Hd as [c ->]. done.
    + apply eq_None_not_Some in Hd as ->. done.
  - rewrite Ho1, Hl. unfold resolve, index. cbn [spec_Put ls_entries mbind Outcome_bind tx_batch packets].
    case_decide as Hd; destruct Hev as [_ ->].
    + rewrite decide_True by set_solver. destruct Hd as [c ->]. done.
    + rewrite decide_False by done. apply eq_None_not_Some in Hd as ->.
      by rewrite list_lookup_insert_eq.
  - intros s Hs1. cbn [tx_batch packets]. split_and!; [by apply He| |].
    + case_decide; destruct Hev as [_ ->]; set_solver.
    + apply list_lookup_insert_ne. intros ?%N2Nat.inj. congruence.
Qed.

Lemma runs_in_step m B items r r' t :
  onionKey r' = onionKey r → in_step m B t r' →
  NoDup (it_seq <$> items) →
  Forall (λ i, batch_entries (tx_batch t) !! it_seq i = None ∧
               (it_seq i ∉ eventual_replays m (tx_batch t)) ∧
               N.to_nat (it_seq i) < length (packets t)) items →
  ∃ t1 r1 outs,
    run_tx items r t = (t1, outs) ∧
    run_router items r' =
      (r1, zip_with (resolve (eventual_replays m (tx_batch t1)) (packets t1)) items outs) ∧
    in_step m B t1 r1 ∧ ID (tx_batch t1) = ID (tx_batch t) ∧
    ∀ s, s ∉ (it_seq <$> items) →
      (s ∈ eventual_replays m (tx_batch t1) ↔ s ∈ eventual_replays m (tx_batch t)) ∧
      packets t1 !! N.to_nat s = packets t !! N.to_nat s.
Proof.
  revert r' t. induction items as [|i items IH]; intros r' t Hk Hin Hnd Hall.
  { by exists t, r', []. }
  rewrite fmap_cons in Hnd. apply list.NoDup_cons in Hnd as [Hi Hnd].
  apply Forall_cons_1 in Hall as [(Hent & Hrep & Hlt) Hall].
  destruct (step_in_step m B i r r' t Hk Hin Hent Hrep Hlt)
    as (t1 & r1 & out & out' & Ht & Hr & Hk1 & Hin1 & Hid & Hlen & -> & Hother).
  destruct (IH r1 t1 Hk1 Hin1 Hnd) as (t2 & r2 & outs & Ht2 & Hr2 & Hin2 & Hid2 & Hkeep).
  { rewrite list.Forall_forall in Hall |- *. intros j Hj.
    destruct (Hall j Hj) as (Hj1 & Hj2 & Hj3).
    destruct (Hother (it_seq j)) as (Ho1 & Ho2 & Ho3).
    { intros Heq. apply Hi. rewrite <-Heq. by apply list_elem_of_fmap_2. }
    rewrite Ho1, Ho2, Hlen. done. }
  exists t2, r2, (out :: outs). cbn [run_tx run_router]. rewrite Ht, Hr, Ht2, Hr2.
  destruct (Hkeep (it_seq i) Hi) as [Hk1' Hk2'].
  split_and!; try done; [|congruence|].
  - simpl. do 2 f_equal. unfold resolve, index. rewrite Hk2'.
    destruct out; try done. simpl. symmetry. by apply decide_ext.
  - intros s Hs. rewrite fmap_cons, not_elem_of_cons in Hs. destruct Hs as [Hs1 Hs2].
    destruct (Hkeep s Hs2) as [-> ->]. destruct (Hother s Hs1) as (_ & -> & ->). done.
Qed.

(** C3.  A transaction is equivalent to processing its packets one by one:
    for packets with distinct sequence numbers below the size of the
    transaction, in a transaction with a new identifier on a running log that does not fail,
    [Commit] succeeds, and the caller that reads the results as documented
    sees for every packet exactly the outcome (the processed packet, the error,
    or [ErrReplayedPacket]) that [Router.ProcessOnionPacket] would have given
    on the same packets in the same order; both leave the same entries in the
    log. *)
Theorem transaction_equivalent items id nels t0 r s :
  log_state (log r) = Some s → ls_batches s !! id = None →
  BeginTxn id nels = Ok t0 → NoDup (it_seq <$> items) →
  Forall (λ i, Z.of_N (it_seq i) < nels)%Z items →
  let '(t1, outs) := run_tx items r t0 in
  let '(r1, outs1) := run_router items r in
  ∃ r2 t2 rs, Commit r t1 = (r2, t2, (packets t1, Ok rs)) ∧
    outs1 = zip_with (resolve (replays rs) (packets t1)) items outs ∧
    ls_entries <$> log_state (log r2) = ls_entries <$> log_state (log r1).
Proof.
  intros Hlog Hid Ht0 Hnd Hlt. unfold BeginTxn in Ht0. case_decide; simplify_eq.
  set (t0 := mkTx _ _). set (m := ls_entries s).
  assert (in_step m (ls_batches s) t0 r) as Hin.
  { split; [apply NewBatch_tracks|]. rewrite Hlog. unfold spec_entries, t0; simpl.
    rewrite map_to_list_empty. simpl. rewrite (right_id_L ∅ (∪)). by destruct s. }
  destruct (runs_in_step m (ls_batches s) items r r t0 eq_refl Hin Hnd)
    as (t1 & r1 & outs & -> & -> & [Hb1 Hl1] & Hid1 & _).
  { eapply Forall_impl; [|exact Hlt]. intros i Hi. cbv beta in Hi. cbn [tx_batch t0 packets].
    rewrite length_replicate. split_and!; [done| |lia].
    unfold eventual_replays, spec_replays; simpl. rewrite map_filter_empty. set_solver. }
  destruct Hb1 as (Hwf & Hcom & _). unfold Commit. rewrite Hcom.
  pose proof (PutBatch_reliable_cases (tx_batch t1) (log r) Hwf) as Hp.
  unfold spec_PutBatch in Hp. rewrite Hlog, Hid1 in Hp. cbn [t0 tx_batch ID NewBatch] in Hp.
  rewrite Hid in Hp. destruct (rl_PutBatch _ _) as [[l2 b2] o2]. cbn [fst snd] in Hp.
  injection Hp as Hl2 -> ->. do 3 eexists. split_and!; [done..|].
  by rewrite log_with_log, Hl1, Hl2.
Qed.

End equivalence.

(** ** The life of a transaction *)

Section transactions.
Context `{BtcecLaws} `{Chacha20Laws} {A L : Type} `{ReplayLogLaws L}.
Implicit Types (r : Router A L).

(** A successful commit leaves its replay set in the log, under the
    identifier of the batch, and in the batch. *)
Lemma Commit_ok_inv r t r1 t1 pkts rs :
  wf_Batch (tx_batch t) → IsCommitted (tx_batch t) = false →
  Commit r t = (r1, t1, (pkts, Ok rs)) →
  pkts = packets t ∧ t1 = mkTx (committed rs (tx_batch t)) (packets t) ∧
  ∃ s1, log_state (log r1) = Some s1 ∧ ls_batches s1 !! ID (tx_batch t) = Some rs.
Proof.
  intros Hwf Hcom Hc. unfold Commit in Hc. rewrite Hcom in Hc.
  destruct (PutBatch_cases (tx_batch t) (log r) Hwf) as [(e & He & _)|Hl];
    destruct (rl_PutBatch _ _) as [[l1 b1] o1]; cbn [fst snd] in *; simplify_eq.
  destruct (log_state (log r)) as [s|]; [|done]. cbn [spec_PutBatch] in Hl.
  rewrite log_with_log.
  destruct (ls_batches s !! ID (tx_batch t)) eqn:E; simplify_eq; split_and!; try done.
  - by exists s.
  - eexists. split; [done|]. cbn [ls_batches]. by rewrite lookup_insert_eq.
Qed.

(** C16.  The result of a transaction is idempotent.  After a successful
    [Commit]: a further [Commit] of the transaction, at any router, changes
    nothing and answers the same; a packet handed to it changes nothing and is
    refused, with the error of the checks it fails or, if it passes them, with
    [ErrAlreadyCommitted]; and a transaction rebuilt under the same identifier,
    whatever its packets, leaves the log's contents as they are and is answered
    with the replay set of the first commit (unless the log fails with an error
    of its own). *)
Theorem Commit_idempotent r t r1 t1 pkts rs :
  wf_Batch (tx_batch t) → IsCommitted (tx_batch t) = false →
  Commit r t = (r1, t1, (pkts, Ok rs)) →
  (∀ r', Commit r' t1 = (r', t1, (pkts, Ok rs))) ∧
  (∀ r' seq pkt assoc cltv,
     Tx_ProcessOnionPacket seq pkt assoc cltv r' t1 =
     (t1, _ ← ReconstructOnionPacket pkt assoc r'; Err ErrAlreadyCommitted)) ∧
  ∀ t', wf_Batch (tx_batch t') → IsCommitted (tx_batch t') = false →
    ID (tx_batch t') = ID (tx_batch t) →
    ∃ r2 t2 out, Commit r1 t' = (r2, t2, (packets t', out)) ∧
      log_state (log r2) = log_state (log r1) ∧
      out = match log_fault out with Some e => Err e | None => Ok rs end.
Proof.
  intros Hwf Hcom (-> & -> & s1 & Hl1 & Hrs)%Commit_ok_inv; try done. split_and!.
  - done.
  - intros r' seq pkt assoc cltv. unfold Tx_ProcessOnionPacket, ReconstructOnionPacket.
    destruct (packet_secret r' pkt) as [ss| |]; try done. cbn [mbind Outcome_bind].
    by destruct (processOnionPacket pkt ss assoc).
  - intros t' Hwf' Hcom' Hid. unfold Commit. rewrite Hcom'.
    destruct (PutBatch_cases (tx_batch t') (log r1) Hwf') as [(e & He & Hf & _ & _ & Hl)|Hl];
      destruct (rl_PutBatch (tx_batch t') (log r1)) as [[l2 b2] o2]; cbn [fst snd] in *;
      do 3 eexists; (split; [done|]); rewrite log_with_log.
    + split; [done|]. subst o2. by rewrite (proj2 (log_fault_Some (Err e) e) (conj eq_refl Hf)).
    + rewrite Hl1 in Hl |- *. cbn [spec_PutBatch] in Hl. rewrite Hid, Hrs in Hl.
      by simplify_eq.
Qed.

(** C31.  When a transaction panics.  For a packet with the array sizes of the
    struct and a key with coordinates, [Tx.ProcessOnionPacket] panics if and
    only if the transaction is not committed, the packet passes the checks (its
    key is on the curve and its MAC is the expected one) and the sequence
    number is at or above the size of the transaction; and by then the packet's
    hash prefix is in the batch, so that a caller that recovers and commits
    burns the packet without ever getting it.  An error leaves the transaction
    as it was; a success puts the prefix in the batch and the processed packet
    in its place, and changes no other. *)
Theorem Tx_bounds seq pkt assoc cltv r t c x y :
  sized_OnionPacket pkt → EphemeralKey pkt = Some (mkPublicKey c (Some x) (Some y)) →
  let '(t1, out) := Tx_ProcessOnionPacket seq pkt assoc cltv r t in
  (out = Panic ↔ IsCommitted (tx_batch t) = false ∧ length (packets t) ≤ N.to_nat seq ∧
     IsOnCurve x y = true ∧
     ∃ ss, packet_secret r pkt = Ok ss ∧ HeaderMAC pkt = expected_mac ss pkt assoc) ∧
  match out with
  | Panic => packets t1 = packets t ∧
      ∃ ss, packet_secret r pkt = Ok ss ∧ hashSharedSecret ss ∈ replayCache (tx_batch t1)
  | Err e => t1 = t ∧ e ∈ [ErrInvalidOnionKey; ErrInvalidOnionHMAC; ErrAlreadyCommitted]
  | Ok _ => ∃ ss pp, packet_secret r pkt = Ok ss ∧ ReconstructOnionPacket pkt assoc r = Ok pp ∧
      hashSharedSecret ss ∈ replayCache (tx_batch t1) ∧
      packets t1 = <[N.to_nat seq := pp]> (packets t) ∧ N.to_nat seq < length (packets t)
  end.
Proof.
  intros Hsz Hk. destruct (IsOnCurve x y) eqn:Hc.
  2: { unfold Tx_ProcessOnionPacket. rewrite (packet_secret_off_curve _ _ _ _ _ Hk Hc).
       split; [|split; [done|repeat constructor]]. split; [done|]. by intros (_ & _ & ? & _). }
  destruct (packet_secret_ok r pkt c x y Hk Hc) as [ss Hss].
  pose proof (reconstruct_cases pkt assoc r ss c x y Hsz Hk Hss) as Hrc.
  unfold Tx_ProcessOnionPacket. unfold ReconstructOnionPacket in Hrc |- *.
  rewrite Hss in Hrc |- *. cbn [mbind Outcome_bind] in Hrc |- *.
  destruct Hrc as [[Hm ->]|(Hm & inner & hd & -> & _)].
  { split; [|split; [done|repeat constructor]]. split; [done|].
    intros (_ & _ & _ & ss' & [= <-] & Hm'). by destruct Hm. }
  unfold Batch_Put. destruct (IsCommitted (tx_batch t)) eqn:Hcom.
  { split; [|split; [by destruct t|repeat constructor]]. split; [done|]. by intros [? _]. }
  set (b1 := if decide _ then _ else _).
  assert (b1 = (b1.1, Ok tt) ∧ hashSharedSecret ss ∈ replayCache b1.1) as [-> Hin].
  { unfold b1. clear. case_decide; cbn [fst replayCache]; (split; [done|set_solver]). }
  case_decide as Hlt.
  - split; [|by do 2 eexists; split_and!]. split; [done|]. intros (_ & Hge & _). lia.
  - split; [|by split; [|exists ss]]. split; [|done]. intros _.
    split_and!; [done|lia|done|by exists ss].
Qed.

End transactions.
