(* ===== verification/AtMostOnce.v ===== *)
(** * A running router: no packet is accepted twice

    A router is used by several callers: some hand it packets one by one,
    others open transactions, fill them and commit them, all against one
    replay log, in any interleaving.  The steps below are those calls.  The
    invariant shows that whatever the interleaving, no shared secret is
    accepted twice, within a transaction, across transactions or between a
    transaction and a single call. *)

From S2P Require Import Prelude GoBytes Errors GoIO Sha256 Constants Btcec Crypto Packet Path.
From S2P Require Import SharedSecrets Onion ReplaySet Batch ReplayLog Router Txn.

(** An open transaction, with the prefixes put into its batch so far. *)
Record OpenTx := mkOpenTx {
  ot_tx : Tx;
  ot_puts : list (N * HashPrefix * N)
}.

Section machine.
Context `{BtcecLaws} `{Chacha20Laws} {A L : Type} `{ReplayLogLaws L}.

(** The router, its open transactions, the identifiers that transactions
    have used, and the hash prefixes of the packets that callers accepted. *)
Record State := mkState {
  st_router : Router A L;
  st_open : gmap N OpenTx;
  st_used : gset (list byte);
  st_accepted : list HashPrefix
}.

(** The prefixes of a transaction's packets that are not in its replay set. *)
Definition delivered (rs : ReplaySet) (ps : list (N * HashPrefix * N)) : list HashPrefix :=
  put_hash <$> filter (λ p, put_seq p ∉ replays rs) ps.

Inductive step : State → State → Prop :=
  | step_accept st pkt assoc cltv ss r' pp :
      packet_secret (st_router st) pkt = Ok ss →
      Router_ProcessOnionPacket pkt assoc cltv (st_router st) = (r', Ok pp) →
      step st (mkState r' (st_open st) (st_used st)
                 (st_accepted st ++ [hashSharedSecret ss]))
  | step_refuse st pkt assoc cltv r' e :
      Router_ProcessOnionPacket pkt assoc cltv (st_router st) = (r', Err e) →
      step st (mkState r' (st_open st) (st_used st) (st_accepted st))
  | step_begin st k id nels t :
      st_open st !! k = None → id ∉ st_used st → BeginTxn id nels = Ok t →
      step st (mkState (st_router st) (<[k := mkOpenTx t []]> (st_open st))
                 ({[id]} ∪ st_used st) (st_accepted st))
  | step_put st k o i ss t' :
      st_open st !! k = Some o → it_seq i ∉ (put_seq <$> ot_puts o) →
      packet_secret (st_router st) (it_pkt i) = Ok ss →
      Tx_ProcessOnionPacket (it_seq i) (it_pkt i) (it_assoc i) (it_cltv i)
        (st_router st) (ot_tx o) = (t', Ok tt) →
      step st (mkState (st_router st)
                 (<[k := mkOpenTx t'
                           (ot_puts o ++ [(it_seq i, hashSharedSecret ss, it_cltv i)])]>
                    (st_open st))
                 (st_used st) (st_accepted st))
  | step_put_refuse st k o i t' e :
      st_open st !! k = Some o →
      Tx_ProcessOnionPacket (it_seq i) (it_pkt i) (it_assoc i) (it_cltv i)
        (st_router st) (ot_tx o) = (t', Err e) →
      step st (mkState (st_router st) (<[k := mkOpenTx t' (ot_puts o)]> (st_open st))
                 (st_used st) (st_accepted st))
  | step_commit st k o r' t' pkts rs :
      st_open st !! k = Some o →
      Commit (st_router st) (ot_tx o) = (r', t', (pkts, Ok rs)) →
      step st (mkState r' (delete k (st_open st)) (st_used st)
                 (st_accepted st ++ delivered rs (ot_puts o)))
  | step_commit_refuse st k o r' t' pkts e :
      st_open st !! k = Some o →
      Commit (st_router st) (ot_tx o) = (r', t', (pkts, Err e)) →
      step st (mkState r' (<[k := mkOpenTx t' (ot_puts o)]> (st_open st)) (st_used st)
                 (st_accepted st)).

(** ** The invariant *)

(** An open transaction is as its puts made it. *)
Definition wf_open (o : OpenTx) : Prop :=
  wf_Batch (tx_batch (ot_tx o)) ∧ IsCommitted (tx_batch (ot_tx o)) = false ∧
  NoDup (put_seq <$> ot_puts o) ∧ records (ot_puts o) (tx_batch (ot_tx o)).

Definition open_id (o : OpenTx) : list byte := ID (tx_batch (ot_tx o)).

(** What was accepted is in the log, once; open transactions are well-formed
    and their identifiers are taken, distinct and not yet in the log. *)
Record Inv (st : State) : Prop := mkInv {
  inv_nodup : NoDup (st_accepted st);
  inv_log : ∃ s, log_state (log (st_router st)) = Some s ∧
    (∀ h, h ∈ st_accepted st → is_Some (ls_entries s !! h)) ∧
    (∀ id, is_Some (ls_batches s !! id) → id ∈ st_used st) ∧
    (∀ k o, st_open st !! k = Some o → ls_batches s !! open_id o = None);
  inv_open k o : st_open st !! k = Some o → wf_open o ∧ open_id o ∈ st_used st;
  inv_ids k1 k2 o1 o2 : st_open st !! k1 = Some o1 → st_open st !! k2 = Some o2 →
    open_id o1 = open_id o2 → k1 = k2
}.

(** ** Committing *)

Lemma spec_entries_has m b s h c :
  batch_entries b !! s = Some (mkBatchEntry h c) → is_Some (spec_entries m b !! h).
Proof.
  intros He. unfold spec_entries. apply lookup_union_is_Some. right.
  apply not_eq_None_Some. intros Hn%not_elem_of_list_to_map_2. apply Hn.
  apply list_elem_of_fmap. exists (h, c). split; [done|].
  apply list_elem_of_fmap. exists (s, mkBatchEntry h c). split; [done|].
  by apply elem_of_map_to_list.
Qed.

Lemma spec_entries_mono m b h : is_Some (m !! h) → is_Some (spec_entries m b !! h).
Proof. intros Hm. unfold spec_entries. apply lookup_union_is_Some. by left. Qed.

(** What a commit delivers is new to the log and has no repetition, and the
    log has it afterwards. *)
Lemma delivered_new m b ps rs :
  records ps b → replays rs = eventual_replays m b →
  NoDup (delivered rs ps) ∧
  ∀ h, h ∈ delivered rs ps → m !! h = None ∧ is_Some (spec_entries m b !! h).
Proof.
  intros (_ & _ & Hspec) Hrs.
  assert (∀ i s h c, ps !! i = Some (s, h, c) → s ∉ replays rs →
    (h ∉ (put_hash <$> take i ps)) ∧ batch_entries b !! s = Some (mkBatchEntry h c) ∧
    m !! h = None) as Hnew.
  { intros i s h c Hi Hs. rewrite Hrs in Hs. unfold eventual_replays in Hs.
    apply not_elem_of_union in Hs as [Hs1 Hs2].
    destruct (Hspec i s h c Hi) as [Hr He].
    assert (h ∉ (put_hash <$> take i ps)) as Hnot by by rewrite <-Hr.
    rewrite decide_False in He by done. split_and!; [done..|].
    destruct (m !! h) eqn:Em; [|done]. exfalso. apply Hs1. unfold spec_replays.
    apply elem_of_dom. exists (mkBatchEntry h c).
    apply map_lookup_filter_Some_2; [done|]. simpl. by rewrite Em. }
  split.
  - unfold delivered. clear Hspec Hrs. induction ps as [|[[s h] c] ps IH] using rev_ind; [constructor|].
    rewrite list.filter_app, fmap_app. apply list.NoDup_app. split_and!.
    + apply IH. intros i s' h' c' Hi. pose proof (lookup_lt_Some _ _ _ Hi) as Hlt.
      intros Hs'. destruct (Hnew i s' h' c') as (Hn & Hrest); [by apply lookup_app_l_Some|done|].
      rewrite take_app_le in Hn by lia. done.
    + intros x (p & -> & [_ Hp]%list_elem_of_filter)%list_elem_of_fmap Hx.
      rewrite list.filter_cons in Hx. case_decide as Hs; simpl in Hx; [|set_solver].
      apply list_elem_of_singleton in Hx.
      destruct (Hnew (length ps) s h c) as (Hn & _); [by apply list_lookup_middle|done|].
      rewrite take_app_length in Hn. apply Hn. change h with (put_hash (s, h, c)).
      rewrite <-Hx. by apply list_elem_of_fmap_2.
    + rewrite list.filter_cons. case_decide; simpl; [apply NoDup_singleton|constructor].
  - intros h (p & -> & [Hs Hp]%list_elem_of_filter)%list_elem_of_fmap.
    apply list_elem_of_lookup in Hp as [i Hi]. destruct p as [[s h] c].
    destruct (Hnew i s h c Hi Hs) as (_ & He & Hm). split; [done|].
    by eapply spec_entries_has.
Qed.

(** ** Every step keeps the invariant *)

Lemma process_refused_log pkt assoc cltv (r r' : Router A L) e :
  Router_ProcessOnionPacket pkt assoc cltv r = (r', Err e) →
  log_state (log r') = log_state (log r).
Proof.
  intros Hp. destruct (packet_secret r pkt) as [ss| |] eqn:Hs.
  2-3: unfold Router_ProcessOnionPacket in Hp; rewrite Hs in Hp; congruence.
  rewrite (process_reconstruct _ _ _ _ _ Hs) in Hp.
  destruct (ReconstructOnionPacket pkt assoc r) as [pp|e'|]; simplify_eq; [|done].
  destruct (Put_cases (hashSharedSecret ss) cltv (log r)) as [(e' & _ & Ho & _ & _ & Hl)|(_ & Hl & Ho)];
    destruct (rl_Put _ _ _) as [l o]; cbn [fst snd] in *.
  { subst o. by simplify_eq. }
  unfold spec_Put in *.
  destruct (log_state (log r)) as [s|]; [destruct (ls_entries s !! _)|];
    simpl in *; subst o; by simplify_eq.
Qed.

(** The invariant when an open transaction is replaced by one with the same
    identifier. *)
Lemma Inv_replace st k o o' :
  Inv st → st_open st !! k = Some o → wf_open o' → open_id o' = open_id o →
  Inv (mkState (st_router st) (<[k := o']> (st_open st)) (st_used st) (st_accepted st)).
Proof.
  intros [Hnd (s & Hs & Hacc & Hbat & Hfree) Hopen Hids] Hk Hwf Hid.
  assert (∀ k1 o1, <[k := o']> (st_open st) !! k1 = Some o1 →
    ∃ o2, st_open st !! k1 = Some o2 ∧ open_id o1 = open_id o2 ∧ wf_open o1) as Hold.
  { intros k1 o1 [[<- <-]|[Hne G1]]%lookup_insert_Some; [by exists o|].
    exists o1. split_and!; [done..|]. by eapply Hopen. }
  constructor; simpl; [done| | |].
  - exists s. split_and!; [done..|]. intros k1 o1 (o2 & Ho2 & -> & _)%Hold. by eapply Hfree.
  - intros k1 o1 (o2 & Ho2 & -> & ?)%Hold. split; [done|]. by eapply Hopen.
  - intros k1 k2 o1 o2 (o1' & G1 & -> & _)%Hold (o2' & G2 & -> & _)%Hold. by eapply Hids.
Qed.

Lemma Tx_process_refused seq pkt assoc cltv (r : Router A L) t t' e :
  IsCommitted (tx_batch t) = false →
  Tx_ProcessOnionPacket seq pkt assoc cltv r t = (t', Err e) → t' = t.
Proof.
  intros Hcom. unfold Tx_ProcessOnionPacket, Batch_Put. rewrite Hcom.
  repeat case_match; intros; simplify_eq; done.
Qed.

Lemma Tx_process_ok seq pkt assoc cltv (r : Router A L) t t' ss :
  packet_secret r pkt = Ok ss →
  Tx_ProcessOnionPacket seq pkt assoc cltv r t = (t', Ok tt) →
  tx_batch t' = (Batch_Put seq (hashSharedSecret ss) cltv (tx_batch t)).1.
Proof.
  intros Hs. unfold Tx_ProcessOnionPacket. rewrite Hs.
  destruct (processOnionPacket pkt ss assoc); try done.
  destruct (Batch_Put _ _ _ _) as [b [| |]]; try done.
  case_decide; intros; by simplify_eq.
Qed.

Lemma Inv_accept st pkt assoc cltv ss r' pp :
  Inv st → packet_secret (st_router st) pkt = Ok ss →
  Router_ProcessOnionPacket pkt assoc cltv (st_router st) = (r', Ok pp) →
  Inv (mkState r' (st_open st) (st_used st) (st_accepted st ++ [hashSharedSecret ss])).
Proof.
  intros [Hnd (s & Hs & Hacc & Hbat & Hfree) Hopen Hids] Hss
    (ss' & s' & Hss' & _ & _ & Hs' & Hh & Hl)%process_ok_inv.
  rewrite Hss in Hss'. rewrite Hs in Hs'. simplify_eq. constructor; simpl; try done.
  - apply NoDup_snoc; [done|]. intros [c Hc]%Hacc. by rewrite Hc in Hh.
  - eexists. split; [done|]. simpl. split_and!; try done.
    intros h [Hin| ->%list_elem_of_singleton]%elem_of_app.
    + rewrite lookup_insert_is_Some'. auto.
    + by rewrite lookup_insert_eq.
Qed.

Lemma Inv_begin st k id nels t :
  Inv st → st_open st !! k = None → id ∉ st_used st → BeginTxn id nels = Ok t →
  Inv (mkState (st_router st) (<[k := mkOpenTx t []]> (st_open st))
         ({[id]} ∪ st_used st) (st_accepted st)).
Proof.
  intros [Hnd (s & Hs & Hacc & Hbat & Hfree) Hopen Hids] Hk Hid Hb.
  unfold BeginTxn in Hb. case_decide; simplify_eq.
  assert (∀ k1 o1, st_open st !! k1 = Some o1 → open_id o1 ≠ id) as Hne.
  { intros k1 o1 G1 <-. apply Hid. by eapply Hopen. }
  constructor; simpl; [done| | |].
  - exists s. split_and!; [done..| |].
    + intros id' Hid'%Hbat. set_solver.
    + intros k1 o1 [[<- <-]|[_ G1]]%lookup_insert_Some; [|by eapply Hfree].
      unfold open_id; simpl. apply eq_None_not_Some. by intros ?%Hbat.
  - intros k1 o1 [[<- <-]|[_ G1]]%lookup_insert_Some.
    + split; [|unfold open_id; simpl; set_solver].
      split_and!; [apply NewBatch_wf|done|constructor|].
      by apply (Batch_Puts_records id []); constructor.
    + destruct (Hopen _ _ G1). split; [done|set_solver].
  - intros k1 k2 o1 o2 [[<- <-]|[_ G1]]%lookup_insert_Some
      [[<- <-]|[_ G2]]%lookup_insert_Some; try done.
    + intros Heq. by destruct (Hne _ _ G2).
    + intros Heq. by destruct (Hne _ _ G1).
    + by eapply Hids.
Qed.

Lemma Inv_commit st k o r' t' pkts rs :
  Inv st → st_open st !! k = Some o →
  Commit (st_router st) (ot_tx o) = (r', t', (pkts, Ok rs)) →
  Inv (mkState r' (delete k (st_open st)) (st_used st)
         (st_accepted st ++ delivered rs (ot_puts o))).
Proof.
  intros [Hnd (s & Hs & Hacc & Hbat & Hfree) Hopen Hids] Hk Hc.
  destruct (Hopen k o Hk) as [(Hwf & Hcom & Hnd' & Hrec) Hused].
  unfold Commit in Hc. rewrite Hcom in Hc.
  destruct (PutBatch_cases (tx_batch (ot_tx o)) (log (st_router st)) Hwf) as [(e & He & _)|Hl];
    destruct (rl_PutBatch _ _) as [[l b] out]; cbn [fst snd] in *; simplify_eq.
  rewrite Hs in Hl. cbn [spec_PutBatch] in Hl. fold (open_id o) in Hl.
  rewrite (Hfree k o Hk) in Hl. injection Hl as Hl _ Hrs.
  destruct (delivered_new (ls_entries s) _ _ rs Hrec) as [Hnew Hin]; [by subst rs|].
  constructor; simpl.
  - apply list.NoDup_app. split_and!; [done| |done].
    intros h [c Hc]%Hacc [Hm _]%Hin. congruence.
  - eexists. split; [done|]. simpl. split_and!.
    + intros h [Hh|Hh]%elem_of_app; [|by apply Hin]. by apply spec_entries_mono, Hacc.
    + intros id [<-|?]%lookup_insert_is_Some'; [done|]. by apply Hbat.
    + intros k1 o1 [Hne G1]%lookup_delete_Some. rewrite lookup_insert_ne; [by eapply Hfree|].
      intros Heq. by apply Hne, (Hids k k1 o o1).
  - intros k1 o1 [_ G1]%lookup_delete_Some. by eapply Hopen.
  - intros k1 k2 o1 o2 [_ G1]%lookup_delete_Some [_ G2]%lookup_delete_Some. by eapply Hids.
Qed.

(** A commit that fails changes neither the log's contents nor the
    transaction. *)
Lemma Commit_refused (r : Router A L) t r' t' pkts e :
  wf_Batch (tx_batch t) → IsCommitted (tx_batch t) = false →
  Commit r t = (r', t', (pkts, Err e)) →
  log_state (log r') = log_state (log r) ∧ t' = t.
Proof.
  intros Hwf Hcom Hc. unfold Commit in Hc. rewrite Hcom in Hc.
  destruct (PutBatch_cases (tx_batch t) (log r) Hwf) as [(e' & _ & _ & Hb & _ & Hl)|Hl];
    destruct (rl_PutBatch _ _) as [[l b] out]; cbn [fst snd] in *; simplify_eq;
    rewrite log_with_log.
  - split; [done|]. by destruct t.
  - destruct (log_state (log r)) as [s|]; cbn [spec_PutBatch] in Hl.
    + by destruct (ls_batches s !! _).
    + simplify_eq. split; [done|]. by destruct t.
Qed.

(** The invariant reads of the router only what its log stands for. *)
Lemma Inv_same_log st r' :
  Inv st → log_state (log r') = log_state (log (st_router st)) →
  Inv (mkState r' (st_open st) (st_used st) (st_accepted st)).
Proof.
  intros [Hnd (s & Hl & Hrest) Hopen Hids] Hr. constructor; simpl; try done.
  exists s. by rewrite Hr.
Qed.

Lemma step_Inv st st' : Inv st → step st st' → Inv st'.
Proof.
  intros HI Hstep. destruct Hstep as
    [st pkt assoc cltv ss r' pp Hs Hp|st pkt assoc cltv r' e Hp|st k id nels t Hk Hid Hb
    |st k o i ss t' Hk Hseq Hs Hp|st k o i t' e Hk Hp|st k o r' t' pkts rs Hk Hc
    |st k o r' t' pkts e Hk Hc].
  - by eapply Inv_accept.
  - apply Inv_same_log; [done|]. by eapply process_refused_log.
  - by eapply Inv_begin.
  - destruct (inv_open _ HI k o Hk) as [(Hwf & Hcom & Hnd & Hrec) _].
    pose proof (Tx_process_ok _ _ _ _ _ _ _ _ Hs Hp) as Hb.
    destruct (Batch_Put_flags (it_seq i) (hashSharedSecret ss) (it_cltv i) (tx_batch (ot_tx o)))
      as [Hf1 Hf2].
    eapply Inv_replace; [done..| |unfold open_id; simpl; congruence].
    unfold wf_open; simpl. rewrite Hb. split_and!; [by apply Batch_Put_wf|congruence| |].
    + rewrite fmap_app. by apply NoDup_snoc.
    + by apply Batch_Put_records.
  - destruct (inv_open _ HI k o Hk) as [Hwf _].
    pose proof Hwf as (_ & Hcom & _). apply Tx_process_refused in Hp as ->; [|done].
    by eapply Inv_replace.
  - by eapply Inv_commit.
  - destruct (inv_open _ HI k o Hk) as [Hwf _]. pose proof Hwf as (Hb & Hcom & _).
    destruct (Commit_refused _ _ _ _ _ _ Hb Hcom Hc) as [Hl ->].
    apply (Inv_replace (mkState r' (st_open st) (st_used st) (st_accepted st)) k o); try done.
    by apply Inv_same_log.
Qed.

(** The start: no transaction is open, the identifiers of the log's batches
    are taken. *)
Definition init (r : Router A L) (s : LogState) : State :=
  mkState r ∅ (dom (ls_batches s)) [].

(** C2.  No packet is accepted twice.  From a router whose log is running,
    whatever it holds, and under any interleaving of single calls and
    transactions (with an identifier of its own for each transaction and
    distinct sequence numbers within it), with a log that may fail at any call,
    the hash prefixes of the packets that callers accept, from
    [ProcessOnionPacket] directly or from a [Commit] by not being in the replay
    set, are pairwise distinct, and all of them are in the log. *)
Theorem at_most_once r s0 st :
  log_state (log r) = Some s0 → rtc step (init r s0) st →
  NoDup (st_accepted st) ∧
  ∃ s, log_state (log (st_router st)) = Some s ∧
    ∀ h, h ∈ st_accepted st → is_Some (ls_entries s !! h).
Proof.
  intros Hl Hr. assert (Inv st) as HI.
  { assert (Inv (init r s0)) as G0.
    { constructor; simpl; [constructor| |done|done].
      exists s0. split_and!; [done|set_solver| |done]. intros id Hid. by apply elem_of_dom. }
    clear Hl. induction Hr as [|x y z Hxy _ IH]; [done|]. by apply IH, (step_Inv x). }
  split; [apply HI|]. destruct (inv_log _ HI) as (s & ? & ? & _). eauto.
Qed.

End machine.
