(* ===== verification/Obfuscation.v ===== *)
(** * Onion errors (obfuscation.go and crypto.go, lines 171-265)

    A hop that fails a payment answers with an error message: it prepends a
    MAC and encrypts the whole with its shared secret; every hop on the way
    back encrypts once more; the sender, who has all the secrets, strips the
    layers off one by one until the MAC of a hop matches. *)

From S2P Require Import Prelude GoBytes Errors GoIO Sha256 Constants Btcec Crypto Path.
From S2P Require Import SharedSecrets Onion Router.

(** ** The encrypter *)

Record OnionErrorEncrypter := mkEncrypter { sharedSecret : Hash256 }.

Definition set_sharedSecret (v : list byte) (o : OnionErrorEncrypter) : OnionErrorEncrypter :=
  mkEncrypter v.

(** [func (o *OnionErrorEncrypter) Encode(w io.Writer) error] *)
Definition OnionErrorEncrypter_Encode `{Writer W} (o : OnionErrorEncrypter) : EncM W unit :=
  write (sharedSecret o).

(** [func (o *OnionErrorEncrypter) Decode(r io.Reader) error] *)
Definition OnionErrorEncrypter_Decode : DecM OnionErrorEncrypter unit :=
  readField sha256_Size sharedSecret set_sharedSecret.

Section obfuscation.
Context `{Btcec} `{Chacha20}.

Definition NewOnionErrorEncrypter {A L} (router : Router A L) (ephemeralKey : option PublicKey)
    : Outcome error OnionErrorEncrypter :=
  dhKey ← deref ephemeralKey;
  sharedSecret ← Router_generateSharedSecret (onionKey router) dhKey;
  Ok (mkEncrypter sharedSecret).

(** [func (o *OnionErrorEncrypter) EncryptError(initial bool, data []byte) []byte] *)
Definition EncryptError (o : OnionErrorEncrypter) (initial : bool) (data : list byte)
    : Outcome error (list byte) :=
  let data :=
    if initial then
      let umKey := generateKey "um" (sharedSecret o) in
      let h := hmac_sha256 umKey data in
      h ++ data
    else data in
  onionEncrypt (sharedSecret o) data.

(** ** The circuit *)

Record Circuit := mkCircuit {
  SessionKey : option PrivateKey;
  circ_PaymentPath : list (option PublicKey)
}.

Definition set_SessionKey k c := mkCircuit k (circ_PaymentPath c).
Definition set_circ_PaymentPath p c := mkCircuit (SessionKey c) p.

(** [r.Read(buf)] for a fresh, zeroed slice of [n] bytes: what the call
    delivers is the front of the slice, the count is ignored; an error that
    comes with the bytes is returned. *)
Definition readBare {T} (n : nat) : DecM T (list byte) := λ r t,
  let '(r', got, e) := Read n r in
  match e with
  | None => (r', t, Ok (go_copy (zeros n) got))
  | Some e => (r', t, Err e)
  end.

(** [uint8(b[0])], as a length. *)
Definition length_byte (b : list byte) : nat := N.to_nat (Byte.to_N (default x00 (head b))).

(** The error of [btcec.ParsePubKey]. *)
Definition errParsePubKey : error := ErrForeign 0.

(** The loop over the public keys: [k] passes are left, the next index is
    [i]. *)
Fixpoint circuit_keys_loop (k i : nat) : DecM Circuit unit :=
  match k with
  | 0 => mret ()
  | S k =>
      pubKeyData ← readBare PubKeyBytesLenCompressed;
      match parsePubKey pubKeyData with
      | None => throw errParsePubKey
      | Some (x, y) =>
          _ ← modify (λ c, set_circ_PaymentPath
                 (<[i := Some (mkPublicKey (Some S256) (Some x) (Some y))]> (circ_PaymentPath c)) c);
          circuit_keys_loop k (S i)
      end
  end.

(** [func (c *Circuit) Decode(r io.Reader) error] *)
Definition Circuit_Decode : DecM Circuit unit :=
  keyLength ← readBare 1;
  sessionKeyData ← readBare (length_byte keyLength);
  _ ← modify (set_SessionKey (Some (PrivKeyFromBytes sessionKeyData)));
  pathLength ← readBare 1;
  _ ← modify (set_circ_PaymentPath (replicate (length_byte pathLength) None));
  circuit_keys_loop (length_byte pathLength) 0.

(** [for _, pubKey := range c.PaymentPath]: write the key. *)
Fixpoint encode_keys `{Writer W} (path : list (option PublicKey)) : EncM W unit :=
  match path with
  | [] => mret ()
  | ptr :: path =>
      pubKey ← lift_enc (deref ptr);
      ser ← lift_enc (SerializeCompressed pubKey);
      _ ← write ser;
      encode_keys path
  end.

(** [func (c *Circuit) Encode(w io.Writer) error]: both lengths are
    truncated to a byte. *)
Definition Circuit_Encode `{Writer W} (c : Circuit) : EncM W unit :=
  key ← lift_enc (deref (SessionKey c));
  let keyLength := [byte_of_N (N.of_nat (length (privKeySerialize key)))] in
  _ ← write keyLength;
  _ ← write (privKeySerialize key);
  let pathLength := [byte_of_N (N.of_nat (length (circ_PaymentPath c)))] in
  _ ← write pathLength;
  encode_keys (circ_PaymentPath c).

(** ** The decrypter *)

Record OnionErrorDecrypter := mkDecrypter { circuit : Circuit }.

Definition NewOnionErrorDecrypter (c : Circuit) : OnionErrorDecrypter := mkDecrypter c.

Definition dummySecret : Hash256 :=
  go_copy (zeros sha256_Size) (replicate 32 x01).

(** The loop of [DecryptError]: [k] passes are left and the next index is
    [i]; the state is [sender], [msg] and [encryptedData]. *)
Fixpoint decrypt_loop (k i : nat) (path : list (option PublicKey)) (sharedSecrets : list Hash256)
    (sender : option PublicKey) (msg encryptedData : list byte)
    : Outcome error (option PublicKey * list byte) :=
  match k with
  | 0 => Ok (sender, msg)
  | S k =>
      secret ←
        (if bool_decide (is_Some sender) || bool_decide (length sharedSecrets <= i)
         then Ok dummySecret else index sharedSecrets i);
      encryptedData ← onionEncrypt secret encryptedData;
      expectedMac ← go_slice encryptedData 0 sha256_Size;
      data ← go_slice encryptedData sha256_Size (length encryptedData);
      let umKey := generateKey "um" secret in
      let realMac := hmac_sha256 umKey data in
      if hmac_Equal realMac expectedMac && negb (bool_decide (is_Some sender)) then
        sender ← index path i;
        decrypt_loop k (S i) path sharedSecrets sender data encryptedData
      else decrypt_loop k (S i) path sharedSecrets sender msg encryptedData
  end.

(** [func (o *OnionErrorDecrypter) DecryptError(encryptedData []byte)] *)
Definition DecryptError (o : OnionErrorDecrypter) (encryptedData : list byte)
    : Outcome error (PublicKey * list byte) :=
  if decide (length encryptedData ≠ onionErrorLength)
  then Err (errInvalidErrorLength onionErrorLength (length encryptedData)) else
  sessionKey ← deref (SessionKey (circuit o));
  sharedSecrets ← generateSharedSecrets (circ_PaymentPath (circuit o)) sessionKey;
  '(sender, msg) ←
    decrypt_loop NumMaxHops 0 (circ_PaymentPath (circuit o)) sharedSecrets None [] encryptedData;
  match sender with
  | None => Err errUnableToRetrieve
  | Some sender => Ok (sender, msg)
  end.

(** ** Errors along a route *)

(** The routers of a route make their encrypters, each from the ephemeral
    key of the packet that reached it, and blind the key for the next. *)
Fixpoint hop_encrypters {A L} (routers : list (Router A L)) (dhKey : PublicKey)
    : Outcome error (list OnionErrorEncrypter) :=
  match routers with
  | [] => Ok []
  | r :: routers =>
      enc ← NewOnionErrorEncrypter r (Some dhKey);
      blindingFactor ← computeBlindingFactor dhKey (sharedSecret enc);
      nextDHKey ← blindGroupElement dhKey blindingFactor;
      encs ← hop_encrypters routers nextDHKey;
      Ok (enc :: encs)
  end.

(** A message on its way back: each hop, from the last of the list to the
    first, adds its layer. *)
Fixpoint forward_back (encs : list OnionErrorEncrypter) (data : list byte)
    : Outcome error (list byte) :=
  match encs with
  | [] => Ok data
  | enc :: encs => data ← forward_back encs data; EncryptError enc false data
  end.

(** The hop [enc] fails with message [msg], the hops [encs] before it on the
    route forward the error. *)
Definition return_error (encs : list OnionErrorEncrypter) (enc : OnionErrorEncrypter)
    (msg : list byte) : Outcome error (list byte) :=
  data ← EncryptError enc true msg; forward_back encs data.

End obfuscation.

(** ** Layers of an error message *)

Section layers.
Context `{BtcecLaws} `{Chacha20Laws}.

(** The bytes [onionEncrypt] gives; encryption and decryption are one
    operation. *)
Definition crypt (ss : Hash256) (data : list byte) : list byte :=
  match onionEncrypt ss data with Ok c => c | _ => data end.

Lemma onionEncrypt_crypt ss data : onionEncrypt ss data = Ok (crypt ss data).
Proof. unfold crypt. by destruct (onionEncrypt_spec ss data) as (? & _ & _ & ->). Qed.

Lemma length_crypt ss data : length (crypt ss data) = length data.
Proof. apply (onionEncrypt_length ss). apply onionEncrypt_crypt. Qed.

Lemma crypt_crypt ss data : crypt ss (crypt ss data) = data.
Proof.
  pose proof (onionEncrypt_involutive ss data _ (onionEncrypt_crypt ss data)) as E.
  rewrite onionEncrypt_crypt in E. by simplify_eq.
Qed.

(** The MAC at the front of a message is that of a hop with secret [ss]. *)
Definition mac_valid (ss : Hash256) (data : list byte) : Prop :=
  hmac_sha256 (generateKey "um" ss) (drop sha256_Size data) = take sha256_Size data.

#[export] Instance mac_valid_dec ss data : Decision (mac_valid ss data).
Proof. unfold mac_valid. apply _. Defined.

(** The MAC and the message of a hop that fails. *)
Definition sealed (ss : Hash256) (msg : list byte) : list byte :=
  hmac_sha256 (generateKey "um" ss) msg ++ msg.

Lemma sealed_valid ss msg : mac_valid ss (sealed ss msg).
Proof.
  unfold mac_valid, sealed. by rewrite drop_app_ge', take_app_ge' by by len_simp.
Qed.

Lemma drop_sealed ss msg : drop sha256_Size (sealed ss msg) = msg.
Proof. unfold sealed. by rewrite drop_app_ge' by by len_simp. Qed.

Lemma length_sealed ss msg : length (sealed ss msg) = sha256_Size + length msg.
Proof. unfold sealed. by len_simp. Qed.

Lemma EncryptError_initial enc msg data :
  EncryptError enc true msg = Ok data →
  data = crypt (sharedSecret enc) (sealed (sharedSecret enc) msg).
Proof. unfold EncryptError. rewrite onionEncrypt_crypt. by intros [= <-]. Qed.

(** The layers of the hops with secrets [l], the first outermost. *)
Definition wraps (l : list Hash256) (data : list byte) : list byte := foldr crypt data l.

Lemma length_wraps l data : length (wraps l data) = length data.
Proof. induction l as [|ss l IH]; simpl; [done|]. by rewrite length_crypt, IH. Qed.

Lemma wraps_app l ss data : wraps (l ++ [ss]) data = wraps l (crypt ss data).
Proof. unfold wraps. by rewrite foldr_app. Qed.

(** At no hop of [l] does the MAC of the message that reaches it, that is of
    [data] under the layers of the hops after it, happen to be its own. *)
Fixpoint no_collision (l : list Hash256) (data : list byte) : Prop :=
  match l with
  | [] => True
  | ss :: l => ¬ mac_valid ss (wraps l data) ∧ no_collision l data
  end.

#[export] Instance no_collision_dec l data : Decision (no_collision l data).
Proof. induction l; simpl; apply _. Defined.

Lemma forward_back_wraps encs data :
  forward_back encs data = Ok (wraps (sharedSecret <$> encs) data).
Proof.
  induction encs as [|e encs IH]; [done|]. cbn [forward_back]. rewrite IH.
  cbn [mbind Outcome_bind]. unfold EncryptError. by rewrite onionEncrypt_crypt.
Qed.

Lemma return_error_wraps encs enc msg :
  return_error encs enc msg =
  Ok (wraps (sharedSecret <$> (encs ++ [enc])) (sealed (sharedSecret enc) msg)).
Proof.
  unfold return_error, EncryptError. rewrite onionEncrypt_crypt. cbn [mbind Outcome_bind].
  rewrite forward_back_wraps, fmap_app. f_equal. symmetry. apply wraps_app.
Qed.

(** ** The decryption loop *)

Implicit Types (path : list (option PublicKey)) (secrets l : list Hash256).

(** One pass: the secret in force strips a layer and its MAC is checked. *)
Lemma decrypt_loop_step k i path secrets sender msg data ss :
  sha256_Size ≤ length data →
  (if bool_decide (is_Some sender) || bool_decide (length secrets ≤ i)
   then Ok dummySecret else index secrets i) = Ok (E:=error) ss →
  decrypt_loop (S k) i path secrets sender msg data =
  if bool_decide (mac_valid ss (crypt ss data)) && negb (bool_decide (is_Some sender)) then
    sender ← index path i;
    decrypt_loop k (S i) path secrets sender (drop sha256_Size (crypt ss data)) (crypt ss data)
  else decrypt_loop k (S i) path secrets sender msg (crypt ss data).
Proof.
  intros Hlen Hss. cbn [decrypt_loop]. rewrite Hss. cbn [mbind Outcome_bind].
  rewrite onionEncrypt_crypt. cbn [mbind Outcome_bind].
  pose proof (length_crypt ss data) as Hl.
  rewrite !go_slice_ok by lia. cbn [mbind Outcome_bind].
  rewrite Nat.sub_0_r, drop_0, (take_ge (drop _ _)) by (len; lia). done.
Qed.

(** After the sender has been found, the remaining passes change nothing. *)
Lemma decrypt_loop_found k i path secrets p msg data :
  sha256_Size ≤ length data →
  decrypt_loop k i path secrets (Some p) msg data = Ok (Some p, msg).
Proof.
  revert i data. induction k as [|k IH]; intros i data Hl; [done|].
  rewrite (decrypt_loop_step k i path secrets (Some p) msg data dummySecret) by done.
  rewrite (bool_decide_eq_true_2 (is_Some _)) by eauto.
  rewrite andb_false_r. apply IH. by rewrite length_crypt.
Qed.

(** The passes over the hops [l], none of which is the sender. *)
Lemma decrypt_loop_wraps pre l post path k data :
  sha256_Size ≤ length data → no_collision l data →
  decrypt_loop (length l + k) (length pre) path (pre ++ l ++ post) None [] (wraps l data) =
  decrypt_loop k (length (pre ++ l)) path (pre ++ l ++ post) None [] data.
Proof.
  revert pre. induction l as [|ss l IH]; intros pre Hl Hno.
  - by rewrite app_nil_r.
  - destruct Hno as [Hss Hno]. cbn [length Nat.add].
    erewrite decrypt_loop_step with (ss := ss).
    2: { by rewrite length_wraps. }
    2: { rewrite (bool_decide_eq_false_2 (is_Some _)) by (by intros []).
         rewrite bool_decide_eq_false_2 by (len; lia). simpl.
         apply index_Some. by apply list_lookup_middle. }
    cbn [wraps foldr]. rewrite crypt_crypt. fold (wraps l data).
    rewrite bool_decide_eq_false_2 by done. simpl.
    specialize (IH (pre ++ [ss]) Hl Hno). rewrite <-!app_assoc in IH. simpl in IH.
    rewrite length_app, Nat.add_1_r in IH. by rewrite IH.
Qed.

(** The pass at the hop that sealed the message. *)
Lemma decrypt_loop_hit pre ss post path p k msg :
  path !! length pre = Some (Some p) →
  decrypt_loop (S k) (length pre) path (pre ++ ss :: post) None [] (crypt ss (sealed ss msg)) =
  Ok (Some p, msg).
Proof.
  intros Hp. erewrite decrypt_loop_step with (ss := ss).
  2: { rewrite length_crypt, length_sealed. lia. }
  2: { rewrite (bool_decide_eq_false_2 (is_Some _)) by (by intros []).
       rewrite bool_decide_eq_false_2 by (len; lia). simpl.
       apply index_Some. by apply list_lookup_middle. }
  rewrite crypt_crypt, bool_decide_eq_true_2 by apply sealed_valid.
  rewrite (bool_decide_eq_false_2 (is_Some _)) by (by intros []). simpl.
  rewrite (index_Some _ _ _ Hp). simpl. rewrite drop_sealed.
  apply decrypt_loop_found. rewrite length_sealed. lia.
Qed.

(** ** Along a route *)

Lemma hop_encrypters_secrets {A L} (routers : list (Router A L)) dhKey secrets :
  hop_secrets (onionKey <$> routers) dhKey = Ok secrets →
  hop_encrypters routers dhKey = Ok (mkEncrypter <$> secrets).
Proof.
  revert dhKey secrets. induction routers as [|r routers IH]; intros dhKey secrets Hs.
  { simpl in *. by simplify_eq. }
  rewrite fmap_cons in Hs. cbn [hop_secrets] in Hs. cbn [hop_encrypters].
  outcome_inv. unfold NewOnionErrorEncrypter. cbn [deref mbind Outcome_bind].
  rewrite Hv. cbn [mbind Outcome_bind sharedSecret]. rewrite Hv0. cbn [mbind Outcome_bind].
  rewrite Hv1. cbn [mbind Outcome_bind]. by rewrite (IH _ _ Hv2).
Qed.

(** The sender's circuit for a route. *)
Definition circuit_of {A L} (sk : PrivateKey) (routers : list (Router A L)) : Circuit :=
  mkCircuit (Some sk) (Some <$> (priv_PubKey <$> (onionKey <$> routers))).

(** The route's public keys, as points. *)
Definition route_points {A L} (routers : list (Router A L)) : list (N * N) :=
  (point_of ∘ priv_PubKey) <$> (onionKey <$> routers).

(** [DecryptError] on a circuit of a route is its loop over the secrets. *)
Lemma DecryptError_loop {A L} (routers : list (Router A L)) sk blob :
  Forall wf_priv (onionKey <$> routers) → wf_priv sk → routers ≠ [] →
  length blob = onionErrorLength →
  DecryptError (NewOnionErrorDecrypter (circuit_of sk routers)) blob =
  ('(sender, msg) ← decrypt_loop NumMaxHops 0 (circ_PaymentPath (circuit_of sk routers))
      (ref_secrets (priv_D sk) (route_points routers)) None [] blob;
   match sender with
   | None => Err errUnableToRetrieve
   | Some sender => Ok (sender, msg)
   end).
Proof.
  intros Hn Hsk Hne Hl. unfold DecryptError. rewrite decide_False by (intros []; done).
  generalize (decrypt_loop NumMaxHops 0). intros loop.
  cbn [NewOnionErrorDecrypter circuit circuit_of SessionKey deref mbind Outcome_bind circ_PaymentPath].
  rewrite sender_secrets; [|done|done|by destruct routers].
  cbn [mbind Outcome_bind]. unfold route_points. reflexivity.
Qed.

Lemma encrypters_of {A L} (routers : list (Router A L)) sk :
  Forall wf_priv (onionKey <$> routers) → wf_priv sk →
  blinding_ok (priv_D sk) (route_points routers) →
  hop_encrypters routers (priv_PubKey sk) =
  Ok (mkEncrypter <$> ref_secrets (priv_D sk) (route_points routers)).
Proof.
  intros Hn Hsk Hb. apply hop_encrypters_secrets. rewrite (wf_priv_point sk Hsk).
  apply hop_secrets_ref; auto with onion.
Qed.

Lemma sharedSecret_mkEncrypter l : sharedSecret <$> (mkEncrypter <$> l) = l.
Proof. rewrite <-list_fmap_compose. apply list_fmap_id. Qed.

(** C4.  Error round trip.  When hop [j] of a route of at most 20 hops fails
    with a message of the fixed length, and the hops before it each add their
    layer, the sender's [DecryptError] returns the public key of hop [j] and
    the very message, unless the blob that some earlier hop received happens
    to carry that hop's own MAC.  Every hop makes its encrypter from the
    ephemeral key that reached it. *)
Theorem error_round_trip {A L} (routers : list (Router A L)) sk j r msg :
  Forall wf_priv (onionKey <$> routers) → wf_priv sk → length routers ≤ NumMaxHops →
  blinding_ok (priv_D sk) (route_points routers) →
  routers !! j = Some r → length msg = onionErrorLength - sha256_Size →
  ∃ encs enc blob, hop_encrypters routers (priv_PubKey sk) = Ok encs ∧
    encs !! j = Some enc ∧ return_error (take j encs) enc msg = Ok blob ∧
    length blob = onionErrorLength ∧
    (no_collision (sharedSecret <$> take j encs)
       (crypt (sharedSecret enc) (sealed (sharedSecret enc) msg)) →
     DecryptError (NewOnionErrorDecrypter (circuit_of sk routers)) blob =
     Ok (priv_PubKey (onionKey r), msg)).
Proof.
  intros Hn Hsk Hmax Hb Hj Hmsg. pose proof (lookup_lt_Some _ _ _ Hj) as Hlt.
  set (secrets := ref_secrets (priv_D sk) (route_points routers)).
  assert (length secrets = length routers) as Hls.
  { unfold secrets, route_points. by rewrite length_ref_secrets, !length_fmap. }
  destruct (lookup_Some_length secrets j) as [ss Hss]; [lia|].
  exists (mkEncrypter <$> secrets), (mkEncrypter ss). eexists. split_and!.
  - by apply encrypters_of.
  - by rewrite list_lookup_fmap, Hss.
  - apply return_error_wraps.
  - rewrite length_wraps, length_sealed. cbn [sharedSecret]. rewrite Hmsg. reflexivity.
  - rewrite <-fmap_take, fmap_app, sharedSecret_mkEncrypter.
    cbn [sharedSecret fmap list_fmap]. intros Hno.
    rewrite wraps_app.
    rewrite DecryptError_loop; [|done|done|by intros ->| ].
    2: { rewrite (length_wraps (take j secrets)), length_crypt, length_sealed, Hmsg. reflexivity. }
    fold secrets. rewrite <-(take_drop_middle _ _ _ Hss).
    assert (length (take j secrets) = j) as Hj' by (len; lia).
    pose proof (decrypt_loop_wraps [] (take j secrets) (ss :: drop (S j) secrets)
      (circ_PaymentPath (circuit_of sk routers)) (NumMaxHops - j)
      (crypt ss (sealed ss msg))) as E.
    cbn [app length] in E. rewrite Hj' in E.
    replace (j + (NumMaxHops - j)) with NumMaxHops in E by lia.
    rewrite take_drop_middle in E |- * by done. rewrite E; [|rewrite length_crypt, length_sealed; lia|done].
    replace (NumMaxHops - j) with (S (NumMaxHops - j - 1)) by lia.
    rewrite <-(take_drop_middle _ _ _ Hss) at 1. rewrite <-Hj' at 2.
    erewrite decrypt_loop_hit; [done|]. rewrite Hj'. cbn [circuit_of circ_PaymentPath].
    by rewrite !list_lookup_fmap, Hj.
Qed.

(** ** What [DecryptError] does on any blob *)

(** The first hop whose MAC is on the blob when its layer is off, with the
    message, or the blob with all layers off. *)
Fixpoint find_sender (hops : list (Hash256 * PublicKey)) (data : list byte)
    : (PublicKey * list byte) + list byte :=
  match hops with
  | [] => inr data
  | (ss, p) :: hops =>
      let data := crypt ss data in
      if decide (mac_valid ss data) then inl (p, drop sha256_Size data)
      else find_sender hops data
  end.

(** The MAC under the dummy secret is met in one of [k] further passes. *)
Fixpoint dummy_hit (k : nat) (data : list byte) : bool :=
  match k with
  | 0 => false
  | S k =>
      let data := crypt dummySecret data in
      if decide (mac_valid dummySecret data) then true else dummy_hit k data
  end.

Lemma decrypt_loop_dummy k i path secrets data :
  length path ≤ i → length secrets ≤ i → sha256_Size ≤ length data →
  decrypt_loop k i path secrets None [] data = if dummy_hit k data then Panic else Ok (None, []).
Proof.
  revert i data. induction k as [|k IH]; intros i data Hp Hs Hl; [done|].
  rewrite decrypt_loop_step with (ss := dummySecret); [|done|].
  2: { rewrite (bool_decide_eq_true_2 (length secrets ≤ i)) by done. by rewrite orb_true_r. }
  rewrite (bool_decide_eq_false_2 (is_Some _)) by (by intros []). rewrite andb_true_r.
  cbn [dummy_hit]. cbv zeta. case_decide as Hm.
  - rewrite bool_decide_eq_true_2 by done. unfold index. by rewrite lookup_ge_None_2.
  - rewrite bool_decide_eq_false_2 by done. apply IH; [lia..|]. by rewrite length_crypt.
Qed.

Lemma decrypt_loop_spec (hops : list (Hash256 * PublicKey)) k pre ppre data :
  length ppre = length pre → sha256_Size ≤ length data →
  decrypt_loop (length hops + k) (length pre) (ppre ++ (Some ∘ snd <$> hops))
    (pre ++ (fst <$> hops)) None [] data =
  match find_sender hops data with
  | inl (p, msg) => Ok (Some p, msg)
  | inr data => if dummy_hit k data then Panic else Ok (None, [])
  end.
Proof.
  revert pre ppre data. induction hops as [|[ss p] hops IH]; intros pre ppre data Hpre Hl.
  - apply decrypt_loop_dummy; [len..|done].
  - cbn [length Nat.add]. rewrite !fmap_cons. cbn [fst].
    rewrite decrypt_loop_step with (ss := ss); [|done|].
    2: { rewrite (bool_decide_eq_false_2 (is_Some _)) by (by intros []).
         rewrite bool_decide_eq_false_2 by (len; lia). simpl.
         apply index_Some. by apply list_lookup_middle. }
    rewrite (bool_decide_eq_false_2 (is_Some _)) by (by intros []). rewrite andb_true_r.
    cbn [find_sender]. cbv zeta. case_decide as Hm.
    + rewrite bool_decide_eq_true_2 by done.
      rewrite (index_Some _ _ (Some p)) by by apply list_lookup_middle.
      cbn [mbind Outcome_bind]. apply decrypt_loop_found. by rewrite length_crypt.
    + rewrite bool_decide_eq_false_2 by done.
      specialize (IH (pre ++ [ss]) (ppre ++ [Some p]) (crypt ss data)).
      rewrite !length_app, !Nat.add_1_r, <-!app_assoc in IH. cbn [app length] in IH.
      apply IH; [lia|]. by rewrite length_crypt.
Qed.

(** C9.  [DecryptError] on every input, for the circuit of a route of at most
    20 hops: a blob of another length is refused; otherwise the result is the
    first hop, in route order, whose MAC is found when the layers up to it are
    off, with the bytes after the MAC; if there is none, the constant-time
    passes with the dummy secret go on, and the call ends in the error of
    [errUnableToRetrieve], or in a panic if the MAC under that known secret
    happens to be met. *)
Theorem DecryptError_complete {A L} (routers : list (Router A L)) sk blob :
  Forall wf_priv (onionKey <$> routers) → wf_priv sk → routers ≠ [] →
  length routers ≤ NumMaxHops →
  ∃ secrets,
    generateSharedSecrets (circ_PaymentPath (circuit_of sk routers)) sk = Ok secrets ∧
    DecryptError (NewOnionErrorDecrypter (circuit_of sk routers)) blob =
    if decide (length blob ≠ onionErrorLength)
    then Err (errInvalidErrorLength onionErrorLength (length blob))
    else match find_sender (zip secrets (priv_PubKey <$> (onionKey <$> routers))) blob with
         | inl found => Ok found
         | inr rest =>
             if dummy_hit (NumMaxHops - length routers) rest then Panic
             else Err errUnableToRetrieve
         end.
Proof.
  intros Hn Hsk Hne Hmax. exists (ref_secrets (priv_D sk) (route_points routers)). split.
  { apply sender_secrets; [done..|]. by destruct routers. }
  case_decide as Hlen; [unfold DecryptError; by rewrite decide_True|].
  destruct (decide (length blob = onionErrorLength)) as [Hl|]; [|done].
  rewrite (DecryptError_loop routers sk blob Hn Hsk Hne Hl).
  set (secrets := ref_secrets _ _). set (keys := priv_PubKey <$> (onionKey <$> routers)).
  assert (length secrets = length routers) as Hls.
  { unfold secrets, route_points. by rewrite length_ref_secrets, !length_fmap. }
  assert (length keys = length routers) as Hlk by (unfold keys; by rewrite !length_fmap).
  pose proof (decrypt_loop_spec (zip secrets keys) (NumMaxHops - length routers) [] [] blob
    eq_refl) as E.
  rewrite list_fmap_compose, fst_zip, snd_zip in E by lia.
  rewrite length_zip_with, Hls, Hlk, Nat.min_id in E.
  replace (length routers + (NumMaxHops - length routers)) with NumMaxHops in E by lia.
  cbn [app length] in E. unfold circuit_of at 1. cbn [circ_PaymentPath]. fold keys.
  rewrite E by (rewrite Hl; unfold onionErrorLength; lia).
  destruct (find_sender _ _) as [[p msg]|rest]; [done|]. by destruct (dummy_hit _ _).
Qed.

(** C10.  An exit node can crash the sender.  On a route of fewer than 20 hops
    the last hop, instead of an error of its own, seals any bytes under the
    dummy secret, which is a constant of the code, and hides them under its own
    layer; when the other hops have forwarded the blob, the sender finds no hop
    for it, goes on with the dummy secret, finds that MAC valid and indexes the
    payment path out of range. *)
Theorem DecryptError_exit_node_panic {A L} (routers : list (Router A L)) (exit : Router A L) sk msg :
  let route := routers ++ [exit] in
  Forall wf_priv (onionKey <$> route) → wf_priv sk → length route < NumMaxHops →
  blinding_ok (priv_D sk) (route_points route) →
  length msg = onionErrorLength - sha256_Size →
  ∃ encs enc dummy crafted blob,
    hop_encrypters route (priv_PubKey sk) = Ok (encs ++ [enc]) ∧
    EncryptError (mkEncrypter dummySecret) true msg = Ok dummy ∧
    EncryptError enc false dummy = Ok crafted ∧
    forward_back encs crafted = Ok blob ∧
    (no_collision (sharedSecret <$> (encs ++ [enc])) dummy →
     DecryptError (NewOnionErrorDecrypter (circuit_of sk route)) blob = Panic).
Proof.
  intros route Hn Hsk Hmax Hb Hmsg.
  set (secrets := ref_secrets (priv_D sk) (route_points route)).
  assert (length secrets = length route) as Hls.
  { unfold secrets, route_points. by rewrite length_ref_secrets, !length_fmap. }
  destruct (exists_last (l := secrets)) as (pre & ss & Hpre).
  { intros E. rewrite E in Hls. unfold route in Hls. rewrite length_app in Hls. simpl in Hls. lia. }
  exists (mkEncrypter <$> pre), (mkEncrypter ss).
  set (dummy := crypt dummySecret (sealed dummySecret msg)).
  exists dummy, (crypt ss dummy), (wraps pre (crypt ss dummy)).
  assert (length dummy = onionErrorLength) as Hld.
  { unfold dummy. rewrite length_crypt, length_sealed, Hmsg. reflexivity. }
  split_and!.
  - rewrite encrypters_of by done. fold secrets. by rewrite Hpre, fmap_app.
  - apply onionEncrypt_crypt.
  - apply onionEncrypt_crypt.
  - by rewrite forward_back_wraps, sharedSecret_mkEncrypter.
  - rewrite fmap_app, sharedSecret_mkEncrypter. cbn [fmap list_fmap sharedSecret]. intros Hno.
    rewrite <-wraps_app, <-Hpre. rewrite <-Hpre in Hno.
    rewrite DecryptError_loop; [|done|done|by destruct routers|by rewrite length_wraps].
    fold secrets.
    pose proof (decrypt_loop_wraps [] secrets [] (circ_PaymentPath (circuit_of sk route))
      (NumMaxHops - length route) dummy) as E.
    rewrite app_nil_r in E. cbn [app length] in E. rewrite Hls in E.
    replace (length route + (NumMaxHops - length route)) with NumMaxHops in E by lia.
    rewrite E; [|rewrite Hld; unfold onionErrorLength; lia|done].
    replace (NumMaxHops - length route) with (S (NumMaxHops - length route - 1)) by lia.
    rewrite decrypt_loop_dummy; [| |lia|rewrite Hld; unfold onionErrorLength; lia].
    2: { cbn [circuit_of circ_PaymentPath]. by rewrite !length_fmap. }
    cbn [dummy_hit]. unfold dummy. rewrite crypt_crypt. cbv zeta.
    by rewrite decide_True by apply sealed_valid.
Qed.

End layers.
