(* ===== verification/Circuit.v ===== *)
(** * Storing circuits and encrypters (obfuscation.go)

    [Circuit.Encode] and [Circuit.Decode], and the same for the encrypter.
    [Circuit.Decode] calls [r.Read] and ignores how many bytes it delivered:
    the round trip holds on readers that always fill the buffer, such as a
    [bytes.Buffer], and not on others. *)

From S2P Require Import Prelude GoBytes Errors GoIO Sha256 Constants Btcec Crypto.
From S2P Require Import SharedSecrets Router Obfuscation.

Section circuit.
Context `{BtcecLaws}.

(** The bytes of a circuit: two length bytes, the key, the path. *)
Definition Circuit_bytes (sk : PrivateKey) (ps : list (N * N)) : list byte :=
  x20 :: be_bytes 32 (priv_D sk) ++
  byte_of_N (N.of_nat (length ps)) :: concat (ser <$> ps).

Definition circuit_for (sk : PrivateKey) (ps : list (N * N)) : Circuit :=
  mkCircuit (Some sk) ((Some ∘ key_of) <$> ps).

Lemma encode_keys_buffer (ps : list (N * N)) (w : list byte) :
  encode_keys ((Some ∘ key_of) <$> ps) w = (w ++ concat (ser <$> ps), Ok tt).
Proof.
  revert w. induction ps as [|P ps IH]; intros w; [simpl; by rewrite app_nil_r|].
  rewrite !fmap_cons. cbn [encode_keys concat]. 
  change ((Some ∘ key_of) P) with (Some (key_of P)). cbn [deref].
  rewrite EncM_lift_ok, SerializeCompressed_key_of, EncM_lift_ok, EncM_write_buffer, IH.
  by rewrite <-app_assoc.
Qed.

Lemma Circuit_Encode_buffer sk ps (w : list byte) :
  (priv_D sk < 2 ^ 256)%N →
  Circuit_Encode (circuit_for sk ps) w = (w ++ Circuit_bytes sk ps, Ok tt).
Proof.
  intros HD. unfold Circuit_Encode. cbn [circuit_for SessionKey circ_PaymentPath].
  cbn [deref]. rewrite EncM_lift_ok. cbv zeta.
  rewrite !EncM_write_buffer, encode_keys_buffer.
  rewrite privKeySerialize_spec, length_be_bytes, length_fmap by done.
  unfold Circuit_bytes. rewrite <-!app_assoc. reflexivity.
Qed.

(** A bare [Read] from a buffer that has the bytes. *)
Lemma readBare_buffer {T} n a l (t : T) :
  length a = n → readBare n (bytes_reader (a ++ l)) t = (bytes_reader l, t, Ok a).
Proof.
  intros <-. unfold readBare, Read, bytes_reader.
  destruct a as [|b a]; simpl.
  - destruct l; simpl; done.
  - rewrite length_app. destruct l as [|b' l]; simpl.
    + rewrite app_nil_r, decide_True by lia. rewrite take_ge by lia.
      by rewrite go_copy_full by by len_simp.
    + rewrite decide_False by (simpl; lia). rewrite drop_app_length, take_app_length.
      by rewrite go_copy_full by by len_simp.
Qed.

(** A point multiple depends on the number the bytes denote. *)
Lemma base_key_value a b : be_value a = be_value b → base_key a = base_key b.
Proof.
  intros Hab. unfold base_key. rewrite !ScalarBaseMult_spec.
  destruct (ScalarMult Params_Gx Params_Gy (big_bytes 1)) as [x y] eqn:E.
  assert (∀ c, be_value c = be_value a →
    ScalarMult x y a = ScalarMult Params_Gx Params_Gy c) as Hc.
  { intros c Hc. eapply ScalarMult_mul; [apply base_valid| | |done].
    - rewrite be_value_big_bytes, N.mod_small by apply order_pos. done.
    - by rewrite be_value_big_bytes, N.mul_1_l, Hc. }
  by rewrite <-(Hc a eq_refl), <-(Hc b (eq_sym Hab)).
Qed.

Lemma PrivKeyFromBytes_be sk :
  wf_priv sk → PrivKeyFromBytes (be_bytes 32 (priv_D sk)) = sk.
Proof.
  intros [[_ HD] Hp].
  rewrite PrivKeyFromBytes_spec, be_value_bytes_small by (simpl; lia).
  destruct sk as [pub d]; simpl in *. f_equal. rewrite Hp. apply base_key_value.
  by rewrite be_value_big_bytes, be_value_bytes_small by (simpl; lia).
Qed.

Lemma circuit_keys_loop_buffer (ps : list (N * N)) pre l sk :
  Forall on_curve ps →
  circuit_keys_loop (length ps) (length pre) (bytes_reader (concat (ser <$> ps) ++ l))
    (mkCircuit sk (pre ++ replicate (length ps) None)) =
  (bytes_reader l, mkCircuit sk (pre ++ ((Some ∘ key_of) <$> ps)), Ok tt).
Proof.
  intros Hps. revert pre. induction Hps as [|P ps HP _ IH]; intros pre; [done|].
  rewrite !fmap_cons. cbn [length circuit_keys_loop concat replicate]. rewrite <-app_assoc.
  assert (length (ser P) = PubKeyBytesLenCompressed) as HlP
    by by apply serializeCompressed_length.
  erewrite DecM_bind_ok by by apply readBare_buffer.
  unfold ser at 1. rewrite parse_serialize by done.
  erewrite DecM_bind_ok by done. cbn [set_circ_PaymentPath SessionKey circ_PaymentPath].
  rewrite insert_app_r_alt, Nat.sub_diag by lia. cbn [insert list_insert].
  specialize (IH (pre ++ [Some (key_of P)])).
  rewrite length_app, Nat.add_1_r, <-!app_assoc in IH. exact IH.
Qed.

Lemma length_byte_of_nat n :
  n < 256 → length_byte [byte_of_N (N.of_nat n)] = n.
Proof.
  intros Hn. change (length_byte [?b]) with (N.to_nat (Byte.to_N b)). rewrite to_N_byte_of_N.
  rewrite N.mod_small by lia. lia.
Qed.

(** C21.  Circuits survive storage: a circuit with a usable session key and at
    most 255 keys on the curve, written to a buffer, is read back from it,
    whatever the target held before; what follows in the buffer is left. *)
Theorem Circuit_roundtrip sk ps c0 l :
  wf_priv sk → Forall on_curve ps → length ps < 256 →
  ∃ bytes, Circuit_Encode (circuit_for sk ps) [] = (bytes, Ok tt) ∧
    length bytes = 34 + 33 * length ps ∧
    Circuit_Decode (bytes_reader (bytes ++ l)) c0 =
      (bytes_reader l, circuit_for sk ps, Ok tt).
Proof.
  intros Hsk Hps Hn. exists (Circuit_bytes sk ps).
  assert (priv_D sk < 2 ^ 256)%N as HD by apply Hsk.
  split_and!; [by apply (Circuit_Encode_buffer sk ps [])|..].
  - unfold Circuit_bytes. rewrite length_cons, length_app, length_be_bytes, length_cons.
    assert (length (concat (ser <$> ps)) = 33 * length ps) as ->; [|lia].
    clear Hn. induction Hps as [|P ps HP _ IH]; [done|].
    rewrite fmap_cons. cbn [concat]. rewrite length_app, IH.
    unfold ser. rewrite serializeCompressed_length by done.
    unfold PubKeyBytesLenCompressed. simpl. lia.
  - unfold Circuit_bytes, Circuit_Decode.
    change (x20 :: be_bytes 32 (priv_D sk) ++ byte_of_N (N.of_nat (length ps)) ::
      concat (ser <$> ps)) with ([x20] ++ be_bytes 32 (priv_D sk) ++
      [byte_of_N (N.of_nat (length ps))] ++ concat (ser <$> ps)).
    rewrite <-!app_assoc.
    erewrite DecM_bind_ok by by apply readBare_buffer.
    change (length_byte [x20]) with 32.
    erewrite DecM_bind_ok by (apply readBare_buffer, length_be_bytes).
    erewrite DecM_bind_ok by done. erewrite DecM_bind_ok by by apply readBare_buffer.
    erewrite DecM_bind_ok by done. rewrite length_byte_of_nat by done.
    rewrite PrivKeyFromBytes_be by done. unfold set_circ_PaymentPath. cbn [SessionKey set_SessionKey].
    apply (circuit_keys_loop_buffer ps [] l). done.
Qed.

(** A [Read] that delivers its chunk whole. *)
Lemma readBare_chunk {T} n c cs e (t : T) :
  length c ≤ n →
  readBare n (mkReader (c :: cs) e false) t =
  (mkReader cs e false, t, Ok (c ++ zeros (n - length c))).
Proof.
  intros Hc. unfold readBare, Read; simpl. rewrite decide_True, take_ge by done.
  replace (match cs with [] => None | _ => None end) with (@None error) by by destruct cs.
  unfold go_copy. rewrite length_zeros, take_ge by done. unfold zeros. by rewrite drop_replicate.
Qed.

(** C22.  The round trip does not hold on every reader.  Take a session key
    whose second lowest byte is zero and lowest is not: the bytes that [Encode]
    wrote, delivered in four pieces, as the [io.Reader] contract allows, are
    decoded without an error into a circuit with another session key: the two
    bytes missing from the second piece are taken to be zero, and the next
    piece is read as the length of the path. *)
Theorem Circuit_Decode_short_read q b sk c0 :
  priv_D sk = (65536 * q + b)%N → (0 < b < 256)%N → wf_priv sk →
  ∃ bytes r r' c, Circuit_Encode (circuit_for sk []) [] = (bytes, Ok tt) ∧
    rd_content r = bytes ∧ Circuit_Decode r c0 = (r', c, Ok tt) ∧
    (priv_D <$> SessionKey c) = Some (65536 * q)%N ∧ circ_PaymentPath c = [].
Proof.
  intros HD Hb [[_ Hlt] _].
  assert (be_bytes 32 (priv_D sk) = be_bytes 30 q ++ [x00; byte_of_N b]) as Hbytes.
  { rewrite HD, (be_bytes_S 31), (be_bytes_S 30), <-app_assoc. f_equal; [f_equal|].
    - rewrite N.Div0.div_div. change (256 * 256)%N with 65536%N.
      rewrite (N.mul_comm 65536 q), N.div_add_l by lia. rewrite (N.div_small b) by lia. lia.
    - simpl. f_equal; [|f_equal]; unfold byte_of_N.
      + replace (65536 * q + b)%N with (256 * q * 256 + b)%N by lia.
        rewrite N.div_add_l, (N.div_small b), N.add_0_r by lia.
        by rewrite N.mul_comm, N.Div0.mod_mul.
      + replace (65536 * q + b)%N with (b + 256 * q * 256)%N by lia.
        by rewrite N.Div0.mod_add. }
  eexists. exists (mkReader [[x20]; be_bytes 30 q; [x00]; [byte_of_N b; x00]] EOF false).
  do 2 eexists. split_and!.
  - apply (Circuit_Encode_buffer sk [] []). lia.
  - unfold Circuit_bytes. rewrite Hbytes, <-app_assoc. reflexivity.
  - unfold Circuit_Decode.
    erewrite DecM_bind_ok by (by apply readBare_chunk; simpl; lia).
    change (length_byte ([x20] ++ _)) with 32.
    erewrite DecM_bind_ok by (apply readBare_chunk; rewrite length_be_bytes; lia).
    erewrite DecM_bind_ok by done.
    erewrite DecM_bind_ok by (by apply readBare_chunk; simpl; lia).
    erewrite DecM_bind_ok by done. reflexivity.
  - cbn [SessionKey set_circ_PaymentPath set_SessionKey fmap option_fmap option_map].
    rewrite PrivKeyFromBytes_spec, length_be_bytes. cbn [priv_D]. f_equal.
    change (zeros (32 - 30)) with [x00; x00]. change [x00; x00] with ([x00] ++ [x00]). rewrite app_assoc, !be_value_snoc.
    rewrite be_value_bytes_small; [simpl; lia|].
    rewrite HD in Hlt. simpl. lia.
  - reflexivity.
Qed.

End circuit.

(** C34.  An encrypter survives storage: its 32-byte secret is read back from
    any reader that has it, however it cuts the bytes, and a reader that ends
    early gives an error, [io.EOF] if it had nothing at all and
    [io.ErrUnexpectedEOF] otherwise. *)
Theorem OnionErrorEncrypter_codec o o0 r :
  wf_Hash256 (sharedSecret o) → wf_Hash256 (sharedSecret o0) → rd_err r = EOF →
  OnionErrorEncrypter_Encode o ([] : list byte) = (sharedSecret o, Ok tt) ∧
  (∀ l, rd_content r = sharedSecret o ++ l →
    ∃ r', OnionErrorEncrypter_Decode r o0 = (r', o, Ok tt) ∧ rd_content r' = l) ∧
  (length (rd_content r) < sha256_Size →
    ∃ r' o', OnionErrorEncrypter_Decode r o0 =
      (r', o', Err (if decide (rd_content r = []) then EOF else ErrUnexpectedEOF))).
Proof.
  intros Ho Ho0 He. split_and!; [done|..].
  - intros l Hc. destruct (readField_ok sha256_Size sharedSecret set_sharedSecret r o0
      (sharedSecret o) l Hc Ho Ho0) as (r' & Hr & Hl & _).
    exists r'. unfold OnionErrorEncrypter_Decode. rewrite Hr. by destruct o.
  - intros Hlt. unfold OnionErrorEncrypter_Decode, readField.
    destruct (ReadFull_spec sha256_Size r) as (r' & -> & _). rewrite decide_False by lia.
    rewrite He. destruct (decide (rd_content r = [])) as [->|Hne].
    + rewrite decide_False by naive_solver. eauto.
    + rewrite decide_True by done. eauto.
Qed.
