(* ===== verification/Cmd.v ===== *)
(** * The command-line utility (cmd/main.go)

    [generate] builds a packet for the given node keys and prints it in hex;
    [decode] reads a packet in hex and processes it with a private key.  What
    the program prints is its result, a call of [log.Fatalf] is an error. *)

From S2P Require Import Prelude GoBytes Errors GoIO Sha256 Constants Btcec Crypto Packet Codec.
From S2P Require Import Path SharedSecrets Onion Layers Peel Sphinx ReplaySet Batch ReplayLog.
From S2P Require Import Router Circuit.

(** ** [encoding/hex] and [strings.TrimSpace] *)

Definition hex_digit (n : N) : byte :=
  byte_of_N (if (n <? 10)%N then 48 + n else 87 + n)%N.

(** [fmt.Printf("%x", b)] *)
Definition hex_encode (l : list byte) : list byte :=
  l ≫= λ b, [hex_digit (Byte.to_N b / 16); hex_digit (Byte.to_N b mod 16)].

Definition fromHexChar (c : byte) : option N :=
  let n := Byte.to_N c in
  if ((48 <=? n) && (n <=? 57))%N then Some (n - 48)%N
  else if ((97 <=? n) && (n <=? 102))%N then Some (n - 87)%N
  else if ((65 <=? n) && (n <=? 70))%N then Some (n - 55)%N
  else None.

(** [hex.DecodeString]: [None] is an error (a bad digit, an odd length). *)
Fixpoint hex_DecodeString (s : list byte) : option (list byte) :=
  match s with
  | [] => Some []
  | a :: b :: s =>
      hi ← fromHexChar a; lo ← fromHexChar b; l ← hex_DecodeString s;
      Some (byte_of_N (hi * 16 + lo) :: l)
  | [_] => None
  end.

(** The encodings of the white-space characters. *)
Definition white_space : list (list byte) :=
  [[x09]; [x0a]; [x0b]; [x0c]; [x0d]; [x20]; [xc2; x85]; [xc2; xa0]; [xe1; x9a; x80];
   [xe2; x80; xa8]; [xe2; x80; xa9]; [xe2; x80; xaf]; [xe2; x81; x9f]; [xe3; x80; x80]] ++
  ((λ b, [xe2; x80; b]) <$> [x80; x81; x82; x83; x84; x85; x86; x87; x88; x89; x8a]).

Definition strip_prefix (p s : list byte) : option (list byte) :=
  if decide (take (length p) s = p) then Some (drop (length p) s) else None.

(** Drops white space from the front as long as there is some. *)
Fixpoint trim_front (spaces : list (list byte)) (fuel : nat) (s : list byte) : list byte :=
  match fuel with
  | 0 => s
  | S fuel =>
      match list_find (λ p, is_Some (strip_prefix p s)) spaces with
      | Some (_, p) => trim_front spaces fuel (drop (length p) s)
      | None => s
      end
  end.

(** [strings.TrimSpace] *)
Definition TrimSpace (s : list byte) : list byte :=
  let s := trim_front white_space (length s) s in
  rev (trim_front (@rev byte <$> white_space) (length s) (rev s)).

(** ** The program *)

(** The calls of [log.Fatalf]. *)
Inductive CmdError :=
  | InvalidHexPubKey
  | ErrorCreating (e : error)
  | ErrorSerializing (e : error)
  | InvalidHexPrivKey
  | ErrorDecoding
  | ErrorParsing (e : error)
  | FailedToDecode (e : error).

Definition fatal {A} (f : error → CmdError) (o : Outcome error A) : Outcome CmdError A :=
  match o with Ok a => Ok a | Err e => Err (f e) | Panic => Panic end.

Section cmd.
Context `{Btcec} `{Chacha20} `{Btcutil} (testNet3Params : Net).

Definition assocData : list byte := replicate 32 x42.

(** The hop that [generate] makes for the [i]-th key. *)
Definition generated_hop (i : nat) (pubkey : PublicKey) : OnionHop :=
  mkOnionHop pubkey
    (mkHopData [x00] (go_copy (zeros AddressSize) (replicate 8 (byte_of_N (N.of_nat i))))
       (N.of_nat i) (N.of_nat i) (zeros NumPaddingBytes) (zeros HMACSize)).

(** [for i, hexKey := range args[2:]] *)
Fixpoint generate_loop (i : nat) (keys : list (list byte)) (path : PaymentPath)
    : Outcome CmdError PaymentPath :=
  match keys with
  | [] => Ok path
  | hexKey :: keys =>
      match hex_DecodeString hexKey with
      | None => Err InvalidHexPubKey
      | Some binKey =>
          if decide (length binKey ≠ 33) then Err InvalidHexPubKey else
          match parsePubKey binKey with
          | None => Panic
          | Some (x, y) =>
              let pubkey := mkPublicKey (Some S256) (Some x) (Some y) in
              _ ← index path i;
              generate_loop (S i) keys (<[i := generated_hop i pubkey]> path)
          end
      end
  end.

Definition sessionKey : PrivateKey := PrivKeyFromBytes (replicate 32 x41).

Definition cmd_generate (keys : list (list byte)) : Outcome CmdError (list byte) :=
  path ← generate_loop 0 keys zeroPaymentPath;
  '(_, msg) ← fatal ErrorCreating (NewOnionPacket path sessionKey assocData);
  let '(w, err) := OnionPacket_Encode msg ([] : list byte) in
  _ ← fatal ErrorSerializing err;
  Ok (hex_encode w ++ [x0a]).

Definition cmd_decode (args : list (list byte)) (stdin : list byte)
    : Outcome CmdError (list byte) :=
  hexKey ← index args 2;
  match hex_DecodeString hexKey with
  | None => Err InvalidHexPrivKey
  | Some binKey =>
      if decide (length binKey ≠ 32) then Err InvalidHexPrivKey else
      match hex_DecodeString (TrimSpace stdin) with
      | None => Err ErrorDecoding
      | Some binMsg =>
          let privkey := PrivKeyFromBytes binKey in
          s ← fatal FailedToDecode
                (NewRouter privkey testNet3Params MemoryReplayLog.NewMemoryReplayLog);
          let '(_, packet, err) := OnionPacket_Decode (bytes_reader binMsg) zeroOnionPacket in
          _ ← fatal ErrorParsing err;
          let '(_, out) := Router_ProcessOnionPacket packet assocData 10 s in
          p ← fatal FailedToDecode out;
          next ← deref (NextPacket p);
          let '(w, err) := OnionPacket_Encode next ([] : list byte) in
          _ ← fatal ErrorSerializing err;
          Ok (hex_encode w ++ [x0a])
      end
  end.

Definition string_bytes (s : string) : list byte := String.list_byte_of_string s.

(** [func main()], with the arguments and what is on the standard input. *)
Definition main (args : list (list byte)) (stdin : list byte) : Outcome CmdError (list byte) :=
  if decide (length args = 1) then
    prog ← index args 0;
    Ok (string_bytes "Usage: " ++ prog ++ string_bytes " (generate|decode) <private-keys>" ++ [x0a])
  else
    cmd ← index args 1;
    if decide (cmd = string_bytes "generate") then cmd_generate (drop 2 args)
    else if decide (cmd = string_bytes "decode") then cmd_decode args stdin
    else Ok [].

End cmd.

(** ** hex *)

Lemma hex_round_trip l : hex_DecodeString (hex_encode l) = Some l.
Proof.
  induction l as [|b l IH]; [done|].
  change (hex_encode (b :: l)) with
    (hex_digit (Byte.to_N b / 16) :: hex_digit (Byte.to_N b mod 16) :: hex_encode l).
  cbn [hex_DecodeString]. rewrite IH.
  assert (∀ n, (n < 16)%N → fromHexChar (hex_digit n) = Some n) as Hd.
  { intros n Hn. unfold fromHexChar, hex_digit. rewrite to_N_byte_of_N.
    destruct (N.ltb_spec n 10); rewrite N.mod_small by lia.
    - rewrite (proj2 (N.leb_le 48 _)), (proj2 (N.leb_le _ 57)) by lia. simpl. f_equal. lia.
    - rewrite (proj2 (N.leb_le 48 _)), (proj2 (N.leb_gt _ 57)) by lia. simpl.
      rewrite (proj2 (N.leb_le 97 _)), (proj2 (N.leb_le _ 102)) by lia. simpl. f_equal. lia. }
  pose proof (to_N_lt b) as Hb.
  rewrite !Hd by (apply N.mod_lt || apply N.Div0.div_lt_upper_bound; lia).
  cbn [mbind option_bind]. do 2 f_equal.
  rewrite N.mul_comm, <-N.div_mod by lia. apply byte_of_to_N.
Qed.

Section cmd_facts.
Context `{BtcecLaws} `{Chacha20Laws} `{BtcutilLaws} (testNet3Params : Net).

(** C23.  [decode] never prints a packet, whatever the key and the input: its
    replay log is never started, so that a packet that passes every check is
    refused with [errReplayLogNotStarted] when its hash prefix is stored. *)
Theorem decode_never_succeeds prog rest stdin out :
  main testNet3Params (prog :: string_bytes "decode" :: rest) stdin ≠ Ok out.
Proof.
  unfold main. rewrite decide_False by (simpl; lia). cbn [index lookup list_lookup mbind Outcome_bind].
  rewrite decide_False, decide_True by done. unfold cmd_decode. intros Hout.
  outcome_inv. destruct (hex_DecodeString v) as [binKey|]; [|done].
  case_decide; [done|]. destruct (hex_DecodeString _) as [binMsg|]; [|done].
  outcome_inv. destruct (OnionPacket_Decode _ _) as [[r' packet] err].
  outcome_inv. destruct (Router_ProcessOnionPacket packet assocData 10 v0) as [r1 o] eqn:Hp.
  outcome_inv. destruct o as [pp| |]; try done.
  apply process_ok_inv in Hp as (ss & s & _ & _ & _ & Hl & _).
  destruct (NewRouter _ _ _) as [r| |] eqn:Hr; try done. simpl in Hv0. simplify_eq.
  unfold NewRouter in Hr. outcome_inv.
Qed.

(** ** generate *)

(** The arguments for a list of points: their compressed keys in hex. *)
Definition key_args (ps : list (N * N)) : list (list byte) := (hex_encode ∘ ser) <$> ps.

(** The hops made for the points, from index [i] on. *)
Definition generated (i : nat) (ps : list (N * N)) : list OnionHop :=
  imap (λ j P, generated_hop (i + j) (key_of P)) ps.

Lemma generated_cons i P ps :
  generated i (P :: ps) = generated_hop i (key_of P) :: generated (S i) ps.
Proof.
  unfold generated. rewrite imap_cons, Nat.add_0_r. f_equal. apply imap_ext.
  intros j x _. simpl. by rewrite Nat.add_succ_r.
Qed.

Lemma length_generated i ps : length (generated i ps) = length ps.
Proof. apply length_imap. Qed.

Lemma generated_points i ps : (point_of ∘ NodePub) <$> generated i ps = ps.
Proof.
  revert i. induction ps as [|P ps IH]; intros i; [done|].
  rewrite generated_cons, fmap_cons, IH. f_equal. apply point_of_key_of.
Qed.

(** The loop fills the path from the front, and panics at hop 21. *)
Lemma generate_loop_spec ps pre tail :
  Forall on_curve ps →
  generate_loop (length pre) (key_args ps) (pre ++ tail) =
  if decide (length ps ≤ length tail)
  then Ok (pre ++ generated (length pre) ps ++ drop (length ps) tail) else Panic.
Proof.
  intros Hps. revert pre tail. induction Hps as [|P ps HP _ IH]; intros pre tail.
  { rewrite decide_True by (simpl; lia). by rewrite drop_0. }
  unfold key_args in *. rewrite fmap_cons. cbn [generate_loop].
  change ((hex_encode ∘ ser) P) with (hex_encode (ser P)). rewrite hex_round_trip.
  assert (length (ser P) = 33) as Hl by by apply serializeCompressed_length.
  rewrite decide_False by (rewrite Hl; by intros []).
  unfold ser at 1. rewrite parse_serialize by done.
  destruct tail as [|h tail].
  { rewrite decide_False by (simpl; lia). unfold index.
    by rewrite app_nil_r, lookup_ge_None_2 by lia. }
  rewrite (index_Some _ _ h) by by apply list_lookup_middle. cbn [mbind Outcome_bind].
  rewrite insert_app_r_alt, Nat.sub_diag by lia. cbn [insert list_insert].
  specialize (IH (pre ++ [generated_hop (length pre) (key_of P)]) tail).
  rewrite length_app, Nat.add_1_r, <-!app_assoc in IH. cbn [app] in IH.
  change (mkPublicKey (Some S256) (Some P.1) (Some P.2)) with (key_of P).
  rewrite generated_cons. cbn [length drop app]. rewrite IH.
  destruct (decide (length ps ≤ length tail)).
  - by rewrite decide_True by lia.
  - by rewrite decide_False by lia.
Qed.

Lemma generated_hop_wf i P : i < NumMaxHops → wf_HopData (hop_HopData (generated_hop i P)).
Proof.
  unfold NumMaxHops. intros Hi. unfold wf_HopData, generated_hop.
  cbn [hop_HopData Realm NextAddress ForwardAmount OutgoingCltv ExtraBytes HMAC].
  split_and!; try done; unfold AmtForwardSize, OutgoingCLTVSize; simpl; lia.
Qed.

(** The path of [generate]: well-formed, with the generated hops as its
    route. *)
Lemma generated_path ps :
  length ps ≤ NumMaxHops →
  let path := generated 0 ps ++ drop (length ps) zeroPaymentPath in
  wf_PaymentPath path ∧ route path = generated 0 ps.
Proof.
  intros Hn path.
  assert (path = generated 0 ps ++ replicate (NumMaxHops - length ps) zeroOnionHop) as Hpath
    by (unfold path, zeroPaymentPath; by rewrite drop_replicate).
  clearbody path.
  assert (TrueRouteLength path = length ps) as Ht.
  { destruct (TrueRouteLength_spec path) as (Hle & Hne & Hend). unfold route in Hne.
    revert Hle Hne Hend. generalize (TrueRouteLength path). rewrite Hpath.
    intros n Hle Hne Hend. rewrite length_app, length_generated, length_replicate in Hle.
    destruct (lt_eq_lt_dec n (length ps)) as [[Hlt|Heq]|Hgt]; [|done|].
    - destruct (lookup_Some_length ps n) as [P HP]; [done|].
      discriminate (Hend (generated_hop n (key_of P))).
      apply lookup_app_l_Some. unfold generated. by rewrite list_lookup_imap, HP.
    - rewrite Forall_lookup in Hne.
      discriminate (Hne (length ps) zeroOnionHop).
      rewrite lookup_take_lt by done.
      rewrite lookup_app_r; rewrite length_generated; [|done]. rewrite Nat.sub_diag.
      apply lookup_replicate_2. lia. }
  split.
  - split.
    + rewrite Hpath, length_app, length_generated, length_replicate. lia.
    + rewrite Hpath. apply Forall_app. split.
      * apply Forall_lookup_2. intros i h Hi. pose proof (lookup_lt_Some _ _ _ Hi) as Hlt.
        unfold generated in Hi. rewrite list_lookup_imap in Hi.
        destruct (ps !! i) as [P|]; simplify_eq/=. apply (generated_hop_wf i (key_of P)).
        rewrite length_generated in Hlt. lia.
      * apply Forall_replicate. apply zeroHopData_wf.
  - unfold route. rewrite Ht. by rewrite Hpath, take_app_ge' by by rewrite length_generated.
Qed.

Lemma sessionKey_wf :
  (be_value (replicate 32 x41) mod Params_N ≠ 0)%N → wf_priv sessionKey.
Proof.
  intros Hk. unfold sessionKey. rewrite PrivKeyFromBytes_spec. split; cbn [priv_D priv_PubKey].
  - split; [done|]. apply (be_value_lt (replicate 32 x41)).
  - apply base_key_value. by rewrite be_value_big_bytes.
Qed.

Lemma Ok_pair_inj {E A B} (o : Outcome E (A * B)) a a' b b' :
  o = Ok (a, b) → o = Ok (a', b') → b = b'.
Proof. congruence. Qed.

(** What [generate] prints, once the packet has been built. *)
Lemma generate_prints prog ps stdin path' pkt :
  Forall on_curve ps → length ps ≤ NumMaxHops → wf_OnionPacket pkt →
  NewOnionPacket (generated 0 ps ++ drop (length ps) zeroPaymentPath) sessionKey assocData =
    Ok (path', pkt) →
  main testNet3Params (prog :: string_bytes "generate" :: key_args ps) stdin =
  Ok (hex_encode (OnionPacket_bytes pkt) ++ [x0a]).
Proof.
  intros Hps Hn Hpkt Hnew. unfold main. rewrite decide_False by (simpl; lia).
  cbn [index lookup list_lookup mbind Outcome_bind drop].
  rewrite decide_True by done. unfold cmd_generate.
  pose proof (generate_loop_spec ps [] zeroPaymentPath Hps) as E.
  cbn [app length] in E. rewrite decide_True in E.
  2: { unfold zeroPaymentPath. by rewrite length_replicate. }
  rewrite drop_0, E. cbn [mbind Outcome_bind]. rewrite Hnew.
  cbn [fatal mbind Outcome_bind]. by rewrite (OnionPacket_Encode_buffer pkt []).
Qed.

(** C14.  [generate] and the nodes of its route.  For one to twenty nodes
    (whose keys go well with the fixed session key), [generate] prints, in
    hex, 1366 bytes from which a packet can be parsed that all the nodes accept
    in turn, node [i] being told to forward the amount [i] with time-lock [i]
    to the address of eight bytes [i]. *)
Theorem generate_relayed prog nodes stdin :
  Forall wf_priv nodes → 0 < length nodes ≤ NumMaxHops →
  (be_value (replicate 32 x41) mod Params_N ≠ 0)%N →
  blinding_ok (priv_D sessionKey) ((point_of ∘ priv_PubKey) <$> nodes) →
  ∃ bytes r' pkt pps,
    main testNet3Params (prog :: string_bytes "generate" ::
        key_args ((point_of ∘ priv_PubKey) <$> nodes)) stdin =
      Ok (hex_encode bytes ++ [x0a]) ∧ length bytes = 1366 ∧
    OnionPacket_Decode (bytes_reader bytes) zeroOnionPacket = (r', pkt, Ok tt) ∧
    relay assocData nodes pkt = Ok pps ∧ length pps = length nodes ∧
    ∀ i pp, pps !! i = Some pp →
      ForwardAmount (ForwardingInstructions pp) = N.of_nat i ∧
      OutgoingCltv (ForwardingInstructions pp) = N.of_nat i ∧
      NextAddress (ForwardingInstructions pp) = replicate 8 (byte_of_N (N.of_nat i)).
Proof.
  intros Hn [Hpos Hmax] Hk Hb. pose proof (sessionKey_wf Hk) as Hsk.
  set (ps := (point_of ∘ priv_PubKey) <$> nodes) in *.
  assert (length ps = length nodes) as Hlps by (unfold ps; by rewrite length_fmap).
  assert (Forall on_curve ps) as Hps.
  { unfold ps. apply Forall_fmap. eapply Forall_impl; [|exact Hn]. intros k Hkk.
    destruct (wf_priv_on_curve k Hkk) as (x & y & Hx & Hy & Hc).
    unfold compose, on_curve, point_of. by rewrite Hx, Hy. }
  destruct (generated_path ps) as [Hwf Hroute]; [lia|].
  set (path := generated 0 ps ++ drop (length ps) zeroPaymentPath) in *.
  assert (TrueRouteLength path = length nodes) as Ht
    by by rewrite <-length_route, Hroute, length_generated.
  destruct (NewOnionPacket_ok path sessionKey assocData Hwf Hsk) as (f & pkt & Hnew & Hpkt & _);
    [lia|].
  destruct (route_relayed path sessionKey assocData nodes Hwf Hsk Hn) as
    (f' & pkt' & pps & Hnew' & Hrel & Hlen & Hpps); [by destruct nodes| |done|].
  { by rewrite Hroute, generated_points. }
  assert (pkt' = pkt) as -> by (by eapply Ok_pair_inj; [exact Hnew'|exact Hnew]).
  set (path' := stamped _ _ _ _) in Hnew.
  assert (length pps = length nodes) as Hlp.
  { apply (f_equal length) in Hpps. rewrite !length_fmap in Hpps.
    by rewrite Hpps, (proj1 (stamp_shape _ _ _)). }
  destruct (OnionPacket_Decode_ok pkt zeroOnionPacket (bytes_reader (OnionPacket_bytes pkt)) [])
    as (r' & Hd & _); [done|by split; apply length_zeros|
                       by rewrite rd_content_bytes_reader, app_nil_r|].
  exists (OnionPacket_bytes pkt), r', pkt, pps. split_and!; try done.
  - apply (generate_prints prog ps stdin path' pkt Hps); [lia|exact Hpkt|exact Hnew].
  - by rewrite length_OnionPacket_bytes.
  - intros i pp Hi. pose proof (lookup_lt_Some _ _ _ Hi).
    destruct (lookup_Some_length (secret_hops (priv_D sessionKey) (route path)) i)
      as [[ss h] Hh]; [lia|].
    apply (f_equal (lookup i)) in Hpps.
    rewrite !list_lookup_fmap, Hi, (stamp_lookup _ _ _ _ _ _ Hh) in Hpps.
    injection Hpps as _ ->. apply secret_hops_lookup in Hh. rewrite Hroute in Hh.
    unfold generated in Hh. rewrite list_lookup_imap in Hh.
    destruct (ps !! i); simplify_eq/=. split_and!; [done..|]. by apply go_copy_full.
Qed.

(** C36.  [generate] with no key, or with more than twenty, ends in a panic: an
    empty route in the first case, an index out of the range of the path array
    in the second. *)
Theorem generate_bounds prog ps stdin :
  Forall on_curve ps → length ps = 0 ∨ NumMaxHops < length ps →
  main testNet3Params (prog :: string_bytes "generate" :: key_args ps) stdin = Panic.
Proof.
  intros Hps Hn. unfold main.
  assert (length (prog :: string_bytes "generate" :: key_args ps) ≠ 1) as Hne by (simpl; lia).
  rewrite decide_False by done. cbn [index lookup list_lookup mbind Outcome_bind].
  rewrite decide_True by done. unfold cmd_generate. cbn [drop]. rewrite drop_0.
  pose proof (generate_loop_spec ps [] zeroPaymentPath Hps) as E. cbn [app length] in E.
  assert (length zeroPaymentPath = NumMaxHops) as HN by apply length_replicate. rewrite HN in E.
  destruct Hn as [Hz|Hgt].
  - destruct ps; [|done]. reflexivity.
  - rewrite E, decide_False by lia. reflexivity.
Qed.

End cmd_facts.
