(* ===== verification/Instances.v ===== *)
(** * Concrete instances of the libraries and of the log's contract

    The theorems are proved for every [Btcec] and [Chacha20] that satisfy
    their laws.  This file shows that the laws can be satisfied: by the
    ChaCha20 stream cipher with a 64-bit nonce, and by secp256k1's equation
    [y^2 = x^3 + 7] taken over the field of 43 elements, whose 31 points form
    a group of prime order small enough for the kernel to enumerate.  The
    witnesses of the theorems are evaluated on these instances.  The contract
    of replay logs, which [MemoryReplayLog] meets, is met also by a log that
    follows the documentation where [MemoryReplayLog] does not. *)

From Stdlib Require Import ZArith Znumtheory.
From S2P Require Import Prelude GoBytes Errors Sha256 Btcec ReplaySet Batch ReplayLog.

(** ** ChaCha20 *)

Module ChaCha20.

Local Open Scope N_scope.

Definition rotl (n x : N) : N := Sha256.rotr (32 - n) x.

Definition quarter (a b c d : N) : N * N * N * N :=
  let a := Sha256.add32 a b in let d := rotl 16 (N.lxor d a) in
  let c := Sha256.add32 c d in let b := rotl 12 (N.lxor b c) in
  let a := Sha256.add32 a b in let d := rotl 8 (N.lxor d a) in
  let c := Sha256.add32 c d in let b := rotl 7 (N.lxor b c) in
  (a, b, c, d).

(** A column round followed by a diagonal round. *)
Definition double_round (s : list N) : list N :=
  match s with
  | [w0; w1; w2; w3; w4; w5; w6; w7; w8; w9; w10; w11; w12; w13; w14; w15] =>
      let '(w0, w4, w8, w12) := quarter w0 w4 w8 w12 in
      let '(w1, w5, w9, w13) := quarter w1 w5 w9 w13 in
      let '(w2, w6, w10, w14) := quarter w2 w6 w10 w14 in
      let '(w3, w7, w11, w15) := quarter w3 w7 w11 w15 in
      let '(w0, w5, w10, w15) := quarter w0 w5 w10 w15 in
      let '(w1, w6, w11, w12) := quarter w1 w6 w11 w12 in
      let '(w2, w7, w8, w13) := quarter w2 w7 w8 w13 in
      let '(w3, w4, w9, w14) := quarter w3 w4 w9 w14 in
      [w0; w1; w2; w3; w4; w5; w6; w7; w8; w9; w10; w11; w12; w13; w14; w15]
  | _ => s
  end.

Fixpoint rounds (n : nat) (s : list N) : list N :=
  match n with O => s | S n => rounds n (double_round s) end.

Fixpoint le_words (n : nat) (l : list byte) : list N :=
  match n with O => [] | S n => be_value (rev (take 4 l)) :: le_words n (drop 4 l) end.
Definition le_bytes (w : N) : list byte := rev (be_bytes 4 w).

Definition block (key nonce : list byte) (ctr : N) : list byte :=
  let s := [0x61707865; 0x3320646e; 0x79622d32; 0x6b206574]
           ++ le_words 8 key
           ++ [N.land ctr Sha256.mask32; N.land (N.shiftr ctr 32) Sha256.mask32]
           ++ le_words 2 nonce in
  concat (zip_with (λ a b, le_bytes (Sha256.add32 a b)) s (rounds 10 s)).

Fixpoint blocks (n : nat) (key nonce : list byte) (ctr : N) : list byte :=
  match n with
  | O => []
  | S n => block key nonce ctr ++ blocks n key nonce (ctr + 1)
  end.

Definition keystream (key nonce : list byte) (n : nat) : list byte :=
  let s := blocks (S (n / 64)) key nonce 0 in take n (s ++ zeros (n - length s)).

End ChaCha20.

#[export] Instance chacha20_instance : Chacha20 := {|
  cipher := list byte * list byte;
  NewCipher nonce key :=
    if decide (length nonce = 8 ∧ length key = 32) then Some (nonce, key) else None;
  XORKeyStream c src := xor_bytes src (ChaCha20.keystream c.2 c.1 (length src))
|}.

Lemma length_keystream key nonce n : length (ChaCha20.keystream key nonce n) = n.
Proof. unfold ChaCha20.keystream. cbv zeta. len_simp. lia. Qed.

#[export] Instance chacha20_laws : Chacha20Laws.
Proof.
  split.
  - intros nonce key Hn Hk. simpl. rewrite decide_True by done. by eexists.
  - intros c src. simpl. rewrite length_xor_bytes, length_keystream. lia.
Qed.

(** ** The curve [y^2 = x^3 + 7] over the field of 43 elements *)

Module Curve43.

Local Open Scope N_scope.

Definition p : N := 43.
Definition order : N := 31.

Definition fadd (a b : N) : N := (a + b) mod p.
Definition fsub (a b : N) : N := (a + p - b) mod p.
Definition fmul (a b : N) : N := (a * b) mod p.
(** The inverse is the 41st power. *)
Definition finv (a : N) : N :=
  let a2 := fmul a a in let a4 := fmul a2 a2 in let a8 := fmul a4 a4 in
  let a16 := fmul a8 a8 in let a32 := fmul a16 a16 in fmul (fmul a32 a8) a.

Definition isOnCurve (x y : N) : bool :=
  (x <? p) && (y <? p) && (fmul y y =? fadd (fmul x (fmul x x)) 7).

(** The point at infinity is written [(0, 0)]. *)
Definition add (P Q : N * N) : N * N :=
  let '(x1, y1) := P in let '(x2, y2) := Q in
  if (x1 =? 0) && (y1 =? 0) then Q
  else if (x2 =? 0) && (y2 =? 0) then P
  else if (x1 =? x2) && (fadd y1 y2 =? 0) then (0, 0)
  else
    let l := if x1 =? x2 then fmul (fmul 3 (fmul x1 x1)) (finv (fadd y1 y1))
             else fmul (fsub y2 y1) (finv (fsub x2 x1)) in
    let x3 := fsub (fsub (fmul l l) x1) x2 in
    (x3, fsub (fmul l (fsub x1 x3)) y1).

Fixpoint mult (n : nat) (P : N * N) : N * N :=
  match n with O => (0, 0) | S n => add P (mult n P) end.

Definition gen : N * N := (2, 12).

Definition scalarMult (x y : N) (k : list byte) : N * N :=
  mult (N.to_nat (be_value k mod order)) (x, y).

Definition compress (x y : N) : list byte :=
  (if N.odd y then x03 else x02) :: be_bytes 32 x.

Definition candidates : list N := N.of_nat <$> seq 0 43.

Definition decompress (b : list byte) : option (N * N) :=
  match b with
  | [] => None
  | f :: xs =>
      let x := be_value xs in
      if decide (f = x02 ∨ f = x03) then
        y ← find (λ y, isOnCurve x y && Bool.eqb (N.odd y) (bool_decide (f = x03))) candidates;
        Some (x, y)
      else None
  end.

(** The multiples of a point, computed incrementally. *)
Fixpoint multiples (n : nat) (P Q : N * N) : list (N * N) :=
  match n with O => [] | S n => Q :: multiples n P (add P Q) end.

Definition table : list (N * N) := Eval vm_compute in multiples 31 gen (0, 0).
Definition T (j : N) : N * N := nth (N.to_nat (j mod order)) table (0, 0).

End Curve43.

#[export] Instance btcec43 : Btcec := {|
  ScalarMult := Curve43.scalarMult;
  ScalarBaseMult k := Curve43.scalarMult 2 12 k;
  IsOnCurve := Curve43.isOnCurve;
  Params_P := Curve43.p;
  Params_N := Curve43.order;
  Params_Gx := 2;
  Params_Gy := 12;
  serializeCompressed := Curve43.compress;
  parsePubKey := Curve43.decompress;
  PrivKeyFromBytes b :=
    let '(x, y) := Curve43.scalarMult 2 12 b in
    mkPrivateKey (mkPublicKey (Some S256) (Some x) (Some y)) (be_value b);
  privKeySerialize k := be_bytes 32 (priv_D k)
|}.

Section curve43.
Import Curve43.

(** The multiples of [T j] are the [T (j * k)]. *)
Lemma multiples_table :
  forallb (λ j, bool_decide (multiples 31 (T j) (0, 0)%N =
    (λ k, T (j * k)) <$> (N.of_nat <$> seq 0 31))) (N.of_nat <$> seq 0 31) = true.
Proof. vm_compute. reflexivity. Qed.

(** The points of the curve are the [T j] with [j] from 1 to 30. *)
Lemma points_table :
  forallb (λ x, forallb (λ y,
    implb (isOnCurve x y)
      (existsb (λ j, bool_decide ((x, y) = T j)) (N.of_nat <$> seq 1 30)))
    candidates) candidates = true.
Proof. vm_compute. reflexivity. Qed.

Lemma table_on_curve :
  forallb (λ j, isOnCurve (T j).1 (T j).2) (N.of_nat <$> seq 1 30) = true.
Proof. vm_compute. reflexivity. Qed.

Lemma of_nat_seq j a b :
  (N.of_nat a ≤ j < N.of_nat (a + b))%N → In j (N.of_nat <$> seq a b).
Proof.
  intros Hj. apply in_map_iff. exists (N.to_nat j). split; [lia|]. apply in_seq. lia.
Qed.

Lemma of_nat_seq_inv j a b :
  In j (N.of_nat <$> seq a b) → (N.of_nat a ≤ j < N.of_nat (a + b))%N.
Proof. intros (n & <- & Hn%in_seq)%in_map_iff. lia. Qed.

Lemma multiples_lookup n P i k :
  k < n → multiples n P (mult i P) !! k = Some (mult (k + i) P).
Proof.
  revert i k; induction n as [|n IH]; intros i k Hk; [lia|].
  destruct k as [|k]; simpl; [done|].
  change (add P (mult i P)) with (mult (S i) P). rewrite IH by lia.
  by rewrite Nat.add_succ_r.
Qed.

Lemma T_mod j : T (j mod order) = T j.
Proof. unfold T. by rewrite N.Div0.mod_mod. Qed.

Lemma mult_T j k :
  (j < 31)%N → (k < 31)%N → mult (N.to_nat k) (T j) = T (j * k).
Proof.
  intros Hj Hk. pose proof multiples_table as Ht. rewrite forallb_forall in Ht.
  specialize (Ht j (of_nat_seq j 0 31 ltac:(simpl; lia))).
  apply bool_decide_eq_true in Ht.
  assert (N.to_nat k < 31)%nat as Hk' by lia.
  pose proof (multiples_lookup 31 (T j) 0 (N.to_nat k) Hk') as Hl.
  simpl mult in Hl at 1. rewrite Ht, Nat.add_0_r in Hl.
  rewrite !list_lookup_fmap, lookup_seq_lt in Hl by lia.
  simpl in Hl. rewrite N2Nat.id in Hl. congruence.
Qed.

Lemma on_curve_T x y :
  isOnCurve x y = true → ∃ j, (1 ≤ j < 31)%N ∧ (x, y) = T j.
Proof.
  intros Hc. pose proof Hc as Hb. unfold isOnCurve in Hb.
  rewrite !andb_true_iff, !N.ltb_lt in Hb. unfold p in Hb.
  pose proof points_table as Ht. rewrite forallb_forall in Ht.
  specialize (Ht x (of_nat_seq x 0 43 ltac:(simpl; lia))). rewrite forallb_forall in Ht.
  specialize (Ht y (of_nat_seq y 0 43 ltac:(simpl; lia))). rewrite Hc in Ht. cbn [implb] in Ht.
  apply existsb_exists in Ht as (j & Hj%of_nat_seq_inv & He%bool_decide_eq_true).
  exists j. split; [simpl in Hj; lia|done].
Qed.

Lemma T_on_curve j :
  (j mod order ≠ 0)%N → isOnCurve (T j).1 (T j).2 = true.
Proof.
  intros Hj. rewrite <-T_mod. pose proof table_on_curve as Ht. rewrite forallb_forall in Ht.
  apply Ht, of_nat_seq. pose proof (N.mod_lt j order ltac:(done)) as Hlt. revert Hj Hlt.
  unfold order. generalize (j mod 31)%N. intros m ? ?. change (N.of_nat (1 + 30)) with 31%N. lia.
Qed.

(** Multiplying a point whose logarithm is [j]. *)
Lemma scalarMult_T j x y k :
  (j < 31)%N → (x, y) = T j → scalarMult x y k = T (j * be_value k).
Proof.
  intros Hj He. unfold scalarMult. rewrite He.
  pose proof (N.mod_lt (be_value k) order ltac:(done)). unfold order in *.
  rewrite mult_T by lia. rewrite <-(T_mod (j * be_value k)), <-(T_mod (j * _)).
  unfold order. f_equal. by rewrite N.Div0.mul_mod_idemp_r.
Qed.

Lemma T_nonzero_product j k :
  (1 ≤ j < 31)%N → (k mod order ≠ 0)%N → ((j * k) mod order ≠ 0)%N.
Proof.
  intros Hj Hk. unfold order in *. rewrite <-N.Div0.mul_mod_idemp_r.
  pose proof (N.mod_lt k 31 ltac:(done)) as Hlt. revert Hlt Hk. generalize (k mod 31)%N as m.
  assert (forallb (λ j, forallb (λ m, negb ((j * m) mod 31 =? 0)%N) (N.of_nat <$> seq 1 30))
    (N.of_nat <$> seq 1 30) = true) as Ht by (vm_compute; reflexivity).
  rewrite forallb_forall in Ht.
  specialize (Ht j (of_nat_seq j 1 30 ltac:(simpl; lia))). rewrite forallb_forall in Ht.
  intros m Hm Hm0. specialize (Ht m (of_nat_seq m 1 30 ltac:(simpl; lia))).
  rewrite negb_true_iff, N.eqb_neq in Ht. done.
Qed.

Lemma compress_parse :
  forallb (λ j, bool_decide (decompress (compress (T j).1 (T j).2) = Some (T j)))
    (N.of_nat <$> seq 1 30) = true.
Proof. vm_compute. reflexivity. Qed.

Lemma order_31_prime : Z.prime 31.
Proof.
  apply prime_alt. destruct (prime_dec 31) as [Hp|Hp]; [done|].
  exfalso. apply not_prime_divide in Hp as (n & Hn & q & Hq); [|lia].
  assert (n = 2 ∨ n = 3 ∨ n = 4 ∨ n = 5 ∨ (6 ≤ n ∧ q < 6))%Z as Hcases by nia.
  assert (0 < q)%Z by nia.
  destruct Hcases as [->|[->|[->|[->|[? ?]]]]]; try lia.
  assert (q = 1 ∨ q = 2 ∨ q = 3 ∨ q = 4 ∨ q = 5)%Z as [->|[->|[->|[->| ->]]]] by lia; lia.
Qed.

Lemma isOnCurve_reduced x y : isOnCurve x y = true → (x < p ∧ y < p)%N.
Proof. unfold isOnCurve. rewrite !andb_true_iff, !N.ltb_lt. naive_solver. Qed.

Lemma decompress_sound b x y :
  length b = 33 → decompress b = Some (x, y) →
  isOnCurve x y = true ∧ compress x y = b.
Proof.
  intros Hl Hd. destruct b as [|f xs]; [discriminate|]. unfold decompress in Hd.
  case_decide as Hf; [|discriminate].
  destruct (find _ candidates) as [y'|] eqn:E; [|discriminate]. simpl in Hd. simplify_eq.
  apply find_some in E as [_ [Hc Ho]%andb_true_iff]. split; [done|].
  apply Bool.eqb_prop in Ho. unfold compress. f_equal.
  - rewrite Ho. destruct Hf as [->| ->]; reflexivity.
  - simpl in Hl. injection Hl as Hl. rewrite <-Hl. apply be_bytes_value.
Qed.

End curve43.

#[export] Instance btcec43_laws : BtcecLaws.
Proof.
  assert (∀ x y, Curve43.isOnCurve x y = true → valid_point x y) as Hvalid.
  { intros x y Hc. split; [done|]. by apply isOnCurve_reduced. }
  split.
  - apply order_31_prime.
  - by apply Hvalid.
  - reflexivity.
  - intros x y k x' y' (j & Hj & He)%on_curve_T Hk Hm.
    apply Hvalid. simpl in Hm, Hk |- *. rewrite (scalarMult_T j x y k) in Hm by (done || lia).
    change x' with (x', y').1. change y' with (x', y').2 at 2. rewrite <-Hm.
    by apply T_on_curve, T_nonzero_product.
  - intros x y a b c x' y' (j & Hj & He)%on_curve_T Ha Hc Hm. simpl in *.
    rewrite (scalarMult_T j x y a) in Hm by (done || lia).
    rewrite (scalarMult_T j x y c) by (done || lia).
    rewrite (scalarMult_T ((j * be_value a) mod Curve43.order) x' y' b).
    + rewrite <-(T_mod (_ * be_value b)), <-(T_mod (j * be_value c)). f_equal.
      rewrite N.Div0.mul_mod_idemp_l, <-N.mul_assoc.
      rewrite <-(N.Div0.mul_mod_idemp_r j (be_value c)), Hc.
      by rewrite N.Div0.mul_mod_idemp_r.
    + apply N.mod_lt. done.
    + by rewrite T_mod.
  - intros x y _. simpl. unfold Curve43.compress. simpl. by rewrite length_be_bytes.
  - intros x y [(j & Hj & He)%on_curve_T _]. simpl. pose proof compress_parse as Ht.
    rewrite forallb_forall in Ht.
    specialize (Ht j (of_nat_seq j 1 30 ltac:(simpl; lia))).
    apply bool_decide_eq_true in Ht. rewrite <-He in Ht. done.
  - intros b x y Hl [Hc Hs]%decompress_sound; [|done]. by split; [apply Hvalid|].
  - intros b. simpl. unfold base_key. simpl. by destruct (Curve43.scalarMult 2 12 b).
  - done.
Qed.

(** ** A log on a disk

    An implementation of the interface after its documentation, unlike
    [MemoryReplayLog] in all that the contract leaves open: it refuses to be
    started twice, has its contents back when it is started again, and fails
    when there is no room left for a write. *)

Module StoredLog.

Record t := mk { is_open : bool; stored : LogState; room : nat }.

Definition errDiskFull : error := ErrForeign 1.

Definition state (l : t) : option LogState := if is_open l then Some (stored l) else None.

Definition Start (l : t) : t * Outcome error unit :=
  if is_open l then (l, Err errReplayLogAlreadyStarted)
  else (mk true (stored l) (room l), Ok tt).

Definition Stop (l : t) : t * Outcome error unit :=
  if is_open l then (mk false (stored l) (room l), Ok tt) else (l, Err errReplayLogNotStarted).

(** The log after a write that gave [s]. *)
Definition written (s : option LogState) (l : t) : t :=
  mk (is_open l) (default (stored l) s) (room l - 1).

(** A write fails if the log is open and the disk is full. *)
Definition full (l : t) : bool := is_open l && (room l =? 0).

Definition Put h c (l : t) : t * Outcome error unit :=
  if full l then (l, Err errDiskFull)
  else let '(s, o) := spec_Put h c (state l) in (written s l, o).

Definition Delete h (l : t) : t * Outcome error unit :=
  if full l then (l, Err errDiskFull)
  else let '(s, o) := spec_Delete h (state l) in (written s l, o).

Definition PutBatch (b : Batch) (l : t) : t * Batch * Outcome error ReplaySet :=
  if full l then (l, b, Err errDiskFull)
  else let '(s, b, o) := spec_PutBatch b (state l) in (written s l, b, o).

End StoredLog.

#[export] Instance StoredLog_ReplayLog : ReplayLog StoredLog.t := {|
  rl_Start := StoredLog.Start;
  rl_Stop := StoredLog.Stop;
  rl_Get h l := spec_Get h (StoredLog.state l);
  rl_Put := StoredLog.Put;
  rl_Delete := StoredLog.Delete;
  rl_PutBatch := StoredLog.PutBatch
|}.

(** An operation on the state of an open log stays one. *)
Lemma StoredLog_written s l :
  (is_Some s ↔ StoredLog.is_open l = true) → StoredLog.state (StoredLog.written s l) = s.
Proof.
  unfold StoredLog.state, StoredLog.written; simpl.
  destruct (StoredLog.is_open l), s; try done; intros Hs.
  - by destruct (proj2 Hs eq_refl).
  - discriminate (proj1 Hs (ex_intro _ _ eq_refl)).
Qed.

(** A failed write. *)
Lemma StoredLog_full {T B} l (before : T) want :
  StoredLog.full l = true →
  allowed (StoredLog.state l) before (before, Err StoredLog.errDiskFull) want
    (B := B).
Proof.
  unfold StoredLog.full, StoredLog.state. intros [-> _]%andb_true_iff.
  change (is_Some (Some (StoredLog.stored l)) ∧ before = before). by split; [eexists|].
Qed.

#[export] Program Instance StoredLog_laws : ReplayLogLaws StoredLog.t := {|
  log_state := StoredLog.state
|}.
Next Obligation. intros [[] s n]; simpl; [done|]. by eexists. Qed.
Next Obligation. by intros [[] s n]. Qed.
Next Obligation. by intros [[] s n]. Qed.
Next Obligation. intros h l. apply allowed_exact; [done|apply spec_Get_fault]. Qed.
Next Obligation.
  intros h c l. cbn [rl_Put StoredLog_ReplayLog]. unfold StoredLog.Put.
  destruct (StoredLog.full l) eqn:Hf; [by apply StoredLog_full|].
  apply allowed_exact; [|apply spec_Put_fault].
  destruct (spec_Put _ _ _) as [s o] eqn:E. simpl. f_equal. apply StoredLog_written.
  unfold spec_Put, StoredLog.state in E. destruct (StoredLog.is_open l); [|simplify_eq; by split; [intros [? ?]|]].
  destruct (ls_entries _ !! h); simplify_eq; split; eauto.
Qed.
Next Obligation.
  intros h l. cbn [rl_Delete StoredLog_ReplayLog]. unfold StoredLog.Delete.
  destruct (StoredLog.full l) eqn:Hf; [by apply StoredLog_full|].
  apply allowed_exact; [|apply spec_Delete_fault].
  destruct (spec_Delete _ _) as [s o] eqn:E. simpl. f_equal. apply StoredLog_written.
  unfold spec_Delete, StoredLog.state in E. destruct (StoredLog.is_open l);
    simplify_eq; [split; eauto|by split; [intros [? ?]|]].
Qed.
Next Obligation.
  intros b l Hb. cbn [rl_PutBatch StoredLog_ReplayLog]. unfold StoredLog.PutBatch.
  destruct (StoredLog.full l) eqn:Hf; [by apply StoredLog_full|].
  apply allowed_exact; [|apply spec_PutBatch_fault].
  destruct (spec_PutBatch _ _) as [[s b'] o] eqn:E. simpl. do 2 f_equal. apply StoredLog_written.
  unfold spec_PutBatch, StoredLog.state in E. destruct (StoredLog.is_open l); [|simplify_eq; by split; [intros [? ?]|]].
  destruct (ls_batches _ !! ID b); simplify_eq; split; eauto.
Qed.
