(* ===== verification/Witnesses.v ===== *)
(** * The theorems at work

    Each theorem that has hypotheses is applied here at concrete inputs, on
    the instances of [Instances]: a route of three nodes with the private keys
    5, 7 and 11, a session with private key 9, a router with a running memory
    log. *)

From S2P Require Import Prelude GoBytes Errors GoIO Sha256 Constants Btcec Crypto Packet Codec.
From S2P Require Import Path SharedSecrets Onion Layers Peel Sphinx ReplaySet Batch ReplayLog.
From S2P Require Import Router Wire Txn AtMostOnce Obfuscation Circuit Cmd Instances.

(** ** The setting *)

(** [btcutil], with a digest of the right size. *)
#[export] Instance btcutil_instance : Btcutil := {|
  Net := unit;
  Address := list byte;
  Hash160 b := take 20 (sha256 b);
  NewAddressPubKeyHash pkh _ := if decide (length pkh = 20) then Some pkh else None
|}.

#[export] Instance btcutil_laws : BtcutilLaws.
Proof.
  split.
  - intros b. simpl. by rewrite length_take, length_sha256.
  - intros pkh net. simpl. case_decide; split; (done || by eexists || by intros []).
Qed.

Definition key (d : N) : PrivateKey := mkPrivateKey (base_key (big_bytes d)) d.

Lemma key_wf d : (d < 31)%N → d ≠ 0%N → wf_priv (key d).
Proof.
  intros Hd H0. split; [|done]. cbn [priv_D key Params_N btcec43]. split.
  - unfold Curve43.order. by rewrite N.mod_small.
  - eapply N.lt_trans; [exact Hd|]. done.
Qed.

Definition session : PrivateKey := key 9.
Definition nodes : list PrivateKey := [key 5; key 7; key 11].

Lemma session_wf : wf_priv session.
Proof. by apply key_wf. Qed.
Lemma nodes_wf : Forall wf_priv nodes.
Proof. repeat constructor; by apply key_wf. Qed.

Lemma nodes_blinding : blinding_ok (priv_D session) ((point_of ∘ priv_PubKey) <$> nodes).
Proof. apply (bool_decide_unpack _). vm_compute. exact I. Qed.

(** The path to these nodes, with the payloads of [generate]. *)
Definition node_points : list (N * N) := (point_of ∘ priv_PubKey) <$> nodes.
Definition path : PaymentPath :=
  generated 0 node_points ++ drop (length node_points) zeroPaymentPath.

Lemma path_wf : wf_PaymentPath path ∧ route path = generated 0 node_points.
Proof. apply (generated_path node_points). unfold NumMaxHops, node_points. simpl. lia. Qed.

Lemma path_keys :
  (point_of ∘ NodePub) <$> route path = (point_of ∘ priv_PubKey) <$> nodes.
Proof. rewrite (proj2 path_wf). apply generated_points. Qed.

(** ** Packets through a route *)

Lemma sphinx_route_correct_witness :
  ∃ path' pkt pps, NewOnionPacket path session assocData = Ok (path', pkt) ∧
    relay assocData nodes pkt = Ok pps ∧ length pps = 3.
Proof.
  destruct (sphinx_route_correct path session assocData nodes (proj1 path_wf) session_wf
    nodes_wf ltac:(done) path_keys nodes_blinding) as (path' & pkt & pps & Hn & Hr & Hl & _).
  exists path', pkt, pps. split_and!; [exact Hn|exact Hr|exact Hl].
Defined.

Lemma NewOnionPacket_shape_witness :
  ∃ path' pkt, NewOnionPacket path session assocData = Ok (path', pkt) ∧ wf_OnionPacket pkt ∧
    length path' = 20.
Proof.
  destruct (NewOnionPacket_shape path session assocData (proj1 path_wf) session_wf)
    as (path' & pkt & Hn & Hw & _ & Hl & _).
  { rewrite <-length_route, (proj2 path_wf). vm_compute. lia. }
  exists path', pkt. split_and!; [exact Hn|exact Hw|]. rewrite Hl. apply path_wf.
Defined.

Lemma NewOnionPacket_empty_path_witness :
  NewOnionPacket zeroPaymentPath session [] = Panic.
Proof.
  apply (NewOnionPacket_empty_path zeroPaymentPath); [|reflexivity].
  split; [reflexivity|]. apply Forall_replicate, zeroHopData_wf.
Defined.

Lemma NodeKeys_route_witness :
  ∃ keys, NodeKeys path = Ok (Some <$> keys) ∧ length keys = TrueRouteLength path.
Proof.
  destruct (NodeKeys_route path (proj1 path_wf)) as (keys & Hk & Hl & _).
  exists keys. split; [exact Hk|exact Hl].
Defined.

Lemma shared_secrets_agree_witness :
  ∃ secrets, generateSharedSecrets (Some <$> (priv_PubKey <$> nodes)) session = Ok secrets ∧
    hop_secrets nodes (priv_PubKey session) = Ok secrets ∧ length secrets = 3.
Proof.
  destruct (shared_secrets_agree nodes session nodes_wf session_wf ltac:(done) nodes_blinding)
    as (secrets & H1 & H2 & H3 & _).
  exists secrets. split_and!; [exact H1|exact H2|exact H3].
Defined.

(** ** The wire format *)

Definition payload0 : HopData := hop_HopData (generated_hop 3 (priv_PubKey (key 5))).

Lemma payload0_wf : wf_HopData payload0.
Proof. apply generated_hop_wf. unfold NumMaxHops. lia. Qed.

Lemma HopData_codec_witness :
  ∃ bytes, HopData_Encode payload0 ([] : list byte) = (bytes, Ok tt) ∧ length bytes = 65.
Proof.
  destruct (HopData_codec payload0 zeroHopData (bytes_reader []) zeroHopData_wf) as [Hc _].
  destruct (Hc payload0_wf) as (bytes & He & Hl & _).
  exists bytes. split; [exact He|exact Hl].
Defined.

(** Nine bytes end between two fields, ten in the middle of one. *)
Lemma HopData_Decode_length_witness :
  (∃ r hd, HopData_Decode (bytes_reader (zeros 9)) zeroHopData = (r, hd, Err EOF)) ∧
  (∃ r hd, HopData_Decode (bytes_reader (zeros 10)) zeroHopData = (r, hd, Err ErrUnexpectedEOF)).
Proof.
  split.
  - exact (HopData_Decode_length zeroHopData (bytes_reader (zeros 9)) zeroHopData_wf eq_refl).
  - exact (HopData_Decode_length zeroHopData (bytes_reader (zeros 10)) zeroHopData_wf eq_refl).
Defined.

(** A packet for the first node: its MAC is right, its routing information
    is all zeros. *)
Definition secret0 : Hash256 :=
  sha256 (ser (smul (point_of (priv_PubKey session)) 5)).
Definition packet_with (k : PublicKey) (ss : Hash256) (assoc : list byte) : OnionPacket :=
  mkOnionPacket x00 (Some k) (zeros routingInfoSize)
    (calcMac (generateKey "mu" ss) (zeros routingInfoSize ++ assoc)).
Definition pkt0 : OnionPacket := packet_with (priv_PubKey session) secret0 assocData.

Lemma packet_with_mac k ss assoc :
  HeaderMAC (packet_with k ss assoc) = expected_mac ss (packet_with k ss assoc) assoc.
Proof. reflexivity. Qed.

Lemma pkt0_sized : sized_OnionPacket pkt0.
Proof. split; [apply length_zeros|apply length_calcMac]. Qed.

Lemma pkt0_wf : wf_OnionPacket pkt0.
Proof.
  split_and!; [done|apply pkt0_sized|].
  destruct (wf_priv_on_curve session session_wf) as (x & y & Hx & Hy & Hc). exists x, y.
  split; [|exact Hc]. change (EphemeralKey pkt0) with (Some (priv_PubKey session)).
  destruct (priv_PubKey session) as [c px py] eqn:E. cbn [pub_X pub_Y] in *. subst px py.
  assert (pub_Curve (priv_PubKey session) = Some S256) as Hcv by (vm_compute; reflexivity).
  rewrite E in Hcv. cbn [pub_Curve] in Hcv. by subst c.
Qed.

Lemma OnionPacket_roundtrip_witness :
  ∃ bytes r', OnionPacket_Encode pkt0 ([] : list byte) = (bytes, Ok tt) ∧ length bytes = 1366 ∧
    OnionPacket_Decode (bytes_reader (OnionPacket_bytes pkt0)) zeroOnionPacket = (r', pkt0, Ok tt).
Proof.
  destruct (OnionPacket_roundtrip pkt0 zeroOnionPacket (bytes_reader (OnionPacket_bytes pkt0)) []
    pkt0_wf zeroOnionPacket_sized) as (bytes & He & Hl & Hd).
  destruct Hd as (r' & Hd & _); [|exists bytes, r'; split_and!; [exact He|exact Hl|exact Hd]].
  rewrite (OnionPacket_Encode_buffer pkt0 [] pkt0_wf) in He.
  apply (f_equal fst) in He. cbn [fst app] in He.
  rewrite rd_content_bytes_reader, app_nil_r. exact He.
Defined.

Lemma OnionPacket_Decode_total_witness :
  ∃ r p, OnionPacket_Decode (bytes_reader [x01]) zeroOnionPacket = (r, p, Err ErrInvalidOnionVersion).
Proof.
  exact (OnionPacket_Decode_total zeroOnionPacket (bytes_reader [x01]) zeroOnionPacket_sized eq_refl).
Defined.

Lemma OnionPacket_Encode_limited_witness :
  OnionPacket_Encode pkt0 (mkLimited 100 [] EOF) =
  (mkLimited 0 (take 100 (OnionPacket_bytes pkt0)) EOF, Err EOF).
Proof. exact (OnionPacket_Encode_limited pkt0 100 EOF pkt0_wf). Defined.

Lemma relay_wire_equivalent_witness :
  ∃ bytes, OnionPacket_Encode pkt0 ([] : list byte) = (bytes, Ok tt) ∧ length bytes = 1366 ∧
    relay_wire assocData nodes bytes = relay assocData nodes pkt0.
Proof.
  exact (relay_wire_equivalent assocData nodes (priv_D session) pkt0 nodes_wf
    (wf_priv_mod session session_wf) nodes_blinding pkt0_wf
    (f_equal Some (wf_priv_point session session_wf))).
Defined.

(** ** The router *)

Definition router5 : Router (list byte) MemoryReplayLog.t :=
  mkRouter (zeros AddressSize) None (key 5) (MemoryReplayLog.mk (Some ∅) (Some ∅)).

Lemma router5_log : log_state (log router5) = Some (mkLogState ∅ ∅).
Proof. reflexivity. Qed.

(** The same node with a log on a disk that has room for one more write. *)
Definition router5_disk : Router (list byte) StoredLog.t :=
  mkRouter (zeros AddressSize) None (key 5) (StoredLog.mk true (mkLogState ∅ ∅) 1).

Lemma pkt0_key : ∃ x y,
  EphemeralKey pkt0 = Some (mkPublicKey (Some S256) (Some x) (Some y)) ∧ IsOnCurve x y = true.
Proof.
  destruct pkt0_wf as (_ & _ & x & y & Hk & Hc & _). exists x, y. split; [exact Hk|exact Hc].
Qed.

Lemma pkt0_secret : packet_secret router5 pkt0 = Ok secret0.
Proof.
  unfold packet_secret. change (EphemeralKey pkt0) with (Some (priv_PubKey session)).
  cbn [deref mbind Outcome_bind]. change (onionKey router5) with (key 5).
  rewrite (wf_priv_point session session_wf).
  rewrite (receiver_secret (key 5) (priv_D session) (key_wf 5 eq_refl ltac:(done))
    (wf_priv_mod session session_wf)).
  unfold secret0, secret_at. do 3 f_equal.
Qed.

Lemma processed_valid `{BtcecLaws} `{Chacha20Laws} {A L} `{ReplayLogLaws L} pkt assoc
    (r : Router A L) ss c x y :
  sized_OnionPacket pkt → EphemeralKey pkt = Some (mkPublicKey c (Some x) (Some y)) →
  packet_secret r pkt = Ok ss → HeaderMAC pkt = expected_mac ss pkt assoc →
  ∃ pp, processOnionPacket pkt ss assoc = Ok pp.
Proof.
  intros Hsz Hk Hs Hm.
  destruct (reconstruct_cases pkt assoc r ss c x y Hsz Hk Hs)
    as [[Hne _]|(_ & inner & hd & Hr & _)]; [done|].
  unfold ReconstructOnionPacket in Hr. rewrite Hs in Hr. eexists. exact Hr.
Qed.

Lemma pkt0_processed : ∃ pp, processOnionPacket pkt0 secret0 assocData = Ok pp.
Proof.
  destruct pkt0_key as (x & y & Hk & _).
  exact (processed_valid pkt0 assocData router5 secret0 _ x y pkt0_sized Hk pkt0_secret
    (packet_with_mac _ _ _)).
Qed.

Lemma pkt0_accepted : ∃ r1 pp,
  Router_ProcessOnionPacket pkt0 assocData 10 router5 = (r1, Ok pp).
Proof.
  destruct pkt0_processed as [pp Hpp]. unfold Router_ProcessOnionPacket.
  rewrite pkt0_secret, Hpp. unfold rl_Put, MemoryReplayLog_ReplayLog, MemoryReplayLog.Put.
  cbn [router5 log MemoryReplayLog.entries MemoryReplayLog.batches]. rewrite lookup_empty.
  do 2 eexists. reflexivity.
Qed.

Lemma pkt0_accepted_disk : ∃ r1 pp,
  Router_ProcessOnionPacket pkt0 assocData 10 router5_disk = (r1, Ok pp).
Proof.
  destruct pkt0_processed as [pp Hpp]. unfold Router_ProcessOnionPacket.
  assert (packet_secret router5_disk pkt0 = Ok secret0) as -> by exact pkt0_secret.
  rewrite Hpp. unfold rl_Put, StoredLog_ReplayLog, StoredLog.Put, StoredLog.full, StoredLog.state.
  cbn [router5_disk log StoredLog.is_open StoredLog.room StoredLog.stored andb Nat.eqb
    spec_Put ls_entries].
  rewrite lookup_empty. do 2 eexists. reflexivity.
Qed.

Lemma process_total_witness :
  ∃ r1 out, Router_ProcessOnionPacket pkt0 assocData 10 router5 = (r1, out) ∧ out ≠ Panic.
Proof.
  destruct pkt0_key as (x & y & Hk & Hc).
  destruct (process_total pkt0 assocData 10 router5 pkt0_sized) as (r1 & out & Hp & Hout).
  exists r1, out. split; [exact Hp|]. rewrite Hk in Hout. destruct Hout as (ss & _ & Hout).
  destruct (verdict _ _ _ _ _ _ _); [by destruct Hout as [-> _]|].
  by destruct Hout as (? & ? & ? & _ & _ & -> & _).
Defined.

(** The memory log reports the replay; the disk log, whose disk is full by
    then, refuses it too. *)
Lemma replay_rejected_witness :
  (∃ r1 pp r2, Router_ProcessOnionPacket pkt0 assocData 10 router5 = (r1, Ok pp) ∧
     Router_ProcessOnionPacket pkt0 assocData 20
       (process_all [(zeroOnionPacket, [], 0%N); (pkt0, [], 5%N)] r1) = (r2, Err ErrReplayedPacket)) ∧
  (∃ r1 pp r2 e, Router_ProcessOnionPacket pkt0 assocData 10 router5_disk = (r1, Ok pp) ∧
     Router_ProcessOnionPacket pkt0 assocData 20 r1 = (r2, Err e) ∧
     (e = ErrReplayedPacket ∨ log_failure e)).
Proof.
  split.
  - destruct pkt0_accepted as (r1 & pp & Hp).
    destruct (replay_rejected pkt0 assocData 10 router5 r1 pp
      [(zeroOnionPacket, [], 0%N); (pkt0, [], 5%N)] pkt0 assocData 20 Hp eq_refl)
      as [_ (r2 & e & Hr & _ & He & _)].
    exists r1, pp, r2. split; [exact Hp|].
    rewrite (He MemoryReplayLog_reliable) in Hr. exact Hr.
  - destruct pkt0_accepted_disk as (r1 & pp & Hp).
    destruct (replay_rejected pkt0 assocData 10 router5_disk r1 pp [] pkt0 assocData 20 Hp eq_refl)
      as [_ (r2 & e & Hr & He & _)].
    exists r1, pp, r2, e. split_and!; [exact Hp|exact Hr|exact He].
Defined.

Lemma restart_accepts_again_witness :
  ∃ r1 pp r2 r3, Router_ProcessOnionPacket pkt0 assocData 10 router5 = (r1, Ok pp) ∧
    Router_Start r1 = (r2, Ok tt) ∧
    Router_ProcessOnionPacket pkt0 assocData 20 r2 = (r3, Ok pp).
Proof.
  destruct pkt0_accepted as (r1 & pp & Hp).
  destruct (restart_accepts_again pkt0 assocData 10 20 router5 r1 pp Hp) as (r2 & r3 & Hs & Hr).
  exists r1, pp, r2, r3. split_and!; [exact Hp|exact Hs|exact Hr].
Defined.

Lemma reconstruct_agrees_witness :
  ∃ pp, ReconstructOnionPacket pkt0 assocData router5 = Ok pp.
Proof.
  destruct pkt0_accepted as (r1 & pp & Hp). exists pp.
  exact (proj2 (reconstruct_agrees pkt0 assocData 10 router5 r1 pp router5 Hp eq_refl)).
Defined.

Lemma NewRouter_no_address_witness :
  ∃ id, NewRouter (key 5) tt MemoryReplayLog.NewMemoryReplayLog =
    Ok (mkRouter id None (key 5) MemoryReplayLog.NewMemoryReplayLog) ∧ length id = AddressSize.
Proof. exact (NewRouter_no_address (key 5) tt _ (key_wf 5 eq_refl ltac:(done))). Defined.

(** ** Transactions *)

(** The packet and, under the next sequence number, its replay. *)
Definition item0 : Item := mkItem 0 pkt0 assocData 10.
Definition item1 : Item := mkItem 1 pkt0 assocData 11.
Definition tx_id : list byte := [x01; x02].
Definition tx2 : Tx := mkTx (NewBatch tx_id) (replicate 2 zeroProcessedPacket).

Lemma transaction_equivalent_witness :
  let '(t1, outs) := run_tx [item0; item1] router5 tx2 in
  let '(r1, outs1) := run_router [item0; item1] router5 in
  ∃ r2 t2 rs, Commit router5 t1 = (r2, t2, (packets t1, Ok rs)) ∧
    outs1 = zip_with (resolve (replays rs) (packets t1)) [item0; item1] outs ∧
    ls_entries <$> log_state (log r2) = ls_entries <$> log_state (log r1).
Proof.
  assert (NoDup (it_seq <$> [item0; item1])) as Hnd by (repeat constructor; set_solver).
  assert (Forall (λ i, Z.of_N (it_seq i) < 2)%Z [item0; item1]) as Hlt by repeat constructor.
  pose proof (transaction_equivalent [item0; item1] tx_id 2 tx2 router5 (mkLogState ∅ ∅)
    router5_log eq_refl eq_refl Hnd Hlt) as E.
  exact E.
Defined.

Lemma Commit_idempotent_witness :
  ∃ r1 t1 rs, Commit router5 tx2 = (r1, t1, (packets tx2, Ok rs)) ∧
    Commit router5 t1 = (router5, t1, (packets tx2, Ok rs)) ∧
    (Tx_ProcessOnionPacket 0 pkt0 assocData 10 router5 t1).2 = Err ErrAlreadyCommitted ∧
    ∃ r2 t2, Commit r1 tx2 = (r2, t2, (packets tx2, Ok rs)).
Proof.
  destruct pkt0_processed as [pp Hpp].
  destruct (Commit router5 tx2) as [[r1 t1] [pkts [rs| |]]] eqn:Hc; [|discriminate Hc..].
  assert (pkts = packets tx2) as -> by (injection Hc; done).
  destruct (Commit_idempotent router5 tx2 r1 t1 (packets tx2) rs (NewBatch_wf _) eq_refl Hc)
    as (Ha & Hb & Hd).
  exists r1, t1, rs. split_and!; [reflexivity|exact (Ha router5)| |].
  - rewrite Hb. unfold ReconstructOnionPacket. rewrite pkt0_secret. cbn [mbind Outcome_bind snd].
    rewrite Hpp. reflexivity.
  - destruct (Hd tx2 (NewBatch_wf _) eq_refl eq_refl) as (r2 & t2 & out & Hc2 & _ & Ho).
    exists r2, t2. rewrite Hc2. do 2 f_equal. rewrite Ho.
    pose proof (PutBatch_reliable (tx_batch tx2) (log r1) (NewBatch_wf _)) as Hrel.
    unfold Commit in Hc2. change (IsCommitted (tx_batch tx2)) with false in Hc2. cbn iota in Hc2.
    destruct (rl_PutBatch (tx_batch tx2) (log r1)) as [[l b] o]. cbn [snd] in Hrel.
    assert (out = o) as -> by congruence. rewrite Hrel. reflexivity.
Defined.

Lemma Tx_bounds_witness :
  (Tx_ProcessOnionPacket 2 pkt0 assocData 10 router5 tx2).2 = Panic.
Proof.
  destruct pkt0_key as (x & y & Hk & Hc).
  pose proof (Tx_bounds 2 pkt0 assocData 10 router5 tx2 _ x y pkt0_sized Hk) as Hb.
  destruct (Tx_ProcessOnionPacket _ _ _ _ _ _) as [t1 out]. destruct Hb as [[_ Hb] _].
  apply Hb. split; [reflexivity|]. split; [simpl; lia|]. split; [exact Hc|].
  exists secret0. split; [exact pkt0_secret|exact (packet_with_mac _ _ _)].
Defined.

Lemma at_most_once_witness :
  ∃ st, rtc step (init router5 (mkLogState ∅ ∅)) st ∧
    st_accepted st = [hashSharedSecret secret0] ∧ NoDup (st_accepted st).
Proof.
  destruct pkt0_accepted as (r1 & pp & Hp).
  pose proof (rtc_once _ _ (step_accept (init router5 (mkLogState ∅ ∅)) pkt0 assocData 10
    secret0 r1 pp pkt0_secret Hp)) as Hs.
  eexists. split_and!; [exact Hs|reflexivity|].
  exact (proj1 (at_most_once router5 _ _ router5_log Hs)).
Defined.

(** ** Replay sets, batches and logs *)

Definition set2 : ReplaySet := mkReplaySet {[7; 65535]}%N.

Lemma ReplaySet_roundtrip_witness :
  ∃ r', ReplaySet_Decode (mkReader [[x00]; [x07; xff]; [xff]] EOF true) NewReplaySet = (r', set2, Ok tt).
Proof.
  refine (proj2 (ReplaySet_roundtrip set2 [7; 65535]%N
    (mkReader [[x00]; [x07; xff]; [xff]] EOF true) _ _ eq_refl _)).
  - intros i. unfold set2; simpl. rewrite elem_of_union, !elem_of_singleton. lia.
  - unfold range_order. vm_compute. reflexivity || constructor.
  - vm_compute. reflexivity.
Defined.

(** Three puts, the second with the prefix of the first. *)
Definition puts3 : list (N * list byte * N) :=
  [(0%N, [x01], 10%N); (1%N, [x01], 11%N); (2%N, [x02], 12%N)].
Definition batch3 : Batch := Batch_Puts puts3 (NewBatch tx_id).

Lemma Batch_Puts_spec_witness :
  Contains (batch_ReplaySet batch3) 1 = true ∧ batch_entries batch3 !! 1%N = None.
Proof.
  assert (NoDup (put_seq <$> puts3)) as Hnd by (apply (bool_decide_unpack _); vm_compute; exact I).
  destruct (Batch_Puts_spec tx_id puts3 Hnd) as [_ Hs].
  destruct (Hs 1 1%N [x01] 11%N eq_refl) as [Hc He]. split.
  - apply Hc. vm_compute. left.
  - exact He.
Defined.

Lemma batch3_wf : wf_Batch batch3.
Proof. apply Batch_Puts_wf, NewBatch_wf. Qed.

Lemma MemoryReplayLog_refines_witness :
  let '(rl, outs) := run log_op [OStart; OPut [x02] 5; OPutBatch batch3; OGet [x02]]
                       MemoryReplayLog.NewMemoryReplayLog in
  (memory_state rl, outs) = run spec_op [OStart; OPut [x02] 5; OPutBatch batch3; OGet [x02]] None.
Proof.
  apply (MemoryReplayLog_refines [OStart; OPut [x02] 5; OPutBatch batch3; OGet [x02]]).
  repeat constructor; apply batch3_wf.
Defined.

Definition log0 : MemoryReplayLog.t := MemoryReplayLog.mk (Some ∅) (Some ∅).

Lemma PutBatch_order_independent_witness :
  MemoryReplayLog.PutBatch (map_to_list (batch_entries batch3)) batch3 log0 =
  MemoryReplayLog.PutBatch (rev (map_to_list (batch_entries batch3))) batch3 log0.
Proof.
  apply (PutBatch_order_independent _ _ batch3 log0 batch3_wf).
  - unfold entries_order. reflexivity.
  - unfold entries_order. symmetry. apply Permutation_rev.
Defined.

Lemma PutBatch_idempotent_witness :
  ∃ rl1 rs, MemoryReplayLog.PutBatch [] (NewBatch tx_id) rl1 = (rl1, committed rs (NewBatch tx_id), Ok rs).
Proof.
  pose proof (PutBatch_memory (map_to_list (batch_entries batch3)) batch3 ∅ ∅ batch3_wf
    (Permutation_refl _)) as Hp.
  rewrite lookup_empty in Hp. cbv zeta in Hp. do 2 eexists.
  exact (proj1 (PutBatch_idempotent _ [] batch3 (NewBatch tx_id) log0 _ _ _ batch3_wf
    (Permutation_refl _) eq_refl Hp)).
Defined.

Lemma log_entry_lifecycle_witness :
  ∃ rl1, MemoryReplayLog.Put [x01] 10 log0 = (rl1, Ok tt) ∧
    MemoryReplayLog.Put [x01] 11 rl1 = (rl1, Err ErrReplayedPacket).
Proof.
  eexists. split; [reflexivity|].
  eapply (log_entry_lifecycle log0 _ [x01] [x02] 10 11 eq_refl). done.
Defined.

(** ** Errors *)

Definition router_with (d : N) : Router (list byte) MemoryReplayLog.t :=
  mkRouter (zeros AddressSize) None (key d) MemoryReplayLog.NewMemoryReplayLog.
Definition routers : list (Router (list byte) MemoryReplayLog.t) :=
  [router_with 5; router_with 7; router_with 11].
Definition failure : list byte := replicate 260 x07.

Lemma routers_wf : Forall wf_priv (onionKey <$> routers).
Proof. exact nodes_wf. Qed.

Lemma routers_blinding : blinding_ok (priv_D session) (route_points routers).
Proof. exact nodes_blinding. Qed.

(** The encrypters of the three nodes. *)
Definition encrypters : list OnionErrorEncrypter :=
  Eval vm_compute in
    match hop_encrypters routers (priv_PubKey session) with Ok encs => encs | _ => [] end.

Lemma encrypters_ok : hop_encrypters routers (priv_PubKey session) = Ok encrypters.
Proof. vm_compute. reflexivity. Qed.

(** The second node fails; the first node's MAC is not on the blob it
    forwards. *)
Lemma error_round_trip_witness :
  ∃ blob, return_error (take 1 encrypters) (nth 1 encrypters (mkEncrypter [])) failure = Ok blob ∧
    DecryptError (NewOnionErrorDecrypter (circuit_of session routers)) blob =
    Ok (priv_PubKey (key 7), failure).
Proof.
  destruct (error_round_trip routers session 1 (router_with 7) failure routers_wf session_wf
    ltac:(unfold NumMaxHops; simpl; lia) routers_blinding eq_refl eq_refl)
    as (encs & enc & blob & He & Hj & Hr & _ & Hd).
  rewrite encrypters_ok in He. injection He as <-.
  assert (enc = nth 1 encrypters (mkEncrypter [])) as -> by (apply (inj Some); rewrite <-Hj; reflexivity).
  exists blob. split; [exact Hr|]. apply Hd.
  apply (bool_decide_unpack _). vm_compute. exact I.
Defined.

Lemma DecryptError_complete_witness :
  DecryptError (NewOnionErrorDecrypter (circuit_of session routers)) [x01; x02] =
  Err (errInvalidErrorLength 292 2).
Proof.
  destruct (DecryptError_complete routers session [x01; x02] routers_wf session_wf ltac:(done)
    ltac:(unfold NumMaxHops; simpl; lia)) as (secrets & _ & Hd).
  rewrite Hd. reflexivity.
Defined.

(** The exit node of the three-hop route crashes the sender. *)
Lemma DecryptError_exit_node_panic_witness :
  ∃ blob, DecryptError (NewOnionErrorDecrypter (circuit_of session routers)) blob = Panic.
Proof.
  destruct (DecryptError_exit_node_panic [router_with 5; router_with 7] (router_with 11) session
    failure routers_wf session_wf ltac:(unfold NumMaxHops; simpl; lia) routers_blinding eq_refl)
    as (encs & enc & dummy & crafted & blob & He & Hdummy & _ & _ & Hd).
  exists blob. apply Hd.
  change (([router_with 5; router_with 7] ++ [router_with 11])) with routers in He.
  rewrite encrypters_ok in He. injection He as He. rewrite <-He.
  apply EncryptError_initial in Hdummy. rewrite Hdummy. clear Hdummy Hd. apply (bool_decide_unpack _). vm_compute. exact I.
Defined.

Definition points : list (N * N) := point_of <$> (priv_PubKey <$> nodes).

Lemma points_on_curve : Forall on_curve points.
Proof. repeat constructor. Qed.

Lemma Circuit_roundtrip_witness :
  ∃ bytes, Circuit_Encode (circuit_for session points) [] = (bytes, Ok tt) ∧ length bytes = 133 ∧
    Circuit_Decode (bytes_reader (bytes ++ [x01])) (mkCircuit None []) =
      (bytes_reader [x01], circuit_for session points, Ok tt).
Proof.
  destruct (Circuit_roundtrip session points (mkCircuit None []) [x01] session_wf points_on_curve)
    as (bytes & He & Hl & Hd).
  { simpl. lia. }
  exists bytes. split_and!; [exact He|exact Hl|exact Hd].
Defined.

Lemma Circuit_Decode_short_read_witness :
  ∃ r r' c, Circuit_Decode r (mkCircuit None []) = (r', c, Ok tt) ∧
    (priv_D <$> SessionKey c) = Some 0%N.
Proof.
  destruct (Circuit_Decode_short_read 0 9 session (mkCircuit None []) eq_refl ltac:(lia) session_wf)
    as (bytes & r & r' & c & _ & _ & Hd & Hk & _).
  exists r, r', c. split; [exact Hd|exact Hk].
Defined.

Definition enc0 : OnionErrorEncrypter := mkEncrypter (replicate 32 x09).

Lemma OnionErrorEncrypter_codec_witness :
  ∃ r', OnionErrorEncrypter_Decode (bytes_reader (replicate 32 x09)) (mkEncrypter (zeros 32)) =
    (r', enc0, Ok tt).
Proof.
  destruct (OnionErrorEncrypter_codec enc0 (mkEncrypter (zeros 32)) (bytes_reader (replicate 32 x09))
    eq_refl eq_refl eq_refl) as (_ & Hd & _).
  destruct (Hd []) as (r' & Hr & _); [reflexivity|]. exists r'. exact Hr.
Defined.

(** ** The command line *)

Definition testnet : @Net btcutil_instance := tt.

Lemma generate_blinding :
  blinding_ok (priv_D sessionKey) ((point_of ∘ priv_PubKey) <$> nodes).
Proof. apply (bool_decide_unpack _). vm_compute. exact I. Qed.

Lemma generate_relayed_witness :
  ∃ bytes pkt pps,
    main testnet ([] :: string_bytes "generate" :: key_args node_points) [] =
      Ok (hex_encode bytes ++ [x0a]) ∧
    relay assocData nodes pkt = Ok pps ∧ length pps = 3.
Proof.
  destruct (generate_relayed testnet [] nodes [] nodes_wf) as
    (bytes & r' & pkt & pps & Hm & _ & _ & Hr & Hl & _).
  { unfold NumMaxHops. simpl. lia. }
  { vm_compute. done. }
  { exact generate_blinding. }
  exists bytes, pkt, pps. split_and!; [exact Hm|exact Hr|exact Hl].
Defined.

Lemma generate_bounds_witness :
  main testnet ([] :: string_bytes "generate" :: key_args (replicate 21 (point_of (priv_PubKey session)))) [] =
  Panic.
Proof.
  apply (generate_bounds testnet [] (replicate 21 (point_of (priv_PubKey session))) []).
  - apply Forall_replicate. vm_compute. repeat split.
  - right. unfold NumMaxHops. simpl. lia.
Defined.
